(** * Texas Hold'em engine: hand evaluator, pot ledger, players, deck

    A shallow embedding of the JavaScript sources
    - poker-engine.js   (cards, the engine's deck, [HandEvaluator]),
    - baralho-texas.js  (the stand-alone deck module),
    - pot.js            ([Pot], [PotManager], [distributePot]),
    - jogador.js        ([PokerPlayer]),
    - poker-manager.js  ([PokerGameManager]),
    and the properties of the written specification checked against them.

    Chip amounts and card values are JavaScript numbers that only ever hold
    integers here; they are modelled as [Z].  Objects mutated in place are
    modelled by explicit state passing: an operation returns its result
    together with the updated object.  Where one object is reached through
    several references and written through one of them (the cards of the
    stand-alone deck, the memoised results of the evaluator, the seated
    players), the objects are kept in a store and the references are indices
    or keys into it.  A thrown exception is a value of an error type returned
    next to the state reached when it was thrown. *)

From stdpp Require Import gmap strings list.
From Stdlib Require Import ZArith Lia.

Local Open Scope Z_scope.

(** ** Shared list helpers *)

(** [Array.prototype.sort] with comparator [(a, b) => key b - key a]: the
    sort is stable, so elements with equal keys keep their order. *)
Fixpoint insertDescBy {A} (key : A → Z) (x : A) (l : list A) : list A :=
  match l with
  | [] => [x]
  | y :: l' => if decide (key x < key y) then y :: insertDescBy key x l'
               else x :: y :: l'
  end.

Definition sortDescBy {A} (key : A → Z) (l : list A) : list A :=
  foldr (insertDescBy key) [] l.

Definition sumZ (l : list Z) : Z := foldr Z.add 0 l.

(** ** poker-engine.js: cards and the hand evaluator *)
Module Evaluator.

Inductive Suit := HEARTS | DIAMONDS | CLUBS | SPADES.
Inductive Rank := R2 | R3 | R4 | R5 | R6 | R7 | R8 | R9 | R10 | RJ | RQ | RK | RA.

#[global] Instance Suit_eq_dec : EqDecision Suit.
Proof. solve_decision. Defined.
#[global] Instance Rank_eq_dec : EqDecision Rank.
Proof. solve_decision. Defined.

(** The [RANKS] table. *)
Definition rankValue (r : Rank) : Z :=
  match r with
  | R2 => 2 | R3 => 3 | R4 => 4 | R5 => 5 | R6 => 6 | R7 => 7 | R8 => 8
  | R9 => 9 | R10 => 10 | RJ => 11 | RQ => 12 | RK => 13 | RA => 14
  end.

(** [PokerCard]: [symbol], [color], [display] and [code] are derived from
    the suit and the rank and are not stored. *)
Record PokerCard := mkCard { suit : Suit; rank : Rank }.

#[global] Instance PokerCard_eq_dec : EqDecision PokerCard.
Proof. solve_decision. Defined.

Definition value (c : PokerCard) : Z := rankValue (rank c).

(** The [POKER_HANDS] table. *)
Inductive HandType :=
  | ROYAL_FLUSH | STRAIGHT_FLUSH | FOUR_OF_A_KIND | FULL_HOUSE | FLUSH
  | STRAIGHT | THREE_OF_A_KIND | TWO_PAIR | ONE_PAIR | HIGH_CARD.

Definition handTypeValue (t : HandType) : Z :=
  match t with
  | ROYAL_FLUSH => 10 | STRAIGHT_FLUSH => 9 | FOUR_OF_A_KIND => 8
  | FULL_HOUSE => 7 | FLUSH => 6 | STRAIGHT => 5 | THREE_OF_A_KIND => 4
  | TWO_PAIR => 3 | ONE_PAIR => 2 | HIGH_CARD => 1
  end.

(** [cards.sort((a, b) => b.value - a.value)] *)
Definition sortDesc (cards : list PokerCard) : list PokerCard :=
  sortDescBy value cards.

(** [groupByValue]: an object keyed by card value.  [for (let value in
    groups)] visits integer keys in ascending order, so the groups are
    listed by ascending value; every card value lies in 2..14. *)
Definition cardValues : list Z := [2; 3; 4; 5; 6; 7; 8; 9; 10; 11; 12; 13; 14].

Definition groupByValue (cards : list PokerCard) : list (Z * list PokerCard) :=
  filter (λ g, g.2 ≠ [])
         (map (λ v, (v, filter (λ c, value c = v) cards)) cardValues).

(** The [suits] object built in [checkStraightFlush] and [checkFlush]:
    string keys are visited in insertion order, the order in which each suit
    first occurs among the cards. *)
Fixpoint suitsSeen (cards : list PokerCard) (seen : list Suit) : list Suit :=
  match cards with
  | [] => seen
  | c :: cards' =>
      if decide (suit c ∈ seen) then suitsSeen cards' seen
      else suitsSeen cards' (seen ++ [suit c])
  end.

Definition groupBySuit (cards : list PokerCard) : list (Suit * list PokerCard) :=
  map (λ s, (s, filter (λ c, suit c = s) cards)) (suitsSeen cards []).

(** [isConsecutive] *)
Fixpoint isConsecutive (values : list Z) : bool :=
  match values with
  | v :: (w :: _) as rest => if decide (v - 1 = w) then isConsecutive rest else false
  | _ => true
  end.

(** The de-duplication loop of [checkStraight]: the first card of every
    value, in the order of the (sorted) input. *)
Fixpoint uniqueByValue (cards : list PokerCard) (seen : list Z) : list PokerCard :=
  match cards with
  | [] => []
  | c :: cards' =>
      if decide (value c ∈ seen) then uniqueByValue cards' seen
      else c :: uniqueByValue cards' (value c :: seen)
  end.

(** The window loop [for (i = 0; i <= uniqueCards.length - 5; i++)]. *)
Fixpoint firstRun (uniqueCards : list PokerCard) : option (list PokerCard) :=
  match uniqueCards with
  | [] => None
  | _ :: rest =>
      if decide (5 ≤ length uniqueCards)%nat then
        let sequence := take 5 uniqueCards in
        if isConsecutive (map value sequence) then Some sequence
        else firstRun rest
      else None
  end.

Definition findValue (v : Z) (cards : list PokerCard) : option PokerCard :=
  head (filter (λ c, value c = v) cards).

Definition someValue (v : Z) (cards : list PokerCard) : bool :=
  bool_decide (Exists (λ c, value c = v) cards).

(** [checkStraight].  The call sorts its argument in place; callers that go
    on using the array see [sortDesc cards]. *)
Definition checkStraight (cards : list PokerCard) : option (list PokerCard) :=
  let uniqueCards := uniqueByValue (sortDesc cards) [] in
  match firstRun uniqueCards with
  | Some sequence => Some sequence
  | None =>
      if someValue 14 uniqueCards && someValue 2 uniqueCards
         && someValue 3 uniqueCards && someValue 4 uniqueCards
         && someValue 5 uniqueCards
      then
        let lowStraight :=
          [findValue 14 uniqueCards; findValue 5 uniqueCards;
           findValue 4 uniqueCards; findValue 3 uniqueCards;
           findValue 2 uniqueCards] in
        Some (omap id lowStraight)
      else None
  end.

(** [checkStraightFlush] *)
Fixpoint straightFlushIn (groups : list (Suit * list PokerCard)) : option (list PokerCard) :=
  match groups with
  | [] => None
  | g :: groups' =>
      if decide (5 ≤ length g.2)%nat then
        match checkStraight g.2 with
        | Some straight => Some (take 5 straight)
        | None => straightFlushIn groups'
        end
      else straightFlushIn groups'
  end.

Definition checkStraightFlush (cards : list PokerCard) : option (list PokerCard) :=
  straightFlushIn (groupBySuit cards).

(** [checkRoyalFlush]; the sorted copy [values] is only searched with
    [includes], so its order plays no role. *)
Definition checkRoyalFlush (cards : list PokerCard) : option (list PokerCard) :=
  match checkStraightFlush cards with
  | None => None
  | Some straightFlush =>
      let values := map value straightFlush in
      if bool_decide (14 ∈ values) && bool_decide (10 ∈ values)
         && bool_decide (13 ∈ values) && bool_decide (length straightFlush = 5%nat)
      then Some straightFlush
      else None
  end.

(** The other checks return arrays that may hold [undefined] where a kicker
    is missing ([remaining[0]] of an empty array): an array slot is an
    [option PokerCard], [None] standing for [undefined]. *)
Abbreviation Slot := (option PokerCard).

Definition others (v : Z) (cards : list PokerCard) : list PokerCard :=
  sortDesc (filter (λ c, value c ≠ v) cards).

(** [checkFourOfAKind] *)
Definition checkFourOfAKind (cards : list PokerCard) : option (list Slot) :=
  match head (filter (λ g, (4 ≤ length g.2)%nat) (groupByValue cards)) with
  | Some (v, group) =>
      let four := take 4 group in
      let remaining := others v cards in
      let kicker := head remaining in
      Some (take 5 (map Some four ++ [kicker]))
  | None => None
  end.

(** [checkFullHouse]: the two loops keep the candidate of highest value. *)
Definition bestGroup (n : nat) (excluded : option Z)
    (groups : list (Z * list PokerCard)) : option (Z * list PokerCard) :=
  foldl (λ best g,
           if decide ((n ≤ length g.2)%nat ∧ Some g.1 ≠ excluded) then
             match best with
             | None => Some (g.1, take n g.2)
             | Some b => if decide (g.1 > b.1) then Some (g.1, take n g.2) else best
             end
           else best)
        None groups.

Definition checkFullHouse (cards : list PokerCard) : option (list PokerCard) :=
  let groups := groupByValue cards in
  match bestGroup 3 None groups with
  | None => None
  | Some threeOfAKind =>
      match bestGroup 2 (Some threeOfAKind.1) groups with
      | None => None
      | Some bestPair => Some (threeOfAKind.2 ++ bestPair.2)
      end
  end.

(** [checkFlush] *)
Definition checkFlush (cards : list PokerCard) : option (list PokerCard) :=
  match head (filter (λ g, (5 ≤ length g.2)%nat) (groupBySuit cards)) with
  | Some g => Some (take 5 (sortDesc g.2))
  | None => None
  end.

(** [checkThreeOfAKind] *)
Definition checkThreeOfAKind (cards : list PokerCard) : option (list PokerCard) :=
  match head (filter (λ g, (3 ≤ length g.2)%nat) (groupByValue cards)) with
  | Some (v, group) => Some (take 3 group ++ take 2 (others v cards))
  | None => None
  end.

(** [checkTwoPair] *)
Definition checkTwoPair (cards : list PokerCard) : option (list Slot) :=
  let pairs :=
    map (λ g, (g.1, take 2 g.2))
        (filter (λ g, (2 ≤ length g.2)%nat) (groupByValue cards)) in
  if decide (2 ≤ length pairs)%nat then
    let bestPairs := take 2 (sortDescBy fst pairs) in
    let usedValues := map fst bestPairs in
    let kicker := head (sortDesc (filter (λ c, value c ∉ usedValues) cards)) in
    Some (take 5 (map Some (concat (map snd bestPairs)) ++ [kicker]))
  else None.

(** [checkOnePair] *)
Definition checkOnePair (cards : list PokerCard) : option (list PokerCard) :=
  match head (filter (λ g, (2 ≤ length g.2)%nat) (groupByValue cards)) with
  | Some (v, group) => Some (take 2 group ++ take 3 (others v cards))
  | None => None
  end.

(** [checkHighCard]; sorts its argument in place. *)
Definition checkHighCard (cards : list PokerCard) : list PokerCard :=
  take 5 (sortDesc cards).

(** [calculateHandValue] on an array without [undefined] slots.  Every check
    returns at most five cards (lemma [evaluate_at_most_five]), so the
    exponent [4 - i] is never negative. *)
Fixpoint kickerSum (i : Z) (sorted : list PokerCard) : Z :=
  match sorted with
  | [] => 0
  | c :: rest => value c * 14 ^ (4 - i) + kickerSum (i + 1) rest
  end.

Definition calculateHandValue (cards : list PokerCard) (handRank : Z) : Z :=
  handRank * 1000000 + kickerSum 0 (sortDesc cards).

(** The object built by [finalizeResult]; [description] is display text. *)
Record HandResult := mkHandResult {
  hr_cards : list PokerCard;   (* cards *)
  hr_hand : HandType;          (* hand  *)
  hr_rank : Z;                 (* rank  *)
  hr_value : Z                 (* value *)
}.

(** [finalizeResult].  The [cards] property is the copy [cards.slice(0, 5)]
    taken before [calculateHandValue] sorts the array.  Reading [.value] of
    an [undefined] slot throws a [TypeError]: the result is [None]. *)
Definition finalizeResult (slots : list Slot) (handType : HandType) : option HandResult :=
  match mapM id slots with
  | Some cs =>
      Some {| hr_cards := take 5 cs; hr_hand := handType;
              hr_rank := handTypeValue handType;
              hr_value := calculateHandValue cs (handTypeValue handType) |}
  | None => None
  end.

Definition finalizeCards (cs : list PokerCard) (handType : HandType) : option HandResult :=
  finalizeResult (map Some cs) handType.

(** [evaluate], as it computes a result that is not in the memo table
    [handCache]; the table, and the result object that it stores and hands
    out, are modelled in [HandEvaluator] below.
    [checkStraight(allCards)] leaves [allCards] sorted for the checks that
    follow it. *)
Definition evaluate (hand community : list PokerCard) : option HandResult :=
  let allCards := hand ++ community in
  match checkRoyalFlush allCards with
  | Some r => finalizeCards r ROYAL_FLUSH
  | None =>
  match checkStraightFlush allCards with
  | Some r => finalizeCards r STRAIGHT_FLUSH
  | None =>
  match checkFourOfAKind allCards with
  | Some r => finalizeResult r FOUR_OF_A_KIND
  | None =>
  match checkFullHouse allCards with
  | Some r => finalizeCards r FULL_HOUSE
  | None =>
  match checkFlush allCards with
  | Some r => finalizeCards r FLUSH
  | None =>
  match checkStraight allCards with
  | Some r => finalizeCards r STRAIGHT
  | None =>
  let allCards := sortDesc allCards in
  match checkThreeOfAKind allCards with
  | Some r => finalizeCards r THREE_OF_A_KIND
  | None =>
  match checkTwoPair allCards with
  | Some r => finalizeResult r TWO_PAIR
  | None =>
  match checkOnePair allCards with
  | Some r => finalizeCards r ONE_PAIR
  | None => finalizeCards (checkHighCard allCards) HIGH_CARD
  end end end end end end end end end.

(** [compareHands], the answer; the detailed tie-break walks both card
    arrays, sorted by descending value, up to the shorter length.  That sort
    is done in place on the arrays of the two arguments: see
    [HandEvaluator.compareHands] below. *)
Fixpoint compareCards (cards1 cards2 : list PokerCard) : Z :=
  match cards1, cards2 with
  | c1 :: r1, c2 :: r2 =>
      if decide (value c1 ≠ value c2) then (if decide (value c1 > value c2) then 1 else -1)
      else compareCards r1 r2
  | _, _ => 0
  end.

Definition compareHands (hand1 hand2 : HandResult) : Z :=
  if decide (hr_rank hand1 ≠ hr_rank hand2) then
    (if decide (hr_rank hand1 > hr_rank hand2) then 1 else -1)
  else if decide (hr_value hand1 ≠ hr_value hand2) then
    (if decide (hr_value hand1 > hr_value hand2) then 1 else -1)
  else compareCards (sortDesc (hr_cards hand1)) (sortDesc (hr_cards hand2)).

(** Adjacent cards in descending order of value. *)
Fixpoint descending (cs : list PokerCard) : Prop :=
  match cs with
  | c1 :: (c2 :: _) as rest => value c2 ≤ value c1 ∧ descending rest
  | _ => True
  end.

(** What [finalizeResult] builds from at most five cards. *)
Definition Finalized (h : HandResult) : Prop :=
  ∃ cs t, (length cs ≤ 5)%nat ∧
          h = {| hr_cards := take 5 cs; hr_hand := t; hr_rank := handTypeValue t;
                 hr_value := calculateHandValue cs (handTypeValue t) |}.

End Evaluator.

(** ** baralho-texas.js: the stand-alone deck *)
Module Baralho.
Import Evaluator.

(** The module's [PokerCard] object.  [faceUp] is the one field that is
    written after construction; [value], [symbol], [color], [display] and
    [id] are derived from suit and rank. *)
Record PokerCard := mkCard { suit : Suit; rank : Rank; faceUp : bool }.

(** [PokerDeck].  Its three arrays hold references to card objects, not
    copies: [objects] lists the card objects created so far and a reference
    is an index into that list.  One object can sit in several arrays, or
    twice in one, and a write to its [faceUp] shows through all of them. *)
Record PokerDeck := mkDeck {
  objects : list PokerCard;
  cards : list nat;
  burnedCards : list nat;
  usedCards : list nat
}.

(** The card objects that an array of references holds, as they are now. *)
Definition cardObjects (d : PokerDeck) (refs : list nat) : list PokerCard :=
  omap (λ ref, objects d !! ref) refs.

(** Every reference in the arrays is a card object. *)
Definition Valid (d : PokerDeck) : Prop :=
  Forall (λ ref, ref < length (objects d))%nat
         (cards d ++ usedCards d ++ burnedCards d).

#[global] Instance Valid_dec d : Decision (Valid d).
Proof. unfold Valid. apply _. Defined.

Definition allSuits : list Suit := [HEARTS; DIAMONDS; CLUBS; SPADES].
Definition allRanks : list Rank := [R2; R3; R4; R5; R6; R7; R8; R9; R10; RJ; RQ; RK; RA].

(** The [new PokerCard(suit, rank)] of the two loops of [reset]. *)
Definition newCards : list PokerCard :=
  s ← allSuits; r ← allRanks; [mkCard s r false].

(** [reset]: the arrays are emptied and [cards] is filled with 52 new
    objects; the objects made before stay what they are. *)
Definition reset (d : PokerDeck) : PokerDeck :=
  {| objects := objects d ++ newCards;
     cards := seq (length (objects d)) (length newCards);
     burnedCards := []; usedCards := [] |}.

(** [new PokerDeck()] *)
Definition newPokerDeck : PokerDeck :=
  reset {| objects := []; cards := []; burnedCards := []; usedCards := [] |}.

(** [[a[i], a[j]] = [a[j], a[i]]] *)
Definition swap {A} (i j : nat) (l : list A) : list A :=
  match l !! i, l !! j with
  | Some x, Some y => <[i := y]> (<[j := x]> l)
  | _, _ => l
  end.

(** [shuffle] (Fisher-Yates).  [Math.floor(Math.random() * currentIndex)] is
    some index below [currentIndex]; the draws are supplied by [draw], read
    modulo [currentIndex]. *)
Fixpoint shuffleFrom {A} (draw : nat → nat) (currentIndex : nat) (l : list A) : list A :=
  match currentIndex with
  | O => l
  | S k => let randomIndex := (draw (S k) mod S k)%nat in
           shuffleFrom draw k (swap k randomIndex l)
  end.

Definition shuffle (draw : nat → nat) (d : PokerDeck) : PokerDeck :=
  {| objects := objects d;
     cards := shuffleFrom draw (length (cards d)) (cards d);
     burnedCards := burnedCards d; usedCards := usedCards d |}.

(** [restoreUsedCards] *)
Definition restoreUsedCards (draw : nat → nat) (d : PokerDeck) : PokerDeck :=
  shuffle draw {| objects := objects d;
                  cards := cards d ++ usedCards d ++ burnedCards d;
                  usedCards := []; burnedCards := [] |}.

(** [dealtCards.forEach(card => { card.faceUp = faceUp; })]: the write goes
    to the object, whichever arrays hold it. *)
Definition setFaceUp (up : bool) (c : PokerCard) : PokerCard :=
  mkCard (suit c) (rank c) up.

Definition turnCards (up : bool) (refs : list nat) (objs : list PokerCard)
    : list PokerCard :=
  foldl (λ objs ref, alter (setFaceUp up) ref objs) objs refs.

(** [deal(count, faceUp)]: the dealt cards and the deck afterwards. *)
Definition deal (draw : nat → nat) (count : nat) (up : bool) (d : PokerDeck)
    : list nat * PokerDeck :=
  let d := if decide (length (cards d) < count)%nat then restoreUsedCards draw d else d in
  let dealtCards := take count (cards d) in
  (dealtCards,
   {| objects := turnCards up dealtCards (objects d);
      cards := drop count (cards d); burnedCards := burnedCards d;
      usedCards := usedCards d ++ dealtCards |}).

(** [burnCard] *)
Definition burnCard (draw : nat → nat) (d : PokerDeck) : option nat * PokerDeck :=
  if decide (length (cards d) = 0)%nat then (None, d)
  else
    let '(dealt, d') := deal draw 1 false d in
    match dealt with
    | burnedCard :: _ =>
        (Some burnedCard,
         {| objects := objects d';
            cards := cards d'; burnedCards := burnedCards d' ++ [burnedCard];
            usedCards := usedCards d' |})
    | [] => (None, d')
    end.

End Baralho.

(** ** poker-engine.js: the engine's deck *)
Module EngineDeck.
Import Evaluator.

Record PokerDeck := mkDeck {
  cards : list PokerCard;
  burnedCards : list PokerCard;
  usedCards : list PokerCard
}.

(** [throw new Error(`Baralho tem apenas ${this.cards.length} cartas, tentou
    distribuir ${count}`)] *)
Inductive DeckError := NotEnoughCards (available requested : nat).

(** [deal(count)] *)
Definition deal (count : nat) (d : PokerDeck) : DeckError + (list PokerCard * PokerDeck) :=
  if decide (length (cards d) < count)%nat then inl (NotEnoughCards (length (cards d)) count)
  else
    let dealtCards := take count (cards d) in
    inr (dealtCards,
         {| cards := drop count (cards d); burnedCards := burnedCards d;
            usedCards := usedCards d ++ dealtCards |}).

End EngineDeck.

(** ** pot.js: pots and the pot manager *)
Module Ledger.
Import Evaluator.

(** The betting rounds that key [contributionsByRound]. *)
Inductive Round := preflop | flop | turn | river.

Record RoundTotals := mkRoundTotals {
  in_preflop : Z; in_flop : Z; in_turn : Z; in_river : Z
}.

Definition addToRound (t : RoundTotals) (round : Round) (x : Z) : RoundTotals :=
  match round with
  | preflop => mkRoundTotals (in_preflop t + x) (in_flop t) (in_turn t) (in_river t)
  | flop => mkRoundTotals (in_preflop t) (in_flop t + x) (in_turn t) (in_river t)
  | turn => mkRoundTotals (in_preflop t) (in_flop t) (in_turn t + x) (in_river t)
  | river => mkRoundTotals (in_preflop t) (in_flop t) (in_turn t) (in_river t + x)
  end.

(** [PlayerContribution]; its [amount] is [pc_amount] here, the pot has an
    [amount] of its own. *)
Record PlayerContribution := mkContribution {
  pc_playerId : string;
  pc_amount : Z;
  pc_isEligible : bool;
  pc_hasWon : bool;
  pc_wonAmount : Z;
  pc_contributionsByRound : RoundTotals
}.

Definition newContribution (playerId : string) : PlayerContribution :=
  {| pc_playerId := playerId; pc_amount := 0; pc_isEligible := true;
     pc_hasWon := false; pc_wonAmount := 0;
     pc_contributionsByRound := mkRoundTotals 0 0 0 0 |}.

(** [PlayerContribution.addContribution] *)
Definition addContribution (c : PlayerContribution) (x : Z) (round : Round)
    : PlayerContribution :=
  {| pc_playerId := pc_playerId c; pc_amount := pc_amount c + x;
     pc_isEligible := pc_isEligible c; pc_hasWon := pc_hasWon c;
     pc_wonAmount := pc_wonAmount c;
     pc_contributionsByRound := addToRound (pc_contributionsByRound c) round x |}.

(** Pot identifiers ['main'] and [`side-${n}`]. *)
Inductive PotId := MainId | SideId (n : nat).

(** [Pot]; [createdAt] is a wall-clock stamp and is not modelled.  The [Map]
    of contributions and the [Set] of eligible players are only ever looked
    up, updated or folded with order-insensitive functions. *)
Record Pot := mkPot {
  id : PotId;
  level : nat;
  amount : Z;
  playerContributions : gmap string PlayerContribution;
  eligiblePlayers : gset string;
  winners : list string;
  isDistributed : bool;
  isLocked : bool
}.

Definition newPot (i : PotId) (lvl : nat) : Pot :=
  {| id := i; level := lvl; amount := 0; playerContributions := ∅;
     eligiblePlayers := ∅; winners := []; isDistributed := false; isLocked := false |}.

(** [Pot.addPlayerContribution]: the contribution's new amount (0 when the
    pot is locked) and the pot afterwards. *)
Definition addPlayerContribution (pot : Pot) (playerId : string) (x : Z) (round : Round)
    : Z * Pot :=
  if isLocked pot then (0, pot)
  else
    let contribution :=
      default (newContribution playerId) (playerContributions pot !! playerId) in
    let contribution' := addContribution contribution x round in
    (pc_amount contribution',
     {| id := id pot; level := level pot; amount := amount pot + x;
        playerContributions := <[playerId := contribution']> (playerContributions pot);
        eligiblePlayers :=
          if decide (x > 0) then {[playerId]} ∪ eligiblePlayers pot
          else eligiblePlayers pot;
        winners := winners pot; isDistributed := isDistributed pot;
        isLocked := isLocked pot |}).

(** [Pot.removeEligiblePlayer] *)
Definition removeEligiblePlayer (pot : Pot) (playerId : string) : Pot :=
  {| id := id pot; level := level pot; amount := amount pot;
     playerContributions :=
       alter (λ c, {| pc_playerId := pc_playerId c; pc_amount := pc_amount c;
                      pc_isEligible := false; pc_hasWon := pc_hasWon c;
                      pc_wonAmount := pc_wonAmount c;
                      pc_contributionsByRound := pc_contributionsByRound c |})
             playerId (playerContributions pot);
     eligiblePlayers := eligiblePlayers pot ∖ {[playerId]};
     winners := winners pot; isDistributed := isDistributed pot;
     isLocked := isLocked pot |}.

(** [Pot.isPlayerEligible] *)
Definition isPlayerEligible (pot : Pot) (playerId : string) : bool :=
  bool_decide (playerId ∈ eligiblePlayers pot).

(** [Pot.getPlayerContribution] *)
Definition getPlayerContribution (pot : Pot) (playerId : string) : Z :=
  match playerContributions pot !! playerId with
  | Some contribution => pc_amount contribution
  | None => 0
  end.

(** One entry of a pot's distribution.  [percentage] is a floating-point
    display value and is left out; [handStrength] is absent for a sole
    winner and [handEvaluations[playerId] || null] otherwise. *)
Record Share := mkShare {
  sh_playerId : string;
  sh_amount : Z;
  sh_isSoleWinner : bool;
  sh_handStrength : option HandResult
}.

(** The [forEach] of the split branch: [index] counts the winners. *)
Fixpoint splitShares (handEvaluations : gmap string HandResult)
    (baseAmount remainder : Z) (index : Z) (winnerPlayers : list string) : list Share :=
  match winnerPlayers with
  | [] => []
  | playerId :: rest =>
      {| sh_playerId := playerId;
         sh_amount := baseAmount + (if decide (index < remainder) then 1 else 0);
         sh_isSoleWinner := false;
         sh_handStrength := handEvaluations !! playerId |}
      :: splitShares handEvaluations baseAmount remainder (index + 1) rest
  end.

(** [Pot.calculateDistribution]; [Math.floor(a / b)] and [a % b] on the
    non-negative amount of a pot. *)
Definition calculateDistribution (pot : Pot) (winnerPlayers : list string)
    (handEvaluations : gmap string HandResult) : list Share :=
  let potAmount := amount pot in
  match winnerPlayers with
  | [winner] =>
      [{| sh_playerId := winner; sh_amount := potAmount; sh_isSoleWinner := true;
          sh_handStrength := None |}]
  | _ =>
      let winnersCount := Z.of_nat (length winnerPlayers) in
      let baseAmount := potAmount / winnersCount in
      let remainder := potAmount mod winnersCount in
      splitShares handEvaluations baseAmount remainder 0 winnerPlayers
  end.

(** The loop of [distributeToWinners] that records what each winner won. *)
Definition markWon (contributions : gmap string PlayerContribution) (sh : Share)
    : gmap string PlayerContribution :=
  alter (λ c, {| pc_playerId := pc_playerId c; pc_amount := pc_amount c;
                 pc_isEligible := pc_isEligible c; pc_hasWon := true;
                 pc_wonAmount := sh_amount sh;
                 pc_contributionsByRound := pc_contributionsByRound c |})
        (sh_playerId sh) contributions.

(** [Pot.distributeToWinners]: the distribution and the pot afterwards. *)
Definition distributeToWinners (pot : Pot) (winnerPlayers : list string)
    (handEvaluations : gmap string HandResult) : list Share * Pot :=
  if isDistributed pot then ([], pot)
  else if decide (amount pot ≤ 0) then ([], pot)
  else if decide (length winnerPlayers = 0%nat) then ([], pot)
  else
    let distribution := calculateDistribution pot winnerPlayers handEvaluations in
    (distribution,
     {| id := id pot; level := level pot; amount := amount pot;
        playerContributions := foldl markWon (playerContributions pot) distribution;
        eligiblePlayers := eligiblePlayers pot;
        winners := winnerPlayers; isDistributed := true; isLocked := true |}).

(** What [distributeAllPots] reports for one pot. *)
Record PotPayout := mkPotPayout {
  pp_potId : PotId;
  pp_amount : Z;
  pp_distribution : list Share;
  pp_eligibleWinners : list string
}.

(** The object returned by [distributeAllPots]; [timestamp] is the clock
    reading taken by the call. *)
Record Distribution := mkDistribution {
  timestamp : Z;
  pots : list PotPayout;
  totalDistributed : Z;
  dist_winners : gmap string Z       (* winners *)
}.

(** An entry of [history]: the distribution spread into the entry, plus the
    ledger totals at that moment. *)
Record HistoryEntry := mkHistoryEntry {
  he_distribution : Distribution;
  he_potsCount : nat;
  he_totalAmount : Z;
  he_mainPotAmount : Z;
  he_sidePotsAmount : Z
}.

(** [PotManager] *)
Record PotManager := mkPotManager {
  mainPot : Pot;
  sidePots : list Pot;
  totalAmount : Z;
  history : list HistoryEntry;
  currentRound : Round;
  isShowdown : bool;
  lastDistribution : option Distribution
}.

(** [new PotManager()] *)
Definition newPotManager : PotManager :=
  {| mainPot := newPot MainId 0; sidePots := []; totalAmount := 0; history := [];
     currentRound := preflop; isShowdown := false; lastDistribution := None |}.

(** [getAllPots] *)
Definition getAllPots (pm : PotManager) : list Pot := mainPot pm :: sidePots pm.

(** The all-in ceiling passed to [addBet]; its default is [Infinity]. *)
Inductive Ceiling := Finite (z : Z) | Infinity.

(** [getPotSpaceForPlayer] *)
Definition maxContribution (pot : Pot) : Z :=
  map_fold (λ _ contrib acc, if decide (pc_amount contrib > acc) then pc_amount contrib else acc)
           0 (playerContributions pot).

Definition getPotSpaceForPlayer (playerId : string) (pot : Pot) (playerAllInAmount : Ceiling)
    : Z :=
  if (match playerAllInAmount with Finite z => bool_decide (z ≤ 0) | Infinity => false end)
  then 0
  else
    let currentContribution := getPlayerContribution pot playerId in
    let spaceInPot := maxContribution pot - currentContribution in
    match playerAllInAmount with
    | Finite z => Z.min spaceInPot (z - currentContribution)
    | Infinity => spaceInPot
    end.

(** [createNewSidePot]: the new pot is returned, not yet stored. *)
Definition createNewSidePot (pm : PotManager) : Pot :=
  let sidePotNumber := S (length (sidePots pm)) in
  let previousPot :=
    if decide (sidePotNumber = 1%nat) then mainPot pm
    else default (mainPot pm) (sidePots pm !! (sidePotNumber - 2)%nat) in
  let contributors :=
    dom (filter (λ kv, pc_amount kv.2 > 0) (playerContributions previousPot)) in
  {| id := SideId sidePotNumber; level := sidePotNumber; amount := 0;
     playerContributions := ∅; eligiblePlayers := contributors; winners := [];
     isDistributed := false; isLocked := false |}.

(** [updateTotalAmount] *)
Definition sumAmounts (ps : list Pot) : Z := sumZ (map amount ps).

Definition updateTotalAmount (pm : PotManager) : PotManager :=
  {| mainPot := mainPot pm; sidePots := sidePots pm;
     totalAmount := amount (mainPot pm) + sumAmounts (sidePots pm);
     history := history pm; currentRound := currentRound pm;
     isShowdown := isShowdown pm; lastDistribution := lastDistribution pm |}.

Definition withPots (pm : PotManager) (main : Pot) (sides : list Pot) : PotManager :=
  {| mainPot := main; sidePots := sides; totalAmount := totalAmount pm;
     history := history pm; currentRound := currentRound pm;
     isShowdown := isShowdown pm; lastDistribution := lastDistribution pm |}.

(** An entry of [potsAffected]. *)
Record Affected := mkAffected { af_potId : PotId; af_amount : Z }.

(** The object returned by [addBet]; the early return has no [totalAmount]. *)
Record BetResult := mkBetResult {
  added : Z;
  br_pots : list Affected;
  br_totalAmount : option Z
}.

(** The [for (const sidePot of this.sidePots)] loop of [addBet]. *)
Fixpoint addBetToSidePots (round : Round) (playerId : string) (playerAllInAmount : Ceiling)
    (sides : list Pot) (remainingAmount : Z) (potsAffected : list Affected)
    : list Pot * Z * list Affected :=
  match sides with
  | [] => ([], remainingAmount, potsAffected)
  | sidePot :: rest =>
      if decide (remainingAmount ≤ 0) then (sides, remainingAmount, potsAffected)
      else
        let potSpace := getPotSpaceForPlayer playerId sidePot playerAllInAmount in
        let amountToSide := Z.min remainingAmount potSpace in
        if decide (amountToSide > 0) then
          let sidePot' := (addPlayerContribution sidePot playerId amountToSide round).2 in
          let '(rest', remaining', affected') :=
            addBetToSidePots round playerId playerAllInAmount rest
              (remainingAmount - amountToSide)
              (potsAffected ++ [mkAffected (id sidePot) amountToSide]) in
          (sidePot' :: rest', remaining', affected')
        else
          let '(rest', remaining', affected') :=
            addBetToSidePots round playerId playerAllInAmount rest
              remainingAmount potsAffected in
          (sidePot :: rest', remaining', affected')
  end.

(** The [while (remainingAmount > 0)] loop of [addBet].  The loop has no
    bound in the source; [fuel] counts the iterations allowed, and [None]
    means that they did not suffice. *)
Fixpoint addBetToNewPots (fuel : nat) (playerId : string) (playerAllInAmount : Ceiling)
    (pm : PotManager) (remainingAmount : Z) (potsAffected : list Affected)
    : option (PotManager * Z * list Affected) :=
  if decide (remainingAmount > 0) then
    match fuel with
    | O => None
    | S fuel' =>
        let newSidePot := createNewSidePot pm in
        let potSpace := getPotSpaceForPlayer playerId newSidePot playerAllInAmount in
        let amountToNewPot := Z.min remainingAmount potSpace in
        if decide (amountToNewPot > 0) then
          let newSidePot' :=
            (addPlayerContribution newSidePot playerId amountToNewPot (currentRound pm)).2 in
          addBetToNewPots fuel' playerId playerAllInAmount
            (withPots pm (mainPot pm) (sidePots pm ++ [newSidePot']))
            (remainingAmount - amountToNewPot)
            (potsAffected ++ [mkAffected (id newSidePot) amountToNewPot])
        else
          addBetToNewPots fuel' playerId playerAllInAmount pm remainingAmount potsAffected
    end
  else Some (pm, remainingAmount, potsAffected).

(** [addBet] *)
Definition addBet (fuel : nat) (pm : PotManager) (playerId : string) (x : Z)
    (playerAllInAmount : Ceiling) : option (BetResult * PotManager) :=
  if decide (x ≤ 0) then Some (mkBetResult 0 [] None, pm)
  else
    let remainingAmount := x in
    let mainPotSpace := getPotSpaceForPlayer playerId (mainPot pm) playerAllInAmount in
    let amountToMain := Z.min remainingAmount mainPotSpace in
    let '(main', remainingAmount, potsAffected) :=
      if decide (amountToMain > 0) then
        ((addPlayerContribution (mainPot pm) playerId amountToMain (currentRound pm)).2,
         remainingAmount - amountToMain, [mkAffected MainId amountToMain])
      else (mainPot pm, remainingAmount, []) in
    let '(sides', remainingAmount, potsAffected) :=
      addBetToSidePots (currentRound pm) playerId playerAllInAmount (sidePots pm)
        remainingAmount potsAffected in
    match addBetToNewPots fuel playerId playerAllInAmount (withPots pm main' sides')
            remainingAmount potsAffected with
    | None => None
    | Some (pm', remainingAmount, potsAffected) =>
        let pm'' := updateTotalAmount pm' in
        Some (mkBetResult (x - remainingAmount) potsAffected (Some (totalAmount pm'')), pm'')
    end.

(** [playerFolds] *)
Definition playerFolds (pm : PotManager) (playerId : string) : PotManager :=
  withPots pm (removeEligiblePlayer (mainPot pm) playerId)
           (map (λ pot, removeEligiblePlayer pot playerId) (sidePots pm)).

(** [handleExcessContribution]: a side pot is created, and dropped. *)
Definition handleExcessContribution (pm : PotManager) (pot : Pot) (playerId : string)
    (excessAmount : Z) : PotManager :=
  if decide (excessAmount ≤ 0) then pm
  else let newSidePot := createNewSidePot pm in pm.

(** [recalculateForAllIn] *)
Fixpoint recalculateSidePots (pm : PotManager) (playerId : string) (allInAmount : Z)
    (sides : list Pot) (totalContributed : Z) : PotManager :=
  match sides with
  | [] => pm
  | sidePot :: rest =>
      let contribution := getPlayerContribution sidePot playerId in
      let pm' :=
        if decide (totalContributed + contribution > allInAmount) then
          handleExcessContribution pm sidePot playerId
            ((totalContributed + contribution) - allInAmount)
        else pm in
      recalculateSidePots pm' playerId allInAmount rest (totalContributed + contribution)
  end.

Definition recalculateForAllIn (pm : PotManager) (playerId : string) (allInAmount : Z)
    : PotManager :=
  let mainContribution := getPlayerContribution (mainPot pm) playerId in
  updateTotalAmount
    (recalculateSidePots pm playerId allInAmount (sidePots pm) (0 + mainContribution)).

(** [playerAllIn] *)
Definition playerAllIn (pm : PotManager) (playerId : string) (allInAmount : Z)
    : PotManager :=
  recalculateForAllIn pm playerId allInAmount.

(** [saveToHistory] *)
Definition saveToHistory (pm : PotManager) (distribution : Distribution) : PotManager :=
  let entry :=
    {| he_distribution := distribution;
       he_potsCount := S (length (sidePots pm));
       he_totalAmount := totalAmount pm;
       he_mainPotAmount := amount (mainPot pm);
       he_sidePotsAmount := sumAmounts (sidePots pm) |} in
  let history' := history pm ++ [entry] in
  {| mainPot := mainPot pm; sidePots := sidePots pm; totalAmount := totalAmount pm;
     history := if decide (100 < length history')%nat then drop 1 history' else history';
     currentRound := currentRound pm; isShowdown := isShowdown pm;
     lastDistribution := lastDistribution pm |}.

(** The [potDistribution.forEach] of [distributeAllPots]. *)
Definition creditShare (distribution : Distribution) (sh : Share) : Distribution :=
  {| timestamp := timestamp distribution; pots := pots distribution;
     totalDistributed := totalDistributed distribution + sh_amount sh;
     dist_winners :=
       <[sh_playerId sh := default 0 (dist_winners distribution !! sh_playerId sh)
                           + sh_amount sh]> (dist_winners distribution) |}.

(** The [for (const pot of allPots)] loop of [distributeAllPots]: the pots
    afterwards and the distribution built so far. *)
Fixpoint distributePots (winningPlayersByStrength : list string)
    (handEvaluations : gmap string HandResult) (allPots : list Pot)
    (distribution : Distribution) : list Pot * Distribution :=
  match allPots with
  | [] => ([], distribution)
  | pot :: rest =>
      if decide (amount pot ≤ 0) then
        let '(rest', d') :=
          distributePots winningPlayersByStrength handEvaluations rest distribution in
        (pot :: rest', d')
      else
        let eligibleWinners :=
          filter (λ playerId, isPlayerEligible pot playerId = true)
                 winningPlayersByStrength in
        if decide (length eligibleWinners = 0%nat) then
          let '(rest', d') :=
            distributePots winningPlayersByStrength handEvaluations rest distribution in
          (pot :: rest', d')
        else
          let '(potDistribution, pot') :=
            distributeToWinners pot eligibleWinners handEvaluations in
          let d1 := foldl creditShare distribution potDistribution in
          let d2 :=
            {| timestamp := timestamp d1;
               pots := pots d1 ++ [mkPotPayout (id pot') (amount pot')
                                     potDistribution eligibleWinners];
               totalDistributed := totalDistributed d1;
               dist_winners := dist_winners d1 |} in
          let '(rest', d') :=
            distributePots winningPlayersByStrength handEvaluations rest d2 in
          (pot' :: rest', d')
  end.

(** [distributeAllPots]; [now] is the clock reading of the call.  After a
    showdown the stored [lastDistribution] is returned ([None] is [null]). *)
Definition distributeAllPots (now : Z) (pm : PotManager)
    (winningPlayersByStrength : list string) (handEvaluations : gmap string HandResult)
    : option Distribution * PotManager :=
  if isShowdown pm then (lastDistribution pm, pm)
  else
    let start :=
      {| timestamp := now; pots := []; totalDistributed := 0; dist_winners := ∅ |} in
    let '(allPots', distribution) :=
      distributePots winningPlayersByStrength handEvaluations (getAllPots pm) start in
    let pm' :=
      {| mainPot := default (mainPot pm) (head allPots'); sidePots := drop 1 allPots';
         totalAmount := totalAmount pm; history := history pm;
         currentRound := currentRound pm; isShowdown := true;
         lastDistribution := Some distribution |} in
    (Some distribution, saveToHistory pm' distribution).

(** [Pot.reset] and [resetForNewHand] *)
Definition resetPot (pot : Pot) : Pot :=
  {| id := id pot; level := level pot; amount := 0; playerContributions := ∅;
     eligiblePlayers := ∅; winners := []; isDistributed := false; isLocked := false |}.

Definition resetForNewHand (pm : PotManager) : PotManager :=
  {| mainPot := resetPot (mainPot pm); sidePots := []; totalAmount := 0;
     history := history pm; currentRound := preflop; isShowdown := false;
     lastDistribution := None |}.

(** The stand-alone helper [distributePot(potAmount, winners, handStrengths)]
    exported by the same file: it keeps only the winners of top strength. *)
Record SplitShare := mkSplitShare {
  ss_playerId : string;
  ss_amount : Z;
  ss_isSplit : bool;
  ss_splitCount : nat
}.

Fixpoint evenShares (baseAmount remainder : Z) (winnerCount : nat) (index : Z)
    (sortedWinners : list string) : list SplitShare :=
  match sortedWinners with
  | [] => []
  | winner :: rest =>
      {| ss_playerId := winner;
         ss_amount := baseAmount + (if decide (index < remainder) then 1 else 0);
         ss_isSplit := bool_decide (1 < winnerCount)%nat;
         ss_splitCount := winnerCount |}
      :: evenShares baseAmount remainder winnerCount (index + 1) rest
  end.

Definition distributePot (potAmount : Z) (winners_ : list string)
    (handStrengths : gmap string Z) : list SplitShare :=
  if decide (length winners_ = 0%nat) then []
  else
    let sortedWinners :=
      if decide (0 < size handStrengths)%nat then
        let sorted := sortDescBy (λ w, default 0 (handStrengths !! w)) winners_ in
        let topStrength := head sorted ≫= (λ w, handStrengths !! w) in
        filter (λ w, handStrengths !! w = topStrength) sorted
      else winners_ in
    let winnerCount := length sortedWinners in
    let baseAmount := potAmount / Z.of_nat winnerCount in
    let remainder := potAmount mod Z.of_nat winnerCount in
    evenShares baseAmount remainder winnerCount 0 sortedWinners.

(** The ledger operations a hand issues, and their sequencing.  [fuel] is
    handed to every [addBet]; a sequence has a result only if every
    operation in it returns. *)
Inductive LedgerOp :=
  | PostContribution (playerId : string) (x : Z) (playerAllInAmount : Ceiling)
  | Fold (playerId : string)
  | AllIn (playerId : string) (allInAmount : Z).

Definition step (fuel : nat) (op : LedgerOp) (pm : PotManager) : option PotManager :=
  match op with
  | PostContribution playerId x ceiling => snd <$> addBet fuel pm playerId x ceiling
  | Fold playerId => Some (playerFolds pm playerId)
  | AllIn playerId allInAmount => Some (playerAllIn pm playerId allInAmount)
  end.

Fixpoint run (fuel : nat) (ops : list LedgerOp) (pm : PotManager) : option PotManager :=
  match ops with
  | [] => Some pm
  | op :: rest =>
      match step fuel op pm with
      | Some pm' => run fuel rest pm'
      | None => None
      end
  end.

(** Monotonic eligibility: whoever is eligible for a pot is eligible for
    every pot of lower level (the main pot comes first). *)
Definition MonotonicEligibility (pm : PotManager) : Prop :=
  ∀ (i j : nat) (lower higher : Pot),
    (i < j)%nat →
    getAllPots pm !! i = Some lower →
    getAllPots pm !! j = Some higher →
    eligiblePlayers higher ⊆ eligiblePlayers lower.

(** What the loop over the pots does to each of them. *)
Definition Settled (ws : list string) (pot pot' : Pot) : Prop :=
  amount pot' = amount pot
  ∧ eligiblePlayers pot' = eligiblePlayers pot
  ∧ (amount pot > 0 → (∃ x, x ∈ ws ∧ x ∈ eligiblePlayers pot) →
     isDistributed pot' = true).

End Ledger.

(** ** jogador.js: a player *)
Module Player.

(** The counters of [stats] that the actions touch.  The ratios [vpip],
    [pfr] and [aggressionFactor] are floating-point statistics and are not
    modelled. *)
Record Stats := mkStats {
  handsWon : Z; totalProfit : Z; biggestPotWon : Z; biggestWin : Z;
  folds : Z; checks : Z; calls : Z; bets : Z; raises : Z; allins : Z
}.

(** An entry of [actionHistory] ([timestamp] is a wall-clock stamp). *)
Record ActionRecord := mkActionRecord {
  ar_action : string;
  ar_amount : Z;
  ar_round : option Ledger.Round;
  ar_position : Z;
  ar_chipsBefore : Z;
  ar_chipsAfter : Z
}.

(** [PokerPlayer]: the chips, the bets, the status flags and the action
    bookkeeping.  Nickname, avatar, hole cards, timers, connection times and
    bot settings play no role in the betting operations. *)
Record PokerPlayer := mkPlayer {
  userId : string;
  chips : Z;
  bet : Z;
  totalBetThisHand : Z;
  lastBetAmount : Z;
  position : Z;
  isActive : bool;
  isInHand : bool;
  isFolded : bool;
  isAllIn : bool;
  hasActedThisRound : bool;
  sittingOut : bool;
  isEliminated : bool;
  isCurrentTurn : bool;
  connected : bool;
  lastAction : option string;
  lastActionAmount : Z;
  actionHistory : list ActionRecord;
  isWinner : bool;
  wonAmount : Z;
  potWon : Z;
  stats : Stats
}.

Definition newStats : Stats := mkStats 0 0 0 0 0 0 0 0 0 0.

(** [new PokerPlayer(userId, nickname, chips, position)] *)
Definition newPlayer (id : string) (startingChips : Z) (seat : Z) : PokerPlayer :=
  {| userId := id; chips := Z.max 0 startingChips; bet := 0; totalBetThisHand := 0;
     lastBetAmount := 0; position := seat; isActive := true; isInHand := true;
     isFolded := false; isAllIn := false; hasActedThisRound := false;
     sittingOut := false; isEliminated := false; isCurrentTurn := false;
     connected := true; lastAction := None; lastActionAmount := 0;
     actionHistory := []; isWinner := false; wonAmount := 0; potWon := 0;
     stats := newStats |}.

(** Field updates. *)
Definition withChips (p : PokerPlayer) (chips' bet' total' last' : Z) (allIn' : bool)
    : PokerPlayer :=
  {| userId := userId p; chips := chips'; bet := bet'; totalBetThisHand := total';
     lastBetAmount := last'; position := position p; isActive := isActive p;
     isInHand := isInHand p; isFolded := isFolded p; isAllIn := allIn';
     hasActedThisRound := hasActedThisRound p; sittingOut := sittingOut p;
     isEliminated := isEliminated p; isCurrentTurn := isCurrentTurn p;
     connected := connected p; lastAction := lastAction p;
     lastActionAmount := lastActionAmount p; actionHistory := actionHistory p;
     isWinner := isWinner p; wonAmount := wonAmount p; potWon := potWon p;
     stats := stats p |}.

Definition withStats (p : PokerPlayer) (st : Stats) : PokerPlayer :=
  {| userId := userId p; chips := chips p; bet := bet p;
     totalBetThisHand := totalBetThisHand p; lastBetAmount := lastBetAmount p;
     position := position p; isActive := isActive p; isInHand := isInHand p;
     isFolded := isFolded p; isAllIn := isAllIn p;
     hasActedThisRound := hasActedThisRound p; sittingOut := sittingOut p;
     isEliminated := isEliminated p; isCurrentTurn := isCurrentTurn p;
     connected := connected p; lastAction := lastAction p;
     lastActionAmount := lastActionAmount p; actionHistory := actionHistory p;
     isWinner := isWinner p; wonAmount := wonAmount p; potWon := potWon p;
     stats := st |}.

Definition withAction (p : PokerPlayer) (action : option string) (x : Z)
    (acted turn_ : bool) : PokerPlayer :=
  {| userId := userId p; chips := chips p; bet := bet p;
     totalBetThisHand := totalBetThisHand p; lastBetAmount := lastBetAmount p;
     position := position p; isActive := isActive p; isInHand := isInHand p;
     isFolded := isFolded p; isAllIn := isAllIn p;
     hasActedThisRound := acted; sittingOut := sittingOut p;
     isEliminated := isEliminated p; isCurrentTurn := turn_;
     connected := connected p; lastAction := action;
     lastActionAmount := x; actionHistory := actionHistory p;
     isWinner := isWinner p; wonAmount := wonAmount p; potWon := potWon p;
     stats := stats p |}.

Definition withHistory (p : PokerPlayer) (h : list ActionRecord) : PokerPlayer :=
  {| userId := userId p; chips := chips p; bet := bet p;
     totalBetThisHand := totalBetThisHand p; lastBetAmount := lastBetAmount p;
     position := position p; isActive := isActive p; isInHand := isInHand p;
     isFolded := isFolded p; isAllIn := isAllIn p;
     hasActedThisRound := hasActedThisRound p; sittingOut := sittingOut p;
     isEliminated := isEliminated p; isCurrentTurn := isCurrentTurn p;
     connected := connected p; lastAction := lastAction p;
     lastActionAmount := lastActionAmount p; actionHistory := h;
     isWinner := isWinner p; wonAmount := wonAmount p; potWon := potWon p;
     stats := stats p |}.

Definition bump (st : Stats) (which : string) : Stats :=
  {| handsWon := handsWon st; totalProfit := totalProfit st;
     biggestPotWon := biggestPotWon st; biggestWin := biggestWin st;
     folds := folds st + (if decide (which = "folds") then 1 else 0);
     checks := checks st + (if decide (which = "checks") then 1 else 0);
     calls := calls st + (if decide (which = "calls") then 1 else 0);
     bets := bets st + (if decide (which = "bets") then 1 else 0);
     raises := raises st + (if decide (which = "raises") then 1 else 0);
     allins := allins st + (if decide (which = "allins") then 1 else 0) |}.

(** [addToBet]: the chips actually moved and the player afterwards. *)
Definition addToBet (p : PokerPlayer) (x : Z) : Z * PokerPlayer :=
  if decide (x ≤ 0) then (0, p)
  else
    let actualAmount := Z.min x (chips p) in
    if decide (actualAmount ≤ 0) then (0, p)
    else
      let chips' := chips p - actualAmount in
      (actualAmount,
       withChips p chips' (bet p + actualAmount) (totalBetThisHand p + actualAmount)
         actualAmount (if decide (chips' = 0) then true else isAllIn p)).

(** [refundBet] *)
Definition refundBet (p : PokerPlayer) (x : Z) : Z * PokerPlayer :=
  let refundAmount := Z.min x (bet p) in
  (refundAmount,
   withChips p (chips p + refundAmount) (bet p - refundAmount)
     (totalBetThisHand p - refundAmount) (lastBetAmount p) (isAllIn p)).

(** [winChips(amount, potSize)] *)
Definition winChips (p : PokerPlayer) (x potSize : Z) : PokerPlayer :=
  let st := stats p in
  {| userId := userId p; chips := chips p + x; bet := bet p;
     totalBetThisHand := totalBetThisHand p; lastBetAmount := lastBetAmount p;
     position := position p; isActive := isActive p; isInHand := isInHand p;
     isFolded := isFolded p; isAllIn := isAllIn p;
     hasActedThisRound := hasActedThisRound p; sittingOut := sittingOut p;
     isEliminated := isEliminated p; isCurrentTurn := isCurrentTurn p;
     connected := connected p; lastAction := lastAction p;
     lastActionAmount := lastActionAmount p; actionHistory := actionHistory p;
     isWinner := true; wonAmount := x; potWon := potSize;
     stats :=
       {| handsWon := handsWon st + 1; totalProfit := totalProfit st + x;
          biggestPotWon := if decide (potSize > biggestPotWon st) then potSize
                           else biggestPotWon st;
          biggestWin := if decide (x > biggestWin st) then x else biggestWin st;
          folds := folds st; checks := checks st; calls := calls st;
          bets := bets st; raises := raises st; allins := allins st |} |}.

(** The [gameState] argument of [takeAction] and [canAct]; a property the
    caller did not set reads as [undefined], here [None]. *)
Record GameView := mkGameView {
  currentPlayerTurn : option string;
  currentMaxBet : Z;
  currentRound : option Ledger.Round
}.

(** [canAct] *)
Definition canAct (p : PokerPlayer) (gameState : GameView) : bool :=
  if negb (isActive p) then false
  else if isEliminated p then false
  else if negb (isInHand p) then false
  else if isFolded p then false
  else if isAllIn p then false
  else if sittingOut p then false
  else if negb (connected p) then false
  else if decide (chips p ≤ 0) then false
  else bool_decide (currentPlayerTurn gameState = Some (userId p)).

(** [canCheck], [getCallAmount], [getMinRaise] *)
Definition canCheck (p : PokerPlayer) (maxBet : Z) : bool := bool_decide (maxBet ≤ bet p).

Definition getCallAmount (p : PokerPlayer) (maxBet : Z) : Z := Z.max 0 (maxBet - bet p).

Definition getMinRaise (p : PokerPlayer) (maxBet : Z) : Z :=
  if decide (maxBet = 0) then 0
  else let difference := maxBet - bet p in Z.max (maxBet + difference) (maxBet * 2).

(** What the methods throw.  Every [Error] carries a message; the
    [TypeError] is raised by the runtime. *)
Inductive PlayerError :=
  | CannotActNow                       (* `${nickname} não pode agir no momento` *)
  | InvalidAction (action : string)    (* `Ação inválida: ${action}` *)
  | CannotCheck                        (* 'Não pode dar check, precisa igualar a aposta' *)
  | BetAfterBets                       (* 'Não pode fazer bet quando já há apostas (use raise)' *)
  | InvalidBetAmount                   (* 'Valor de bet inválido' *)
  | MinRaise (minRaise x : Z)          (* `Raise mínimo: ${minRaise} (atual: ${amount})` *)
  | BetIsNotAFunction.                 (* TypeError: this.bet is not a function *)

(** [fold] *)
Definition fold (p : PokerPlayer) : Z * PokerPlayer :=
  let p1 :=
    {| userId := userId p; chips := chips p; bet := 0;
       totalBetThisHand := totalBetThisHand p; lastBetAmount := lastBetAmount p;
       position := position p; isActive := isActive p; isInHand := false;
       isFolded := true; isAllIn := isAllIn p;
       hasActedThisRound := hasActedThisRound p; sittingOut := sittingOut p;
       isEliminated := isEliminated p; isCurrentTurn := isCurrentTurn p;
       connected := connected p; lastAction := lastAction p;
       lastActionAmount := lastActionAmount p; actionHistory := actionHistory p;
       isWinner := isWinner p; wonAmount := wonAmount p; potWon := potWon p;
       stats := stats p |} in
  (0, withStats p1 (bump (stats p1) "folds")).

(** [check] *)
Definition check (p : PokerPlayer) (maxBet : Z) : PlayerError + Z * PokerPlayer :=
  if canCheck p maxBet then inr (0, withStats p (bump (stats p) "checks"))
  else inl CannotCheck.

(** [call] *)
Definition call (p : PokerPlayer) (maxBet : Z) : PlayerError + Z * PokerPlayer :=
  let callAmount := getCallAmount p maxBet in
  if decide (callAmount ≤ 0) then check p maxBet
  else
    let '(chipsAdded, p1) := addToBet p callAmount in
    inr (chipsAdded, withStats p1 (bump (stats p1) "calls")).

(** The method [bet(amount, currentMaxBet)] of the class.  The constructor
    stores the number [this.bet = 0] on every player, and that own property
    hides the method: no call [this.bet(...)] ever reaches this body. *)
Definition betMethod (p : PokerPlayer) (x maxBet : Z) : PlayerError + Z * PokerPlayer :=
  if decide (maxBet > 0) then inl BetAfterBets
  else if decide (x ≤ 0) then inl InvalidBetAmount
  else
    let '(chipsAdded, p1) := addToBet p x in
    inr (chipsAdded, withStats p1 (bump (stats p1) "bets")).

(** [raise] *)
Definition raise (p : PokerPlayer) (x maxBet : Z) : PlayerError + Z * PokerPlayer :=
  let minRaise := getMinRaise p maxBet in
  if decide (x < minRaise ∧ minRaise ≤ chips p) then inl (MinRaise minRaise x)
  else
    let '(chipsAdded, p1) := addToBet p x in
    inr (chipsAdded, withStats p1 (bump (stats p1) "raises")).

(** [allIn] *)
Definition allIn (p : PokerPlayer) : Z * PokerPlayer :=
  let '(chipsAdded, p1) := addToBet p (chips p) in
  let p2 := withChips p1 (chips p1) (bet p1) (totalBetThisHand p1) (lastBetAmount p1) true in
  (chipsAdded, withStats p2 (bump (stats p2) "allins")).

(** [String.prototype.toLowerCase] on the letters A-Z. *)
Definition lowerAscii (ch : Ascii.ascii) : Ascii.ascii :=
  let n := Ascii.nat_of_ascii ch in
  if decide (65 ≤ n ∧ n ≤ 90)%nat then Ascii.ascii_of_nat (n + 32) else ch.

Fixpoint toLowerCase (s : string) : string :=
  match s with
  | EmptyString => EmptyString
  | String ch rest => String (lowerAscii ch) (toLowerCase rest)
  end.

(** The object returned by [takeAction]. *)
Record ActionResult := mkActionResult {
  res_action : string;
  res_amount : Z;
  res_success : bool
}.

(** [takeAction]: what is returned or thrown, and the player as the call
    leaves it.  The four bookkeeping fields are written before the [switch],
    so a [throw] inside it leaves them written. *)
Definition takeAction (p : PokerPlayer) (action : string) (x : Z) (gameState : GameView)
    : (PlayerError + ActionResult) * PokerPlayer :=
  if negb (canAct p gameState) then (inl CannotActNow, p)
  else
    let actionLower := toLowerCase action in
    let p0 := withAction p (Some actionLower) x true false in
    let outcome : PlayerError + Z * PokerPlayer :=
      if decide (actionLower = "fold") then inr (fold p0)
      else if decide (actionLower = "check") then check p0 (currentMaxBet gameState)
      else if decide (actionLower = "call") then call p0 (currentMaxBet gameState)
      else if decide (actionLower = "bet") then inl BetIsNotAFunction
      else if decide (actionLower = "raise") then raise p0 x (currentMaxBet gameState)
      else if decide (actionLower = "allin") then inr (allIn p0)
      else inl (InvalidAction action) in
    match outcome with
    | inl e => (inl e, p0)
    | inr (chipsAdded, p1) =>
        let entry :=
          {| ar_action := actionLower; ar_amount := chipsAdded;
             ar_round := currentRound gameState; ar_position := position p1;
             ar_chipsBefore := chips p1 + chipsAdded; ar_chipsAfter := chips p1 |} in
        (inr (mkActionResult actionLower chipsAdded true),
         withHistory p1 (actionHistory p1 ++ [entry]))
    end.

(** What an action may do to the chips of player [p]. *)
Definition ChipsKept (p p' : PokerPlayer) : Prop :=
  0 ≤ chips p' ≤ chips p
  ∧ chips p' + totalBetThisHand p' = chips p + totalBetThisHand p
  ∧ (chips p' < chips p → chips p' = 0 → isAllIn p' = true).

Definition OutcomeKeepsChips (p : PokerPlayer) (o : PlayerError + Z * PokerPlayer) : Prop :=
  match o with
  | inl _ => True
  | inr (_, p') => ChipsKept p p'
  end.

End Player.

(** ** poker-manager.js: the game manager *)
Module Manager.
Import Player.

(** [GAME_STATES] *)
Inductive GameStateName :=
  | LOBBY | STARTING | PREFLOP | FLOP | TURN | RIVER | SHOWDOWN
  | DISTRIBUTING | BETWEEN_HANDS | PAUSED | FINISHED.

#[global] Instance GameStateName_eq_dec : EqDecision GameStateName.
Proof. solve_decision. Defined.

(** What [processPlayerAction], [validateAction] and [distributePot] throw. *)
Inductive ManagerError :=
  | NotInitialized                 (* 'Jogo não inicializado' *)
  | NotTimeToAct                   (* 'Não é hora de agir' *)
  | NotYourTurn                    (* 'Não é sua vez' *)
  | PlayerNotFound                 (* 'Jogador não encontrado' *)
  | CheckNotAllowed                (* 'Não pode dar check, precisa igualar a aposta' *)
  | CallUnaffordable               (* 'Fichas insuficientes para call' *)
  | BetWithBetsPlaced              (* 'Não pode fazer bet quando já há apostas' *)
  | BetAmountInvalid               (* 'Valor de bet inválido' *)
  | ChipsInsufficient              (* 'Fichas insuficientes' *)
  | BetBelowMinimum (bigBlind : Z) (* `Bet mínimo: ${this.bigBlind}` *)
  | RaiseWithoutBets               (* 'Não pode fazer raise sem apostas anteriores' *)
  | RaiseBelowMinimum (minRaise : Z) (* `Raise mínimo: ${minRaise}` *)
  | ActionInvalid (action : string)  (* `Ação inválida: ${action}` *)
  | FromPlayer (e : PlayerError)   (* rethrown from [takeAction] *)
  | ForEachIsNotAFunction.         (* TypeError: distribution.forEach is not a function *)

(** An entry of [errorLog] ([stack], [timestamp] and the state snapshot are
    diagnostics). *)
Record ErrorEntry := mkErrorEntry {
  ee_context : string;
  ee_error : ManagerError;
  ee_playerId : string;
  ee_action : string;
  ee_amount : Z
}.

(** [this.lastAction] and the entries of the manager's [actionHistory]. *)
Record LastAction := mkLastAction {
  la_playerId : string;
  la_action : string;
  la_amount : Z
}.

(** [PokerGameManager]: the fields that the betting operations read or
    write.  [players] is the array of the player manager; [getPlayerById]
    looks a player up by identifier. *)
Record Game := mkGame {
  initialized : bool;
  state : GameStateName;
  currentRound : Ledger.Round;
  currentPlayerTurn : option string;
  currentMaxBet : Z;
  lastRaiseAmount : Z;
  smallBlind : Z;
  bigBlind : Z;
  ante : Z;
  smallBlindPosition : nat;
  bigBlindPosition : nat;
  players : list PokerPlayer;
  potManager : Ledger.PotManager;
  lastAction : option LastAction;
  actionHistory : list LastAction;
  errorLog : list ErrorEntry
}.

Definition getPlayerById (g : Game) (id : string) : option PokerPlayer :=
  head (filter (λ p, userId p = id) (players g)).

(** [getActivePlayers] and [getTotalChips] of the player manager *)
Definition getActivePlayers (ps : list PokerPlayer) : list PokerPlayer :=
  filter (λ p, isActive p = true ∧ sittingOut p = false ∧ chips p > 0) ps.

Definition getTotalChips (ps : list PokerPlayer) : Z := sumZ (map chips ps).

(** A player object mutated in place: the entry that [getPlayerById] finds
    for its identifier is replaced. *)
Fixpoint storePlayer (ps : list PokerPlayer) (p' : PokerPlayer) : list PokerPlayer :=
  match ps with
  | [] => []
  | p :: rest =>
      if decide (userId p = userId p') then p' :: rest else p :: storePlayer rest p'
  end.

Definition withPlayers (g : Game) (ps : list PokerPlayer) : Game :=
  {| initialized := initialized g; state := state g; currentRound := currentRound g;
     currentPlayerTurn := currentPlayerTurn g; currentMaxBet := currentMaxBet g;
     lastRaiseAmount := lastRaiseAmount g; smallBlind := smallBlind g;
     bigBlind := bigBlind g; ante := ante g;
     smallBlindPosition := smallBlindPosition g; bigBlindPosition := bigBlindPosition g;
     players := ps; potManager := potManager g; lastAction := lastAction g;
     actionHistory := actionHistory g; errorLog := errorLog g |}.

Definition withPot (g : Game) (pm : Ledger.PotManager) : Game :=
  {| initialized := initialized g; state := state g; currentRound := currentRound g;
     currentPlayerTurn := currentPlayerTurn g; currentMaxBet := currentMaxBet g;
     lastRaiseAmount := lastRaiseAmount g; smallBlind := smallBlind g;
     bigBlind := bigBlind g; ante := ante g;
     smallBlindPosition := smallBlindPosition g; bigBlindPosition := bigBlindPosition g;
     players := players g; potManager := pm; lastAction := lastAction g;
     actionHistory := actionHistory g; errorLog := errorLog g |}.

Definition withBets (g : Game) (maxBet lastRaise : Z) : Game :=
  {| initialized := initialized g; state := state g; currentRound := currentRound g;
     currentPlayerTurn := currentPlayerTurn g; currentMaxBet := maxBet;
     lastRaiseAmount := lastRaise; smallBlind := smallBlind g;
     bigBlind := bigBlind g; ante := ante g;
     smallBlindPosition := smallBlindPosition g; bigBlindPosition := bigBlindPosition g;
     players := players g; potManager := potManager g; lastAction := lastAction g;
     actionHistory := actionHistory g; errorLog := errorLog g |}.

Definition withState (g : Game) (st : GameStateName) : Game :=
  {| initialized := initialized g; state := st; currentRound := currentRound g;
     currentPlayerTurn := currentPlayerTurn g; currentMaxBet := currentMaxBet g;
     lastRaiseAmount := lastRaiseAmount g; smallBlind := smallBlind g;
     bigBlind := bigBlind g; ante := ante g;
     smallBlindPosition := smallBlindPosition g; bigBlindPosition := bigBlindPosition g;
     players := players g; potManager := potManager g; lastAction := lastAction g;
     actionHistory := actionHistory g; errorLog := errorLog g |}.

Definition withLastAction (g : Game) (la : LastAction) : Game :=
  {| initialized := initialized g; state := state g; currentRound := currentRound g;
     currentPlayerTurn := currentPlayerTurn g; currentMaxBet := currentMaxBet g;
     lastRaiseAmount := lastRaiseAmount g; smallBlind := smallBlind g;
     bigBlind := bigBlind g; ante := ante g;
     smallBlindPosition := smallBlindPosition g; bigBlindPosition := bigBlindPosition g;
     players := players g; potManager := potManager g; lastAction := Some la;
     actionHistory := actionHistory g ++ [la]; errorLog := errorLog g |}.

(** [logError] *)
Definition logError (g : Game) (entry : ErrorEntry) : Game :=
  let log := errorLog g ++ [entry] in
  {| initialized := initialized g; state := state g; currentRound := currentRound g;
     currentPlayerTurn := currentPlayerTurn g; currentMaxBet := currentMaxBet g;
     lastRaiseAmount := lastRaiseAmount g; smallBlind := smallBlind g;
     bigBlind := bigBlind g; ante := ante g;
     smallBlindPosition := smallBlindPosition g; bigBlindPosition := bigBlindPosition g;
     players := players g; potManager := potManager g; lastAction := lastAction g;
     actionHistory := actionHistory g;
     errorLog := if decide (100 < length log)%nat then drop 1 log else log |}.

(** [calculateMinRaise] *)
Definition calculateMinRaise (g : Game) : Z :=
  if decide (currentMaxBet g = 0) then bigBlind g
  else if decide (lastRaiseAmount g > 0) then currentMaxBet g + lastRaiseAmount g
  else currentMaxBet g * 2.

(** [validateAction]: [None] when nothing is thrown. *)
Definition validateAction (g : Game) (player : PokerPlayer) (action : string) (x : Z)
    : option ManagerError :=
  let playerChips := chips player in
  let playerBet := bet player in
  let a := toLowerCase action in
  if decide (a = "fold") then None
  else if decide (a = "check") then
    if canCheck player (currentMaxBet g) then None else Some CheckNotAllowed
  else if decide (a = "call") then
    if decide (getCallAmount player (currentMaxBet g) > playerChips)
    then Some CallUnaffordable else None
  else if decide (a = "bet") then
    if decide (currentMaxBet g > 0) then Some BetWithBetsPlaced
    else if decide (x ≤ 0) then Some BetAmountInvalid
    else if decide (x > playerChips) then Some ChipsInsufficient
    else if decide (x < bigBlind g) then Some (BetBelowMinimum (bigBlind g))
    else None
  else if decide (a = "raise") then
    if decide (currentMaxBet g = 0) then Some RaiseWithoutBets
    else
      let minRaise := calculateMinRaise g in
      if decide (x < minRaise ∧ minRaise ≤ playerChips) then Some (RaiseBelowMinimum minRaise)
      else
        let totalToCall := playerBet + x in
        if decide (totalToCall > playerChips + playerBet) then Some ChipsInsufficient
        else None
  else if decide (a = "allin") then
    if decide (playerChips ≤ 0) then Some ChipsInsufficient else None
  else Some (ActionInvalid action).

(** What a successful [processPlayerAction] returns (the snapshots of the
    player and of the game are read off the state). *)
Record Processed := mkProcessed {
  pr_action : string;
  pr_amount : Z
}.

Section ProcessPlayerAction.

(** The last step of [processPlayerAction],
    [if (!this.isRoundComplete()) this.advanceTurn(); else
    this.checkRoundCompletion();], which moves the turn, deals community
    cards and runs the showdown.  It is a parameter here: the properties
    below hold whatever it does. *)
Variable roundProgress : Game → Game.

(** [processPlayerAction]: what is returned or thrown and the game as the
    call leaves it; [None] if the ledger's [addBet] does not return within
    [fuel] iterations. *)
Definition processPlayerAction (fuel : nat) (g : Game) (playerId action : string) (x : Z)
    : option ((ManagerError + Processed) * Game) :=
  if negb (initialized g) then Some (inl NotInitialized, g)
  else if negb (bool_decide (state g ∈ [PREFLOP; FLOP; TURN; RIVER]))
  then Some (inl NotTimeToAct, g)
  else if negb (bool_decide (currentPlayerTurn g = Some playerId))
  then Some (inl NotYourTurn, g)
  else
    match getPlayerById g playerId with
    | None => Some (inl PlayerNotFound, g)
    | Some player =>
        let failed (e : ManagerError) (g' : Game)
            : option ((ManagerError + Processed) * Game) :=
          Some (inl e, logError g' (mkErrorEntry "action_failed" e playerId action x)) in
        match validateAction g player action x with
        | Some e => failed e g
        | None =>
            let view :=
              {| Player.currentPlayerTurn := None;
                 Player.currentMaxBet := currentMaxBet g;
                 Player.currentRound := Some (currentRound g) |} in
            match takeAction player action x view with
            | (inl e, player') => failed (FromPlayer e) (withPlayers g (storePlayer (players g) player'))
            | (inr actionResult, player') =>
                let g1 := withPlayers g (storePlayer (players g) player') in
                let posted :=
                  if decide (res_amount actionResult > 0) then
                    match Ledger.addBet fuel (potManager g1) playerId
                            (res_amount actionResult) (Ledger.Finite (chips player')) with
                    | None => None
                    | Some (_, pm') =>
                        let g2 := withPot g1 pm' in
                        if bool_decide (action ∈ ["bet"; "raise"; "allin"]) then
                          Some (withBets g2 (Z.max (currentMaxBet g2) (bet player'))
                                  (if decide (action = "raise") then x else 0))
                        else Some g2
                    end
                  else Some g1 in
                match posted with
                | None => None
                | Some g3 =>
                    let g4 :=
                      withLastAction g3
                        (mkLastAction playerId action (res_amount actionResult)) in
                    Some (inr (mkProcessed action (res_amount actionResult)),
                          roundProgress g4)
                end
            end
        end
    end.

End ProcessPlayerAction.

(** One forced bet of [postBlinds]: [player.addToBet(amount)], then
    [this.potManager.addBet(player.userId, amount)] with the default ceiling,
    then the bookkeeping; [None] if [addBet] does not return. *)
Definition postForcedBet (fuel : nat) (g : Game) (id : string) (forced : Z)
    (label : string) (isBlind : bool) : option Game :=
  match getPlayerById g id with
  | None => Some g
  | Some player =>
      let x := Z.min forced (chips player) in
      if negb isBlind && bool_decide (x ≤ 0) then Some g
      else
        let player1 := (addToBet player x).2 in
        match Ledger.addBet fuel (potManager g) id x Ledger.Infinity with
        | None => None
        | Some (_, pm') =>
            let player2 :=
              withAction player1 (Some label) (lastActionAmount player1)
                (if isBlind then true else hasActedThisRound player1)
                (isCurrentTurn player1) in
            let g1 := withPot (withPlayers g (storePlayer (players g) player2)) pm' in
            Some (if isBlind then withBets g1 x (lastRaiseAmount g1) else g1)
        end
  end.

Fixpoint postAntes (fuel : nat) (g : Game) (active : list PokerPlayer) : option Game :=
  match active with
  | [] => Some g
  | player :: rest =>
      if decide (position player ≠ Z.of_nat (smallBlindPosition g)
                 ∧ position player ≠ Z.of_nat (bigBlindPosition g)) then
        match postForcedBet fuel g (userId player) (ante g) "ante" false with
        | None => None
        | Some g' => postAntes fuel g' rest
        end
      else postAntes fuel g rest
  end.

(** [postBlinds] *)
Definition postBlinds (fuel : nat) (g : Game) : option Game :=
  let activePlayers := getActivePlayers (players g) in
  let afterSmall :=
    match activePlayers !! smallBlindPosition g with
    | Some sbPlayer => postForcedBet fuel g (userId sbPlayer) (smallBlind g) "small blind" true
    | None => Some g
    end in
  match afterSmall with
  | None => None
  | Some g1 =>
      let afterBig :=
        match activePlayers !! bigBlindPosition g with
        | Some bbPlayer => postForcedBet fuel g1 (userId bbPlayer) (bigBlind g) "big blind" true
        | None => Some g1
        end in
      match afterBig with
      | None => None
      | Some g2 => if decide (ante g > 0) then postAntes fuel g2 activePlayers else Some g2
      end
  end.

(** [distributePot(winners, handEvaluations)].  [distributeAllPots] returns
    an object (or [null]), never an array, so the [distribution.forEach]
    that should credit the winners' stacks throws a [TypeError] instead. *)
Definition distributePot (now : Z) (g : Game) (winners_ : list string)
    (handEvaluations : gmap string Evaluator.HandResult) : option ManagerError * Game :=
  if decide (length winners_ = 0%nat) then (None, g)
  else
    let g1 := withState g DISTRIBUTING in
    let '(distribution, pm') :=
      Ledger.distributeAllPots now (potManager g1) winners_ handEvaluations in
    (Some ForEachIsNotAFunction, withPot g1 pm').

End Manager.

(** ** poker-engine.js: the dealer's own betting step

    The engine file carries a second, single-pot implementation of the
    betting step, [PokerDealer.processPlayerAction], working on plain player
    objects and a numeric [pot]. *)
Module Dealer.

Record DealerPlayer := mkDealerPlayer {
  userId : string;
  chips : Z;
  bet : Z;
  isActive : bool;
  isAllIn : bool;
  lastAction : option string;
  cards : list Evaluator.PokerCard
}.

(** An entry of [handHistory] ([timestamp] is a wall-clock stamp). *)
Record HistoryEntry := mkHistoryEntry {
  h_playerId : string;
  h_action : string;
  h_amount : Z;
  h_round : string
}.

Record PokerDealer := mkDealer {
  players : list DealerPlayer;
  pot : Z;
  currentRound : string;
  handHistory : list HistoryEntry
}.

Inductive DealerError :=
  | NotFoundOrInactive     (* 'Jogador não encontrado ou inativo' *)
  | CheckWithBetToMatch    (* 'Não pode dar check com aposta para igualar' *)
  | CallUnaffordable       (* 'Fichas insuficientes para call' *)
  | InvalidAmount          (* 'Valor de aposta inválido' *)
  | InsufficientChips      (* 'Fichas insuficientes' *)
  | RaiseTooSmall          (* 'Raise deve ser maior que a aposta atual' *)
  | InvalidAction (action : string).   (* `Ação inválida: ${action}` *)

(** [this.players.find(p => p.userId === playerId)] *)
Definition findPlayer (ps : list DealerPlayer) (id : string) : option DealerPlayer :=
  head (filter (λ p, userId p = id) ps).

(** The found object mutated in place. *)
Fixpoint storePlayer (ps : list DealerPlayer) (p' : DealerPlayer) : list DealerPlayer :=
  match ps with
  | [] => []
  | p :: rest =>
      if decide (userId p = userId p') then p' :: rest else p :: storePlayer rest p'
  end.

(** [getCurrentMaxBet]: [Math.max(...bets)]; with no player at all it is
    [-Infinity], which no caller reaches once a player was found. *)
Definition getCurrentMaxBet (ps : list DealerPlayer) : Z :=
  match map bet ps with
  | [] => 0
  | b :: bs => foldr Z.max b bs
  end.

(** What a successful [processPlayerAction] returns, next to the player and
    the pot that are read off the state. *)
Record Processed := mkProcessed { pr_action : string; pr_amount : Z }.

(** [PokerDealer.processPlayerAction]: every [throw] comes before the first
    write, so a rejected request has no state to return. *)
Definition processPlayerAction (d : PokerDealer) (playerId action : string) (x : Z)
    : DealerError + Processed * PokerDealer :=
  match findPlayer (players d) playerId with
  | None => inl NotFoundOrInactive
  | Some player =>
      if negb (isActive player) then inl NotFoundOrInactive
      else
        let maxBet := getCurrentMaxBet (players d) in
        let playerBet := bet player in
        let playerChips := chips player in
        let a := Player.toLowerCase action in
        let moved : DealerError + DealerPlayer * Z :=
          if decide (a = "fold") then
            inr (mkDealerPlayer (userId player) (chips player) (bet player) false
                   (isAllIn player) (Some "fold") [], 0)
          else if decide (a = "check") then
            if decide (playerBet < maxBet) then inl CheckWithBetToMatch
            else inr (mkDealerPlayer (userId player) (chips player) (bet player)
                        (isActive player) (isAllIn player) (Some "check") (cards player), 0)
          else if decide (a = "call") then
            let callAmount := Z.max 0 (maxBet - playerBet) in
            if decide (callAmount > playerChips) then inl CallUnaffordable
            else inr (mkDealerPlayer (userId player) (chips player - callAmount)
                        (bet player + callAmount) (isActive player) (isAllIn player)
                        (Some "call") (cards player), callAmount)
          else if decide (a = "bet" ∨ a = "raise") then
            if decide (x ≤ 0) then inl InvalidAmount
            else if decide (x > playerChips) then inl InsufficientChips
            else if decide (action = "raise" ∧ x ≤ maxBet) then inl RaiseTooSmall
            else
              let totalBet := playerBet + x in
              inr (mkDealerPlayer (userId player) (chips player - x) totalBet
                     (isActive player) (isAllIn player)
                     (Some (if decide (action = "bet") then "bet" else "raise"))
                     (cards player), x)
          else if decide (a = "allin") then
            let allinAmount := playerChips in
            inr (mkDealerPlayer (userId player) 0 (bet player + allinAmount)
                   (isActive player) true (Some "allin") (cards player), allinAmount)
          else inl (InvalidAction action) in
        match moved with
        | inl e => inl e
        | inr (player', toPot) =>
            inr (mkProcessed action x,
                 {| players := storePlayer (players d) player';
                    pot := pot d + toPot;
                    currentRound := currentRound d;
                    handHistory :=
                      handHistory d ++ [mkHistoryEntry playerId action x (currentRound d)] |})
        end
  end.

Definition totalChips (ps : list DealerPlayer) : Z := sumZ (map chips ps).

End Dealer.

(** [Array.prototype.sort] with comparator [(a, b) => key a - key b]; the
    sort is stable. *)
Fixpoint insertAscBy {A} (key : A → Z) (x : A) (l : list A) : list A :=
  match l with
  | [] => [x]
  | y :: l' => if decide (key y < key x) then y :: insertAscBy key x l'
               else x :: y :: l'
  end.

Definition sortAscBy {A} (key : A → Z) (l : list A) : list A :=
  foldr (insertAscBy key) [] l.

(** Every later element has a key at least as large. *)
Fixpoint ascendingBy {A} (key : A → Z) (l : list A) : Prop :=
  match l with
  | [] => True
  | x :: l' => Forall (λ y, key x ≤ key y) l' ∧ ascendingBy key l'
  end.

(** [array.sort(compare)]: the sort is stable, so for a comparator that
    orders consistently (as [compareHands] does on evaluated hands, by their
    values) the sorted array is determined: an element moves behind exactly
    the later ones it compares above ([compare(x, y) > 0]). *)
Fixpoint insertBy {A} (compare : A → A → Z) (x : A) (l : list A) : list A :=
  match l with
  | [] => [x]
  | y :: l' => if decide (compare x y > 0) then y :: insertBy compare x l' else x :: l
  end.

Definition sortBy {A} (compare : A → A → Z) (l : list A) : list A :=
  foldr (insertBy compare) [] l.

(** Adjacent elements in descending order of their keys. *)
Fixpoint descendingBy {A} (key : A → Z) (l : list A) : Prop :=
  match l with
  | x :: (y :: _) as rest => key y ≤ key x ∧ descendingBy key rest
  | _ => True
  end.

(** ** poker-engine.js: what each category of [POKER_HANDS] promises about
    the cards of a result *)
Module HandShapes.
Import Evaluator.

Definition Group (n : nat) (v : Z) (cs : list PokerCard) : Prop :=
  length cs = n ∧ Forall (λ c, value c = v) cs.

Definition SameSuit (cs : list PokerCard) : Prop :=
  ∃ s, Forall (λ c, suit c = s) cs.

Definition InSequence (cs : list PokerCard) : Prop :=
  (∃ v, map value cs = [v; v - 1; v - 2; v - 3; v - 4])
  ∨ map value cs = [14; 5; 4; 3; 2].

Definition Shows (t : HandType) (cs : list PokerCard) : Prop :=
  match t with
  | ROYAL_FLUSH => SameSuit cs ∧ map value cs = [14; 13; 12; 11; 10]
  | STRAIGHT_FLUSH => SameSuit cs ∧ InSequence cs
  | FOUR_OF_A_KIND => ∃ v, Group 4 v (take 4 cs)
  | FULL_HOUSE => ∃ v w, v ≠ w ∧ Group 3 v (take 3 cs) ∧ Group 2 w (drop 3 cs)
  | FLUSH => length cs = 5%nat ∧ SameSuit cs ∧ descending cs
  | STRAIGHT => InSequence cs
  | THREE_OF_A_KIND => ∃ v, Group 3 v (take 3 cs)
  | TWO_PAIR => ∃ v w, Group 2 v (take 2 cs) ∧ Group 2 w (take 2 (drop 2 cs))
  | ONE_PAIR => ∃ v, Group 2 v (take 2 cs)
  | HIGH_CARD => descending cs
  end.

(** Cards whose values cover [vs]; a run of five is present among [cs]. *)
Definition HasValues (vs : list Z) (cs : list PokerCard) : Prop :=
  ∀ w, w ∈ vs → ∃ c, c ∈ cs ∧ value c = w.

Definition HasRun (cs : list PokerCard) : Prop :=
  (∃ v, HasValues [v; v - 1; v - 2; v - 3; v - 4] cs)
  ∨ HasValues [14; 5; 4; 3; 2] cs.

(** Every later card has a smaller value. *)
Fixpoint strictlyDescending (cs : list PokerCard) : Prop :=
  match cs with
  | [] => True
  | c :: rest => Forall (λ d, value d < value c) rest ∧ strictlyDescending rest
  end.

End HandShapes.

(** ** poker-engine.js: the evaluator with its memo table *)
Module HandEvaluator.
Import Evaluator.

(** [card.code]: the rank followed by the initial of the suit. *)
Definition rankName (r : Rank) : string :=
  match r with
  | R2 => "2" | R3 => "3" | R4 => "4" | R5 => "5" | R6 => "6" | R7 => "7"
  | R8 => "8" | R9 => "9" | R10 => "10" | RJ => "J" | RQ => "Q" | RK => "K"
  | RA => "A"
  end.

Definition suitInitial (s : Suit) : string :=
  match s with HEARTS => "H" | DIAMONDS => "D" | CLUBS => "C" | SPADES => "S" end.

Definition code (c : PokerCard) : string :=
  String.append (rankName (rank c)) (suitInitial (suit c)).

(** [array.sort()] on strings: ascending by code units. *)
Fixpoint insertCode (x : string) (l : list string) : list string :=
  match l with
  | [] => [x]
  | y :: l' => if String.ltb y x then y :: insertCode x l' else x :: y :: l'
  end.

Definition sortCodes (l : list string) : list string := foldr insertCode [] l.

(** [getCacheKey] *)
Definition getCacheKey (hand community : list PokerCard) : string :=
  let handStr := String.concat EmptyString (sortCodes (map code hand)) in
  let commStr := String.concat EmptyString (sortCodes (map code community)) in
  String.append handStr (String.append "|" commStr).

(** [HandEvaluator].  [evaluate] hands out the very object it stores in
    [handCache], and [compareHands] writes to the objects it is given:
    [results] lists the result objects made so far, a reference is an index
    into that list, and the memo table maps a key to a reference. *)
Record HandEvaluator := mkHandEvaluator {
  results : list HandResult;
  handCache : gmap string nat
}.

(** [new HandEvaluator()] *)
Definition newHandEvaluator : HandEvaluator := {| results := []; handCache := ∅ |}.

(** [evaluate]: a hit returns the stored object; a miss computes the result
    ([Evaluator.evaluate]), stores the new object under the key and returns
    it.  When the computation throws, nothing is stored. *)
Definition evaluate (hand community : list PokerCard) (ev : HandEvaluator)
    : option nat * HandEvaluator :=
  let cacheKey := getCacheKey hand community in
  match handCache ev !! cacheKey with
  | Some result => (Some result, ev)
  | None =>
      match Evaluator.evaluate hand community with
      | Some result =>
          let ref := length (results ev) in
          (Some ref,
           {| results := results ev ++ [result];
              handCache := <[cacheKey := ref]> (handCache ev) |})
      | None => (None, ev)
      end
  end.

(** [hand.cards.sort((a, b) => b.value - a.value)]: the array of the object
    is sorted in place. *)
Definition sortCardsOf (hand : nat) (ev : HandEvaluator) : HandEvaluator :=
  {| results :=
       alter (λ h, {| hr_cards := sortDesc (hr_cards h); hr_hand := hr_hand h;
                      hr_rank := hr_rank h; hr_value := hr_value h |})
             hand (results ev);
     handCache := handCache ev |}.

Definition cardsOf (ev : HandEvaluator) (hand : nat) : list PokerCard :=
  from_option hr_cards [] (results ev !! hand).

(** [compareHands] on two result objects of this evaluator: on a tie of rank
    and value both card arrays are sorted in place before they are walked.
    A reference that is no result object has no answer. *)
Definition compareHands (hand1 hand2 : nat) (ev : HandEvaluator)
    : option Z * HandEvaluator :=
  match results ev !! hand1, results ev !! hand2 with
  | Some h1, Some h2 =>
      if decide (hr_rank h1 ≠ hr_rank h2) then
        (Some (if decide (hr_rank h1 > hr_rank h2) then 1 else -1), ev)
      else if decide (hr_value h1 ≠ hr_value h2) then
        (Some (if decide (hr_value h1 > hr_value h2) then 1 else -1), ev)
      else
        let ev := sortCardsOf hand2 (sortCardsOf hand1 ev) in
        (Some (compareCards (cardsOf ev hand1) (cardsOf ev hand2)), ev)
  | _, _ => (None, ev)
  end.

(** The calls made on an evaluator, and the evaluator they leave. *)
Inductive Call :=
  | Evaluate (hand community : list PokerCard)
  | Compare (hand1 hand2 : nat).

Definition step (ev : HandEvaluator) (call : Call) : HandEvaluator :=
  match call with
  | Evaluate hand community => (evaluate hand community ev).2
  | Compare hand1 hand2 => (compareHands hand1 hand2 ev).2
  end.

Definition run (calls : list Call) : HandEvaluator := foldl step newHandEvaluator calls.

(** A stored result [res] next to the result [first] as it was computed:
    category, rank and value are the same, and the cards are in the computed
    order or sorted by descending value. *)
Definition Kept (res first : HandResult) : Prop :=
  hr_hand res = hr_hand first
  ∧ hr_rank res = hr_rank first
  ∧ hr_value res = hr_value first
  ∧ (hr_cards res = hr_cards first ∨ hr_cards res = sortDesc (hr_cards first)).

(** Every entry of the memo table is the result computed for cards with that
    key, kept in the above sense. *)
Definition Memoised (ev : HandEvaluator) : Prop :=
  ∀ key ref, handCache ev !! key = Some ref →
    ∃ res hand community first,
      results ev !! ref = Some res
      ∧ getCacheKey hand community = key
      ∧ Evaluator.evaluate hand community = Some first
      ∧ Kept res first.

End HandEvaluator.

(** ** baralho-texas.js: queries and helpers of the stand-alone deck *)
Module BaralhoUtils.
Import Evaluator.

(** The object returned by [getStats]. *)
Record DeckStats := mkDeckStats {
  remaining : nat; used : nat; burned : nat; total : nat
}.

(** [getStats] *)
Definition getStats (d : Baralho.PokerDeck) : DeckStats :=
  {| remaining := length (Baralho.cards d);
     used := length (Baralho.usedCards d);
     burned := length (Baralho.burnedCards d);
     total := length (Baralho.cards d) + length (Baralho.usedCards d)
              + length (Baralho.burnedCards d) |}.

(** [createDeck(shuffle)] *)
Definition createDeck (draw : nat → nat) (shuffle : bool) : Baralho.PokerDeck :=
  if shuffle then Baralho.shuffle draw Baralho.newPokerDeck else Baralho.newPokerDeck.

(** What identifies a card whichever way it faces. *)
Definition face (c : Baralho.PokerCard) : Suit * Rank := (Baralho.suit c, Baralho.rank c).

Definition value (c : Baralho.PokerCard) : Z := rankValue (Baralho.rank c).

(** [hasPair]: [new Set(values).size !== values.length]; the cards are only
    read. *)
Definition hasPair (cards : list Baralho.PokerCard) : bool :=
  let values := map value cards in
  bool_decide (size (list_to_set values : gset Z) ≠ length values).

(** Everything the deck's arrays hold. *)
Definition allCards (d : Baralho.PokerDeck) : list nat :=
  Baralho.cards d ++ Baralho.usedCards d ++ Baralho.burnedCards d.

End BaralhoUtils.

(** ** poker-engine.js: the other operations of the engine's deck *)
Module EngineDeckOps.
Import Evaluator EngineDeck.

(** [reset] *)
Definition reset : PokerDeck :=
  {| cards := s ← Baralho.allSuits; r ← Baralho.allRanks; [mkCard s r];
     burnedCards := []; usedCards := [] |}.

(** [shuffle]: the same Fisher-Yates loop as in baralho-texas.js. *)
Definition shuffle (draw : nat → nat) (d : PokerDeck) : PokerDeck :=
  {| cards := Baralho.shuffleFrom draw (length (cards d)) (cards d);
     burnedCards := burnedCards d; usedCards := usedCards d |}.

(** [burnCard]; with a card in the deck [deal(1)] cannot throw. *)
Definition burnCard (d : PokerDeck) : option PokerCard * PokerDeck :=
  if decide (length (cards d) = 0)%nat then (None, d)
  else
    match deal 1 d with
    | inr (burnedCard :: _, d') =>
        (Some burnedCard,
         {| cards := cards d'; burnedCards := burnedCards d' ++ [burnedCard];
            usedCards := usedCards d' |})
    | _ => (None, d)
    end.

(** [remaining] *)
Definition remaining (d : PokerDeck) : nat := length (cards d).

(** [restoreUsedCards] *)
Definition restoreUsedCards (draw : nat → nat) (d : PokerDeck) : PokerDeck :=
  shuffle draw {| cards := cards d ++ usedCards d; usedCards := []; burnedCards := [] |}.

(** The calls a dealer makes on its deck.  A [deal] that throws leaves the
    deck as it was. *)
Inductive DeckOp :=
  | Deal (count : nat)
  | Burn
  | Restore (draw : nat → nat)
  | Shuffle (draw : nat → nat).

Definition step (d : PokerDeck) (op : DeckOp) : PokerDeck :=
  match op with
  | Deal count => match deal count d with inl _ => d | inr (_, d') => d' end
  | Burn => (burnCard d).2
  | Restore draw => restoreUsedCards draw d
  | Shuffle draw => shuffle draw d
  end.

Definition run (ops : list DeckOp) (d : PokerDeck) : PokerDeck := foldl step d ops.

End EngineDeckOps.

(** ** pot.js: the exported helpers [calculateSidePots] and [needsSidePot] *)
Module SidePots.
Import Player.

(** An entry of the array returned by [calculateSidePots]. *)
Record SidePot := mkSidePot {
  sp_level : nat;
  sp_amount : Z;
  sp_levelAmount : Z;
  sp_eligiblePlayers : list string;
  sp_contributingPlayers : nat
}.

(** [currentBets[p.userId]]; a missing key reads as [undefined], which is
    not [> 0], so such a player is filtered out like one who bet 0. *)
Definition betOf (currentBets : gmap string Z) (p : PokerPlayer) : Z :=
  default 0 (currentBets !! userId p).

(** The [for] loop of [calculateSidePots] from index [i] on; [rest] is
    [sortedPlayers.slice(i)]. *)
Fixpoint sidePotsFrom (currentBets : gmap string Z) (i : nat) (previousLevel : Z)
    (rest : list PokerPlayer) : list SidePot :=
  match rest with
  | [] => []
  | player :: rest' =>
      let playerBet := betOf currentBets player in
      if decide (playerBet > previousLevel) then
        let levelAmount := playerBet - previousLevel in
        {| sp_level := i + 1;
           sp_amount := levelAmount * Z.of_nat (length rest);
           sp_levelAmount := levelAmount;
           sp_eligiblePlayers := map userId rest;
           sp_contributingPlayers := length rest |}
        :: sidePotsFrom currentBets (i + 1) playerBet rest'
      else sidePotsFrom currentBets (i + 1) previousLevel rest'
  end.

(** [calculateSidePots(players, currentBets)] *)
Definition calculateSidePots (players : list PokerPlayer) (currentBets : gmap string Z)
    : list SidePot :=
  let sortedPlayers :=
    sortAscBy (betOf currentBets) (filter (λ p, betOf currentBets p > 0) players) in
  sidePotsFrom currentBets 0 0 sortedPlayers.

(** The level a pot is capped at: the sum of the level amounts up to it. *)
Definition capOf (pots : list SidePot) (k : nat) : Z :=
  sumZ (map sp_levelAmount (take (S k) pots)).

(** [Math.max(...values)] and [Math.min(...values)] of a non-empty array. *)
Definition maxOf (values : list Z) : Z :=
  match values with [] => 0 | v :: rest => foldr Z.max v rest end.
Definition minOf (values : list Z) : Z :=
  match values with [] => 0 | v :: rest => foldr Z.min v rest end.

(** [needsSidePot(players, bets)]; the function does not read [players]. *)
Definition needsSidePot (players : list PokerPlayer) (bets : gmap string Z) : bool :=
  let betValues := filter (λ b, b > 0) (map snd (map_to_list bets)) in
  if decide (length betValues < 2)%nat then false
  else bool_decide (maxOf betValues > minOf betValues).

End SidePots.

(** ** pot.js: queries of the pot manager, and what the ledger's books say *)
Module PotQueries.
Import Ledger.

(** [getPlayerTotalContribution] *)
Definition getPlayerTotalContribution (pm : PotManager) (playerId : string) : Z :=
  foldl (λ total pot, total + getPlayerContribution pot playerId)
        (0 + getPlayerContribution (mainPot pm) playerId) (sidePots pm).

(** The sum of the contributions recorded in a pot. *)
Definition contributed (pot : Pot) : Z :=
  map_fold (λ _ contrib acc, pc_amount contrib + acc) 0 (playerContributions pot).

(** A pot holds what its contributions add up to. *)
Definition Balanced (pot : Pot) : Prop := amount pot = contributed pot.

(** The room [addBet] finds for a player in the pots that exist. *)
Definition roomFor (playerId : string) (playerAllInAmount : Ceiling) (pm : PotManager) : Z :=
  sumZ (map (λ pot, Z.max 0 (getPotSpaceForPlayer playerId pot playerAllInAmount))
            (getAllPots pm)).



(** The part of a bet that [addBet] assigns to each of the existing pots, in
    their order: what is left of the bet, up to the room of the pot. *)
Fixpoint assigned (playerId : string) (playerAllInAmount : Ceiling) (pots : list Pot)
    (remainingAmount : Z) : list Z :=
  match pots with
  | [] => []
  | pot :: rest =>
      let part :=
        Z.max 0 (Z.min remainingAmount
                       (getPotSpaceForPlayer playerId pot playerAllInAmount)) in
      part :: assigned playerId playerAllInAmount rest (remainingAmount - part)
  end.

(** What a pot books of the part assigned to it.  A locked pot books
    nothing.  An open pot adds the part to its amount and to the player's
    contribution, and lists the player as eligible when the part is
    positive. *)
Definition Booked (playerId : string) (pot : Pot) (part : Z) (pot' : Pot) : Prop :=
  id pot' = id pot
  ∧ (isLocked pot = true → pot' = pot)
  ∧ (isLocked pot = false →
     isLocked pot' = false
     ∧ amount pot' = amount pot + part
     ∧ getPlayerContribution pot' playerId = getPlayerContribution pot playerId + part
     ∧ eligiblePlayers pot'
       = if decide (part > 0) then {[playerId]} ∪ eligiblePlayers pot
         else eligiblePlayers pot).

(** A contribution that joins the pots from the bottom: every pot lists the
    player as eligible already, or is open and has room for the player. *)
Definition Joins (pm : PotManager) (playerId : string) (playerAllInAmount : Ceiling)
    : Prop :=
  Forall (λ pot, playerId ∈ eligiblePlayers pot
                 ∨ (isLocked pot = false
                    ∧ getPotSpaceForPlayer playerId pot playerAllInAmount > 0))
         (getAllPots pm).

#[global] Instance Joins_dec pm playerId ceiling : Decision (Joins pm playerId ceiling).
Proof. unfold Joins. apply _. Defined.

(** Every contribution of chips in the sequence joins the pots of the ledger
    it meets. *)
Fixpoint admissible (fuel : nat) (ops : list LedgerOp) (pm : PotManager) : Prop :=
  match ops with
  | [] => True
  | op :: rest =>
      match op with
      | PostContribution playerId x playerAllInAmount =>
          x > 0 → Joins pm playerId playerAllInAmount
      | _ => True
      end
      ∧ match step fuel op pm with
        | Some pm' => admissible fuel rest pm'
        | None => True
        end
  end.

#[global] Instance admissible_dec fuel ops pm : Decision (admissible fuel ops pm).
Proof.
  revert pm. induction ops as [|op ops IH]; intros pm; simpl; [apply _|].
  destruct (step fuel op pm); destruct op; apply _.
Defined.

End PotQueries.

(** ** jogador.js: the seats of the player manager *)
Module Seating.
Import Player.

(** A slot of the [seats] array: [null], a user id, or the hole that an
    assignment beyond the end of the array leaves behind ([undefined]). *)
Inductive Seat := Free | Taken (userId : string) | Hole.

#[global] Instance Seat_eq_dec : EqDecision Seat.
Proof. solve_decision. Defined.

(** What [addPlayer], the constructor of [PokerPlayer] and
    [changePlayerPosition] throw. *)
Inductive SeatError :=
  | TableFull (max : nat)     (* `Mesa cheia (max: ${this.maxPlayers})` *)
  | AlreadySeated             (* 'Jogador já está na mesa' *)
  | NoSeatAvailable           (* 'Nenhum assento disponível' *)
  | IdRequired                (* 'ID do jogador é obrigatório' *)
  | InvalidPosition           (* 'Posição inválida' *)
  | PositionTaken.            (* 'Posição já ocupada' *)

(** [PlayerManager].  The array [players] and the map [playerMap] hold
    references to the same player objects: [objects] is the store of these
    objects and [allocated] counts the references handed out. *)
Record PlayerManager := mkPlayerManager {
  maxPlayers : nat;
  objects : gmap nat PokerPlayer;
  allocated : nat;
  players : list nat;
  seats : list Seat;
  playerMap : gmap string nat;
  activeCount : Z;
  eliminatedCount : Z;
  connectedCount : Z
}.

(** [new PlayerManager(maxPlayers)] *)
Definition newPlayerManager (maxPlayers : nat) : PlayerManager :=
  {| maxPlayers := maxPlayers; objects := ∅; allocated := 0; players := [];
     seats := replicate maxPlayers Free; playerMap := ∅;
     activeCount := 0; eliminatedCount := 0; connectedCount := 0 |}.

(** [this.seats[position]]: outside the array the read is [undefined]. *)
Definition seatAt (seats : list Seat) (position : Z) : Seat :=
  if decide (position < 0) then Hole else default Hole (seats !! Z.to_nat position).

(** [this.seats[position] = v]: beyond the end the array grows, with holes
    in between; a negative index is not an index of the array. *)
Definition setSeat (seats : list Seat) (position : Z) (v : Seat) : list Seat :=
  if decide (position < 0) then seats
  else if decide (Z.to_nat position < length seats)%nat then <[Z.to_nat position := v]> seats
  else seats ++ replicate (Z.to_nat position - length seats) Hole ++ [v].

(** [findAvailableSeat]; [-1] is [None]. *)
Definition findAvailableSeat (pm : PlayerManager) : option nat :=
  fst <$> list_find (λ s, s = Free) (seats pm).

(** [getPlayerById] *)
Definition getPlayerById (pm : PlayerManager) (id : string) : option PokerPlayer :=
  playerMap pm !! id ≫= λ ref, objects pm !! ref.

(** [getPlayerByPosition]: an empty user id is falsy. *)
Definition getPlayerByPosition (pm : PlayerManager) (position : Z) : option PokerPlayer :=
  match seatAt (seats pm) position with
  | Taken id => if decide (id = EmptyString) then None else getPlayerById pm id
  | _ => None
  end.

(** The players of the array, in its order. *)
Definition seated (pm : PlayerManager) : list PokerPlayer :=
  omap (λ ref, objects pm !! ref) (players pm).

(** [addPlayer(userId, nickname, chips)]: the new player and the manager
    afterwards.  Every [throw] comes before the first write. *)
Definition addPlayer (pm : PlayerManager) (id : string) (startingChips : Z)
    : SeatError + PokerPlayer * PlayerManager :=
  if decide (maxPlayers pm ≤ length (players pm))%nat then inl (TableFull (maxPlayers pm))
  else if bool_decide (is_Some (getPlayerById pm id)) then inl AlreadySeated
  else
    match findAvailableSeat pm with
    | None => inl NoSeatAvailable
    | Some position =>
        if decide (id = EmptyString) then inl IdRequired
        else
          let player := newPlayer id startingChips (Z.of_nat position) in
          let ref := allocated pm in
          inr (player,
               {| maxPlayers := maxPlayers pm;
                  objects := <[ref := player]> (objects pm);
                  allocated := S ref;
                  players := players pm ++ [ref];
                  seats := setSeat (seats pm) (Z.of_nat position) (Taken id);
                  playerMap := <[id := ref]> (playerMap pm);
                  activeCount := activeCount pm + 1;
                  eliminatedCount := eliminatedCount pm;
                  connectedCount := connectedCount pm + 1 |})
    end.

(** Whether the object behind a reference carries the user id. *)
Definition hasId (pm : PlayerManager) (id : string) (ref : nat) : Prop :=
  userId <$> objects pm !! ref = Some id.

#[global] Instance hasId_dec pm id ref : Decision (hasId pm id ref).
Proof. unfold hasId. apply _. Defined.

(** [removePlayer] *)
Definition removePlayer (pm : PlayerManager) (id : string) : bool * PlayerManager :=
  match getPlayerById pm id with
  | None => (false, pm)
  | Some player =>
      (true,
       {| maxPlayers := maxPlayers pm;
          objects := objects pm;
          allocated := allocated pm;
          players := match list_find (hasId pm id) (players pm) with
                     | Some (index, _) => delete index (players pm)
                     | None => players pm
                     end;
          seats := setSeat (seats pm) (position player) Free;
          playerMap := delete id (playerMap pm);
          activeCount := activeCount pm - (if isActive player then 1 else 0);
          eliminatedCount := eliminatedCount pm - (if isEliminated player then 1 else 0);
          connectedCount := connectedCount pm - (if connected player then 1 else 0) |})
  end.

Definition withPosition (p : PokerPlayer) (position' : Z) : PokerPlayer :=
  {| userId := userId p; chips := chips p; bet := bet p;
     totalBetThisHand := totalBetThisHand p; lastBetAmount := lastBetAmount p;
     position := position'; isActive := isActive p; isInHand := isInHand p;
     isFolded := isFolded p; isAllIn := isAllIn p;
     hasActedThisRound := hasActedThisRound p; sittingOut := sittingOut p;
     isEliminated := isEliminated p; isCurrentTurn := isCurrentTurn p;
     connected := connected p; lastAction := lastAction p;
     lastActionAmount := lastActionAmount p; actionHistory := actionHistory p;
     isWinner := isWinner p; wonAmount := wonAmount p; potWon := potWon p;
     stats := stats p |}.

(** [changePlayerPosition]: the position is checked before the player is
    looked up. *)
Definition changePlayerPosition (pm : PlayerManager) (id : string) (newPosition : Z)
    : SeatError + bool * PlayerManager :=
  if decide (newPosition < 0 ∨ Z.of_nat (maxPlayers pm) ≤ newPosition) then inl InvalidPosition
  else if decide (seatAt (seats pm) newPosition ≠ Free) then inl PositionTaken
  else
    match playerMap pm !! id with
    | None => inr (false, pm)
    | Some ref =>
        match objects pm !! ref with
        | None => inr (false, pm)
        | Some player =>
            inr (true,
                 {| maxPlayers := maxPlayers pm;
                    objects := <[ref := withPosition player newPosition]> (objects pm);
                    allocated := allocated pm;
                    players := players pm;
                    seats := setSeat (setSeat (seats pm) (position player) Free)
                                     newPosition (Taken id);
                    playerMap := playerMap pm;
                    activeCount := activeCount pm;
                    eliminatedCount := eliminatedCount pm;
                    connectedCount := connectedCount pm |})
        end
    end.

(** [getActivePlayers], as references. *)
Definition isActiveRef (pm : PlayerManager) (ref : nat) : Prop :=
  match objects pm !! ref with
  | Some p => isActive p = true ∧ sittingOut p = false ∧ chips p > 0
  | None => False
  end.

#[global] Instance isActiveRef_dec pm ref : Decision (isActiveRef pm ref).
Proof. unfold isActiveRef. destruct (objects pm !! ref); apply _. Defined.

Definition positionOf (pm : PlayerManager) (ref : nat) : Z :=
  from_option position 0 (objects pm !! ref).

(** The [activePlayers.forEach((player, index) => ...)] of [compactSeats]. *)
Fixpoint reseat (objects : gmap nat PokerPlayer) (seats : list Seat) (index : nat)
    (refs : list nat) : gmap nat PokerPlayer * list Seat :=
  match refs with
  | [] => (objects, seats)
  | ref :: rest =>
      match objects !! ref with
      | Some player =>
          reseat (<[ref := withPosition player (Z.of_nat index)]> objects)
                 (setSeat seats (Z.of_nat index) (Taken (userId player)))
                 (S index) rest
      | None => reseat objects seats (S index) rest
      end
  end.

(** [compactSeats] *)
Definition compactSeats (pm : PlayerManager) : PlayerManager :=
  let activePlayers := sortAscBy (positionOf pm) (filter (isActiveRef pm) (players pm)) in
  let '(objects', seats') :=
    reseat (objects pm) (replicate (length (seats pm)) Free) 0 activePlayers in
  {| maxPlayers := maxPlayers pm; objects := objects'; allocated := allocated pm;
     players := players pm; seats := seats'; playerMap := playerMap pm;
     activeCount := activeCount pm; eliminatedCount := eliminatedCount pm;
     connectedCount := connectedCount pm |}.

(** The calls that seat, unseat and move players; a call that throws
    leaves the manager as it was. *)
Inductive SeatOp :=
  | Add (id : string) (startingChips : Z)
  | Remove (id : string)
  | Move (id : string) (newPosition : Z).

Definition step (pm : PlayerManager) (op : SeatOp) : PlayerManager :=
  match op with
  | Add id startingChips =>
      match addPlayer pm id startingChips with inl _ => pm | inr (_, pm') => pm' end
  | Remove id => (removePlayer pm id).2
  | Move id newPosition =>
      match changePlayerPosition pm id newPosition with inl _ => pm | inr (_, pm') => pm' end
  end.

Definition run (ops : list SeatOp) (pm : PlayerManager) : PlayerManager :=
  foldl step pm ops.

(** The array and the map hold the same players, and the seats say where
    they sit. *)
Definition isTaken (s : Seat) : Prop :=
  match s with Taken _ => True | _ => False end.

#[global] Instance isTaken_dec s : Decision (isTaken s).
Proof. destruct s; apply _. Defined.

Record Consistent (pm : PlayerManager) : Prop := mkConsistent {
  seats_length : length (seats pm) = maxPlayers pm;
  seats_whole : Forall (λ s, s ≠ Hole) (seats pm);
  seats_count : length (filter isTaken (seats pm)) = length (players pm);
  players_fresh : Forall (λ ref, ref < allocated pm)%nat (players pm);
  players_NoDup : NoDup (players pm);
  players_seated :
    ∀ ref, ref ∈ players pm →
      ∃ p, objects pm !! ref = Some p
           ∧ 0 ≤ position p
           ∧ seats pm !! Z.to_nat (position p) = Some (Taken (userId p))
           ∧ playerMap pm !! userId p = Some ref;
  map_listed :
    ∀ id ref, playerMap pm !! id = Some ref →
      ref ∈ players pm ∧ hasId pm id ref;
  seats_owned :
    ∀ i id, seats pm !! i = Some (Taken id) →
      ∃ ref p, ref ∈ players pm ∧ objects pm !! ref = Some p
               ∧ userId p = id ∧ position p = Z.of_nat i
}.

End Seating.

(** ** poker-manager.js: who wins the showdown *)
Module ManagerShowdown.
Import Evaluator.

(** [determineWinners(handEvaluations)] on the entries of the object, in
    the order [Object.entries] lists them. *)
Definition determineWinners (entries : list (string * HandResult)) : list string :=
  if decide (length entries = 0%nat) then []
  else
    let sortedPlayers := sortBy (λ a b, compareHands b.2 a.2) entries in
    match sortedPlayers with
    | [] => []
    | top :: _ =>
        let bestHandValue := hr_value top.2 in
        map fst (filter (λ e, hr_value e.2 = bestHandValue) sortedPlayers)
    end.

End ManagerShowdown.

(** ** poker-engine.js: the dealer's hand and the engine around it *)
Module DealerTable.
Import Evaluator Dealer.

(** [PokerGameEngine.gameState] *)
Inductive EngineState := waiting | active | finished.

(** The dealer with its deck and board, and the engine's state.  The
    dealer's own [burnedCards] array is only ever emptied. *)
Record Table := mkTable {
  dealer : PokerDealer;
  dealerPosition : nat;
  deck : EngineDeck.PokerDeck;
  communityCards : list PokerCard;
  gameState : EngineState
}.

Definition withDealer (t : Table) (d : PokerDealer) : Table :=
  {| dealer := d; dealerPosition := dealerPosition t; deck := deck t;
     communityCards := communityCards t; gameState := gameState t |}.

Definition withPlayers (d : PokerDealer) (ps : list DealerPlayer) : PokerDealer :=
  {| players := ps; pot := pot d; currentRound := currentRound d;
     handHistory := handHistory d |}.

(** One blind of [applyBlinds]: [this.players[pos]] is mutated in place.
    The bet is set to the blind, not raised by it. *)
Definition payBlind (blind : Z) (label : string) (pos : nat) (d : PokerDealer)
    : PokerDealer :=
  match players d !! pos with
  | Some player =>
      if isActive player then
        let blindAmount := Z.min blind (chips player) in
        {| players :=
             <[pos := mkDealerPlayer (userId player) (chips player - blindAmount)
                        blindAmount (isActive player) (isAllIn player) (Some label)
                        (cards player)]> (players d);
           pot := pot d + blindAmount; currentRound := currentRound d;
           handHistory := handHistory d |}
      else d
  | None => d
  end.

(** [applyBlinds]: the blinds are the constants 50 and 100.  Without players
    the positions are [NaN] and nobody is found; here the lookup in the empty
    list finds nobody either. *)
Definition applyBlinds (dealerPosition : nat) (d : PokerDealer) : PokerDealer :=
  let smallBlindPos := ((dealerPosition + 1) mod length (players d))%nat in
  let bigBlindPos := ((dealerPosition + 2) mod length (players d))%nat in
  payBlind 100 "big blind" bigBlindPos (payBlind 50 "small blind" smallBlindPos d).

(** One iteration of a loop of [dealPrivateCards].  A [deal] that throws
    ends the function with the state as it is. *)
Definition DealState : Type :=
  option EngineDeck.DeckError * (EngineDeck.PokerDeck * list DealerPlayer).

Definition dealCardTo (second : bool) (st : DealState) (playerIdx : nat) : DealState :=
  match st with
  | (Some _, _) => st
  | (None, (deck, ps)) =>
      match ps !! playerIdx with
      | None => st
      | Some player =>
          if bool_decide (isActive player = true ∧ chips player > 0
                          ∧ (second = true → length (cards player) = 1%nat)) then
            match EngineDeck.deal 1 deck with
            | inl e => (Some e, (deck, ps))
            | inr (card :: _, deck') =>
                (None,
                 (deck',
                  <[playerIdx :=
                      mkDealerPlayer (userId player) (chips player)
                        (if second then bet player else 0) (isActive player)
                        (isAllIn player)
                        (if second then lastAction player else None)
                        (cards player ++ [card])]> ps))
            | inr ([], _) => st
            end
          else st
      end
  end.

(** [dealPrivateCards]: one card to every active player with chips, starting
    left of the dealer, then a second card to those who hold one. *)
Definition dealPrivateCards (dealerPosition : nat) (deck : EngineDeck.PokerDeck)
    (ps : list DealerPlayer) : DealState :=
  let startPos := ((dealerPosition + 1) mod length ps)%nat in
  let order := map (λ i, ((startPos + i) mod length ps)%nat) (seq 0 (length ps)) in
  foldl (dealCardTo true) (foldl (dealCardTo false) (None, (deck, ps)) order) order.

(** [startNewHand]: [reset], [shuffle], the private cards, the blinds. *)
Definition startNewHand (draw : nat → nat) (t : Table)
    : option EngineDeck.DeckError * Table :=
  let d0 := {| players := players (dealer t); pot := 0;
               currentRound := currentRound (dealer t);
               handHistory := handHistory (dealer t) |} in
  let fresh := EngineDeckOps.shuffle draw EngineDeckOps.reset in
  match dealPrivateCards (dealerPosition t) fresh (players d0) with
  | (Some e, (deck', ps')) =>
      (Some e,
       {| dealer := withPlayers d0 ps'; dealerPosition := dealerPosition t;
          deck := deck'; communityCards := []; gameState := gameState t |})
  | (None, (deck', ps')) =>
      let d1 := applyBlinds (dealerPosition t) (withPlayers d0 ps') in
      (None,
       {| dealer := {| players := players d1; pot := pot d1; currentRound := "preflop";
                       handHistory := handHistory d1 |};
          dealerPosition := dealerPosition t; deck := deck'; communityCards := [];
          gameState := gameState t |})
  end.

Definition withRound (d : PokerDealer) (round : string) : PokerDealer :=
  {| players := players d; pot := pot d; currentRound := round;
     handHistory := handHistory d |}.

(** [dealFlop]: a card is burned, then three are turned.  When the deal
    throws the burn has happened already. *)
Definition dealFlop (t : Table) : option EngineDeck.DeckError * Table :=
  let burnt := (EngineDeckOps.burnCard (deck t)).2 in
  match EngineDeck.deal 3 burnt with
  | inl e =>
      (Some e, {| dealer := dealer t; dealerPosition := dealerPosition t; deck := burnt;
                  communityCards := communityCards t; gameState := gameState t |})
  | inr (flop, deck') =>
      (None, {| dealer := withRound (dealer t) "flop"; dealerPosition := dealerPosition t;
                deck := deck'; communityCards := flop; gameState := gameState t |})
  end.

(** [dealTurn] and [dealRiver]: a card is burned, then one is turned. *)
Definition dealStreet (round : string) (t : Table) : option EngineDeck.DeckError * Table :=
  let burnt := (EngineDeckOps.burnCard (deck t)).2 in
  match EngineDeck.deal 1 burnt with
  | inr (card :: _, deck') =>
      (None, {| dealer := withRound (dealer t) round; dealerPosition := dealerPosition t;
                deck := deck'; communityCards := communityCards t ++ [card];
                gameState := gameState t |})
  | inr ([], _) => (None, t)
  | inl e =>
      (Some e, {| dealer := dealer t; dealerPosition := dealerPosition t; deck := burnt;
                  communityCards := communityCards t; gameState := gameState t |})
  end.

Definition dealTurn : Table → option EngineDeck.DeckError * Table := dealStreet "turn".
Definition dealRiver : Table → option EngineDeck.DeckError * Table := dealStreet "river".

(** An entry of [evaluatedHands]. *)
Record Evaluated := mkEvaluated {
  ev_player : DealerPlayer;
  ev_evaluation : HandResult
}.

(** An entry of the array returned by [determineWinners].  Of the [hand]
    object the name, the rank and the value are kept; a sole player left
    wins with the placeholder ['Vencedor único'] of rank 0, which has no
    value.  The [cards] of an evaluation are re-sorted in place by
    [compareHands] when it breaks a tie and are left out. *)
Record WinnerEntry := mkWinnerEntry {
  w_player : DealerPlayer;
  w_hand : option HandType;
  w_rank : Z;
  w_value : option Z;
  w_prize : Z;
  w_isSoleWinner : bool
}.

(** The players that reach the showdown. *)
Definition showdownPlayers (ps : list DealerPlayer) : list DealerPlayer :=
  filter (λ p, isActive p = true ∧ length (cards p) = 2%nat) ps.

(** The loop that collects the hands tied with the best one. *)
Fixpoint tiedWith (top : Evaluated) (rest : list Evaluated) : list Evaluated :=
  match rest with
  | [] => []
  | e :: rest' =>
      if decide (compareHands (ev_evaluation e) (ev_evaluation top) = 0)
      then e :: tiedWith top rest' else []
  end.

(** The final [winners.map((winner, index) => ...)]. *)
Fixpoint awardPrizes (prizePerWinner remainder : Z) (count : nat) (index : Z)
    (winners_ : list Evaluated) : list WinnerEntry :=
  match winners_ with
  | [] => []
  | winner :: rest =>
      {| w_player := ev_player winner;
         w_hand := Some (hr_hand (ev_evaluation winner));
         w_rank := hr_rank (ev_evaluation winner);
         w_value := Some (hr_value (ev_evaluation winner));
         w_prize := prizePerWinner + (if decide (index < remainder) then 1 else 0);
         w_isSoleWinner := bool_decide (count = 1%nat) |}
      :: awardPrizes prizePerWinner remainder count (index + 1) rest
  end.

(** [determineWinners]; [None] when an [evaluate] throws. *)
Definition determineWinners (communityCards : list PokerCard) (d : PokerDealer)
    : option (list WinnerEntry) :=
  match showdownPlayers (players d) with
  | [] => Some []
  | [winner] =>
      Some [{| w_player := winner; w_hand := None; w_rank := 0; w_value := None;
               w_prize := pot d; w_isSoleWinner := true |}]
  | activePlayers =>
      evaluatedHands ←
        mapM (λ player, mkEvaluated player <$> evaluate (cards player) communityCards)
             activePlayers;
      match sortBy (λ a b, compareHands (ev_evaluation a) (ev_evaluation b) * -1)
                   evaluatedHands with
      | [] => None
      | top :: rest =>
          let winners_ := top :: tiedWith top rest in
          let count := length winners_ in
          Some (awardPrizes (pot d / Z.of_nat count) (pot d mod Z.of_nat count)
                            count 0 winners_)
      end
  end.

(** The [winners.forEach] of [distributePrizes]. *)
Definition creditPrize (ps : list DealerPlayer) (winner : WinnerEntry)
    : list DealerPlayer :=
  match findPlayer ps (userId (w_player winner)) with
  | Some player =>
      storePlayer ps
        (mkDealerPlayer (userId player) (chips player + w_prize winner) (bet player)
           (isActive player) (isAllIn player) (lastAction player) (cards player))
  | None => ps
  end.

(** The elimination of the players left without chips. *)
Definition eliminate (p : DealerPlayer) : DealerPlayer :=
  if bool_decide (chips p ≤ 0 ∧ isActive p = true)
  then mkDealerPlayer (userId p) (chips p) (bet p) false (isAllIn p) (lastAction p)
         (cards p)
  else p.

(** [getActivePlayers] *)
Definition getActivePlayers (ps : list DealerPlayer) : list DealerPlayer :=
  filter (λ p, isActive p = true) ps.

(** [distributePrizes] *)
Definition distributePrizes (winners_ : list WinnerEntry) (t : Table) : Table :=
  match winners_ with
  | [] => t
  | _ =>
      let ps := map eliminate (foldl creditPrize (players (dealer t)) winners_) in
      {| dealer := withPlayers (dealer t) ps; dealerPosition := dealerPosition t;
         deck := deck t; communityCards := communityCards t;
         gameState := if decide (length (getActivePlayers ps) = 1%nat) then finished
                      else gameState t |}
  end.

(** [PokerDealer.resetForNewHand] *)
Definition resetForNewHand (draw : nat → nat) (t : Table) : Table :=
  {| dealer :=
       {| players := map (λ p, mkDealerPlayer (userId p) (chips p) 0 (isActive p) false
                                  None [])
                         (players (dealer t));
          pot := 0; currentRound := "preflop"; handHistory := [] |};
     dealerPosition := ((dealerPosition t + 1) mod length (players (dealer t)))%nat;
     deck := EngineDeckOps.restoreUsedCards draw (deck t);
     communityCards := []; gameState := gameState t |}.

(** The ['river'] case of [advanceRound]: the showdown.  When
    [determineWinners] throws nothing has been written. *)
Definition showdown (draw : nat → nat) (t : Table) : option (list WinnerEntry) * Table :=
  match determineWinners (communityCards t) (dealer t) with
  | None => (None, t)
  | Some winners_ => (Some winners_, resetForNewHand draw (distributePrizes winners_ t))
  end.

(** [isRoundComplete] *)
Definition isRoundComplete (ps : list DealerPlayer) : bool :=
  let activePlayers := getActivePlayers ps in
  if decide (length activePlayers ≤ 1)%nat then true
  else
    let maxBet := getCurrentMaxBet ps in
    bool_decide (Forall (λ p, bet p = maxBet) activePlayers)
    && bool_decide (Forall (λ p, lastAction p ≠ None) activePlayers).

(** [advanceRound]: the table as the call leaves it, whether it ended or
    threw. *)
Definition advanceRound (draw : nat → nat) (t : Table) : Table :=
  let round := currentRound (dealer t) in
  if decide (round = "preflop") then (dealFlop t).2
  else if decide (round = "flop") then (dealTurn t).2
  else if decide (round = "turn") then (dealRiver t).2
  else if decide (round = "river") then (showdown draw t).2
  else t.

(** [PokerGameEngine.playerAction] on an initialised engine: a request the
    dealer throws back is reported with [success: false]; [advanceRound] is
    started and not waited for, and what it throws is not caught here. *)
Definition playerAction (draw : nat → nat) (t : Table) (playerId action : string) (x : Z)
    : (DealerError + Processed) * Table :=
  match processPlayerAction (dealer t) playerId action x with
  | inl e => (inl e, t)
  | inr (res, d') =>
      let t1 := withDealer t d' in
      (inr res, if isRoundComplete (players d') then advanceRound draw t1 else t1)
  end.

(** The requests of a hand, in sequence; [draw] serves the shuffles. *)
Definition play (draw : nat → nat) (t : Table) (requests : list (string * string * Z))
    : Table :=
  foldl (λ t r, (playerAction draw t r.1.1 r.1.2 r.2).2) t requests.

(** The value an evaluated hand is compared by. *)
Definition strength (e : Evaluated) : Z := hr_value (ev_evaluation e).

(** Stacks and pot are not negative. *)
Definition Solvent (d : PokerDealer) : Prop :=
  0 ≤ pot d ∧ Forall (λ p, 0 ≤ chips p) (players d).

(** A seat keeps its player, and a player who is out stays out. *)
Definition StaysOut (p p' : DealerPlayer) : Prop :=
  userId p' = userId p ∧ (isActive p = false → isActive p' = false).

(** Whether a loop of [dealPrivateCards] deals to the player at an index. *)
Definition isDue (second : bool) (ps : list DealerPlayer) (playerIdx : nat) : bool :=
  match ps !! playerIdx with
  | Some player =>
      bool_decide (isActive player = true ∧ chips player > 0
                   ∧ (second = true → length (cards player) = 1%nat))
  | None => false
  end.

(** What dealing leaves of a player. *)
Definition SamePlayer (p p' : DealerPlayer) : Prop :=
  userId p' = userId p ∧ chips p' = chips p ∧ isActive p' = isActive p
  ∧ isAllIn p' = isAllIn p.

End DealerTable.

(** Fixtures used by the evaluator properties. *)
Module EvaluatorFixtures.
Import Evaluator.

(** A flush and a straight. *)
Definition c4_flush : list PokerCard * list PokerCard :=
  ([mkCard HEARTS R2; mkCard HEARTS R3],
   [mkCard HEARTS R4; mkCard HEARTS R5; mkCard HEARTS R7; mkCard CLUBS R9; mkCard SPADES RJ]).
Definition c4_straight : list PokerCard * list PokerCard :=
  ([mkCard SPADES RA; mkCard HEARTS RK],
   [mkCard CLUBS RQ; mkCard DIAMONDS RJ; mkCard SPADES R10; mkCard CLUBS R2; mkCard DIAMONDS R3]).

(** The wheel fixture of the specification, and two straights to rank it
    against. *)
Definition wheelHole : list PokerCard := [mkCard SPADES RA; mkCard SPADES R2].
Definition wheelBoard : list PokerCard :=
  [mkCard SPADES R3; mkCard SPADES R4; mkCard HEARTS R5; mkCard CLUBS R9; mkCard DIAMONDS RK].
Definition sixHighHole : list PokerCard := [mkCard SPADES R6; mkCard SPADES R2].
Definition kingHighHole : list PokerCard := [mkCard SPADES RQ; mkCard SPADES RJ].
Definition kingHighBoard : list PokerCard :=
  [mkCard SPADES R3; mkCard SPADES R10; mkCard HEARTS R5; mkCard CLUBS R9; mkCard DIAMONDS RK].

Definition wheelResult : HandResult :=
  {| hr_cards := [mkCard SPADES RA; mkCard HEARTS R5; mkCard SPADES R4;
                  mkCard SPADES R3; mkCard SPADES R2];
     hr_hand := STRAIGHT; hr_rank := 5; hr_value := 5552372 |}.
Definition sixHighResult : HandResult :=
  {| hr_cards := [mkCard SPADES R6; mkCard HEARTS R5; mkCard SPADES R4;
                  mkCard SPADES R3; mkCard SPADES R2];
     hr_hand := STRAIGHT; hr_rank := 5; hr_value := 5245044 |}.
(** Twos full of Aces, as [checkFullHouse] orders them. *)
Definition fullHouseHole : list PokerCard := [mkCard SPADES R2; mkCard HEARTS R2].
Definition fullHouseBoard : list PokerCard :=
  [mkCard DIAMONDS R2; mkCard CLUBS RA; mkCard DIAMONDS RA; mkCard CLUBS R9; mkCard DIAMONDS R5].

Definition kingHighResult : HandResult :=
  {| hr_cards := [mkCard DIAMONDS RK; mkCard SPADES RQ; mkCard SPADES RJ;
                  mkCard SPADES R10; mkCard CLUBS R9];
     hr_hand := STRAIGHT; hr_rank := 5; hr_value := 5534641 |}.

End EvaluatorFixtures.

(** Fixtures used by the deck properties. *)
Module DeckFixtures.
Import Evaluator.

(** One card left to deal, two already dealt, one of them burned: the burned
    King is one object, listed among the used and among the burned cards. *)
Definition nearlyEmpty : Baralho.PokerDeck :=
  {| Baralho.objects := [Baralho.mkCard HEARTS R2 false; Baralho.mkCard CLUBS RK false;
                         Baralho.mkCard SPADES RA true];
     Baralho.cards := [0%nat];
     Baralho.burnedCards := [1%nat];
     Baralho.usedCards := [2%nat; 1%nat] |}.

Definition nearlyEmptyEngine : EngineDeck.PokerDeck :=
  {| EngineDeck.cards := [Evaluator.mkCard HEARTS R2];
     EngineDeck.burnedCards := [Evaluator.mkCard CLUBS RK];
     EngineDeck.usedCards := [Evaluator.mkCard SPADES RA; Evaluator.mkCard CLUBS RK] |}.

(** A source of draws that always answers 0. *)
Definition zeroDraw : nat → nat := λ _, 0%nat.

End DeckFixtures.

(** Fixtures used by the ledger properties. *)
Module LedgerFixtures.
Import Ledger.

(** The side-pot scenario of the specification: A is all-in for 100, B and
    C have put in 300 each.  Main pot 300 with A, B and C eligible, side pot
    400 with B and C eligible. *)
Definition scenarioMain : Pot :=
  let p0 := newPot MainId 0 in
  let p1 := (addPlayerContribution p0 "A" 100 preflop).2 in
  let p2 := (addPlayerContribution p1 "B" 100 preflop).2 in
  (addPlayerContribution p2 "C" 100 preflop).2.

Definition scenarioSide : Pot :=
  let p0 := newPot (SideId 1) 1 in
  let p1 := (addPlayerContribution p0 "B" 200 preflop).2 in
  (addPlayerContribution p1 "C" 200 preflop).2.

Definition scenario : PotManager :=
  updateTotalAmount (withPots newPotManager scenarioMain [scenarioSide]).

(** A pot of 100 chips. *)
Definition pot100 : Pot :=
  (addPlayerContribution (newPot MainId 0) "A" 100 preflop).2.

(** A ledger whose main pot already holds 100 chips of A. *)
Definition ledgerA100 : PotManager :=
  updateTotalAmount (withPots newPotManager pot100 []).

(** What [distributeAllPots] credits to [who] when it is called on the
    scenario with the winner list [ws]. *)
Definition scenarioPaid (ws : list string) (who : string) : option Z :=
  (distributeAllPots 0 scenario ws ∅).1 ≫= (λ d, dist_winners d !! who).

(** Hand strengths for the stand-alone helper: A best, then B, then C. *)
Definition scenarioStrengths : gmap string Z :=
  {[ "A" := 3; "B" := 2; "C" := 1 ]}.

End LedgerFixtures.

(** Fixtures used by the player and manager properties. *)
Module TableFixtures.
Import Player Manager.

(** A player with 1000 chips whose turn it is. *)
Definition alice : PokerPlayer :=
  withAction (newPlayer "alice" 1000 0) None 0 false true.

Definition aliceTurn (maxBet : Z) : GameView :=
  {| Player.currentPlayerTurn := Some "alice"; Player.currentMaxBet := maxBet;
     Player.currentRound := Some Ledger.preflop |}.

Definition bobTurn : GameView :=
  {| Player.currentPlayerTurn := Some "bob"; Player.currentMaxBet := 0;
     Player.currentRound := Some Ledger.preflop |}.

(** A heads-up table at the start of a hand: blinds 10/20, both stacks
    1500, the ledger just reset. *)
Definition ana : PokerPlayer := newPlayer "ana" 1500 0.
Definition bia : PokerPlayer := newPlayer "bia" 1500 1.

Definition headsUp : Game :=
  {| initialized := true; state := STARTING; Manager.currentRound := Ledger.preflop;
     Manager.currentPlayerTurn := None; Manager.currentMaxBet := 0;
     lastRaiseAmount := 0; smallBlind := 10; bigBlind := 20; ante := 0;
     smallBlindPosition := 0; bigBlindPosition := 1;
     players := [ana; bia];
     potManager := Ledger.resetForNewHand Ledger.newPotManager;
     Manager.lastAction := None; Manager.actionHistory := []; errorLog := [] |}.

(** The same table later in the hand, ana to act. *)
Definition headsUpPreflop : Game :=
  {| initialized := true; state := PREFLOP; Manager.currentRound := Ledger.preflop;
     Manager.currentPlayerTurn := Some "ana"; Manager.currentMaxBet := 0;
     lastRaiseAmount := 0; smallBlind := 10; bigBlind := 20; ante := 0;
     smallBlindPosition := 0; bigBlindPosition := 1;
     players := [ana; bia];
     potManager := Ledger.resetForNewHand Ledger.newPotManager;
     Manager.lastAction := None; Manager.actionHistory := []; errorLog := [] |}.

(** The table of the side-pot scenario at showdown: A started with 100, B
    and C with 500; the ledger holds the 700 chips that were bet. *)
Definition atShowdown : Game :=
  {| initialized := true; state := SHOWDOWN; Manager.currentRound := Ledger.river;
     Manager.currentPlayerTurn := None; Manager.currentMaxBet := 0;
     lastRaiseAmount := 0; smallBlind := 10; bigBlind := 20; ante := 0;
     smallBlindPosition := 1; bigBlindPosition := 2;
     players := [ (addToBet (newPlayer "A" 100 0) 100).2;
                  (addToBet (newPlayer "B" 500 1) 300).2;
                  (addToBet (newPlayer "C" 500 2) 300).2 ];
     potManager := LedgerFixtures.scenario;
     Manager.lastAction := None; Manager.actionHistory := []; errorLog := [] |}.

End TableFixtures.

(** Fixtures for the side-pot helpers: the scenario of the specification,
    A all-in for 100, B and C in for 300 each. *)
Module SidePotFixtures.
Import Player.

Definition scenarioPlayers : list PokerPlayer :=
  [newPlayer "A" 100 0; newPlayer "B" 500 1; newPlayer "C" 500 2].

Definition scenarioBets : gmap string Z := {[ "A" := 100; "B" := 300; "C" := 300 ]}.

End SidePotFixtures.

(** Fixtures used by the seating properties. *)
Module SeatingFixtures.
Import Seating.

(** A table of three seats: ana came without chips, bia with 100. *)
Definition idleTable : PlayerManager :=
  run [Add "ana" 0; Add "bia" 100] (newPlayerManager 3).

End SeatingFixtures.

(** Fixtures used by the dealer properties. *)
Module DealerFixtures.
Import Evaluator Dealer DealerTable.

Definition seat (id : string) (stack : Z) (hole : list PokerCard) : DealerPlayer :=
  mkDealerPlayer id stack 0 true false None hole.

(** Three players on the river; ana and bia hold the same straight, caio a
    pair. *)
Definition riverBoard : list PokerCard :=
  [mkCard HEARTS R10; mkCard CLUBS RJ; mkCard DIAMONDS RQ; mkCard SPADES R2;
   mkCard HEARTS R3].

Definition riverTable : Table :=
  {| dealer :=
       {| players := [seat "ana" 900 [mkCard SPADES RK; mkCard SPADES RA];
                      seat "bia" 900 [mkCard HEARTS RK; mkCard HEARTS RA];
                      seat "caio" 899 [mkCard CLUBS R2; mkCard CLUBS R7]];
          pot := 301; currentRound := "river"; handHistory := [] |};
     dealerPosition := 0;
     deck := EngineDeckOps.reset;
     communityCards := riverBoard;
     gameState := active |}.

(** Three players before a hand. *)
Definition freshTable : Table :=
  {| dealer := {| players := [seat "ana" 1500 []; seat "bia" 1500 []; seat "caio" 30 []];
                  pot := 0; currentRound := "preflop"; handHistory := [] |};
     dealerPosition := 0; deck := EngineDeckOps.reset; communityCards := [];
     gameState := active |}.

(** The river with one player left in the hand. *)
Definition lastStanding : Table :=
  {| dealer :=
       {| players := [seat "ana" 900 [mkCard SPADES RK; mkCard SPADES RA];
                      mkDealerPlayer "bia" 900 100 false false (Some "fold") [];
                      mkDealerPlayer "caio" 899 100 false false (Some "fold") []];
          pot := 301; currentRound := "river"; handHistory := [] |};
     dealerPosition := 0;
     deck := EngineDeckOps.reset;
     communityCards := riverBoard;
     gameState := active |}.

End DealerFixtures.

(** ** Properties of the hand evaluator *)
Module EvaluatorFacts.
Import Evaluator EvaluatorFixtures.

Lemma value_range (c : PokerCard) : 2 ≤ value c ≤ 14.
Proof. destruct c as [s r]; destruct r; unfold value; simpl; lia. Qed.

Lemma length_insertDescBy {A} (key : A → Z) x l :
  length (insertDescBy key x l) = S (length l).
Proof. induction l as [|y l IH]; simpl; [done|]. case_decide; simpl; by rewrite ?IH. Qed.

Lemma length_sortDescBy {A} (key : A → Z) l : length (sortDescBy key l) = length l.
Proof.
  induction l as [|x l IH]; simpl; [done|].
  by rewrite length_insertDescBy, IH.
Qed.

(** Up to five kickers never reach the weight of one category step. *)
Lemma kickerSum_bound (l : list PokerCard) :
  (length l ≤ 5)%nat → 0 ≤ kickerSum 0 l < 1000000.
Proof.
  intros Hlen.
  destruct l as [|c0 [|c1 [|c2 [|c3 [|c4 [|c5 l]]]]]]; simpl in Hlen; try lia;
    cbn [kickerSum];
    repeat match goal with
           | |- context [14 ^ ?e] =>
               let v := eval vm_compute in (14 ^ e) in change (14 ^ e) with v
           end;
    repeat match goal with
           | c : PokerCard |- _ => pose proof (value_range c); generalize dependent (value c); clear c
           end; intros; lia.
Qed.

Lemma calculateHandValue_weight cs r :
  (length cs ≤ 5)%nat →
  r * 1000000 ≤ calculateHandValue cs r < (r + 1) * 1000000.
Proof.
  intros Hlen. unfold calculateHandValue.
  pose proof (kickerSum_bound (sortDesc cs)) as Hk.
  unfold sortDesc in *. rewrite length_sortDescBy in Hk. lia.
Qed.

Lemma finalizeResult_Finalized slots t h :
  (length slots ≤ 5)%nat → finalizeResult slots t = Some h → Finalized h.
Proof.
  unfold finalizeResult. intros Hlen Hf.
  destruct (mapM id slots) as [cs|] eqn:Hm; [|done].
  injection Hf as <-. exists cs, t. split; [|done].
  apply length_mapM in Hm. lia.
Qed.

Lemma finalizeCards_Finalized cs t h :
  (length cs ≤ 5)%nat → finalizeCards cs t = Some h → Finalized h.
Proof.
  intros Hlen. apply finalizeResult_Finalized. by rewrite length_map.
Qed.

(** Every check hands at most five cards to [finalizeResult]. *)
Ltac solve_length :=
  cbn [fst snd]; rewrite ?length_cons, ?length_app, ?length_take; lia.

Lemma firstRun_length u r : firstRun u = Some r → (length r ≤ 5)%nat.
Proof.
  revert r. induction u as [|x u IH]; intros r; cbn [firstRun]; [done|].
  repeat case_match; try done.
  - intros [= <-]. solve_length.
  - apply IH.
Qed.

Lemma checkStraight_length cs r : checkStraight cs = Some r → (length r ≤ 5)%nat.
Proof.
  unfold checkStraight. destruct (firstRun _) eqn:Hrun.
  - intros [= <-]. by eapply firstRun_length.
  - case_match; [|done]. intros [= <-].
    repeat (destruct (findValue _ _)); simpl; lia.
Qed.

Lemma straightFlushIn_length gs r : straightFlushIn gs = Some r → (length r ≤ 5)%nat.
Proof.
  revert r. induction gs as [|g gs IH]; intros r; simpl; [done|].
  repeat case_match; try done; try apply IH.
  intros [= <-]. solve_length.
Qed.

Lemma checkRoyalFlush_length cs r : checkRoyalFlush cs = Some r → (length r ≤ 5)%nat.
Proof.
  unfold checkRoyalFlush. destruct (checkStraightFlush cs) eqn:Hsf; [|done].
  case_match; [|done]. intros [= <-]. by eapply straightFlushIn_length.
Qed.

Lemma bestGroup_length n ex gs b :
  bestGroup n ex gs = Some b → (length b.2 ≤ n)%nat.
Proof.
  unfold bestGroup.
  assert (Hgen : ∀ acc, (∀ a, acc = Some a → (length a.2 ≤ n)%nat) →
            ∀ b, foldl (λ best g,
                   if decide ((n ≤ length g.2)%nat ∧ Some g.1 ≠ ex) then
                     match best with
                     | None => Some (g.1, take n g.2)
                     | Some b => if decide (g.1 > b.1) then Some (g.1, take n g.2) else best
                     end
                   else best) acc gs = Some b → (length b.2 ≤ n)%nat).
  { induction gs as [|g gs IH]; simpl; intros acc Hacc b'; [apply Hacc|].
    apply IH. intros a. repeat case_match; intros Ha; simplify_eq; simpl;
      rewrite ?length_take; try lia; by apply Hacc. }
  apply Hgen. done.
Qed.

Lemma evaluate_at_most_five hand community h :
  evaluate hand community = Some h → Finalized h.
Proof.
  unfold evaluate.
  destruct (checkRoyalFlush _) eqn:H1.
  { apply finalizeCards_Finalized. by eapply checkRoyalFlush_length. }
  destruct (checkStraightFlush _) eqn:H2.
  { apply finalizeCards_Finalized. by eapply straightFlushIn_length. }
  destruct (checkFourOfAKind _) eqn:H3.
  { apply finalizeResult_Finalized. unfold checkFourOfAKind in H3.
    repeat case_match; simplify_eq. solve_length. }
  destruct (checkFullHouse _) eqn:H4.
  { apply finalizeCards_Finalized. unfold checkFullHouse in H4.
    repeat case_match; simplify_eq. rewrite length_app.
    repeat match goal with
           | H : bestGroup _ _ _ = Some _ |- _ => apply bestGroup_length in H
           end. lia. }
  destruct (checkFlush _) eqn:H5.
  { apply finalizeCards_Finalized. unfold checkFlush in H5.
    repeat case_match; simplify_eq. solve_length. }
  destruct (checkStraight _) eqn:H6.
  { apply finalizeCards_Finalized. by eapply checkStraight_length. }
  destruct (checkThreeOfAKind _) eqn:H7.
  { apply finalizeCards_Finalized. unfold checkThreeOfAKind in H7.
    repeat case_match; simplify_eq. solve_length. }
  destruct (checkTwoPair _) eqn:H8.
  { apply finalizeResult_Finalized. unfold checkTwoPair in H8.
    repeat case_match; simplify_eq. solve_length. }
  destruct (checkOnePair _) eqn:H9.
  { apply finalizeCards_Finalized. unfold checkOnePair in H9.
    repeat case_match; simplify_eq. solve_length. }
  apply finalizeCards_Finalized. unfold checkHighCard. solve_length.
Qed.

(** The comparator as an order. *)
Lemma compareCards_antisym l1 l2 : compareCards l2 l1 = - compareCards l1 l2.
Proof.
  revert l2. induction l1 as [|c1 l1 IH]; intros [|c2 l2]; simpl; try done.
  repeat case_decide; try lia. apply IH.
Qed.

Lemma compareCards_range l1 l2 :
  compareCards l1 l2 = 1 ∨ compareCards l1 l2 = 0 ∨ compareCards l1 l2 = -1.
Proof.
  revert l2. induction l1 as [|c1 l1 IH]; intros [|c2 l2]; simpl; auto.
  repeat case_decide; auto.
Qed.

Lemma compareCards_trans l1 l2 l3 :
  compareCards l1 l2 = 1 → compareCards l2 l3 = 1 → compareCards l1 l3 = 1.
Proof.
  revert l2 l3. induction l1 as [|c1 l1 IH]; intros [|c2 l2] [|c3 l3]; simpl; try done.
  repeat case_decide; try lia; try done. apply IH.
Qed.

Lemma compareHands_antisym a b : compareHands b a = - compareHands a b.
Proof.
  unfold compareHands. repeat case_decide; try lia. apply compareCards_antisym.
Qed.

Lemma compareHands_range a b :
  compareHands a b = 1 ∨ compareHands a b = 0 ∨ compareHands a b = -1.
Proof. unfold compareHands. repeat case_decide; auto using compareCards_range. Qed.

Lemma compareHands_trans a b c :
  compareHands a b = 1 → compareHands b c = 1 → compareHands a c = 1.
Proof.
  unfold compareHands. repeat case_decide; try lia; try done.
  apply compareCards_trans.
Qed.

Lemma Finalized_weight h :
  Finalized h → hr_rank h * 1000000 ≤ hr_value h < (hr_rank h + 1) * 1000000.
Proof. intros (cs & t & Hlen & ->). simpl. by apply calculateHandValue_weight. Qed.

(** The kicker part of the value tells the same story as the card-by-card
    tie-break. *)
Lemma descending_insert x cs :
  descending cs → descending (insertDescBy value x cs).
Proof.
  induction cs as [|y cs IH]; [done|].
  intros Hd. cbn [insertDescBy]. case_decide as Hxy.
  - destruct cs as [|z cs]; [simpl; lia|].
    destruct Hd as [Hzy Hd]. specialize (IH Hd).
    cbn [insertDescBy] in *. case_decide; simpl in *; intuition lia.
  - simpl. split; [lia|done].
Qed.

Lemma descending_sortDesc cs : descending (sortDesc cs).
Proof.
  unfold sortDesc, sortDescBy. induction cs as [|x cs IH]; [done|].
  simpl. by apply descending_insert.
Qed.

Ltac card_values :=
  repeat match goal with
         | c : PokerCard |- _ =>
             pose proof (value_range c); generalize dependent (value c); clear c; intros
         end.

Lemma kickerSum_follows_cards l1 l2 :
  (length l1 ≤ 5)%nat → (length l2 ≤ 5)%nat → descending l1 → descending l2 →
  compareCards l1 l2 = 1 → kickerSum 0 l1 > kickerSum 0 l2.
Proof.
  intros H1 H2 Hd1 Hd2.
  destruct l1 as [|a0 [|a1 [|a2 [|a3 [|a4 [|a5 l1]]]]]]; simpl in H1; try lia;
  destruct l2 as [|b0 [|b1 [|b2 [|b3 [|b4 [|b5 l2]]]]]]; simpl in H2; try lia;
    cbn [compareCards kickerSum descending] in *;
    repeat match goal with
           | |- context [14 ^ ?e] =>
               let v := eval vm_compute in (14 ^ e) in change (14 ^ e) with v
           end;
    repeat case_decide; intros Hc; try discriminate Hc; try lia;
    card_values; lia.
Qed.

Lemma kickerSum_equal_cards_tie l1 l2 :
  (length l1 ≤ 5)%nat → (length l2 ≤ 5)%nat → descending l1 → descending l2 →
  kickerSum 0 l1 = kickerSum 0 l2 → compareCards l1 l2 = 0.
Proof.
  intros H1 H2 Hd1 Hd2 Heq.
  destruct (compareCards_range l1 l2) as [Hc|[Hc|Hc]]; [|done|].
  - pose proof (kickerSum_follows_cards l1 l2 H1 H2 Hd1 Hd2 Hc). lia.
  - assert (compareCards l2 l1 = 1) as Hc' by (rewrite compareCards_antisym; lia).
    pose proof (kickerSum_follows_cards l2 l1 H2 H1 Hd2 Hd1 Hc'). lia.
Qed.

(** On evaluated hands the comparator is the comparison of the single
    integer [value]. *)
Lemma compareHands_is_value_order h1 h2 :
  Finalized h1 → Finalized h2 →
  compareHands h1 h2 = Z.sgn (hr_value h1 - hr_value h2).
Proof.
  intros Hf1 Hf2.
  pose proof (Finalized_weight h1 Hf1) as Hw1.
  pose proof (Finalized_weight h2 Hf2) as Hw2.
  destruct Hf1 as (cs1 & t1 & Hlen1 & ->). destruct Hf2 as (cs2 & t2 & Hlen2 & ->).
  unfold compareHands. cbn [hr_rank hr_value hr_cards] in *.
  repeat case_decide; try lia.
  rewrite !take_ge by lia.
  rewrite (kickerSum_equal_cards_tie (sortDesc cs1) (sortDesc cs2)); [lia|..].
  - unfold sortDesc. by rewrite length_sortDescBy.
  - unfold sortDesc. by rewrite length_sortDescBy.
  - apply descending_sortDesc.
  - apply descending_sortDesc.
  - unfold calculateHandValue in *. lia.
Qed.

(** C4.  On evaluated hands the comparator is a strict total order
    consistent with category dominance: it is the comparison of the single
    integer [value] (1, 0 or -1 as the first value is larger than, equal to
    or smaller than the second), hence antisymmetric, with a transitive
    "above" relation and ties exactly at equal values; and a hand of a higher
    category compares strictly above a hand of a lower one whatever the
    kickers are, because the category is stored at weight 1000000 while up to
    five kickers of value at most 14 stay below 1000000. *)
Theorem compareHands_category_dominance hand1 community1 hand2 community2 h1 h2 :
  evaluate hand1 community1 = Some h1 →
  evaluate hand2 community2 = Some h2 →
  compareHands h1 h2 = Z.sgn (hr_value h1 - hr_value h2)
  ∧ compareHands h2 h1 = - compareHands h1 h2
  ∧ (∀ h3, compareHands h1 h2 = 1 → compareHands h2 h3 = 1 → compareHands h1 h3 = 1)
  ∧ (hr_rank h1 * 1000000 ≤ hr_value h1 < (hr_rank h1 + 1) * 1000000)
  ∧ (hr_rank h1 > hr_rank h2 →
       compareHands h1 h2 = 1 ∧ compareHands h2 h1 = -1 ∧ hr_value h1 > hr_value h2).
Proof.
  intros He1 He2.
  apply evaluate_at_most_five in He1, He2.
  split; [by apply compareHands_is_value_order|].
  apply Finalized_weight in He1, He2.
  split; [apply compareHands_antisym|].
  split; [intros h3; apply compareHands_trans|].
  split; [done|].
  intros Hrank. unfold compareHands. repeat case_decide; lia.
Qed.

Lemma compareHands_category_dominance_witness :
  ∃ h1 h2,
    evaluate c4_flush.1 c4_flush.2 = Some h1 ∧
    evaluate c4_straight.1 c4_straight.2 = Some h2 ∧
    hr_hand h1 = FLUSH ∧ hr_hand h2 = STRAIGHT ∧
    compareHands h1 h2 = 1 ∧ hr_value h1 > hr_value h2.
Proof.
  eexists _, _.
  split; [vm_compute; reflexivity|].
  split; [vm_compute; reflexivity|].
  split; [reflexivity|]. split; [reflexivity|].
  pose proof (compareHands_category_dominance
                c4_flush.1 c4_flush.2 c4_straight.1 c4_straight.2 _ _
                ltac:(vm_compute; reflexivity) ltac:(vm_compute; reflexivity))
    as (_ & _ & _ & _ & Hdom).
  destruct Hdom as (H1 & _ & H2); [simpl; lia|]. split; assumption.
Defined.

(** C5.  On the wheel fixture [evaluate] does find a Straight, but the Ace
    keeps its value 14: the five cards carry the values 14, 5, 4, 3, 2, the
    hand value is computed with the Ace as the top kicker, and the wheel is
    ranked above the six-high straight and even above the king-high one. *)
Theorem wheel_ranked_with_ace_high :
  evaluate wheelHole wheelBoard = Some wheelResult
  ∧ map value (hr_cards wheelResult) = [14; 5; 4; 3; 2]
  ∧ hr_value wheelResult = 5 * 1000000 + 14 * 14 ^ 4 + 5 * 14 ^ 3 + 4 * 14 ^ 2 + 3 * 14 + 2
  ∧ evaluate sixHighHole wheelBoard = Some sixHighResult
  ∧ compareHands wheelResult sixHighResult = 1
  ∧ evaluate kingHighHole kingHighBoard = Some kingHighResult
  ∧ compareHands wheelResult kingHighResult = 1.
Proof. repeat split; vm_compute; reflexivity. Qed.

End EvaluatorFacts.

(** ** Properties of the two decks *)
Module DeckFacts.
Import Evaluator DeckFixtures.

Lemma length_swap {A} i j (l : list A) : length (Baralho.swap i j l) = length l.
Proof. unfold Baralho.swap. repeat case_match; by rewrite ?length_insert. Qed.

Lemma length_shuffleFrom {A} draw k (l : list A) :
  length (Baralho.shuffleFrom draw k l) = length l.
Proof.
  revert l. induction k as [|k IH]; intros l; simpl; [done|].
  by rewrite IH, length_swap.
Qed.

(** The swap of the shuffle loop only permutes. *)
Lemma swap_Permutation {A} i j (l : list A) : Baralho.swap i j l ≡ₚ l.
Proof.
  unfold Baralho.swap.
  destruct (l !! i) as [x|] eqn:Hi; [|done].
  destruct (l !! j) as [y|] eqn:Hj; [|done].
  apply Permutation_inj. split; [by rewrite !length_insert|].
  exists (λ k, if decide (k = i) then j else if decide (k = j) then i else k).
  split.
  - intros a b. repeat case_decide; intros; simplify_eq; done.
  - intros k. pose proof (lookup_lt_Some _ _ _ Hi). pose proof (lookup_lt_Some _ _ _ Hj).
    destruct (decide (k = i)) as [->|Hki].
    + rewrite list_lookup_insert_eq by (by rewrite length_insert). done.
    + rewrite list_lookup_insert_ne by done.
      destruct (decide (k = j)) as [->|Hkj].
      * rewrite list_lookup_insert_eq by done. done.
      * by rewrite list_lookup_insert_ne by done.
Qed.

Lemma shuffleFrom_Permutation {A} draw k (l : list A) : Baralho.shuffleFrom draw k l ≡ₚ l.
Proof.
  revert l. induction k as [|k IH]; intros l; simpl; [done|].
  by rewrite IH, swap_Permutation.
Qed.

(** Turning cards writes [faceUp] of the objects referred to, and nothing
    else. *)
Lemma turnCards_lookup up refs objs ref :
  Baralho.turnCards up refs objs !! ref
  = if decide (ref ∈ refs) then Baralho.setFaceUp up <$> objs !! ref else objs !! ref.
Proof.
  revert objs. induction refs as [|r refs IH]; intros objs; [done|].
  change (Baralho.turnCards up (r :: refs) objs)
    with (Baralho.turnCards up refs (alter (Baralho.setFaceUp up) r objs)).
  rewrite IH. destruct (decide (ref = r)) as [->|Hne].
  - rewrite list_lookup_alter_eq, (decide_True (P := r ∈ r :: refs)) by left.
    case_decide; [|done]. by destruct (objs !! r).
  - rewrite list_lookup_alter_ne by done.
    apply decide_ext. rewrite elem_of_cons.
    split; [by right|]. by intros [?|?].
Qed.

Lemma length_turnCards up refs objs :
  length (Baralho.turnCards up refs objs) = length objs.
Proof.
  revert objs. induction refs as [|r refs IH]; intros objs; [done|].
  change (Baralho.turnCards up (r :: refs) objs)
    with (Baralho.turnCards up refs (alter (Baralho.setFaceUp up) r objs)).
  by rewrite IH, length_alter.
Qed.

Lemma restoreUsedCards_cards draw d :
  Baralho.cards (Baralho.restoreUsedCards draw d)
  ≡ₚ Baralho.cards d ++ Baralho.usedCards d ++ Baralho.burnedCards d.
Proof. simpl. apply shuffleFrom_Permutation. Qed.

(** What [deal] does to the card objects. *)
Lemma deal_objects draw count up d ref :
  Baralho.objects (Baralho.deal draw count up d).2 !! ref
  = if decide (ref ∈ (Baralho.deal draw count up d).1)
    then Baralho.setFaceUp up <$> Baralho.objects d !! ref
    else Baralho.objects d !! ref.
Proof.
  unfold Baralho.deal. cbn [fst snd Baralho.objects]. rewrite turnCards_lookup.
  by destruct (decide (length (Baralho.cards d) < count)%nat).
Qed.

(** C9, as stated, fails on the stand-alone deck: asked for two cards with
    one left, [deal] raises nothing, puts the used and the burned cards back,
    reshuffles, and deals again the Ace that was already in play. *)
Lemma baralho_deal_restores_instead_of_failing :
  (length (Baralho.cards nearlyEmpty) < 2)%nat
  ∧ Baralho.cardObjects (Baralho.deal zeroDraw 2 false nearlyEmpty).2
                        (Baralho.deal zeroDraw 2 false nearlyEmpty).1
    = [Baralho.mkCard SPADES RA false; Baralho.mkCard CLUBS RK false]
  ∧ Baralho.mkCard SPADES RA true
    ∈ Baralho.cardObjects nearlyEmpty (Baralho.usedCards nearlyEmpty).
Proof. split; [simpl; lia|]. split; [vm_compute; reflexivity|]. set_solver. Qed.

(** C9, amended.  When more cards are requested than remain, the engine's
    deck fails with an explicit error naming both numbers and is left as it
    was; the stand-alone deck instead restores the used and burned cards,
    reshuffles, and deals from the restored deck: the restored deck holds
    every reference of the three arrays, the dealt cards are its first
    [count] cards, which are the used cards afterwards, nothing is burned, and
    the objects dealt are turned as asked while no other object changes. *)
Theorem deal_beyond_remaining (count : nat) (e : EngineDeck.PokerDeck)
    (d : Baralho.PokerDeck) (draw : nat → nat) (up : bool) :
  (length (EngineDeck.cards e) < count)%nat →
  (length (Baralho.cards d) < count)%nat →
  EngineDeck.deal count e = inl (EngineDeck.NotEnoughCards (length (EngineDeck.cards e)) count)
  ∧ (let restored := Baralho.restoreUsedCards draw d in
     let r := Baralho.deal draw count up d in
     Baralho.cards restored
     ≡ₚ Baralho.cards d ++ Baralho.usedCards d ++ Baralho.burnedCards d
     ∧ r.1 = take count (Baralho.cards restored)
     ∧ Baralho.cards r.2 = drop count (Baralho.cards restored)
     ∧ Baralho.usedCards r.2 = r.1
     ∧ Baralho.burnedCards r.2 = []
     ∧ (∀ ref, Baralho.objects r.2 !! ref
               = if decide (ref ∈ r.1)
                 then Baralho.setFaceUp up <$> Baralho.objects d !! ref
                 else Baralho.objects d !! ref))
  ∧ length (Baralho.cards (Baralho.restoreUsedCards draw d))
    = (length (Baralho.cards d) + length (Baralho.usedCards d)
       + length (Baralho.burnedCards d))%nat.
Proof.
  intros He Hd. split; [|split].
  - unfold EngineDeck.deal. case_decide; [done|lia].
  - cbv zeta. split; [apply restoreUsedCards_cards|].
    split; [|split; [|split; [|split]]]; [| | | |apply deal_objects];
      unfold Baralho.deal; rewrite decide_True by done; reflexivity.
  - rewrite restoreUsedCards_cards, !length_app. lia.
Qed.

Lemma deal_beyond_remaining_witness :
  EngineDeck.deal 2 nearlyEmptyEngine = inl (EngineDeck.NotEnoughCards 1 2)
  ∧ (Baralho.deal zeroDraw 2 false nearlyEmpty).1 = [2%nat; 1%nat]
  ∧ Baralho.cards (Baralho.deal zeroDraw 2 false nearlyEmpty).2 = [1%nat; 0%nat].
Proof.
  destruct (deal_beyond_remaining 2 nearlyEmptyEngine nearlyEmpty zeroDraw false)
    as (He & (_ & Hdealt & Hleft & _) & _); [simpl; lia | simpl; lia |].
  split; [exact He|]. split; [rewrite Hdealt|rewrite Hleft]; vm_compute; reflexivity.
Defined.

End DeckFacts.

(** ** Properties of the pot ledger *)
Module LedgerFacts.
Import Evaluator Ledger LedgerFixtures PotQueries.

(** *** Splitting one pot *)

Lemma splitShares_ids he base rem k ws :
  map sh_playerId (splitShares he base rem k ws) = ws.
Proof. revert k. induction ws as [|w ws IH]; intros k; simpl; by rewrite ?IH. Qed.

Lemma splitShares_lookup he base rem k ws (i : nat) sh :
  splitShares he base rem k ws !! i = Some sh →
  sh_amount sh = base + (if decide (k + Z.of_nat i < rem) then 1 else 0).
Proof.
  revert k i. induction ws as [|w ws IH]; intros k i; simpl; [done|].
  destruct i as [|i]; simpl.
  - intros [= <-]. simpl. by rewrite Z.add_0_r.
  - intros Hl. rewrite (IH _ _ Hl).
    replace (k + 1 + Z.of_nat i) with (k + Z.of_nat (S i)) by lia. done.
Qed.

Lemma splitShares_sum he base rem k ws :
  sumZ (map sh_amount (splitShares he base rem k ws))
  = Z.of_nat (length ws) * base
    + Z.max 0 (Z.min rem (k + Z.of_nat (length ws)) - k).
Proof.
  revert k. induction ws as [|w ws IH]; intros k; [simpl; lia|].
  cbn [splitShares map sumZ foldr sh_amount length].
  fold (sumZ (map sh_amount (splitShares he base rem (k + 1) ws))).
  rewrite IH. case_decide; lia.
Qed.

(** C6.  A pot of M > 0 chips split among N >= 1 winners: the shares list
    the winners in their given order, winner number i receives floor(M/N)
    plus one extra chip exactly when i < M mod N (a prefix of the winners),
    and the shares add up to M; 100 chips among three winners are paid as
    34, 33, 33. *)
Theorem calculateDistribution_exact (pot : Pot) (winnerPlayers : list string)
    (handEvaluations : gmap string HandResult) :
  amount pot > 0 →
  winnerPlayers ≠ [] →
  let M := amount pot in
  let N := Z.of_nat (length winnerPlayers) in
  let distribution := calculateDistribution pot winnerPlayers handEvaluations in
  map sh_playerId distribution = winnerPlayers
  ∧ (∀ (i : nat) sh, distribution !! i = Some sh →
       sh_amount sh = M / N + (if decide (Z.of_nat i < M mod N) then 1 else 0))
  ∧ sumZ (map sh_amount distribution) = M
  ∧ (M = 100 → N = 3 → map sh_amount distribution = [34; 33; 33]).
Proof.
  intros HM Hne M N distribution. subst M N distribution.
  destruct winnerPlayers as [|w [|w' ws]]; [done| |].
  - (* a sole winner *)
    simpl. rewrite Z.div_1_r, Z.mod_1_r.
    repeat split; try lia.
    intros [|i] sh; simpl; [|done]. intros [= <-]. simpl. lia.
  - (* a split *)
    unfold calculateDistribution.
    set (ws2 := w :: w' :: ws). set (n := Z.of_nat (length ws2)).
    assert (Hn : 2 ≤ n) by (subst n ws2; simpl; lia).
    pose proof (Z.div_mod (amount pot) n ltac:(lia)) as Hdm.
    pose proof (Z.mod_pos_bound (amount pot) n ltac:(lia)) as Hmod.
    split; [apply splitShares_ids|].
    split; [intros i sh Hl; by rewrite (splitShares_lookup _ _ _ _ _ _ _ Hl)|].
    split.
    + rewrite splitShares_sum. fold n. lia.
    + intros H100 H3. subst n ws2. destruct ws as [|w'' [|? ?]]; simpl in H3; try lia.
      rewrite H100. reflexivity.
Qed.

Lemma calculateDistribution_exact_witness :
  map sh_amount (calculateDistribution pot100 ["A"; "B"; "C"] ∅) = [34; 33; 33]
  ∧ sumZ (map sh_amount (calculateDistribution pot100 ["A"; "B"; "C"] ∅)) = 100.
Proof.
  destruct (calculateDistribution_exact pot100 ["A"; "B"; "C"] ∅)
    as (_ & _ & Hsum & H343); [reflexivity | discriminate |].
  split; [apply H343; reflexivity | exact Hsum].
Defined.

(** *** Distributing all pots *)

Lemma isPlayerEligible_true pot x :
  isPlayerEligible pot x = true ↔ x ∈ eligiblePlayers pot.
Proof. unfold isPlayerEligible. by rewrite bool_decide_eq_true. Qed.

Lemma distributeToWinners_again pot ws he :
  isDistributed pot = true → distributeToWinners pot ws he = ([], pot).
Proof. unfold distributeToWinners. by intros ->. Qed.

Lemma distributePots_settled ws he allPots d allPots' d' :
  distributePots ws he allPots d = (allPots', d') →
  Forall2 (Settled ws) allPots allPots'.
Proof.
  revert d allPots' d'. induction allPots as [|pot rest IH]; intros d allPots' d'.
  - simpl. intros [= <- <-]. constructor.
  - cbn [distributePots].
    destruct (decide (amount pot ≤ 0)) as [Hamt|Hamt].
    { destruct (distributePots ws he rest d) as [rest' d1] eqn:Hrest.
      intros [= <- <-]. constructor; [|by eapply IH].
      repeat split; intros; lia. }
    set (eligibleWinners := filter (λ playerId, isPlayerEligible pot playerId = true) ws).
    destruct (decide (length eligibleWinners = 0%nat)) as [Hnone|Hsome].
    { destruct (distributePots ws he rest d) as [rest' d1] eqn:Hrest.
      intros [= <- <-]. constructor; [|by eapply IH].
      repeat split. intros _ (x & Hx & Hel).
      assert (x ∈ eligibleWinners) as Hin.
      { apply list_elem_of_filter. split; [by apply isPlayerEligible_true|done]. }
      destruct eligibleWinners; [by apply elem_of_nil in Hin|done]. }
    destruct (distributeToWinners pot eligibleWinners he) as [potDistribution pot'] eqn:Hdist.
    match goal with
    | |- context [distributePots ws he rest ?d2] =>
        destruct (distributePots ws he rest d2) as [rest' d1] eqn:Hrest
    end.
    intros [= <- <-]. constructor; [|by eapply IH].
    unfold distributeToWinners in Hdist.
    destruct (isDistributed pot) eqn:Hd; [by simplify_eq|].
    destruct (decide (amount pot ≤ 0)); [lia|].
    destruct (decide (length eligibleWinners = 0%nat)); [done|].
    by simplify_eq.
Qed.

(** A pot that holds no chips, or for which no listed winner is eligible, is
    passed over as it is. *)
Lemma distributePots_skips ws he allPots d allPots' d' :
  distributePots ws he allPots d = (allPots', d') →
  Forall2 (λ pot pot', amount pot ≤ 0 ∨ ¬ (∃ x, x ∈ ws ∧ x ∈ eligiblePlayers pot) →
                       pot' = pot) allPots allPots'.
Proof.
  revert d allPots' d'. induction allPots as [|pot rest IH]; intros d allPots' d'.
  - simpl. intros [= <- <-]. constructor.
  - cbn [distributePots].
    destruct (decide (amount pot ≤ 0)) as [Hamt|Hamt].
    { destruct (distributePots ws he rest d) as [rest' d1] eqn:Hrest.
      intros [= <- <-]. constructor; [done|by eapply IH]. }
    set (eligibleWinners := filter (λ playerId, isPlayerEligible pot playerId = true) ws).
    destruct (decide (length eligibleWinners = 0%nat)) as [Hnone|Hsome].
    { destruct (distributePots ws he rest d) as [rest' d1] eqn:Hrest.
      intros [= <- <-]. constructor; [done|by eapply IH]. }
    destruct (distributeToWinners pot eligibleWinners he) as [potDistribution pot'] eqn:Hdist.
    match goal with
    | |- context [distributePots ws he rest ?d2] =>
        destruct (distributePots ws he rest d2) as [rest' d1] eqn:Hrest
    end.
    intros [= <- <-]. constructor; [|by eapply IH].
    intros [Hempty|Hnobody]; [lia|]. exfalso. apply Hnobody.
    destruct eligibleWinners as [|x ?] eqn:Hw; [done|].
    assert (x ∈ filter (λ playerId, isPlayerEligible pot playerId = true) ws) as Hin
      by (fold eligibleWinners; rewrite Hw; left).
    apply list_elem_of_filter in Hin as [Hel Hin].
    exists x. split; [done|]. by apply isPlayerEligible_true.
Qed.

(** C7, as stated, fails on the code: the first [distributeAllPots] does not
    mark every pot.  With A as the only listed winner of the side-pot
    scenario, no listed winner is eligible for the side pot: it is passed
    over, keeps its 400 chips and stays unmarked. *)
Lemma distributeAllPots_leaves_skipped_pot_unmarked :
  let first := distributeAllPots 1 scenario ["A"] ∅ in
  isShowdown first.2 = true
  ∧ map (λ pot, (amount pot, isDistributed pot)) (getAllPots first.2)
    = [(300, true); (400, false)]
  ∧ ¬ Forall (λ pot, isDistributed pot = true) (getAllPots first.2).
Proof.
  split; [reflexivity|]. split; [vm_compute; reflexivity|].
  intros Hall. apply Forall_cons in Hall as [_ Hall].
  apply Forall_cons in Hall as [Hside _]. vm_compute in Hside. discriminate.
Qed.

(** C7, amended.  A second [distributeAllPots] with the same arguments
    (whatever the clock shows by then) returns the result of the first call
    and leaves the ledger exactly as the first call left it.  The first call
    sets the showdown flag; every pot that holds chips and has an eligible
    listed winner is marked distributed, and a pot so marked pays out nothing
    when asked again; a pot that holds no chips or has no eligible listed
    winner is passed over and left as it was, unmarked if it was. *)
Theorem distributeAllPots_idempotent (now1 now2 : Z) (pm : PotManager)
    (winningPlayersByStrength : list string) (handEvaluations : gmap string HandResult) :
  let first := distributeAllPots now1 pm winningPlayersByStrength handEvaluations in
  distributeAllPots now2 first.2 winningPlayersByStrength handEvaluations = first
  ∧ (isShowdown pm = false →
     isShowdown first.2 = true
     ∧ (∀ pot, pot ∈ getAllPots first.2 → amount pot > 0 →
               (∃ x, x ∈ winningPlayersByStrength ∧ x ∈ eligiblePlayers pot) →
               isDistributed pot = true
               ∧ distributeToWinners pot winningPlayersByStrength handEvaluations
                 = ([], pot))
     ∧ Forall2 (λ pot pot',
                  amount pot ≤ 0
                  ∨ ¬ (∃ x, x ∈ winningPlayersByStrength ∧ x ∈ eligiblePlayers pot) →
                  pot' = pot)
               (getAllPots pm) (getAllPots first.2)).
Proof.
  intros first. subst first. unfold distributeAllPots.
  destruct (isShowdown pm) eqn:Hshow.
  { simpl. rewrite Hshow. split; [by destruct pm|done]. }
  destruct (distributePots _ _ _ _) as [allPots' distribution] eqn:Hloop.
  split; [reflexivity|]. intros _. split; [reflexivity|].
  pose proof (distributePots_skips _ _ _ _ _ _ Hloop) as Hskips.
  apply distributePots_settled in Hloop.
  unfold getAllPots in Hloop. inversion Hloop as [|? main' ? rest' Hmain Hrest]; subst.
  split.
  - intros pot Hin Hamt Hel.
    unfold saveToHistory, getAllPots in Hin. simpl in Hin. rewrite drop_0 in Hin.
    assert (isDistributed pot = true) as Hd.
    { apply elem_of_cons in Hin as [->|Hin].
      - destruct Hmain as (Ha & He & Hm). apply Hm; [lia|]. by rewrite <-He.
      - apply list_elem_of_lookup in Hin as [k Hk].
        destruct (Forall2_lookup_r _ _ _ _ _ Hrest Hk) as (pot0 & _ & Ha & He & Hm).
        apply Hm; [lia|]. by rewrite <-He. }
    split; [done|]. by apply distributeToWinners_again.
  - unfold saveToHistory, getAllPots. simpl. by rewrite drop_0.
Qed.

Lemma distributeAllPots_idempotent_witness :
  let first := distributeAllPots 1 scenario ["B"; "C"; "A"] ∅ in
  distributeAllPots 2 first.2 ["B"; "C"; "A"] ∅ = first
  ∧ isDistributed (mainPot first.2) = true.
Proof.
  destruct (distributeAllPots_idempotent 1 2 scenario ["B"; "C"; "A"] ∅) as [Hsame Hmarked].
  split; [exact Hsame|].
  destruct (Hmarked eq_refl) as (_ & Hpaid & _).
  refine (proj1 (Hpaid _ (list_elem_of_here _ _) eq_refl _)).
  exists "A". split; [do 2 apply list_elem_of_further; apply list_elem_of_here|].
  apply (bool_decide_unpack _). vm_compute. exact I.
Defined.

(** *** The side-pot scenario *)

(** C1.  On the scenario (main pot 300 for A, B, C; side pot 400 for B, C)
    [distributeAllPots] pays every pot to all listed players that are
    eligible for it, in equal parts, whatever their ranking: with the ranked
    list A, B, C the main pot is split three ways and the side pot two ways;
    with the single best hand A, A is paid the main pot and the side pot is
    skipped and stays undistributed.  The stand-alone [distributePot] of the
    same file does keep only the top-ranked winner. *)
Theorem scenario_pots_split_among_all_eligible :
  scenarioPaid ["A"; "B"; "C"] "A" = Some 100
  ∧ scenarioPaid ["A"; "B"; "C"] "B" = Some 300
  ∧ scenarioPaid ["A"; "B"; "C"] "C" = Some 300
  ∧ scenarioPaid ["A"] "A" = Some 300
  ∧ scenarioPaid ["A"] "B" = None
  ∧ scenarioPaid ["A"] "C" = None
  ∧ totalDistributed <$> (distributeAllPots 0 scenario ["A"] ∅).1 = Some 300
  ∧ map (λ pot, (amount pot, isDistributed pot))
        (sidePots (distributeAllPots 0 scenario ["A"] ∅).2) = [(400, false)]
  ∧ map (λ sh, (ss_playerId sh, ss_amount sh))
        (distributePot 300 ["A"; "B"; "C"] scenarioStrengths) = [("A", 300)].
Proof. repeat split; vm_compute; reflexivity. Qed.

(** *** Eligibility across pots *)

Lemma maxContribution_empty pot :
  playerContributions pot = ∅ → maxContribution pot = 0.
Proof. unfold maxContribution. intros ->. apply map_fold_empty. Qed.

(** A pot without contributions has no room for anybody's chips: the room
    is measured against the largest contribution already in the pot. *)
Lemma no_space_in_empty_pot playerId pot ceiling :
  playerContributions pot = ∅ → getPotSpaceForPlayer playerId pot ceiling = 0.
Proof.
  intros Hempty. unfold getPotSpaceForPlayer.
  rewrite maxContribution_empty by done.
  unfold getPlayerContribution. rewrite Hempty, lookup_empty.
  destruct ceiling as [z|]; [|done].
  case_bool_decide; [done|lia].
Qed.

Lemma no_space_in_new_side_pot playerId pm ceiling :
  getPotSpaceForPlayer playerId (createNewSidePot pm) ceiling = 0.
Proof. by apply no_space_in_empty_pot. Qed.

(** Hence the loop that is meant to open side pots never stores one: it
    returns at once when nothing remains, and otherwise uses up any number
    of iterations without making progress. *)
Lemma addBetToNewPots_stuck fuel playerId ceiling pm remainingAmount potsAffected :
  addBetToNewPots fuel playerId ceiling pm remainingAmount potsAffected
  = if decide (remainingAmount > 0) then None
    else Some (pm, remainingAmount, potsAffected).
Proof.
  induction fuel as [|fuel IH]; cbn [addBetToNewPots]; [done|].
  case_decide; [|done].
  rewrite no_space_in_new_side_pot.
  destruct (decide (remainingAmount `min` 0 > 0)); [lia|].
  exact IH.
Qed.

Lemma addBetToSidePots_nil round playerId ceiling remainingAmount potsAffected :
  addBetToSidePots round playerId ceiling [] remainingAmount potsAffected
  = ([], remainingAmount, potsAffected).
Proof. done. Qed.

Lemma addBet_keeps_no_side_pots fuel pm playerId x ceiling r pm' :
  sidePots pm = [] → addBet fuel pm playerId x ceiling = Some (r, pm') →
  sidePots pm' = [].
Proof.
  intros Hnil. unfold addBet. case_decide; [by intros [= <- <-]|].
  rewrite Hnil.
  case_decide; cbn beta iota zeta; rewrite addBetToSidePots_nil;
    cbn beta iota zeta; rewrite addBetToNewPots_stuck;
    case_decide; try done; by intros [= <- <-].
Qed.

(** On a ledger that holds nothing yet, [addBet] of a positive amount never
    returns. *)
Lemma addBet_on_empty_ledger fuel pm playerId x ceiling :
  x > 0 → playerContributions (mainPot pm) = ∅ → sidePots pm = [] →
  addBet fuel pm playerId x ceiling = None.
Proof.
  intros Hx Hmain Hsides. unfold addBet. rewrite decide_False by lia.
  rewrite no_space_in_empty_pot by done. rewrite decide_False by lia.
  rewrite Hsides. cbn beta iota zeta. rewrite addBetToSidePots_nil.
  cbn beta iota zeta. rewrite addBetToNewPots_stuck. by rewrite decide_True.
Qed.

Lemma recalculateSidePots_id pm playerId allInAmount sides total :
  recalculateSidePots pm playerId allInAmount sides total = pm.
Proof.
  revert total. induction sides as [|sidePot rest IH]; intros total; simpl; [done|].
  unfold handleExcessContribution. repeat case_decide; apply IH.
Qed.

Lemma getAllPots_playerAllIn pm playerId allInAmount :
  getAllPots (playerAllIn pm playerId allInAmount) = getAllPots pm.
Proof.
  unfold playerAllIn, recalculateForAllIn. by rewrite recalculateSidePots_id.
Qed.

Lemma getAllPots_playerFolds pm playerId :
  getAllPots (playerFolds pm playerId)
  = map (λ pot, removeEligiblePlayer pot playerId) (getAllPots pm).
Proof. done. Qed.

(** Folding and going all-in keep the invariant on every ledger. *)
Lemma playerFolds_monotonic pm playerId :
  MonotonicEligibility pm → MonotonicEligibility (playerFolds pm playerId).
Proof.
  intros Hmono i j lower higher Hij. rewrite getAllPots_playerFolds, !list_lookup_fmap.
  destruct (getAllPots pm !! i) as [lo|] eqn:Hlo; [|done].
  destruct (getAllPots pm !! j) as [hi|] eqn:Hhi; [|done].
  intros [= <-] [= <-]. simpl.
  pose proof (Hmono i j lo hi Hij Hlo Hhi) as Hsub.
  intros x [Hx Hne]%elem_of_difference. apply elem_of_difference.
  split; [by apply Hsub|done].
Qed.

Lemma playerAllIn_monotonic pm playerId allInAmount :
  MonotonicEligibility pm → MonotonicEligibility (playerAllIn pm playerId allInAmount).
Proof. unfold MonotonicEligibility. by rewrite getAllPots_playerAllIn. Qed.

Lemma no_side_pots_monotonic pm : sidePots pm = [] → MonotonicEligibility pm.
Proof.
  intros Hnil i j lower higher Hij _. unfold getAllPots. rewrite Hnil.
  destruct j as [|j]; [lia|]. done.
Qed.

Lemma step_keeps_no_side_pots fuel op pm pm' :
  sidePots pm = [] → step fuel op pm = Some pm' → sidePots pm' = [].
Proof.
  intros Hnil. destruct op as [playerId x ceiling|playerId|playerId allInAmount]; simpl.
  - destruct (addBet fuel pm playerId x ceiling) as [[r pm1]|] eqn:Hbet; [|done].
    intros [= <-]. by eapply addBet_keeps_no_side_pots.
  - intros [= <-]. simpl. by rewrite Hnil.
  - intros [= <-]. unfold playerAllIn, recalculateForAllIn.
    by rewrite recalculateSidePots_id.
Qed.

(** *** What [addBet] books when it does return *)

Lemma addPlayerContribution_amount pot playerId x round :
  isLocked pot = false →
  amount (addPlayerContribution pot playerId x round).2 = amount pot + x
  ∧ isLocked (addPlayerContribution pot playerId x round).2 = false.
Proof. unfold addPlayerContribution. by intros ->. Qed.

Lemma sumAmounts_cons pot rest : sumAmounts (pot :: rest) = amount pot + sumAmounts rest.
Proof. done. Qed.

Lemma addBetToSidePots_accounting round playerId ceiling sides remainingAmount affected
    sides' remaining' affected' :
  Forall (λ pot, isLocked pot = false) sides →
  0 ≤ remainingAmount →
  addBetToSidePots round playerId ceiling sides remainingAmount affected
  = (sides', remaining', affected') →
  0 ≤ remaining' ≤ remainingAmount
  ∧ sumAmounts sides' = sumAmounts sides + (remainingAmount - remaining').
Proof.
  revert remainingAmount affected sides' remaining' affected'.
  induction sides as [|sidePot rest IH];
    intros remainingAmount affected sides' remaining' affected' Hunlocked Hrem.
  - simpl. intros [= <- <- <-]. lia.
  - apply Forall_cons in Hunlocked as [Hpot Hrest]. cbn [addBetToSidePots].
    case_decide as Hdone; [intros [= <- <- <-]; lia|].
    case_decide as Hroom.
    + destruct (addBetToSidePots _ _ _ rest _ _) as [[rest' rem1] aff1] eqn:Hloop.
      intros [= <- <- <-].
      apply IH in Hloop as [? Hsum]; [|done|lia].
      rewrite !sumAmounts_cons, Hsum.
      destruct (addPlayerContribution_amount sidePot playerId
                  (remainingAmount `min` getPotSpaceForPlayer playerId sidePot ceiling)
                  round Hpot) as [-> _].
      lia.
    + destruct (addBetToSidePots _ _ _ rest _ _) as [[rest' rem1] aff1] eqn:Hloop.
      intros [= <- <- <-].
      apply IH in Hloop as [? Hsum]; [|done|lia].
      rewrite !sumAmounts_cons, Hsum. lia.
Qed.

(** Whenever [addBet] returns on a ledger whose pots are open, the pots hold
    exactly the posted chips more than before, all of them were booked, and
    [totalAmount] is the sum over the pots. *)
Lemma addBet_books_what_it_is_given fuel pm playerId x ceiling r pm' :
  x > 0 →
  Forall (λ pot, isLocked pot = false) (getAllPots pm) →
  addBet fuel pm playerId x ceiling = Some (r, pm') →
  added r = x
  ∧ sumAmounts (getAllPots pm') = sumAmounts (getAllPots pm) + x
  ∧ totalAmount pm' = sumAmounts (getAllPots pm').
Proof.
  intros Hx Hunlocked. apply Forall_cons in Hunlocked as [Hmain Hsides].
  unfold addBet. rewrite decide_False by lia.
  set (room := getPotSpaceForPlayer playerId (mainPot pm) ceiling).
  destruct (decide (x `min` room > 0)) as [Hroom|Hroom]; cbn beta iota zeta.
  - destruct (addBetToSidePots _ _ _ (sidePots pm) _ _) as [[sides' rem2] aff2] eqn:Hloop.
    apply addBetToSidePots_accounting in Hloop as [Hrem Hsum]; [|done|lia].
    rewrite addBetToNewPots_stuck. case_decide; [done|].
    intros [= <- <-]. unfold getAllPots, updateTotalAmount, withPots.
    cbn [added mainPot sidePots totalAmount]. rewrite !sumAmounts_cons, Hsum.
    destruct (addPlayerContribution_amount (mainPot pm) playerId (x `min` room)
                (currentRound pm) Hmain) as [-> _].
    repeat split; lia.
  - destruct (addBetToSidePots _ _ _ (sidePots pm) _ _) as [[sides' rem2] aff2] eqn:Hloop.
    apply addBetToSidePots_accounting in Hloop as [Hrem Hsum]; [|done|lia].
    rewrite addBetToNewPots_stuck. case_decide; [done|].
    intros [= <- <-]. unfold getAllPots, updateTotalAmount, withPots.
    cbn [added mainPot sidePots totalAmount]. rewrite !sumAmounts_cons, Hsum.
    repeat split; lia.
Qed.

(** [createNewSidePot] lists as eligible whoever has chips in the previous
    pot, folded or not: here B, who folded and is no longer eligible for the
    main pot.  [addBet] never stores the pot it creates. *)
Lemma createNewSidePot_lists_folded_contributor :
  ("B" ∉ eligiblePlayers (mainPot (playerFolds scenario "B")))
  ∧ ("B" ∈ eligiblePlayers
             (createNewSidePot
                (withPots scenario (mainPot (playerFolds scenario "B")) []))).
Proof.
  split.
  - apply (bool_decide_unpack _). vm_compute. exact I.
  - apply (bool_decide_unpack _). vm_compute. exact I.
Qed.

(** Folds, all-ins and empty contributions always return. *)
Lemma run_without_chips_returns fuel ops pm :
  Forall (λ op, match op with PostContribution _ x _ => x ≤ 0 | _ => True end) ops →
  is_Some (run fuel ops pm).
Proof.
  revert pm. induction ops as [|op ops IH]; intros pm Hops; [by eexists|].
  apply Forall_cons in Hops as [Hop Hops]. simpl.
  destruct op as [playerId x ceiling| |]; simpl; try by apply IH.
  unfold addBet. rewrite decide_True by done. simpl. by apply IH.
Qed.

(** *** How [addBet] spreads a bet over the pots *)

Lemma sumZ_step (x : Z) (l : list Z) : sumZ (x :: l) = x + sumZ l.
Proof. done. Qed.

Lemma Booked_nothing playerId pot : Booked playerId pot 0 pot.
Proof.
  split; [done|]. split; [done|]. intros Hopen. rewrite decide_False by lia.
  repeat split; try done; lia.
Qed.

Lemma Booked_addPlayerContribution playerId pot part round :
  part > 0 →
  Booked playerId pot part (addPlayerContribution pot playerId part round).2.
Proof.
  intros Hpart. unfold addPlayerContribution.
  destruct (isLocked pot) eqn:Hlocked.
  { split; [done|]. split; [done|]. intros Hopen. congruence. }
  split; [done|]. split; [congruence|]. intros _. cbn [snd isLocked amount eligiblePlayers].
  split; [done|]. split; [done|]. split.
  - unfold getPlayerContribution. cbn [playerContributions]. rewrite lookup_insert_eq.
    destruct (playerContributions pot !! playerId); simpl; lia.
  - by rewrite !decide_True by done.
Qed.

Lemma assigned_nonneg playerId ceiling (ps : list Pot) remainingAmount :
  Forall (λ part, 0 ≤ part) (assigned playerId ceiling ps remainingAmount).
Proof.
  revert remainingAmount. induction ps as [|pot rest IH]; intros r; [constructor|].
  cbn [assigned]. constructor; [lia|apply IH].
Qed.

Lemma sumZ_assigned_nonneg playerId ceiling (ps : list Pot) remainingAmount :
  0 ≤ sumZ (assigned playerId ceiling ps remainingAmount).
Proof.
  revert remainingAmount. induction ps as [|pot rest IH]; intros r; [done|].
  cbn [assigned]. rewrite sumZ_step. specialize (IH (r - 0 `max` (r `min`
    getPotSpaceForPlayer playerId pot ceiling))). lia.
Qed.

Lemma sumZ_assigned_le playerId ceiling (ps : list Pot) remainingAmount :
  0 ≤ remainingAmount → sumZ (assigned playerId ceiling ps remainingAmount) ≤ remainingAmount.
Proof.
  revert remainingAmount. induction ps as [|pot rest IH]; intros r Hr; [done|].
  cbn [assigned]. rewrite sumZ_step.
  specialize (IH (r - 0 `max` (r `min` getPotSpaceForPlayer playerId pot ceiling))). lia.
Qed.

(** The loop over the side pots books the assigned parts. *)
Lemma addBetToSidePots_booked round playerId ceiling sides remainingAmount affected
    sides' remaining' affected' :
  addBetToSidePots round playerId ceiling sides remainingAmount affected
  = (sides', remaining', affected') →
  Forall3 (Booked playerId) sides (assigned playerId ceiling sides remainingAmount) sides'
  ∧ remaining' = remainingAmount - sumZ (assigned playerId ceiling sides remainingAmount).
Proof.
  revert remainingAmount affected sides' remaining' affected'.
  induction sides as [|sidePot rest IH];
    intros remainingAmount affected sides' remaining' affected'.
  - cbn. intros [= <- <- <-]. split; [constructor|]. unfold sumZ. simpl. lia.
  - cbn [addBetToSidePots assigned]. rewrite sumZ_step.
    set (room := getPotSpaceForPlayer playerId sidePot ceiling).
    destruct (decide (remainingAmount ≤ 0)) as [Hdone|Hdone].
    { intros [= <- <- <-].
      rewrite Z.max_l by lia. rewrite Z.sub_0_r.
      assert (Hrest : ∀ ps r, r ≤ 0 →
                Forall3 (Booked playerId) ps (assigned playerId ceiling ps r) ps
                ∧ sumZ (assigned playerId ceiling ps r) = 0).
      { clear. induction ps as [|pot ps IH]; intros r Hr; [split; [constructor|done]|].
        cbn [assigned]. rewrite sumZ_step, Z.max_l, Z.sub_0_r by lia.
        destruct (IH r Hr) as [Hf ->].
        split; [|done]. constructor; [apply Booked_nothing|done]. }
      destruct (Hrest rest remainingAmount Hdone) as [Hf ->].
      split; [|lia]. constructor; [apply Booked_nothing|done]. }
    destruct (decide (remainingAmount `min` room > 0)) as [Hfits|Hfits].
    + destruct (addBetToSidePots _ _ _ rest _ _) as [[rest' rem1] aff1] eqn:Hloop.
      intros [= <- <- <-]. apply IH in Hloop as [Hf ->].
      rewrite Z.max_r by lia. split; [|lia].
      constructor; [by apply Booked_addPlayerContribution|done].
    + destruct (addBetToSidePots _ _ _ rest _ _) as [[rest' rem1] aff1] eqn:Hloop.
      intros [= <- <- <-]. apply IH in Hloop as [Hf ->].
      rewrite Z.max_l by lia. rewrite Z.sub_0_r. split; [|lia].
      constructor; [apply Booked_nothing|done].
Qed.

(** [addBet], when it returns, has booked the assigned parts, and these add
    up to the bet. *)
Lemma addBet_booked fuel pm playerId x ceiling r pm' :
  x > 0 →
  addBet fuel pm playerId x ceiling = Some (r, pm') →
  added r = x
  ∧ Forall3 (Booked playerId) (getAllPots pm)
            (assigned playerId ceiling (getAllPots pm) x) (getAllPots pm')
  ∧ sumZ (assigned playerId ceiling (getAllPots pm) x) = x.
Proof.
  intros Hx. unfold addBet, getAllPots. rewrite decide_False by lia.
  cbn [assigned]. rewrite sumZ_step.
  set (room := getPotSpaceForPlayer playerId (mainPot pm) ceiling).
  destruct (decide (x `min` room > 0)) as [Hroom|Hroom]; cbn beta iota zeta.
  - destruct (addBetToSidePots _ _ _ (sidePots pm) _ _) as [[sides' rem2] aff2] eqn:Hloop.
    apply addBetToSidePots_booked in Hloop as [Hf ->].
    rewrite addBetToNewPots_stuck. case_decide as Hleft; [done|].
    intros [= <- <-]. cbn [added mainPot sidePots updateTotalAmount withPots].
    rewrite Z.max_r in * by lia.
    pose proof (sumZ_assigned_le playerId ceiling (sidePots pm) (x - x `min` room)).
    split; [lia|]. split; [|lia].
    constructor; [by apply Booked_addPlayerContribution|done].
  - destruct (addBetToSidePots _ _ _ (sidePots pm) _ _) as [[sides' rem2] aff2] eqn:Hloop.
    apply addBetToSidePots_booked in Hloop as [Hf ->].
    rewrite addBetToNewPots_stuck. case_decide as Hleft; [done|].
    intros [= <- <-]. cbn [added mainPot sidePots updateTotalAmount withPots].
    rewrite Z.max_l in * by lia. rewrite Z.sub_0_r in *.
    pose proof (sumZ_assigned_le playerId ceiling (sidePots pm) x).
    split; [lia|]. split; [|lia].
    constructor; [apply Booked_nothing|done].
Qed.

(** *** Eligibility across pots, on any ledger *)

Lemma assigned_positive_remaining playerId ceiling (ps : list Pot) remainingAmount
    (j : nat) part :
  assigned playerId ceiling ps remainingAmount !! j = Some part → part > 0 →
  remainingAmount > 0.
Proof.
  revert remainingAmount j. induction ps as [|pot rest IH]; intros r j; [done|].
  cbn [assigned]. destruct j as [|j]; cbn [lookup list_lookup].
  - intros [= <-]. lia.
  - intros Hj Hpart. specialize (IH _ _ Hj Hpart). lia.
Qed.

(** A pot takes chips only after every pot below it with room has. *)
Lemma assigned_positive_before playerId ceiling (ps : list Pot) remainingAmount
    (i j : nat) pot part :
  (i < j)%nat →
  assigned playerId ceiling ps remainingAmount !! j = Some part → part > 0 →
  ps !! i = Some pot → getPotSpaceForPlayer playerId pot ceiling > 0 →
  ∃ part', assigned playerId ceiling ps remainingAmount !! i = Some part' ∧ part' > 0.
Proof.
  revert remainingAmount i j. induction ps as [|pot0 rest IH]; intros r i j Hij; [done|].
  cbn [assigned]. destruct j as [|j]; [lia|]. destruct i as [|i]; cbn [lookup list_lookup].
  - intros Hj Hpart [= ->] Hroom.
    pose proof (assigned_positive_remaining _ _ _ _ _ _ Hj Hpart).
    eexists. split; [done|]. lia.
  - intros Hj Hpart Hi Hroom. by apply (IH _ i j); [lia|..].
Qed.

Lemma Booked_eligible playerId pot part pot' y :
  Booked playerId pot part pot' →
  (y ∈ eligiblePlayers pot → y ∈ eligiblePlayers pot')
  ∧ (y ∈ eligiblePlayers pot' →
     y ∈ eligiblePlayers pot ∨ (y = playerId ∧ part > 0 ∧ isLocked pot = false)).
Proof.
  intros (_ & Hlocked & Hopen). destruct (isLocked pot) eqn:Hl.
  - rewrite (Hlocked eq_refl). by split; [|left].
  - destruct (Hopen eq_refl) as (_ & _ & _ & ->). case_decide; [|by split; [|left]].
    rewrite elem_of_union, elem_of_singleton. split; [by right|].
    intros [->|Hy]; [by right|by left].
Qed.

(** A contribution that joins the pots from the bottom keeps eligibility
    monotone. *)
Lemma addBet_monotonic fuel pm playerId x ceiling r pm' :
  MonotonicEligibility pm → Joins pm playerId ceiling →
  addBet fuel pm playerId x ceiling = Some (r, pm') →
  MonotonicEligibility pm'.
Proof.
  intros Hmono Hjoins Hbet. destruct (decide (x ≤ 0)) as [Hx|Hx].
  { revert Hbet. unfold addBet. rewrite decide_True by done. by intros [= <- <-]. }
  apply addBet_booked in Hbet as (_ & Hbooked & _); [|lia].
  intros i j lower' higher' Hij Hi Hj.
  destruct (Forall3_lookup_r _ _ _ _ _ _ Hbooked Hi) as (lower & parti & Hli & Hpi & Hbi).
  destruct (Forall3_lookup_r _ _ _ _ _ _ Hbooked Hj) as (higher & partj & Hlj & Hpj & Hbj).
  intros y Hy.
  pose proof (Booked_eligible _ _ _ _ y Hbj) as [_ Hinv].
  pose proof (Booked_eligible _ _ _ _ y Hbi) as [Hkeep _].
  destruct (Hinv Hy) as [Hold|(Heq & Hpart & _)].
  { apply Hkeep. by apply (Hmono i j lower higher Hij Hli Hlj). }
  subst y. unfold Joins in Hjoins.
  destruct (proj1 (Forall_lookup _ _) Hjoins i lower Hli) as [Hel|[Hopen Hroom]];
    [by apply Hkeep|].
  destruct (assigned_positive_before _ _ _ _ _ _ _ _ Hij Hpj Hpart Hli Hroom)
    as (parti' & Hpi' & Hpos).
  rewrite Hpi in Hpi'. injection Hpi' as <-.
  destruct Hbi as (_ & _ & Hbi). destruct (Hbi Hopen) as (_ & _ & _ & ->).
  rewrite decide_True by done. apply elem_of_union. left. by apply elem_of_singleton.
Qed.

(** No operation opens or closes a pot. *)
Lemma step_keeps_the_pots fuel op pm pm' :
  step fuel op pm = Some pm' → length (sidePots pm') = length (sidePots pm).
Proof.
  destruct op as [playerId x ceiling|playerId|playerId allInAmount]; simpl.
  - destruct (addBet fuel pm playerId x ceiling) as [[r pm1]|] eqn:Hbet; [|done].
    intros [= <-]. destruct (decide (x ≤ 0)) as [Hx|Hx].
    { revert Hbet. unfold addBet. rewrite decide_True by done. by intros [= <- <-]. }
    apply addBet_booked in Hbet as (_ & Hbooked & _); [|lia].
    apply Forall3_length_lr in Hbooked. unfold getAllPots in Hbooked. simpl in Hbooked. lia.
  - intros [= <-]. simpl. by rewrite length_map.
  - intros [= <-]. unfold playerAllIn, recalculateForAllIn.
    by rewrite recalculateSidePots_id.
Qed.

Lemma step_monotonic fuel op pm pm' :
  MonotonicEligibility pm →
  match op with
  | PostContribution playerId x ceiling => x > 0 → Joins pm playerId ceiling
  | _ => True
  end →
  step fuel op pm = Some pm' → MonotonicEligibility pm'.
Proof.
  intros Hmono Hadm. destruct op as [playerId x ceiling|playerId|playerId allInAmount]; simpl.
  - destruct (addBet fuel pm playerId x ceiling) as [[r pm1]|] eqn:Hbet; [|done].
    intros [= <-]. destruct (decide (x ≤ 0)) as [Hx|Hx].
    { revert Hbet. unfold addBet. rewrite decide_True by done. by intros [= <- <-]. }
    eapply addBet_monotonic; [done| |done]. apply Hadm. lia.
  - intros [= <-]. by apply playerFolds_monotonic.
  - intros [= <-]. by apply playerAllIn_monotonic.
Qed.

(** With one side pot, eligibility is monotone exactly when the side pot's
    eligible players are eligible for the main pot. *)
Lemma monotonic_one_side_pot pm side :
  sidePots pm = [side] →
  MonotonicEligibility pm ↔ eligiblePlayers side ⊆ eligiblePlayers (mainPot pm).
Proof.
  intros Hside. split.
  - intros Hmono. apply (Hmono 0%nat 1%nat); [lia|done|].
    unfold getAllPots. by rewrite Hside.
  - intros Hsub i j lower higher Hij. unfold getAllPots. rewrite Hside.
    destruct i as [|[|i]], j as [|[|j]]; try lia; try done.
    by intros [= <-] [= <-].
Qed.

(** C8, as stated, fails on the code: on the side-pot scenario A folds and
    then contributes 200 more.  The main pot has no room for A, the side pot
    takes the chips and lists A as eligible, and A is not eligible for the
    main pot. *)
Lemma contribution_after_fold_breaks_monotonic_eligibility :
  MonotonicEligibility scenario
  ∧ ∃ pm', run 1 [Fold "A"; PostContribution "A" 200 Infinity] scenario = Some pm'
           ∧ (∃ side, sidePots pm' = [side] ∧ "A" ∈ eligiblePlayers side)
           ∧ ("A" ∉ eligiblePlayers (mainPot pm'))
           ∧ ¬ MonotonicEligibility pm'.
Proof.
  split.
  { apply (monotonic_one_side_pot scenario scenarioSide); [done|].
    apply (bool_decide_unpack _). by vm_compute. }
  destruct (run 1 [Fold "A"; PostContribution "A" 200 Infinity] scenario)
    as [pm'|] eqn:Hrun; [|by vm_compute in Hrun].
  exists pm'. split; [done|]. vm_compute in Hrun. injection Hrun as <-.
  split; [eexists; split; [reflexivity|]; apply (bool_decide_unpack _); by vm_compute|].
  split; [apply (bool_decide_unpack _); by vm_compute|].
  intros Hmono. specialize (Hmono 0%nat 1%nat _ _ ltac:(lia) eq_refl eq_refl).
  revert Hmono. apply (bool_decide_unpack _). by vm_compute.
Qed.

(** C8, amended.  On every ledger, folds and all-ins keep eligibility
    monotone, and so does a contribution that joins the pots from the bottom:
    after a sequence of operations that returns, each of whose contributions
    of chips finds the player, for every pot, eligible already or with room
    in the open pot, whoever is eligible for a pot is eligible for every pot
    of lower level.  Started from a ledger without side pots (a new ledger,
    or one reset for a new hand) this holds after any sequence that returns,
    since no operation opens a pot. *)
Theorem monotonic_eligibility_invariant (fuel : nat) (ops : list LedgerOp)
    (pm pm' : PotManager) :
  run fuel ops pm = Some pm' →
  (MonotonicEligibility pm → admissible fuel ops pm → MonotonicEligibility pm')
  ∧ length (sidePots pm') = length (sidePots pm)
  ∧ (sidePots pm = [] → MonotonicEligibility pm' ∧ sidePots pm' = []).
Proof.
  revert pm. induction ops as [|op ops IH]; intros pm; simpl.
  - intros [= <-]. split; [done|]. split; [done|].
    intros Hnil. split; [by apply no_side_pots_monotonic|done].
  - destruct (step fuel op pm) as [pm1|] eqn:Hstep; [|done].
    intros Hrun. destruct (IH _ Hrun) as (Hadm & Hlen & Hnone).
    split; [|split].
    + intros Hmono [Hop Hrest]. apply Hadm; [|done]. by eapply step_monotonic.
    + rewrite Hlen. by eapply step_keeps_the_pots.
    + intros Hnil. apply Hnone. by eapply step_keeps_no_side_pots.
Qed.

Lemma monotonic_eligibility_invariant_witness :
  ∃ pm', run 3 [PostContribution "D" 300 Infinity; Fold "B"; AllIn "C" 300] scenario
         = Some pm'
         ∧ sumAmounts (getAllPots pm') = 1000
         ∧ (∃ side, sidePots pm' = [side] ∧ "D" ∈ eligiblePlayers side)
         ∧ MonotonicEligibility pm'.
Proof.
  eexists. split; [vm_compute; reflexivity|]. split; [reflexivity|].
  split; [eexists; split; [reflexivity|]; apply (bool_decide_unpack _); by vm_compute|].
  refine (proj1 (monotonic_eligibility_invariant 3
            [PostContribution "D" 300 Infinity; Fold "B"; AllIn "C" 300] scenario _ eq_refl)
            _ _).
  - apply (monotonic_one_side_pot scenario scenarioSide); [done|].
    apply (bool_decide_unpack _). by vm_compute.
  - apply (bool_decide_unpack _). by vm_compute.
Defined.

End LedgerFacts.

(** ** Properties of the players *)
Module PlayerFacts.
Import Player TableFixtures.

Lemma addToBet_spec (p : PokerPlayer) (x : Z) :
  0 ≤ chips p →
  let r := addToBet p x in
  r.1 = (if decide (x ≤ 0) then 0 else Z.min x (chips p))
  ∧ 0 ≤ r.1 ≤ chips p
  ∧ chips r.2 = chips p - r.1
  ∧ bet r.2 = bet p + r.1
  ∧ totalBetThisHand r.2 = totalBetThisHand p + r.1
  ∧ userId r.2 = userId p
  ∧ (0 < r.1 → chips r.2 = 0 → isAllIn r.2 = true).
Proof.
  intros Hchips. unfold addToBet.
  destruct (decide (x ≤ 0)); [cbn -[Z.min]; repeat split; try lia; intros; lia|].
  destruct (decide (x `min` chips p ≤ 0));
    [cbn -[Z.min]; repeat split; try lia; intros; lia|].
  cbn -[Z.min]. repeat split; try lia.
  intros _ Hzero. by rewrite decide_True.
Qed.

Ltac player_fields :=
  unfold OutcomeKeepsChips in *; unfold fold in *;
  unfold ChipsKept, withStats, withChips, withHistory, withAction in *;
  cbn [chips totalBetThisHand isAllIn bet fst snd] in *.

Lemma addToBet_keeps p x : 0 ≤ chips p → ChipsKept p (addToBet p x).2.
Proof.
  intros Hchips. pose proof (addToBet_spec p x Hchips) as (_ & ? & ? & _ & ? & _ & Hall).
  repeat split; try lia. intros. apply Hall; lia.
Qed.

Lemma withStats_keeps p p' st : ChipsKept p p' → ChipsKept p (withStats p' st).
Proof. done. Qed.

Lemma check_keeps p maxBet : 0 ≤ chips p → OutcomeKeepsChips p (check p maxBet).
Proof.
  intros. unfold check. case_match; [|done].
  player_fields. repeat split; try lia; intros; lia.
Qed.

Lemma call_keeps p maxBet : 0 ≤ chips p → OutcomeKeepsChips p (call p maxBet).
Proof.
  intros Hchips. unfold call. case_decide; [by apply check_keeps|].
  pose proof (addToBet_keeps p (getCallAmount p maxBet) Hchips) as Hk.
  destruct (addToBet p _) as [moved p1]. player_fields. exact Hk.
Qed.

Lemma raise_keeps p x maxBet : 0 ≤ chips p → OutcomeKeepsChips p (raise p x maxBet).
Proof.
  intros Hchips. unfold raise. case_decide; [done|].
  pose proof (addToBet_keeps p x Hchips) as Hk.
  destruct (addToBet p x) as [moved p1]. player_fields. exact Hk.
Qed.

Lemma fold_keeps p : 0 ≤ chips p → OutcomeKeepsChips p (inr (fold p)).
Proof. intros. player_fields. repeat split; try lia; intros; lia. Qed.

Lemma allIn_keeps p : 0 ≤ chips p → OutcomeKeepsChips p (inr (allIn p)).
Proof.
  intros Hchips. unfold allIn.
  pose proof (addToBet_keeps p (chips p) Hchips) as (? & ? & ?).
  destruct (addToBet p (chips p)) as [moved p1].
  player_fields. repeat split; try lia; done.
Qed.

Lemma takeAction_chips (p : PokerPlayer) (action : string) (x : Z) (gameState : GameView) :
  0 ≤ chips p → ChipsKept p (takeAction p action x gameState).2.
Proof.
  intros Hchips. unfold takeAction.
  destruct (canAct p gameState); cbn [negb snd];
    [|repeat split; try lia; intros; lia].
  set (p0 := withAction p _ x true false).
  assert (Hk : ∀ o, OutcomeKeepsChips p0 o →
            ChipsKept p (match o with
                         | inl e => (inl e, p0)
                         | inr (chipsAdded, p1) =>
                             (inr (mkActionResult (toLowerCase action) chipsAdded true),
                              withHistory p1
                                (actionHistory p1 ++
                                 [{| ar_action := toLowerCase action; ar_amount := chipsAdded;
                                     ar_round := currentRound gameState;
                                     ar_position := position p1;
                                     ar_chipsBefore := chips p1 + chipsAdded;
                                     ar_chipsAfter := chips p1 |}]))
                         end).2).
  { intros [e|[moved p1]]; [subst p0|]; player_fields;
      [repeat split; try lia; intros; lia|done]. }
  apply Hk. assert (0 ≤ chips p0) by done.
  repeat case_decide;
    auto using fold_keeps, check_keeps, call_keeps, raise_keeps, allIn_keeps.
  all: exact I.
Qed.

(** C10.  A stack that is not negative stays so: [addToBet] moves
    min(amount, stack) chips (nothing for a non-positive amount) from the
    stack to the bet, so asking for more than the stack commits exactly the
    stack; when chips were moved and the stack is 0 afterwards the player is
    marked all-in; [allIn] commits the whole stack; and whatever action
    [takeAction] is given, the stack only goes down, never below zero, by
    exactly what is added to the hand's bets. *)
Theorem stack_never_negative (p : PokerPlayer) (x : Z) :
  0 ≤ chips p →
  let r := addToBet p x in
  r.1 = (if decide (x ≤ 0) then 0 else Z.min x (chips p))
  ∧ 0 ≤ chips r.2
  ∧ chips r.2 = chips p - r.1
  ∧ bet r.2 = bet p + r.1
  ∧ (x > chips p → 0 < chips p → r.1 = chips p ∧ chips r.2 = 0)
  ∧ (0 < r.1 → chips r.2 = 0 → isAllIn r.2 = true)
  ∧ ((allIn p).1 = chips p ∧ chips (allIn p).2 = 0 ∧ isAllIn (allIn p).2 = true)
  ∧ (∀ action y gameState,
       let p' := (takeAction p action y gameState).2 in
       0 ≤ chips p' ≤ chips p
       ∧ chips p' + totalBetThisHand p' = chips p + totalBetThisHand p
       ∧ (chips p' < chips p → chips p' = 0 → isAllIn p' = true)).
Proof.
  intros Hchips r. subst r.
  pose proof (addToBet_spec p x Hchips) as (H1 & H2 & H3 & H4 & _ & _ & H5).
  split; [done|]. split; [lia|]. split; [done|]. split; [done|].
  split; [intros; rewrite H3, H1; case_decide; lia|].
  split; [done|].
  split.
  - unfold allIn.
    pose proof (addToBet_spec p (chips p) Hchips) as (Ha & _ & Hb & _).
    destruct (addToBet p (chips p)) as [moved p1]; simpl in *.
    rewrite Hb, Ha. case_decide; repeat split; lia.
  - intros action y gameState. by apply takeAction_chips.
Qed.

Lemma stack_never_negative_witness :
  (addToBet alice 5000).1 = 1000
  ∧ chips (addToBet alice 5000).2 = 0
  ∧ isAllIn (addToBet alice 5000).2 = true.
Proof.
  destruct (stack_never_negative alice 5000) as (_ & _ & _ & _ & Hcap & Hall & _);
    [by vm_compute|].
  destruct Hcap as [Hmoved Hzero]; [by vm_compute | by vm_compute|].
  split; [exact Hmoved|]. split; [exact Hzero|].
  apply Hall; [by vm_compute | exact Hzero].
Defined.

(** Whatever the player and the amount, a request that [canAct] lets through
    and whose action is none of the six known ones is thrown back only after
    the bookkeeping fields were written. *)
Lemma takeAction_unknown_action p action x gameState :
  canAct p gameState = true →
  toLowerCase action ∉ ["fold"; "check"; "call"; "bet"; "raise"; "allin"] →
  takeAction p action x gameState
  = (inl (InvalidAction action), withAction p (Some (toLowerCase action)) x true false).
Proof.
  intros Hcan Hunknown. unfold takeAction. rewrite Hcan. cbn [negb].
  repeat (rewrite decide_False
            by (intros Heq; apply Hunknown; rewrite Heq;
                repeat first [apply list_elem_of_here | apply list_elem_of_further])).
  reflexivity.
Qed.

(** C3.  [takeAction] writes [lastAction], [lastActionAmount],
    [hasActedThisRound] and [isCurrentTurn] before it looks at the action,
    so a request it then rejects leaves the player changed: an unknown
    action, a check while a bet is to be matched and a raise below the
    minimum all throw with the player marked as having acted and no longer
    on turn; a bet request throws the runtime's [TypeError], whatever the
    amount, because the field [bet] hides the method.  A request made out of
    turn is rejected with the player untouched. *)
Theorem rejected_action_marks_player_as_acted :
  hasActedThisRound alice = false ∧ isCurrentTurn alice = true ∧ lastAction alice = None
  ∧ (let r := takeAction alice "dance" 0 (aliceTurn 0) in
     r.1 = inl (InvalidAction "dance")
     ∧ hasActedThisRound r.2 = true ∧ isCurrentTurn r.2 = false
     ∧ lastAction r.2 = Some "dance")
  ∧ (let r := takeAction alice "check" 0 (aliceTurn 50) in
     r.1 = inl CannotCheck
     ∧ hasActedThisRound r.2 = true ∧ isCurrentTurn r.2 = false)
  ∧ (let r := takeAction alice "raise" 60 (aliceTurn 50) in
     r.1 = inl (MinRaise 100 60)
     ∧ hasActedThisRound r.2 = true ∧ isCurrentTurn r.2 = false
     ∧ lastActionAmount r.2 = 60)
  ∧ (let r := takeAction alice "bet" (-5) (aliceTurn 0) in
     r.1 = inl BetIsNotAFunction
     ∧ hasActedThisRound r.2 = true ∧ isCurrentTurn r.2 = false)
  ∧ takeAction alice "fold" 0 bobTurn = (inl CannotActNow, alice).
Proof. repeat split; vm_compute; reflexivity. Qed.

End PlayerFacts.

(** ** Properties of the game manager *)
Module ManagerFacts.
Import Player Manager TableFixtures.

Lemma canAct_without_turn p maxBet round :
  canAct p {| Player.currentPlayerTurn := None; Player.currentMaxBet := maxBet;
              Player.currentRound := round |} = false.
Proof. unfold canAct. repeat case_match; try done. Qed.

Lemma storePlayer_found ps id p :
  head (filter (λ q, userId q = id) ps) = Some p → storePlayer ps p = ps.
Proof.
  induction ps as [|q ps IH]; [done|].
  rewrite filter_cons. simpl. case_decide as Hq.
  - intros [= <-]. by rewrite decide_True.
  - intros Hhead. assert (userId p = id) as Hp.
    { apply head_Some_elem_of, list_elem_of_filter in Hhead. tauto. }
    rewrite decide_False by congruence. by rewrite IH.
Qed.

(** [processPlayerAction] hands [takeAction] a view of the game without
    [currentPlayerTurn], and [canAct] insists on it: every request, legal or
    not, is thrown back, with the players, the pot, the bets and the turn as
    they were. *)
Lemma processPlayerAction_always_rejected roundProgress fuel g playerId action x :
  ∃ e g',
    processPlayerAction roundProgress fuel g playerId action x = Some (inl e, g')
    ∧ players g' = players g
    ∧ potManager g' = potManager g
    ∧ Manager.currentPlayerTurn g' = Manager.currentPlayerTurn g
    ∧ Manager.currentMaxBet g' = Manager.currentMaxBet g
    ∧ state g' = state g.
Proof.
  unfold processPlayerAction.
  destruct (initialized g); simpl; [|by eexists _, _].
  destruct (bool_decide (state g ∈ _)); simpl; [|by eexists _, _].
  destruct (bool_decide (Manager.currentPlayerTurn g = _)); simpl; [|by eexists _, _].
  destruct (getPlayerById g playerId) as [player|] eqn:Hfind; [|by eexists _, _].
  destruct (validateAction g player action x); [by eexists _, _|].
  unfold takeAction. rewrite canAct_without_turn. simpl.
  eexists _, _. split; [reflexivity|]. simpl.
  split; [|done]. by eapply storePlayer_found.
Qed.

Lemma distributePot_credits_nobody now g winners_ handEvaluations :
  players (distributePot now g winners_ handEvaluations).2 = players g
  ∧ (winners_ ≠ [] →
     (distributePot now g winners_ handEvaluations).1 = Some ForEachIsNotAFunction).
Proof.
  unfold distributePot. case_decide as Hlen.
  - split; [done|]. by destruct winners_.
  - destruct (Ledger.distributeAllPots _ _ _ _). done.
Qed.

(** A blind taken from a stack with chips, on a ledger that holds nothing
    yet, never comes back from the ledger. *)
Lemma postForcedBet_stuck fuel g id forced label player :
  getPlayerById g id = Some player →
  Z.min forced (chips player) > 0 →
  Ledger.playerContributions (Ledger.mainPot (potManager g)) = ∅ →
  Ledger.sidePots (potManager g) = [] →
  postForcedBet fuel g id forced label true = None.
Proof.
  intros Hfind Hpos Hmain Hsides. unfold postForcedBet. rewrite Hfind.
  cbn [negb andb]. by rewrite LedgerFacts.addBet_on_empty_ledger.
Qed.

(** C2.  At the first forced bet of a hand the chips leave the stack but
    the ledger never books them: on the freshly reset ledger [addBet] finds
    no room in the empty main pot and loops without end, for any number of
    iterations, so [postBlinds] does not return.  A legal action sent to
    [processPlayerAction] is thrown back.  At distribution time no stack is
    credited: with 700 chips in the pots and 400 in the stacks (1100 before
    the hand), [distributePot] throws a [TypeError] and the stacks still
    hold 400. *)
Theorem forced_bet_leaves_stack_but_never_reaches_pot (fuel : nat) :
  chips ana = 1500
  ∧ chips (addToBet ana 10).2 = 1490
  ∧ Ledger.addBet fuel (potManager headsUp) "ana" 10 Ledger.Infinity = None
  ∧ postBlinds fuel headsUp = None
  ∧ (∀ roundProgress,
       (processPlayerAction roundProgress fuel headsUpPreflop "ana" "allin" 0)
       = Some (inl (FromPlayer CannotActNow),
               logError headsUpPreflop
                 (mkErrorEntry "action_failed" (FromPlayer CannotActNow) "ana" "allin" 0)))
  ∧ getTotalChips (players atShowdown) = 400
  ∧ Ledger.totalAmount (potManager atShowdown) = 700
  ∧ (distributePot 0 atShowdown ["A"] ∅).1 = Some ForEachIsNotAFunction
  ∧ getTotalChips (players (distributePot 0 atShowdown ["A"] ∅).2) = 400.
Proof.
  assert (Hstuck : Ledger.addBet fuel (potManager headsUp) "ana" 10 Ledger.Infinity = None).
  { apply LedgerFacts.addBet_on_empty_ledger; [lia|done|done]. }
  split; [reflexivity|]. split; [reflexivity|]. split; [exact Hstuck|].
  split.
  { unfold postBlinds.
    change (getActivePlayers (players headsUp) !! smallBlindPosition headsUp)
      with (Some ana).
    cbv beta iota zeta.
    by rewrite (postForcedBet_stuck fuel headsUp (userId ana) (smallBlind headsUp)
                  "small blind" ana). }
  split; [intros roundProgress; reflexivity|].
  repeat split; vm_compute; reflexivity.
Qed.

End ManagerFacts.

(** ** Properties of the dealer's betting step *)
Module DealerFacts.
Import Dealer.

Lemma totalChips_storePlayer ps id p p' :
  findPlayer ps id = Some p → userId p' = userId p →
  totalChips (storePlayer ps p') = totalChips ps - chips p + chips p'.
Proof.
  unfold findPlayer, totalChips. intros Hfind Hid.
  induction ps as [|q ps IH]; [done|].
  rewrite filter_cons in Hfind. simpl. case_decide as Hq; simpl in Hfind.
  - injection Hfind as ->. rewrite decide_True by done. simpl. lia.
  - assert (userId p = id) as Hp.
    { apply head_Some_elem_of, list_elem_of_filter in Hfind. tauto. }
    rewrite decide_False by congruence. simpl. rewrite IH by done. lia.
Qed.

(** The engine's own betting step moves chips and pot together: whenever it
    accepts an action, stacks plus pot are what they were, and a stack that
    was not negative is not negative afterwards. *)
Lemma dealer_action_conserves_chips d playerId action x res d' :
  processPlayerAction d playerId action x = inr (res, d') →
  totalChips (players d') + pot d' = totalChips (players d) + pot d.
Proof.
  unfold processPlayerAction.
  destruct (findPlayer (players d) playerId) as [player|] eqn:Hfind; [|done].
  destruct (isActive player); [|done]. cbn [negb].
  repeat case_decide; try done; intros [= <- <-]; cbn [players pot];
    erewrite totalChips_storePlayer by (try exact Hfind; done);
    cbn [chips]; lia.
Qed.

End DealerFacts.

(** ** The stable sort as a permutation *)
Module SortFacts.

Lemma insertDescBy_Permutation {A} (key : A → Z) x l : insertDescBy key x l ≡ₚ x :: l.
Proof.
  induction l as [|y l IH]; simpl; [done|].
  case_decide; [|done]. rewrite IH. apply Permutation_swap.
Qed.

Lemma sortDescBy_Permutation {A} (key : A → Z) l : sortDescBy key l ≡ₚ l.
Proof.
  induction l as [|x l IH]; simpl; [done|].
  rewrite insertDescBy_Permutation. by apply Permutation_skip.
Qed.

Lemma elem_of_sortDescBy {A} (key : A → Z) l x : x ∈ sortDescBy key l ↔ x ∈ l.
Proof. by rewrite sortDescBy_Permutation. Qed.

Lemma length_filter_sortDescBy {A} (key : A → Z) (P : A → Prop) `{∀ x, Decision (P x)} l :
  length (filter P (sortDescBy key l)) = length (filter P l).
Proof. by rewrite sortDescBy_Permutation. Qed.

(** The first element of the sorted list has the largest key. *)
Lemma insertDescBy_head {A} (key : A → Z) x l z :
  head (insertDescBy key x l) = Some z →
  (z = x ∧ ∀ y, head l = Some y → key y ≤ key x) ∨ (head l = Some z ∧ key x < key z).
Proof.
  destruct l as [|y l]; simpl.
  - intros [= <-]. left. by split.
  - case_decide; simpl; intros [= <-]; [by right|].
    left. split; [done|]. intros ? [= <-]. lia.
Qed.

Lemma sortDescBy_head_max {A} (key : A → Z) l z :
  head (sortDescBy key l) = Some z → ∀ y, y ∈ l → key y ≤ key z.
Proof.
  revert z. induction l as [|x l IH]; intros z Hz y Hy; [by apply elem_of_nil in Hy|].
  simpl in Hz. apply insertDescBy_head in Hz as [[-> Hmax]|[Hz Hlt]].
  - apply elem_of_cons in Hy as [->|Hy]; [lia|].
    destruct (head (foldr (insertDescBy key) [] l)) as [w|] eqn:Hw.
    + specialize (IH w Hw y Hy). specialize (Hmax w Hw). lia.
    + apply head_None in Hw. apply (elem_of_sortDescBy key) in Hy.
      unfold sortDescBy in Hy. rewrite Hw in Hy. by apply elem_of_nil in Hy.
  - apply elem_of_cons in Hy as [->|Hy]; [lia|]. by apply IH.
Qed.

End SortFacts.

(** ** Further properties of the hand evaluator *)
Module EvaluatorExtras.
Import Evaluator EvaluatorFixtures EvaluatorFacts SortFacts HandShapes.

Lemma elem_of_map {A B} (f : A → B) l y : y ∈ map f l ↔ ∃ x, y = f x ∧ x ∈ l.
Proof. apply (list_elem_of_fmap f). Qed.

Lemma elem_of_sortDesc cs c : c ∈ sortDesc cs ↔ c ∈ cs.
Proof. apply elem_of_sortDescBy. Qed.

Lemma uniqueByValue_subseteq cs seen : uniqueByValue cs seen ⊆ cs.
Proof.
  revert seen. induction cs as [|c cs IH]; intros seen; simpl; [done|].
  case_decide; intros x Hx.
  - apply elem_of_cons. right. by apply (IH seen).
  - apply elem_of_cons in Hx as [->|Hx]; apply elem_of_cons; [by left|].
    right. by apply (IH (value c :: seen)).
Qed.

Lemma isConsecutive_five vs :
  length vs = 5%nat → isConsecutive vs = true →
  ∃ v, vs = [v; v - 1; v - 2; v - 3; v - 4].
Proof.
  destruct vs as [|a [|b [|c [|d [|e [|]]]]]]; try done. intros _. simpl.
  repeat case_decide; try done. intros _. exists a. repeat f_equal; lia.
Qed.

Lemma firstRun_spec u r :
  firstRun u = Some r →
  r ⊆ u ∧ length r = 5%nat ∧ isConsecutive (map value r) = true.
Proof.
  revert r. induction u as [|x u IH]; intros r; cbn [firstRun]; [done|].
  case_decide as Hlen; [|done].
  destruct (isConsecutive _) eqn:Hc.
  - intros [= <-]. split; [apply (subseteq_take 5 (x :: u))|]. split; [|done].
    change (length (take 5 (x :: u)) = 5%nat). rewrite length_take. lia.
  - intros Hr. destruct (IH r Hr) as (Hs & ? & ?). split; [|done].
    intros c Hc'. apply elem_of_cons. right. by apply Hs.
Qed.

Lemma findValue_Some v l c : findValue v l = Some c → c ∈ l ∧ value c = v.
Proof.
  unfold findValue. intros H. apply head_Some_elem_of in H.
  by apply list_elem_of_filter in H as [? ?].
Qed.

Lemma someValue_findValue v l : someValue v l = true → is_Some (findValue v l).
Proof.
  unfold someValue, findValue. intros H. apply bool_decide_eq_true in H.
  apply Exists_exists in H as (c & Hc & Hv).
  destruct (filter _ l) as [|y k] eqn:Hf; [|by eexists].
  assert (c ∈ filter (λ c, value c = v) l) as Hin by (by apply list_elem_of_filter).
  rewrite Hf in Hin. by apply elem_of_nil in Hin.
Qed.

Lemma checkStraight_spec cs r :
  checkStraight cs = Some r → r ⊆ cs ∧ length r = 5%nat ∧ InSequence r.
Proof.
  unfold checkStraight.
  assert (Hu : uniqueByValue (sortDesc cs) [] ⊆ cs).
  { intros c Hc. apply elem_of_sortDesc. by apply uniqueByValue_subseteq in Hc. }
  destruct (firstRun _) as [run|] eqn:Hrun.
  - intros [= <-]. apply firstRun_spec in Hrun as (Hs & Hl & Hc).
    split; [by etrans|]. split; [done|]. left.
    apply isConsecutive_five; [by rewrite length_map|done].
  - destruct (someValue 14 _) eqn:H14; [|done].
    destruct (someValue 2 _) eqn:H2; [|done].
    destruct (someValue 3 _) eqn:H3; [|done].
    destruct (someValue 4 _) eqn:H4; [|done].
    destruct (someValue 5 _) eqn:H5; [|done].
    apply someValue_findValue in H14 as [c14 E14], H2 as [c2 E2], H3 as [c3 E3],
      H4 as [c4 E4], H5 as [c5 E5].
    cbn [andb]. rewrite E14, E2, E3, E4, E5. intros [= <-].
    apply findValue_Some in E14 as [? ?], E2 as [? ?], E3 as [? ?],
      E4 as [? ?], E5 as [? ?].
    split.
    { intros c Hc. apply Hu.
      repeat (apply elem_of_cons in Hc as [->|Hc]; [done|]). by apply elem_of_nil in Hc. }
    split; [done|]. right. simpl. congruence.
Qed.

Lemma groupBySuit_elem cards g :
  g ∈ groupBySuit cards → g.2 = filter (λ c, suit c = g.1) cards.
Proof. unfold groupBySuit. intros H. by apply elem_of_map in H as (s & -> & _). Qed.

Lemma SameSuit_filter s cards r :
  r ⊆ filter (λ c, suit c = s) cards → SameSuit r ∧ r ⊆ cards.
Proof.
  intros Hr. split.
  - exists s. apply Forall_forall. intros c Hc.
    apply Hr in Hc. by apply list_elem_of_filter in Hc as [? _].
  - intros c Hc. apply Hr in Hc. by apply list_elem_of_filter in Hc as [_ ?].
Qed.

Lemma straightFlushIn_spec gs r :
  straightFlushIn gs = Some r →
  ∃ g, g ∈ gs ∧ r ⊆ g.2 ∧ length r = 5%nat ∧ InSequence r.
Proof.
  induction gs as [|g gs IH]; simpl; [done|].
  assert (Hrest : straightFlushIn gs = Some r →
                  ∃ g0, g0 ∈ g :: gs ∧ r ⊆ g0.2 ∧ length r = 5%nat ∧ InSequence r).
  { intros H. destruct (IH H) as (g' & ? & ?). exists g'.
    split; [apply elem_of_cons; by right|done]. }
  case_decide; [|done].
  destruct (checkStraight g.2) as [st|] eqn:Hst; [|done].
  intros [= <-]. apply checkStraight_spec in Hst as (Hs & Hl & Hv).
  exists g. split; [apply elem_of_cons; by left|].
  rewrite take_ge by lia. done.
Qed.

Lemma checkStraightFlush_spec cards r :
  checkStraightFlush cards = Some r →
  r ⊆ cards ∧ length r = 5%nat ∧ SameSuit r ∧ InSequence r.
Proof.
  unfold checkStraightFlush. intros H.
  apply straightFlushIn_spec in H as (g & Hg & Hr & Hl & Hv).
  apply groupBySuit_elem in Hg. rewrite Hg in Hr.
  apply SameSuit_filter in Hr as [? ?]. done.
Qed.

Lemma checkRoyalFlush_spec cards r :
  checkRoyalFlush cards = Some r →
  r ⊆ cards ∧ length r = 5%nat ∧ SameSuit r ∧ map value r = [14; 13; 12; 11; 10].
Proof.
  unfold checkRoyalFlush. destruct (checkStraightFlush cards) as [sf|] eqn:Hsf; [|done].
  apply checkStraightFlush_spec in Hsf as (Hs & Hl & Hsuit & Hseq).
  destruct (bool_decide (14 ∈ _)) eqn:H14; [|done].
  destruct (bool_decide (10 ∈ _)) eqn:H10; [|done].
  destruct (bool_decide (13 ∈ _)) eqn:H13; [|done].
  destruct (bool_decide (length sf = _)); [|done].
  intros [= <-]. repeat split; try done.
  apply bool_decide_eq_true in H14, H10, H13.
  destruct Hseq as [[v Hv]|Hv]; rewrite Hv in *.
  - rewrite !elem_of_cons, elem_of_nil in H14, H10.
    assert (v = 14) as -> by lia. done.
  - rewrite !elem_of_cons, elem_of_nil in H10. lia.
Qed.

(** Groups by value. *)
Lemma groupByValue_elem cards g :
  g ∈ groupByValue cards → g.2 = filter (λ c, value c = g.1) cards ∧ g.2 ≠ [].
Proof.
  unfold groupByValue. intros H. apply list_elem_of_filter in H as [Hne H].
  by apply elem_of_map in H as (v & -> & _).
Qed.

Lemma groupByValue_complete cards v :
  filter (λ c, value c = v) cards ≠ [] →
  (v, filter (λ c, value c = v) cards) ∈ groupByValue cards.
Proof.
  intros Hne. unfold groupByValue. apply list_elem_of_filter. split; [done|].
  apply elem_of_map. exists v. split; [done|].
  destruct (filter _ cards) as [|c k] eqn:Hf; [done|].
  assert (c ∈ filter (λ c, value c = v) cards) as Hc by (rewrite Hf; apply elem_of_cons; by left).
  apply list_elem_of_filter in Hc as [<- _].
  pose proof (value_range c). unfold cardValues. rewrite !elem_of_cons. lia.
Qed.

Lemma Group_take n v cards :
  (n ≤ length (filter (λ c, value c = v) cards))%nat →
  Group n v (take n (filter (λ c, value c = v) cards)).
Proof.
  intros Hn. split; [rewrite length_take; lia|].
  apply Forall_take, Forall_forall. intros c Hc.
  by apply list_elem_of_filter in Hc as [? _].
Qed.

Lemma no_group_of (n : nat) cards :
  head (filter (λ g : Z * list PokerCard, (n ≤ length g.2)%nat) (groupByValue cards)) = None →
  (0 < n)%nat →
  ∀ v, (length (filter (λ c, value c = v) cards) < n)%nat.
Proof.
  intros Hhead Hn v. apply head_None in Hhead.
  destruct (decide (n ≤ length (filter (λ c, value c = v) cards))%nat) as [Hge|]; [|lia].
  exfalso.
  assert ((v, filter (λ c, value c = v) cards)
          ∈ filter (λ g : Z * list PokerCard, (n ≤ length g.2)%nat) (groupByValue cards)) as Hin.
  { apply list_elem_of_filter. split; [done|]. apply groupByValue_complete.
    intros Heq. rewrite Heq in Hge. simpl in Hge. lia. }
  rewrite Hhead in Hin. by apply elem_of_nil in Hin.
Qed.

Lemma first_group_of (n : nat) cards v group :
  head (filter (λ g : Z * list PokerCard, (n ≤ length g.2)%nat) (groupByValue cards))
  = Some (v, group) →
  group = filter (λ c, value c = v) cards ∧ (n ≤ length group)%nat.
Proof.
  intros H. apply head_Some_elem_of in H. apply list_elem_of_filter in H as [Hn H].
  apply groupByValue_elem in H as [H _]. done.
Qed.

Lemma value_suit_inj c1 c2 : value c1 = value c2 → suit c1 = suit c2 → c1 = c2.
Proof.
  destruct c1 as [s1 r1], c2 as [s2 r2]; unfold value; simpl. intros Hv ->.
  f_equal. by destruct r1, r2.
Qed.

Lemma at_most_four_of_a_value cards v :
  NoDup cards → (length (filter (λ c, value c = v) cards) ≤ 4)%nat.
Proof.
  intros Hnd. set (g := filter _ cards).
  assert (NoDup (suit <$> g)) as Hs.
  { apply NoDup_fmap_2_strong; [|by apply NoDup_filter].
    intros c1 c2 H1 H2 Hsuit.
    apply list_elem_of_filter in H1 as [? _], H2 as [? _].
    apply value_suit_inj; congruence. }
  rewrite <-(length_fmap suit g).
  apply (submseteq_length _ [HEARTS; DIAMONDS; CLUBS; SPADES]).
  apply NoDup_submseteq; [done|]. intros s _.
  rewrite !elem_of_cons. destruct s; auto.
Qed.

Lemma length_others v cards :
  (length (others v cards) + length (filter (λ c, value c = v) cards))%nat = length cards.
Proof.
  unfold others, sortDesc. rewrite length_sortDescBy.
  rewrite <-(length_app _ _), Permutation_app_comm.
  by rewrite (filter_app_complement (λ c, value c = v) cards).
Qed.

Lemma others_subseteq v cards : others v cards ⊆ cards.
Proof.
  intros c Hc. unfold others in Hc. rewrite elem_of_sortDesc in Hc.
  by apply list_elem_of_filter in Hc as [_ ?].
Qed.

Lemma bestGroup_spec n ex gs b :
  bestGroup n ex gs = Some b →
  ∃ g, g ∈ gs ∧ b = (g.1, take n g.2) ∧ (n ≤ length g.2)%nat ∧ Some g.1 ≠ ex.
Proof.
  unfold bestGroup.
  assert (Hgen : ∀ gs seen acc,
            (∀ a, acc = Some a →
                  ∃ g, g ∈ seen ∧ a = (g.1, take n g.2) ∧ (n ≤ length g.2)%nat
                       ∧ Some g.1 ≠ ex) →
            foldl (λ best g,
                   if decide ((n ≤ length g.2)%nat ∧ Some g.1 ≠ ex) then
                     match best with
                     | None => Some (g.1, take n g.2)
                     | Some b => if decide (g.1 > b.1) then Some (g.1, take n g.2) else best
                     end
                   else best) acc gs = Some b →
            ∃ g, g ∈ seen ++ gs ∧ b = (g.1, take n g.2) ∧ (n ≤ length g.2)%nat
                 ∧ Some g.1 ≠ ex).
  { clear gs. induction gs as [|g gs IH]; simpl; intros seen acc Hacc.
    - rewrite app_nil_r. apply Hacc.
    - intros Hf. rewrite cons_middle, app_assoc. apply (IH (seen ++ [g])) in Hf; [done|].
      intros a Ha.
      assert (Hold : ∀ a0, acc = Some a0 →
                ∃ g0, g0 ∈ seen ++ [g] ∧ a0 = (g0.1, take n g0.2)
                      ∧ (n ≤ length g0.2)%nat ∧ Some g0.1 ≠ ex).
      { intros a0 Ha0. destruct (Hacc a0 Ha0) as (g0 & ? & ?).
        exists g0. split; [apply elem_of_app; by left|done]. }
      assert (Hnew : ∃ g0, g0 ∈ seen ++ [g] ∧ (g.1, take n g.2) = (g0.1, take n g0.2)) .
      { exists g. split; [|done]. apply elem_of_app. right. apply elem_of_cons. by left. }
      case_decide as Hd.
      + destruct acc as [b0|].
        * case_decide; [|by apply Hold].
          injection Ha as <-. destruct Hnew as (g0 & ? & ?). exists g.
          split; [apply elem_of_app; right; apply elem_of_cons; by left|].
          by destruct Hd.
        * injection Ha as <-. exists g.
          split; [apply elem_of_app; right; apply elem_of_cons; by left|].
          by destruct Hd.
      + by apply Hold. }
  intros H. apply (Hgen gs [] None) in H; [done|]. done.
Qed.

Lemma mapM_id_Some (cs : list PokerCard) : mapM id (map Some cs) = Some cs.
Proof. apply mapM_Some_2. induction cs; simpl; by constructor. Qed.

Lemma finalizeCards_eq cs t :
  finalizeCards cs t
  = Some {| hr_cards := take 5 cs; hr_hand := t; hr_rank := handTypeValue t;
            hr_value := calculateHandValue cs (handTypeValue t) |}.
Proof. unfold finalizeCards, finalizeResult. by rewrite mapM_id_Some. Qed.

Lemma finalizeResult_no_kicker cs t : finalizeResult (map Some cs ++ [None]) t = None.
Proof.
  unfold finalizeResult. rewrite mapM_None_2; [done|].
  apply Exists_app. right. by constructor.
Qed.

Lemma finalizeResult_kicker cs (k : Slot) t h :
  finalizeResult (map Some cs ++ [k]) t = Some h →
  ∃ c, k = Some c ∧ hr_cards h = take 5 (cs ++ [c]) ∧ hr_hand h = t.
Proof.
  destruct k as [c|]; [|by rewrite finalizeResult_no_kicker].
  change (map Some cs ++ [Some c]) with (map Some cs ++ map Some [c]).
  rewrite <-map_app. fold (finalizeCards (cs ++ [c]) t). rewrite finalizeCards_eq.
  intros [= <-]. by exists c.
Qed.

Lemma descending_take n cs : descending cs → descending (take n cs).
Proof.
  revert n. induction cs as [|c1 cs IH]; intros [|n]; try done.
  destruct cs as [|c2 cs]; [by destruct n|].
  intros [Hle Hd]. destruct n as [|n]; [done|].
  split; [done|]. apply (IH (S n) Hd).
Qed.

(** Cards outside the two pair values. *)
Lemma length_outside_two v1 v2 (l : list PokerCard) :
  (length l ≤ length (filter (λ c, value c ∉ [v1; v2]) l)
              + length (filter (λ c, value c = v1) l)
              + length (filter (λ c, value c = v2) l))%nat.
Proof.
  induction l as [|c l IH]; [done|].
  rewrite !filter_cons. repeat case_decide; rewrite ?length_cons; try lia.
  all: exfalso; rewrite !elem_of_cons, elem_of_nil in *; tauto.
Qed.

(** The two best pairs picked by [checkTwoPair]. *)
Lemma checkTwoPair_spec cards slots :
  checkTwoPair cards = Some slots →
  ∃ v1 v2,
    (2 ≤ length (filter (λ c, value c = v1) cards))%nat
    ∧ (2 ≤ length (filter (λ c, value c = v2) cards))%nat
    ∧ slots = map Some (take 2 (filter (λ c, value c = v1) cards)
                        ++ take 2 (filter (λ c, value c = v2) cards))
              ++ [head (sortDesc (filter (λ c, value c ∉ [v1; v2]) cards))].
Proof.
  unfold checkTwoPair. cbv zeta.
  set (pairs := map _ (filter _ (groupByValue cards))).
  case_decide as Hlen; [|done].
  assert (Hpair : ∀ p, p ∈ sortDescBy fst pairs →
            p.2 = take 2 (filter (λ c, value c = p.1) cards)
            ∧ (2 ≤ length (filter (λ c, value c = p.1) cards))%nat).
  { intros p Hp. rewrite elem_of_sortDescBy in Hp.
    apply elem_of_map in Hp as (g & -> & Hg).
    apply list_elem_of_filter in Hg as [Hn Hg].
    apply groupByValue_elem in Hg as [Hg _]. simpl. by rewrite <-Hg. }
  pose proof (length_sortDescBy fst pairs) as Hsl.
  destruct (sortDescBy fst pairs) as [|p1 [|p2 rest]] eqn:Hs; simpl in Hsl; try lia.
  destruct (Hpair p1) as [E1 L1]; [apply elem_of_cons; by left|].
  destruct (Hpair p2) as [E2 L2]; [apply elem_of_cons; right; apply elem_of_cons; by left|].
  intros [= <-]. exists p1.1, p2.1. split; [done|]. split; [done|].
  cbn [take map concat snd fst]. rewrite E1, E2, app_nil_r.
  rewrite take_ge; [done|].
  rewrite length_app, length_map, length_app, !length_take. cbn [length]. lia.
Qed.

Lemma take_take_app {A} (n : nat) (l k : list A) :
  length l = n → take n (l ++ k) = l.
Proof. intros <-. apply take_app_length. Qed.

Lemma drop_take_app {A} (n : nat) (l k : list A) :
  length l = n → drop n (l ++ k) = k.
Proof. intros <-. apply drop_app_length. Qed.

(** What [evaluate] returns: cards of the input, showing the category it
    names, five of them when at least five cards were given. *)
Lemma evaluate_spec hand community h :
  evaluate hand community = Some h →
  hr_cards h ⊆ hand ++ community
  ∧ Shows (hr_hand h) (hr_cards h)
  ∧ ((5 ≤ length (hand ++ community))%nat → length (hr_cards h) = 5%nat).
Proof.
  unfold evaluate. set (all := hand ++ community).
  destruct (checkRoyalFlush all) as [r|] eqn:H1.
  { apply checkRoyalFlush_spec in H1 as (Hs & Hl & Hsuit & Hv).
    rewrite finalizeCards_eq. intros [= <-]. simpl. by rewrite take_ge by lia. }
  destruct (checkStraightFlush all) as [r|] eqn:H2.
  { apply checkStraightFlush_spec in H2 as (Hs & Hl & Hsuit & Hv).
    rewrite finalizeCards_eq. intros [= <-]. simpl. by rewrite take_ge by lia. }
  destruct (checkFourOfAKind all) as [r|] eqn:H3.
  { unfold checkFourOfAKind in H3.
    destruct (head (filter _ _)) as [[v group]|] eqn:Hg; [|done].
    injection H3 as <-. apply first_group_of in Hg as [-> Hn].
    pose proof (Group_take 4 v all Hn) as HG. pose proof HG as [HGl _].
    rewrite take_ge by (rewrite length_app, length_map, HGl; simpl; lia).
    intros Hf. apply finalizeResult_kicker in Hf as (k & Hk & Hc & Ht).
    rewrite Hc, Ht. rewrite take_ge by (rewrite length_app, HGl; simpl; lia).
    split; [|split].
    - intros c Hin. apply elem_of_app in Hin as [Hin|Hin].
      + apply subseteq_take in Hin. by apply list_elem_of_filter in Hin as [_ ?].
      + apply list_elem_of_singleton in Hin as ->.
        apply head_Some_elem_of in Hk. by apply others_subseteq in Hk.
    - exists v. by rewrite take_take_app.
    - intros _. rewrite length_app, HGl. done. }
  destruct (checkFullHouse all) as [r|] eqn:H4.
  { unfold checkFullHouse in H4.
    destruct (bestGroup 3 None _) as [three|] eqn:Hb3; [|done].
    destruct (bestGroup 2 _ _) as [two|] eqn:Hb2; [|done].
    injection H4 as <-.
    apply bestGroup_spec in Hb3 as (g3 & Hg3 & -> & Hn3 & _).
    apply bestGroup_spec in Hb2 as (g2 & Hg2 & -> & Hn2 & Hne).
    apply groupByValue_elem in Hg3 as [E3 _], Hg2 as [E2 _].
    rewrite E3 in Hn3 |- *. rewrite E2 in Hn2 |- *. simpl in Hne |- *.
    pose proof (Group_take 3 _ all Hn3) as HG3. pose proof HG3 as [HGl3 _].
    pose proof (Group_take 2 _ all Hn2) as HG2. pose proof HG2 as [HGl2 _].
    rewrite finalizeCards_eq. intros [= <-]. simpl.
    rewrite take_ge by (rewrite length_app; lia).
    split; [|split].
    - intros c Hin. apply elem_of_app in Hin as [Hin|Hin];
        apply subseteq_take in Hin; by apply list_elem_of_filter in Hin as [_ ?].
    - exists g3.1, g2.1. split; [congruence|].
      by rewrite take_take_app, drop_take_app.
    - intros _. rewrite length_app. lia. }
  destruct (checkFlush all) as [r|] eqn:H5.
  { unfold checkFlush in H5.
    destruct (head (filter _ _)) as [g|] eqn:Hg; [|done].
    injection H5 as <-. apply head_Some_elem_of in Hg.
    apply list_elem_of_filter in Hg as [Hn Hg]. apply groupBySuit_elem in Hg.
    rewrite finalizeCards_eq. intros [= <-]. simpl. rewrite take_take.
    assert (Hsub : take 5 (sortDesc g.2) ⊆ filter (λ c, suit c = g.1) all).
    { intros c Hc. apply subseteq_take in Hc. rewrite elem_of_sortDesc in Hc.
      by rewrite <-Hg. }
    apply SameSuit_filter in Hsub as [Hsuit Hsub].
    assert (Hl : length (take 5 (sortDesc g.2)) = 5%nat).
    { rewrite length_take. unfold sortDesc. rewrite length_sortDescBy. lia. }
    split; [done|]. split; [|done]. split; [done|]. split; [done|].
    apply descending_take, descending_sortDesc. }
  destruct (checkStraight all) as [r|] eqn:H6.
  { apply checkStraight_spec in H6 as (Hs & Hl & Hv).
    rewrite finalizeCards_eq. intros [= <-]. simpl. by rewrite take_ge by lia. }
  set (sc := sortDesc all).
  assert (Hsc : sc ⊆ all) by (intros c Hc; unfold sc in Hc; by rewrite elem_of_sortDesc in Hc).
  assert (Hlsc : length sc = length all) by apply length_sortDescBy.
  assert (Hno4 : ∀ v, (length (filter (λ c, value c = v) sc) < 4)%nat).
  { intros v. unfold sc, sortDesc. rewrite length_filter_sortDescBy.
    unfold checkFourOfAKind in H3.
    destruct (head (filter _ _)) as [[? ?]|] eqn:Hg; [done|].
    apply (no_group_of 4 all Hg). lia. }
  destruct (checkThreeOfAKind sc) as [r|] eqn:H7.
  { unfold checkThreeOfAKind in H7.
    destruct (head (filter _ _)) as [[v group]|] eqn:Hg; [|done].
    injection H7 as <-. apply first_group_of in Hg as [-> Hn].
    pose proof (Group_take 3 v sc Hn) as HG. pose proof HG as [HGl _].
    rewrite finalizeCards_eq. intros [= <-]. simpl.
    rewrite take_ge by (rewrite length_app, HGl, length_take; lia).
    split; [|split].
    - intros c Hin. apply Hsc. apply elem_of_app in Hin as [Hin|Hin];
        apply subseteq_take in Hin;
        [by apply list_elem_of_filter in Hin as [_ ?] | by apply others_subseteq in Hin].
    - exists v. by rewrite take_take_app.
    - intros H5'. rewrite length_app, HGl, length_take.
      pose proof (length_others v sc). specialize (Hno4 v). lia. }
  assert (Hno3 : ∀ v, (length (filter (λ c, value c = v) sc) < 3)%nat).
  { intros v. unfold checkThreeOfAKind in H7.
    destruct (head (filter _ _)) as [[? ?]|] eqn:Hg; [done|].
    apply (no_group_of 3 sc Hg). lia. }
  destruct (checkTwoPair sc) as [r|] eqn:H8.
  { apply checkTwoPair_spec in H8 as (v1 & v2 & L1 & L2 & ->).
    pose proof (Group_take 2 v1 sc L1) as HG1. pose proof HG1 as [HGl1 _].
    pose proof (Group_take 2 v2 sc L2) as HG2. pose proof HG2 as [HGl2 _].
    intros Hf. apply finalizeResult_kicker in Hf as (k & Hk & Hc & Ht).
    rewrite Hc, Ht. rewrite take_ge by (rewrite !length_app, HGl1, HGl2; simpl; lia).
    split; [|split].
    - intros c Hin. apply Hsc. rewrite !elem_of_app in Hin.
      destruct Hin as [[Hin|Hin]|Hin].
      + apply subseteq_take in Hin. by apply list_elem_of_filter in Hin as [_ ?].
      + apply subseteq_take in Hin. by apply list_elem_of_filter in Hin as [_ ?].
      + apply list_elem_of_singleton in Hin as ->.
        apply head_Some_elem_of in Hk. rewrite elem_of_sortDesc in Hk.
        by apply list_elem_of_filter in Hk as [_ ?].
    - exists v1, v2. rewrite <-app_assoc.
      by rewrite take_take_app, drop_take_app, take_take_app.
    - intros _. rewrite !length_app, HGl1, HGl2. done. }
  destruct (checkOnePair sc) as [r|] eqn:H9.
  { unfold checkOnePair in H9.
    destruct (head (filter _ _)) as [[v group]|] eqn:Hg; [|done].
    injection H9 as <-. apply first_group_of in Hg as [-> Hn].
    pose proof (Group_take 2 v sc Hn) as HG. pose proof HG as [HGl _].
    rewrite finalizeCards_eq. intros [= <-]. simpl.
    rewrite take_ge by (rewrite length_app, HGl, length_take; lia).
    split; [|split].
    - intros c Hin. apply Hsc. apply elem_of_app in Hin as [Hin|Hin];
        apply subseteq_take in Hin;
        [by apply list_elem_of_filter in Hin as [_ ?] | by apply others_subseteq in Hin].
    - exists v. by rewrite take_take_app.
    - intros H5'. rewrite length_app, HGl, length_take.
      pose proof (length_others v sc). specialize (Hno3 v). lia. }
  rewrite finalizeCards_eq. intros [= <-]. simpl. unfold checkHighCard.
  rewrite take_take. split; [|split].
  - intros c Hin. apply Hsc. apply subseteq_take in Hin. by rewrite elem_of_sortDesc in Hin.
  - apply descending_take, descending_sortDesc.
  - intros H5'. rewrite length_take. unfold sortDesc. rewrite length_sortDescBy. lia.
Qed.

(** With five or more distinct cards no kicker is missing. *)
Lemma evaluate_returns hand community :
  (5 ≤ length (hand ++ community))%nat → NoDup (hand ++ community) →
  is_Some (evaluate hand community).
Proof.
  intros Hfive Hnd. unfold evaluate. set (all := hand ++ community) in *.
  destruct (checkRoyalFlush all) as [r|] eqn:H1; [by rewrite finalizeCards_eq|].
  destruct (checkStraightFlush all) as [r|] eqn:H2; [by rewrite finalizeCards_eq|].
  destruct (checkFourOfAKind all) as [r|] eqn:H3.
  { unfold checkFourOfAKind in H3.
    destruct (head (filter _ _)) as [[v group]|] eqn:Hg; [|done].
    injection H3 as <-. apply first_group_of in Hg as [-> Hn].
    pose proof (Group_take 4 v all Hn) as [HGl _].
    rewrite take_ge by (rewrite length_app, length_map, HGl; simpl; lia).
    pose proof (length_others v all) as Ho.
    pose proof (at_most_four_of_a_value all v Hnd) as H4.
    destruct (others v all) as [|k rest] eqn:Hoth; [simpl in Ho; lia|].
    change (map Some (take 4 (filter (λ c, value c = v) all)) ++ [head (k :: rest)])
      with (map Some (take 4 (filter (λ c, value c = v) all)) ++ map Some [k]).
    rewrite <-map_app.
    fold (finalizeCards (take 4 (filter (λ c, value c = v) all) ++ [k]) FOUR_OF_A_KIND).
    by rewrite finalizeCards_eq. }
  destruct (checkFullHouse all) as [r|] eqn:H4; [by rewrite finalizeCards_eq|].
  destruct (checkFlush all) as [r|] eqn:H5; [by rewrite finalizeCards_eq|].
  destruct (checkStraight all) as [r|] eqn:H6; [by rewrite finalizeCards_eq|].
  set (sc := sortDesc all).
  assert (Hlsc : length sc = length all) by apply length_sortDescBy.
  destruct (checkThreeOfAKind sc) as [r|] eqn:H7; [by rewrite finalizeCards_eq|].
  assert (Hno3 : ∀ v, (length (filter (λ c, value c = v) sc) < 3)%nat).
  { intros v. unfold checkThreeOfAKind in H7.
    destruct (head (filter _ _)) as [[? ?]|] eqn:Hg; [done|].
    apply (no_group_of 3 sc Hg). lia. }
  destruct (checkTwoPair sc) as [r|] eqn:H8.
  { apply checkTwoPair_spec in H8 as (v1 & v2 & L1 & L2 & ->).
    pose proof (length_outside_two v1 v2 sc) as Hout.
    pose proof (Hno3 v1). pose proof (Hno3 v2).
    pose proof (length_sortDescBy value (filter (λ c, value c ∉ [v1; v2]) sc)) as Hls.
    fold (sortDesc (filter (λ c, value c ∉ [v1; v2]) sc)) in Hls.
    destruct (sortDesc (filter (λ c, value c ∉ [v1; v2]) sc)) as [|k rest] eqn:Hk;
      [simpl in Hls; lia|].
    set (four := take 2 _ ++ take 2 _).
    change (map Some four ++ [head (k :: rest)]) with (map Some four ++ map Some [k]).
    rewrite <-map_app. fold (finalizeCards (four ++ [k]) TWO_PAIR).
    by rewrite finalizeCards_eq. }
  destruct (checkOnePair sc) as [r|] eqn:H9; by rewrite finalizeCards_eq.
Qed.

(** *** Nothing better is overlooked *)

Lemma suitsSeen_seen cards seen s : s ∈ seen → s ∈ suitsSeen cards seen.
Proof.
  revert seen. induction cards as [|c cards IH]; intros seen Hs; simpl; [done|].
  case_decide; apply IH; [done|]. apply elem_of_app. by left.
Qed.

Lemma suitsSeen_complete cards seen c : c ∈ cards → suit c ∈ suitsSeen cards seen.
Proof.
  revert seen. induction cards as [|d cards IH]; intros seen Hc;
    [by apply elem_of_nil in Hc|].
  simpl. apply elem_of_cons in Hc as [->|Hc]; case_decide; try by apply IH.
  - by apply suitsSeen_seen.
  - apply suitsSeen_seen, elem_of_app. right. by apply list_elem_of_singleton.
Qed.

Lemma head_is_Some_elem {A} (l : list A) x : x ∈ l → is_Some (head l).
Proof. destruct l; [by intros ?%elem_of_nil|by eexists]. Qed.

Lemma nonempty_filter_elem {A} (P : A → Prop) `{∀ x, Decision (P x)} (l : list A) :
  (0 < length (filter P l))%nat → ∃ x, x ∈ l ∧ P x.
Proof.
  destruct (filter P l) as [|x k] eqn:Hf; simpl; [lia|]. intros _. exists x.
  assert (x ∈ filter P l) as Hx by (rewrite Hf; apply elem_of_cons; by left).
  by apply list_elem_of_filter in Hx as [? ?].
Qed.

Lemma checkFlush_complete cards s :
  (5 ≤ length (filter (λ c, suit c = s) cards))%nat → is_Some (checkFlush cards).
Proof.
  intros Hs. unfold checkFlush.
  assert (is_Some (head (filter (λ g : Suit * list PokerCard, (5 ≤ length g.2)%nat)
                                (groupBySuit cards)))) as [g ->]; [|by eexists].
  apply (head_is_Some_elem _ (s, filter (λ c, suit c = s) cards)).
  apply list_elem_of_filter. split; [done|].
  unfold groupBySuit. apply elem_of_map. exists s. split; [done|].
  destruct (nonempty_filter_elem (λ c, suit c = s) cards) as (c & Hc & <-); [lia|].
  by apply suitsSeen_complete.
Qed.

Lemma first_group_exists (n : nat) cards v :
  (0 < n)%nat → (n ≤ length (filter (λ c, value c = v) cards))%nat →
  is_Some (head (filter (λ g : Z * list PokerCard, (n ≤ length g.2)%nat)
                        (groupByValue cards))).
Proof.
  intros Hn Hv. destruct (head _) eqn:Hh; [by eexists|].
  pose proof (no_group_of n cards Hh Hn v). lia.
Qed.

Lemma bestGroup_complete n ex gs g :
  g ∈ gs → (n ≤ length g.2)%nat → Some g.1 ≠ ex → is_Some (bestGroup n ex gs).
Proof.
  unfold bestGroup. intros Hg Hn Hex.
  assert (Hkeep : ∀ (gs : list (Z * list PokerCard)) acc, is_Some acc →
            is_Some (foldl (λ best g,
                   if decide ((n ≤ length g.2)%nat ∧ Some g.1 ≠ ex) then
                     match best with
                     | None => Some (g.1, take n g.2)
                     | Some b => if decide (g.1 > b.1) then Some (g.1, take n g.2) else best
                     end
                   else best) acc gs)).
  { clear. induction gs as [|g gs IH]; simpl; intros acc Hacc; [done|].
    apply IH. destruct Hacc as [b ->]. repeat case_decide; by eexists. }
  apply list_elem_of_split in Hg as (l1 & l2 & ->).
  rewrite foldl_app. simpl. apply Hkeep.
  rewrite decide_True by done. destruct (foldl _ None l1); [case_decide|]; by eexists.
Qed.

Lemma checkFullHouse_complete cards v w :
  v ≠ w →
  (3 ≤ length (filter (λ c, value c = v) cards))%nat →
  (2 ≤ length (filter (λ c, value c = w) cards))%nat →
  is_Some (checkFullHouse cards).
Proof.
  intros Hvw Hv Hw. unfold checkFullHouse.
  assert (Gv : (v, filter (λ c, value c = v) cards) ∈ groupByValue cards).
  { apply groupByValue_complete. intros E. rewrite E in Hv. simpl in Hv. lia. }
  assert (Gw : (w, filter (λ c, value c = w) cards) ∈ groupByValue cards).
  { apply groupByValue_complete. intros E. rewrite E in Hw. simpl in Hw. lia. }
  destruct (bestGroup_complete 3 None _ _ Gv) as [three H3]; [done..|]. rewrite H3.
  destruct (decide (three.1 = v)) as [E|E].
  - destruct (bestGroup_complete 2 (Some three.1) _ _ Gw) as [two H2];
      [done|simpl; congruence|]. rewrite H2. by eexists.
  - destruct (bestGroup_complete 2 (Some three.1) _ _ Gv) as [two H2];
      [simpl; lia|simpl; congruence|]. rewrite H2. by eexists.
Qed.

Lemma two_elements {A} (l : list A) x y : x ∈ l → y ∈ l → x ≠ y → (2 ≤ length l)%nat.
Proof.
  destruct l as [|a [|b l]]; simpl; [by intros ?%elem_of_nil| |lia].
  intros ->%list_elem_of_singleton ->%list_elem_of_singleton. done.
Qed.

Lemma checkTwoPair_complete cards v w :
  v ≠ w →
  (2 ≤ length (filter (λ c, value c = v) cards))%nat →
  (2 ≤ length (filter (λ c, value c = w) cards))%nat →
  is_Some (checkTwoPair cards).
Proof.
  intros Hvw Hv Hw. unfold checkTwoPair. cbv zeta.
  rewrite decide_True; [by eexists|].
  rewrite length_map.
  apply (two_elements _ (v, filter (λ c, value c = v) cards)
                        (w, filter (λ c, value c = w) cards)); [| |congruence].
  - apply list_elem_of_filter. split; [done|]. apply groupByValue_complete.
    intros E. rewrite E in Hv. simpl in Hv. lia.
  - apply list_elem_of_filter. split; [done|]. apply groupByValue_complete.
    intros E. rewrite E in Hw. simpl in Hw. lia.
Qed.

(** Straights. *)
Lemma descending_Forall c l : descending (c :: l) → Forall (λ d, value d ≤ value c) l.
Proof.
  revert c. induction l as [|d l IH]; intros c; [by constructor|].
  intros [Hle Hd]. constructor; [done|].
  eapply Forall_impl; [by apply IH|]. simpl. intros; lia.
Qed.

Lemma descending_tail c l : descending (c :: l) → descending l.
Proof. destruct l; [done|]. by intros [_ ?]. Qed.

Lemma uniqueByValue_strict l seen :
  descending l →
  strictlyDescending (uniqueByValue l seen)
  ∧ Forall (λ c, value c ∉ seen) (uniqueByValue l seen).
Proof.
  revert seen. induction l as [|c l IH]; intros seen Hd; simpl; [by split|].
  pose proof (descending_Forall _ _ Hd) as Hle. apply descending_tail in Hd.
  case_decide as Hseen; [by apply IH|].
  destruct (IH (value c :: seen) Hd) as [Hs Hn]. split; [split; [|done]|].
  - apply Forall_forall. intros d Hin.
    pose proof (proj1 (Forall_forall _ _) Hn d Hin) as Hd1.
    apply uniqueByValue_subseteq in Hin.
    pose proof (proj1 (Forall_forall _ _) Hle d Hin) as Hd2. simpl in Hd2.
    rewrite not_elem_of_cons in Hd1. lia.
  - constructor; [done|]. eapply Forall_impl; [done|]. simpl.
    intros d Hd1. rewrite not_elem_of_cons in Hd1. tauto.
Qed.

Lemma uniqueByValue_values cs seen v :
  (∃ c, c ∈ cs ∧ value c = v) → v ∉ seen →
  ∃ c, c ∈ uniqueByValue cs seen ∧ value c = v.
Proof.
  revert seen. induction cs as [|c0 cs IH]; intros seen (c & Hc & Hv) Hseen;
    [by apply elem_of_nil in Hc|].
  simpl. case_decide as H0.
  - apply elem_of_cons in Hc as [->|Hc]; [congruence|]. apply IH; eauto.
  - destruct (decide (value c0 = v)) as [E|E].
    + exists c0. split; [apply elem_of_cons; by left|done].
    + apply elem_of_cons in Hc as [->|Hc]; [done|].
      destruct (IH (value c0 :: seen)) as (d & ? & ?); [eauto| |].
      * rewrite not_elem_of_cons. split; [congruence|done].
      * exists d. split; [apply elem_of_cons; by right|done].
Qed.

Lemma firstRun_Some_length u : is_Some (firstRun u) → (5 ≤ length u)%nat.
Proof. destruct u; simpl; intros [r Hr]; [done|]. by case_decide. Qed.

Lemma next_in_run c rest w :
  strictlyDescending (c :: rest) →
  w = value c - 1 → (∃ d, d ∈ rest ∧ value d = w) →
  ∃ d rest', rest = d :: rest' ∧ value d = w.
Proof.
  intros [Hlt Hs] -> (d & Hd & Hv). destruct rest as [|d0 rest']; [by apply elem_of_nil in Hd|].
  exists d0, rest'. split; [done|].
  apply Forall_cons in Hlt as [Hlt0 _]. destruct Hs as [Hlt' _].
  apply elem_of_cons in Hd as [->|Hd]; [done|].
  pose proof (proj1 (Forall_forall _ _) Hlt' d Hd). simpl in *. lia.
Qed.

Lemma firstRun_complete u v :
  strictlyDescending u → HasValues [v; v - 1; v - 2; v - 3; v - 4] u →
  is_Some (firstRun u).
Proof.
  induction u as [|c u IH]; intros Hs Hv.
  { destruct (Hv v) as (? & []%elem_of_nil & _). apply elem_of_cons. by left. }
  destruct (decide (value c = v)) as [E|E].
  - assert (Hin : ∀ w, w ∈ [v - 1; v - 2; v - 3; v - 4] →
                       ∃ d, d ∈ u ∧ value d = w).
    { intros w Hw. destruct (Hv w) as (d & Hd & Hdv); [apply elem_of_cons; by right|].
      exists d. split; [|done]. apply elem_of_cons in Hd as [->|Hd]; [|done].
      rewrite !elem_of_cons, elem_of_nil in Hw. lia. }
    destruct (next_in_run c u (v - 1) Hs) as (d1 & u1 & -> & E1); [lia| |].
    { apply Hin. rewrite !elem_of_cons. tauto. }
    pose proof Hs as [_ Hs1].
    destruct (next_in_run d1 u1 (v - 2) Hs1) as (d2 & u2 & -> & E2); [lia| |].
    { destruct (Hin (v - 2)) as (d & Hd & Hdv); [rewrite !elem_of_cons; tauto|].
      exists d. split; [|done]. apply elem_of_cons in Hd as [->|Hd]; [lia|done]. }
    pose proof Hs1 as [_ Hs2].
    destruct (next_in_run d2 u2 (v - 3) Hs2) as (d3 & u3 & -> & E3); [lia| |].
    { destruct (Hin (v - 3)) as (d & Hd & Hdv); [rewrite !elem_of_cons; tauto|].
      exists d. split; [|done].
      apply elem_of_cons in Hd as [->|Hd]; [lia|].
      apply elem_of_cons in Hd as [->|Hd]; [lia|done]. }
    pose proof Hs2 as [_ Hs3].
    destruct (next_in_run d3 u3 (v - 4) Hs3) as (d4 & u4 & -> & E4); [lia| |].
    { destruct (Hin (v - 4)) as (d & Hd & Hdv); [rewrite !elem_of_cons; tauto|].
      exists d. split; [|done].
      apply elem_of_cons in Hd as [->|Hd]; [lia|].
      apply elem_of_cons in Hd as [->|Hd]; [lia|].
      apply elem_of_cons in Hd as [->|Hd]; [lia|done]. }
    cbn [firstRun]. rewrite decide_True by (simpl; lia).
    cbn [take map isConsecutive]. rewrite !decide_True by lia. by eexists.
  - destruct Hs as [Hlt Hs].
    assert (is_Some (firstRun u)) as Hrest.
    { apply IH; [done|]. intros w Hw. destruct (Hv w Hw) as (d & Hd & Hdv).
      exists d. split; [|done]. apply elem_of_cons in Hd as [->|Hd]; [|done].
      exfalso. destruct (Hv v) as (d & Hd & Hdv'); [apply elem_of_cons; by left|].
      apply elem_of_cons in Hd as [->|Hd]; [done|].
      pose proof (proj1 (Forall_forall _ _) Hlt d Hd) as Hd1. simpl in Hd1.
      rewrite !elem_of_cons, elem_of_nil in Hw. lia. }
    pose proof (firstRun_Some_length u Hrest).
    cbn [firstRun]. rewrite decide_True by (simpl; lia).
    destruct (isConsecutive _); [by eexists|done].
Qed.

Lemma someValue_true v l : (∃ c, c ∈ l ∧ value c = v) → someValue v l = true.
Proof.
  intros (c & Hc & Hv). unfold someValue. apply bool_decide_eq_true.
  apply Exists_exists. by exists c.
Qed.

Lemma checkStraight_complete cs : HasRun cs → is_Some (checkStraight cs).
Proof.
  intros Hrun. unfold checkStraight.
  set (u := uniqueByValue (sortDesc cs) []).
  assert (Hu : ∀ w, (∃ c, c ∈ cs ∧ value c = w) → ∃ c, c ∈ u ∧ value c = w).
  { intros w (c & Hc & Hw). apply uniqueByValue_values; [|by apply not_elem_of_nil].
    exists c. by rewrite elem_of_sortDesc. }
  destruct (firstRun u) as [r|] eqn:Hr; [by eexists|].
  destruct Hrun as [[v Hv]|Hw].
  - assert (is_Some (firstRun u)) as [? E]; [|by rewrite E in Hr].
    apply (firstRun_complete u v).
    + apply uniqueByValue_strict, descending_sortDesc.
    + intros w Hw. by apply Hu, Hv.
  - rewrite !someValue_true; [by eexists|..]; apply Hu, Hw; rewrite !elem_of_cons; tauto.
Qed.

Lemma InSequence_NoDup r : InSequence r → NoDup r.
Proof.
  intros Hseq. apply (NoDup_fmap_1 value). change (NoDup (map value r)).
  destruct Hseq as [[v ->]| ->]; repeat (constructor; [rewrite ?elem_of_cons, ?elem_of_nil; lia|]);
    constructor.
Qed.

Lemma straightFlushIn_complete gs g :
  g ∈ gs → is_Some (checkStraight g.2) → is_Some (straightFlushIn gs).
Proof.
  intros Hg [r Hr]. induction gs as [|g0 gs IH]; [by apply elem_of_nil in Hg|].
  simpl. apply elem_of_cons in Hg as [<-|Hg].
  - rewrite decide_True, Hr; [by eexists|].
    apply checkStraight_spec in Hr as (Hs & Hl & Hseq). rewrite <-Hl.
    apply submseteq_length, NoDup_submseteq; [by apply InSequence_NoDup|done].
  - case_decide; [destruct (checkStraight g0.2); [by eexists|]|]; by apply IH.
Qed.

Lemma checkStraightFlush_complete cards s :
  HasRun (filter (λ c, suit c = s) cards) → is_Some (checkStraightFlush cards).
Proof.
  intros Hrun. unfold checkStraightFlush.
  apply (straightFlushIn_complete _ (s, filter (λ c, suit c = s) cards));
    [|by apply checkStraight_complete].
  unfold groupBySuit. apply elem_of_map. exists s. split; [done|].
  assert (∃ c, c ∈ filter (λ c, suit c = s) cards) as (c & Hc).
  { destruct Hrun as [[v Hv]|Hv].
    - destruct (Hv v) as (c & ? & _); [apply elem_of_cons; by left|]. by exists c.
    - destruct (Hv 14) as (c & ? & _); [apply elem_of_cons; by left|]. by exists c. }
  apply list_elem_of_filter in Hc as [<- Hc]. by apply suitsSeen_complete.
Qed.

Lemma finalizeResult_rank slots t h :
  finalizeResult slots t = Some h → hr_rank h = handTypeValue t.
Proof. unfold finalizeResult. destruct (mapM id slots); [|done]. by intros [= <-]. Qed.

(** X4.  [evaluate] overlooks no category.  If two of the given cards
    share a value the result ranks at least One Pair (2); with two pairs of
    different values at least Two Pair (3); with three of a value at least
    Three of a Kind (4); with five values in sequence, or A-2-3-4-5, at least
    Straight (5); with five cards of a suit at least Flush (6); with three of
    a value and two of another at least Full House (7); with four of a value
    at least Four of a Kind (8); and with a sequence inside one suit at least
    Straight Flush (9). *)
Theorem evaluate_overlooks_no_category (hand community : list PokerCard) (h : HandResult) :
  evaluate hand community = Some h →
  (∀ v, (2 ≤ length (filter (λ c, value c = v) (hand ++ community)))%nat → 2 ≤ hr_rank h)
  ∧ (∀ v w, v ≠ w →
       (2 ≤ length (filter (λ c, value c = v) (hand ++ community)))%nat →
       (2 ≤ length (filter (λ c, value c = w) (hand ++ community)))%nat → 3 ≤ hr_rank h)
  ∧ (∀ v, (3 ≤ length (filter (λ c, value c = v) (hand ++ community)))%nat → 4 ≤ hr_rank h)
  ∧ (HasRun (hand ++ community) → 5 ≤ hr_rank h)
  ∧ (∀ s, (5 ≤ length (filter (λ c, suit c = s) (hand ++ community)))%nat → 6 ≤ hr_rank h)
  ∧ (∀ v w, v ≠ w →
       (3 ≤ length (filter (λ c, value c = v) (hand ++ community)))%nat →
       (2 ≤ length (filter (λ c, value c = w) (hand ++ community)))%nat → 7 ≤ hr_rank h)
  ∧ (∀ v, (4 ≤ length (filter (λ c, value c = v) (hand ++ community)))%nat → 8 ≤ hr_rank h)
  ∧ (∀ s, HasRun (filter (λ c, suit c = s) (hand ++ community)) → 9 ≤ hr_rank h).
Proof.
  unfold evaluate. set (all := hand ++ community).
  assert (Hsorted : ∀ v, length (filter (λ c, value c = v) (sortDesc all))
                         = length (filter (λ c, value c = v) all)).
  { intros v. apply length_filter_sortDescBy. }
  destruct (checkRoyalFlush all) as [r|] eqn:H1.
  { intros ->%finalizeResult_rank. simpl. repeat split; intros; lia. }
  destruct (checkStraightFlush all) as [r|] eqn:H2.
  { intros ->%finalizeResult_rank. simpl. repeat split; intros; lia. }
  assert (N9 : ∀ s, ¬ HasRun (filter (λ c, suit c = s) all)).
  { intros s Hs. destruct (checkStraightFlush_complete all s Hs) as [? E].
    by rewrite E in H2. }
  destruct (checkFourOfAKind all) as [r|] eqn:H3.
  { intros ->%finalizeResult_rank. simpl. repeat split; intros; first [lia|by edestruct N9]. }
  assert (N8 : ∀ v, ¬ (4 ≤ length (filter (λ c, value c = v) all))%nat).
  { intros v Hv. unfold checkFourOfAKind in H3.
    destruct (first_group_exists 4 all v) as [[? ?] Hg]; [lia|done|].
    by rewrite Hg in H3. }
  destruct (checkFullHouse all) as [r|] eqn:H4.
  { intros ->%finalizeResult_rank. simpl.
    repeat split; intros; first [lia|by edestruct N9|by edestruct N8]. }
  assert (N7 : ∀ v w, v ≠ w →
            (3 ≤ length (filter (λ c, value c = v) all))%nat →
            ¬ (2 ≤ length (filter (λ c, value c = w) all))%nat).
  { intros v w Hvw Hv Hw. destruct (checkFullHouse_complete all v w) as [? E]; try done.
    by rewrite E in H4. }
  destruct (checkFlush all) as [r|] eqn:H5.
  { intros ->%finalizeResult_rank. simpl.
    repeat split; intros; first [lia|by edestruct N9|by edestruct N8|by edestruct N7]. }
  assert (N6 : ∀ s, ¬ (5 ≤ length (filter (λ c, suit c = s) all))%nat).
  { intros s Hs. destruct (checkFlush_complete all s Hs) as [? E]. by rewrite E in H5. }
  destruct (checkStraight all) as [r|] eqn:H6.
  { intros ->%finalizeResult_rank. simpl.
    repeat split; intros;
      first [lia|by edestruct N9|by edestruct N8|by edestruct N7|by edestruct N6]. }
  assert (N5 : ¬ HasRun all).
  { intros Hr. destruct (checkStraight_complete all Hr) as [? E]. by rewrite E in H6. }
  destruct (checkThreeOfAKind (sortDesc all)) as [r|] eqn:H7.
  { intros ->%finalizeResult_rank. simpl.
    repeat split; intros;
      first [lia|done|by edestruct N9|by edestruct N8|by edestruct N7|by edestruct N6]. }
  assert (N4 : ∀ v, ¬ (3 ≤ length (filter (λ c, value c = v) all))%nat).
  { intros v Hv. unfold checkThreeOfAKind in H7.
    destruct (first_group_exists 3 (sortDesc all) v) as [[? ?] Hg];
      [lia|by rewrite Hsorted|]. by rewrite Hg in H7. }
  destruct (checkTwoPair (sortDesc all)) as [r|] eqn:H8.
  { intros ->%finalizeResult_rank. simpl.
    repeat split; intros;
      first [lia|done|by edestruct N9|by edestruct N8|by edestruct N6|by edestruct N4]. }
  assert (N3 : ∀ v w, v ≠ w →
            (2 ≤ length (filter (λ c, value c = v) all))%nat →
            ¬ (2 ≤ length (filter (λ c, value c = w) all))%nat).
  { intros v w Hvw Hv Hw.
    destruct (checkTwoPair_complete (sortDesc all) v w) as [? E];
      [done|by rewrite Hsorted..|]. by rewrite E in H8. }
  destruct (checkOnePair (sortDesc all)) as [r|] eqn:H9.
  { intros ->%finalizeResult_rank. simpl.
    repeat split; intros;
      first [lia|done|by edestruct N9|by edestruct N8|by edestruct N6|by edestruct N4
            |by edestruct N3]. }
  assert (N2 : ∀ v, ¬ (2 ≤ length (filter (λ c, value c = v) all))%nat).
  { intros v Hv. unfold checkOnePair in H9.
    destruct (first_group_exists 2 (sortDesc all) v) as [[? ?] Hg];
      [lia|by rewrite Hsorted|]. by rewrite Hg in H9. }
  intros ->%finalizeResult_rank. simpl.
  repeat split; intros;
    first [done|by edestruct N9|by edestruct N8|by edestruct N6|by edestruct N4
          |by edestruct N2].
Qed.

Lemma evaluate_overlooks_no_category_witness :
  ∃ h, evaluate c4_flush.1 c4_flush.2 = Some h ∧ 6 ≤ hr_rank h.
Proof.
  eexists. split; [reflexivity|].
  destruct (evaluate_overlooks_no_category c4_flush.1 c4_flush.2 _ eq_refl)
    as (_ & _ & _ & _ & Hflush & _).
  apply (Hflush HEARTS). vm_compute. lia.
Defined.

(** X1.  Whatever [evaluate] returns is made of the cards it was given:
    every card of the result is one of the hole or community cards, the
    result holds at most five cards, and its rank is the value that the
    [POKER_HANDS] table gives the category it names. *)
Theorem evaluate_uses_the_given_cards (hand community : list PokerCard) (h : HandResult) :
  evaluate hand community = Some h →
  hr_cards h ⊆ hand ++ community
  ∧ (length (hr_cards h) ≤ 5)%nat
  ∧ hr_rank h = handTypeValue (hr_hand h).
Proof.
  intros He. split; [by apply evaluate_spec in He as (? & _)|].
  apply evaluate_at_most_five in He as (cs & t & Hl & ->). simpl.
  rewrite length_take. split; [lia|done].
Qed.

Lemma evaluate_uses_the_given_cards_witness :
  ∃ h, evaluate c4_flush.1 c4_flush.2 = Some h
       ∧ hr_cards h ⊆ c4_flush.1 ++ c4_flush.2
       ∧ (length (hr_cards h) ≤ 5)%nat.
Proof.
  eexists. split; [reflexivity|].
  pose proof (evaluate_uses_the_given_cards c4_flush.1 c4_flush.2 _ eq_refl) as (? & ? & _).
  done.
Defined.

(** X2.  On five or more distinct cards [evaluate] always returns a
    result (no check hands [finalizeResult] an array with a missing card),
    and the result holds exactly five cards. *)
Theorem evaluate_returns_five_of_five_or_more (hand community : list PokerCard) :
  (5 ≤ length (hand ++ community))%nat →
  NoDup (hand ++ community) →
  ∃ h, evaluate hand community = Some h ∧ length (hr_cards h) = 5%nat.
Proof.
  intros Hfive Hnd. destruct (evaluate_returns hand community Hfive Hnd) as [h He].
  exists h. split; [done|]. by apply evaluate_spec in He as (_ & _ & Hl); apply Hl.
Qed.

Lemma evaluate_returns_five_of_five_or_more_witness :
  ∃ h, evaluate c4_straight.1 c4_straight.2 = Some h ∧ length (hr_cards h) = 5%nat.
Proof.
  apply (evaluate_returns_five_of_five_or_more c4_straight.1 c4_straight.2).
  - simpl. lia.
  - apply (bool_decide_unpack _). by vm_compute.
Defined.

(** *** The key of the memo table *)

Lemma append_assoc (s t u : string) :
  String.append (String.append s t) u = String.append s (String.append t u).
Proof.
  induction s as [|a s IH]; [done|].
  change (String a (String.append (String.append s t) u)
          = String a (String.append s (String.append t u))).
  by rewrite IH.
Qed.

Lemma append_empty_r (s : string) : String.append s EmptyString = s.
Proof.
  induction s as [|a s IH]; [done|].
  change (String a (String.append s EmptyString) = String a s). by rewrite IH.
Qed.

Lemma concat_codes_cons (c : PokerCard) (l : list PokerCard) :
  String.concat EmptyString (map HandEvaluator.code (c :: l))
  = String.append (HandEvaluator.code c)
                  (String.concat EmptyString (map HandEvaluator.code l)).
Proof.
  destruct l as [|c' l]; [by rewrite append_empty_r|]. reflexivity.
Qed.

(** No code is the beginning of another, and none begins with the bar. *)
Lemma code_prefix c1 c2 t1 t2 :
  String.append (HandEvaluator.code c1) t1 = String.append (HandEvaluator.code c2) t2 →
  c1 = c2 ∧ t1 = t2.
Proof.
  destruct c1 as [s1 r1], c2 as [s2 r2].
  destruct r1, r2;
    cbv [HandEvaluator.code HandEvaluator.rankName String.append suit rank];
    try discriminate;
    destruct s1, s2; cbv [HandEvaluator.suitInitial]; try discriminate;
    intros Heq; simplify_eq; done.
Qed.

Lemma code_no_bar c t u :
  String.append (HandEvaluator.code c) t ≠ String.append "|" u
  ∧ String.append (HandEvaluator.code c) t ≠ EmptyString.
Proof.
  destruct c as [s r].
  destruct r; cbv [HandEvaluator.code HandEvaluator.rankName String.append suit rank];
    split; discriminate.
Qed.

Lemma codes_inj l1 l2 s1 s2 :
  (s1 = EmptyString ∨ ∃ t, s1 = String.append "|" t) →
  (s2 = EmptyString ∨ ∃ t, s2 = String.append "|" t) →
  String.append (String.concat EmptyString (map HandEvaluator.code l1)) s1
  = String.append (String.concat EmptyString (map HandEvaluator.code l2)) s2 →
  l1 = l2 ∧ s1 = s2.
Proof.
  intros H1 H2. revert l2. induction l1 as [|c1 l1 IH]; intros [|c2 l2].
  - done.
  - rewrite concat_codes_cons, append_assoc.
    change (s1 = String.append (HandEvaluator.code c2)
                   (String.append (String.concat EmptyString (map HandEvaluator.code l2)) s2)
            → [] = c2 :: l2 ∧ s1 = s2).
    intros Heq. symmetry in Heq.
    destruct H1 as [->|[t ->]]; by apply code_no_bar in Heq.
  - rewrite concat_codes_cons, append_assoc.
    change (String.append (HandEvaluator.code c1)
              (String.append (String.concat EmptyString (map HandEvaluator.code l1)) s1) = s2
            → c1 :: l1 = [] ∧ s1 = s2).
    intros Heq. destruct H2 as [->|[t ->]]; by apply code_no_bar in Heq.
  - rewrite !concat_codes_cons, !append_assoc.
    intros [-> Heq]%code_prefix. by apply IH in Heq as [-> ->].
Qed.

Lemma insertCode_Permutation x l : HandEvaluator.insertCode x l ≡ₚ x :: l.
Proof.
  induction l as [|y l IH]; [done|]. cbn [HandEvaluator.insertCode].
  destruct (String.ltb y x); [|done]. rewrite IH. apply Permutation_swap.
Qed.

Lemma sortCodes_Permutation l : HandEvaluator.sortCodes l ≡ₚ l.
Proof.
  induction l as [|x l IH]; [done|].
  change (HandEvaluator.sortCodes (x :: l))
    with (HandEvaluator.insertCode x (HandEvaluator.sortCodes l)).
  by rewrite insertCode_Permutation, IH.
Qed.

Lemma code_inj c1 c2 : HandEvaluator.code c1 = HandEvaluator.code c2 → c1 = c2.
Proof.
  intros Heq.
  destruct (code_prefix c1 c2 EmptyString EmptyString) as [? _]; [|done].
  by rewrite Heq.
Qed.

(** The sorted codes of some cards are the codes of a rearrangement. *)
Lemma sortCodes_codes (l : list PokerCard) :
  ∃ l', l' ≡ₚ l ∧ HandEvaluator.sortCodes (map HandEvaluator.code l) = map HandEvaluator.code l'.
Proof.
  edestruct (Permutation_map_inv HandEvaluator.code) as (l' & Heq & Hp);
    [apply (sortCodes_Permutation (map HandEvaluator.code l))|].
  exists l'. split; [by symmetry|done].
Qed.

(** The key tells the hole cards and the community cards, up to order. *)
Lemma getCacheKey_inj hand0 community0 hand community :
  HandEvaluator.getCacheKey hand0 community0 = HandEvaluator.getCacheKey hand community →
  hand0 ≡ₚ hand ∧ community0 ≡ₚ community.
Proof.
  unfold HandEvaluator.getCacheKey. cbv zeta.
  destruct (sortCodes_codes hand0) as (h0 & Hh0 & ->).
  destruct (sortCodes_codes community0) as (c0 & Hc0 & ->).
  destruct (sortCodes_codes hand) as (h & Hh & ->).
  destruct (sortCodes_codes community) as (c & Hc & ->).
  intros Heq. apply codes_inj in Heq as [-> Heq]; [|right; by eexists..].
  apply (inj (String.append "|")) in Heq.
  rewrite <-(append_empty_r (String.concat _ (map _ c0))) in Heq.
  rewrite <-(append_empty_r (String.concat _ (map _ c))) in Heq.
  apply codes_inj in Heq as [-> _]; [|by left..].
  split; [by rewrite <-Hh0, Hh|by rewrite <-Hc0, Hc].
Qed.

(** *** The memo table *)

(** Sorting what is sorted changes nothing. *)
Lemma sortDesc_descending cs : descending cs → sortDesc cs = cs.
Proof.
  induction cs as [|c rest IH]; [done|]. intros Hd.
  change (sortDesc (c :: rest)) with (insertDescBy value c (sortDesc rest)).
  destruct rest as [|c' rest]; [done|]. destruct Hd as [Hle Hd].
  rewrite (IH Hd). cbn [insertDescBy]. by rewrite decide_False by lia.
Qed.

Lemma sortDesc_idemp cs : sortDesc (sortDesc cs) = sortDesc cs.
Proof. apply sortDesc_descending, descending_sortDesc. Qed.

Lemma Kept_sorted res first :
  HandEvaluator.Kept res first →
  HandEvaluator.Kept {| hr_cards := sortDesc (hr_cards res); hr_hand := hr_hand res;
                        hr_rank := hr_rank res; hr_value := hr_value res |} first.
Proof.
  intros (Hh & Hr & Hv & Hc). repeat split; try done. right. cbn [hr_cards].
  destruct Hc as [->| ->]; [done|apply sortDesc_idemp].
Qed.

Lemma Memoised_sortCardsOf hand ev :
  HandEvaluator.Memoised ev → HandEvaluator.Memoised (HandEvaluator.sortCardsOf hand ev).
Proof.
  intros Hm key ref Hkey.
  destruct (Hm key ref Hkey) as (res & h & c & first & Hres & Hk & He & Hkept).
  cbn [HandEvaluator.sortCardsOf HandEvaluator.results].
  destruct (decide (hand = ref)) as [->|Hne].
  - eexists _, h, c, first. rewrite list_lookup_alter_eq, Hres.
    split; [reflexivity|]. split; [done|]. split; [done|]. by apply Kept_sorted.
  - exists res, h, c, first. by rewrite list_lookup_alter_ne.
Qed.

Lemma Memoised_compareHands hand1 hand2 ev :
  HandEvaluator.Memoised ev →
  HandEvaluator.Memoised (HandEvaluator.compareHands hand1 hand2 ev).2.
Proof.
  intros Hm. unfold HandEvaluator.compareHands.
  destruct (HandEvaluator.results ev !! hand1) as [h1|]; [|done].
  destruct (HandEvaluator.results ev !! hand2) as [h2|]; [|done].
  repeat case_decide; try done. by do 2 apply Memoised_sortCardsOf.
Qed.

(** The answer of [compareHands] is the one computed from the two results. *)
Lemma compareHands_answer hand1 hand2 ev h1 h2 :
  HandEvaluator.results ev !! hand1 = Some h1 →
  HandEvaluator.results ev !! hand2 = Some h2 →
  (HandEvaluator.compareHands hand1 hand2 ev).1 = Some (compareHands h1 h2).
Proof.
  intros H1 H2. unfold HandEvaluator.compareHands, compareHands. rewrite H1, H2.
  repeat case_decide; try done. cbn [fst]. f_equal.
  unfold HandEvaluator.cardsOf, HandEvaluator.sortCardsOf. cbn [HandEvaluator.results].
  destruct (decide (hand1 = hand2)) as [->|Hne].
  - rewrite list_lookup_alter_eq, list_lookup_alter_eq, H1. simplify_eq.
    cbn. by rewrite sortDesc_idemp.
  - rewrite list_lookup_alter_eq, (list_lookup_alter_ne _ _ hand1 hand2) by done.
    rewrite (list_lookup_alter_ne _ _ hand2 hand1) by done.
    rewrite list_lookup_alter_eq, H1, H2. done.
Qed.

Lemma Kept_refl h : HandEvaluator.Kept h h.
Proof. repeat split. by left. Qed.

Lemma Memoised_bound ev key ref :
  HandEvaluator.Memoised ev → HandEvaluator.handCache ev !! key = Some ref →
  (ref < length (HandEvaluator.results ev))%nat.
Proof.
  intros Hm Hkey. destruct (Hm key ref Hkey) as (res & _ & _ & _ & Hres & _).
  by eapply lookup_lt_Some.
Qed.

Lemma Memoised_evaluate hand community ev :
  HandEvaluator.Memoised ev →
  HandEvaluator.Memoised (HandEvaluator.evaluate hand community ev).2.
Proof.
  intros Hm. unfold HandEvaluator.evaluate. cbv zeta.
  destruct (HandEvaluator.handCache ev !! _) as [hit|] eqn:Hhit; [done|].
  destruct (Evaluator.evaluate hand community) as [result|] eqn:He; [|done].
  intros key ref. cbn [snd HandEvaluator.handCache HandEvaluator.results].
  destruct (decide (key = HandEvaluator.getCacheKey hand community)) as [->|Hne].
  - rewrite lookup_insert_eq. intros [= <-].
    exists result, hand, community, result.
    rewrite lookup_app_r, Nat.sub_diag by done. repeat split; try done. apply Kept_refl.
  - rewrite lookup_insert_ne by done. intros Hkey.
    destruct (Hm key ref Hkey) as (res & h & c & first & Hres & Hk & Hf & Hkept).
    exists res, h, c, first. split; [|done].
    rewrite lookup_app_l; [done|]. by eapply lookup_lt_Some.
Qed.

Lemma Memoised_run calls : HandEvaluator.Memoised (HandEvaluator.run calls).
Proof.
  unfold HandEvaluator.run.
  assert (Hgen : ∀ ev, HandEvaluator.Memoised ev →
                       HandEvaluator.Memoised (foldl HandEvaluator.step ev calls)).
  { induction calls as [|call calls IH]; intros ev Hm; [done|].
    apply IH. destruct call; [by apply Memoised_evaluate|by apply Memoised_compareHands]. }
  apply Hgen. intros key ref. unfold HandEvaluator.newHandEvaluator.
  cbn [HandEvaluator.handCache]. by rewrite lookup_empty.
Qed.

(** X3.  The category that [evaluate] announces is shown by the cards
    of the result in the order in which they were computed: a group of four,
    three or two cards of one value leads the array for Four of a Kind, Three
    of a Kind and One Pair, three of one value are followed by two of another
    for a Full House, two pairs lead for Two Pair, five cards of one suit in
    descending order make a Flush, five values in sequence (or A-5-4-3-2) a
    Straight, both together a Straight Flush, and A-K-Q-J-10 of one suit a
    Royal Flush.  The result object is memoised, and [compareHands] sorts the
    cards of its two arguments in place when rank and value tie: after any
    sequence of [evaluate] and [compareHands] calls on a new evaluator, what
    [evaluate] returns is the result first computed for the same hole cards
    and the same community cards (in whatever order they were given then),
    with its category, rank and value, and with its cards in the computed
    order or sorted by descending value; on a miss it is the result just
    computed, cards in the computed order. *)
Theorem evaluate_category_is_shown (calls : list HandEvaluator.Call)
    (hand community : list PokerCard) (ref : nat) (ev' : HandEvaluator.HandEvaluator) :
  HandEvaluator.evaluate hand community (HandEvaluator.run calls) = (Some ref, ev') →
  ∃ res hand0 community0 first,
    HandEvaluator.results ev' !! ref = Some res
    ∧ HandEvaluator.handCache ev' !! HandEvaluator.getCacheKey hand community = Some ref
    ∧ hand0 ≡ₚ hand ∧ community0 ≡ₚ community
    ∧ Evaluator.evaluate hand0 community0 = Some first
    ∧ Shows (hr_hand first) (hr_cards first)
    ∧ hr_hand res = hr_hand first
    ∧ hr_rank res = hr_rank first
    ∧ hr_value res = hr_value first
    ∧ (hr_cards res = hr_cards first ∨ hr_cards res = sortDesc (hr_cards first))
    ∧ hr_cards res ≡ₚ hr_cards first
    ∧ hr_cards res ⊆ hand ++ community
    ∧ (HandEvaluator.handCache (HandEvaluator.run calls)
         !! HandEvaluator.getCacheKey hand community = None →
       hand0 = hand ∧ community0 = community ∧ res = first).
Proof.
  intros Hev.
  assert (Hgen : ∃ res hand0 community0 first,
    HandEvaluator.results ev' !! ref = Some res
    ∧ HandEvaluator.handCache ev' !! HandEvaluator.getCacheKey hand community = Some ref
    ∧ HandEvaluator.getCacheKey hand0 community0 = HandEvaluator.getCacheKey hand community
    ∧ Evaluator.evaluate hand0 community0 = Some first
    ∧ HandEvaluator.Kept res first
    ∧ (HandEvaluator.handCache (HandEvaluator.run calls)
         !! HandEvaluator.getCacheKey hand community = None →
       hand0 = hand ∧ community0 = community ∧ res = first)).
  { revert Hev. unfold HandEvaluator.evaluate. cbv zeta.
    destruct (HandEvaluator.handCache (HandEvaluator.run calls) !! _) as [hit|] eqn:Hhit.
    - intros Heq. injection Heq as <- <-.
      destruct (Memoised_run calls _ _ Hhit)
        as (res & h & c & first & Hres & Hk & Hf & Hkept).
      by exists res, h, c, first.
    - destruct (Evaluator.evaluate hand community) as [result|] eqn:He; [|done].
      intros Heq. injection Heq as <- <-.
      exists result, hand, community, result.
      cbn [HandEvaluator.results HandEvaluator.handCache].
      rewrite lookup_app_r, Nat.sub_diag, lookup_insert_eq by done.
      repeat split; try done. by left. }
  destruct Hgen as (res & h & c & first & Hres & Hkey & Hk & Hf & Hkept & Hmiss).
  destruct Hkept as (Hh & Hr & Hv & Hc).
  apply getCacheKey_inj in Hk as [Hhand Hcomm].
  assert (Hperm : hr_cards res ≡ₚ hr_cards first).
  { destruct Hc as [->| ->]; [done|]. unfold sortDesc. apply sortDescBy_Permutation. }
  pose proof (evaluate_spec _ _ _ Hf) as (Hsub & Hshows & _).
  exists res, h, c, first.
  do 11 (split; [done|]). split; [|done].
  intros x Hx. rewrite <-Hhand, <-Hcomm. apply Hsub. by rewrite <-Hperm.
Qed.

(** A Full House is computed as three Twos followed by two Aces; compared
    with itself it ties, and the next [evaluate] of the same cards returns it
    with the Aces first: the cards no longer show the Full House in their
    order, only as a set. *)
Lemma evaluate_category_is_shown_witness :
  let calls := [HandEvaluator.Evaluate fullHouseHole fullHouseBoard;
                HandEvaluator.Compare 0 0] in
  ∃ ref ev' res first,
    HandEvaluator.evaluate fullHouseHole fullHouseBoard (HandEvaluator.run calls)
    = (Some ref, ev')
    ∧ HandEvaluator.results ev' !! ref = Some res
    ∧ hr_hand res = FULL_HOUSE
    ∧ map value (hr_cards res) = [14; 14; 2; 2; 2]
    ∧ ¬ Shows FULL_HOUSE (hr_cards res)
    ∧ Shows FULL_HOUSE (hr_cards first)
    ∧ hr_cards res ≡ₚ hr_cards first.
Proof.
  cbv zeta.
  assert (Hev : HandEvaluator.evaluate fullHouseHole fullHouseBoard
                  (HandEvaluator.run [HandEvaluator.Evaluate fullHouseHole fullHouseBoard;
                                      HandEvaluator.Compare 0 0])
                = (Some 0%nat,
                   HandEvaluator.run [HandEvaluator.Evaluate fullHouseHole fullHouseBoard;
                                      HandEvaluator.Compare 0 0]))
    by (vm_compute; reflexivity).
  destruct (evaluate_category_is_shown _ _ _ _ _ Hev)
    as (res & h & c & first & Hres & _ & _ & _ & _ & Hshows & Hhand & _ & _ & _ & Hperm & _).
  vm_compute in Hres. injection Hres as <-.
  eexists 0%nat, _, _, first. split; [exact Hev|]. split; [vm_compute; reflexivity|].
  split; [reflexivity|]. split; [reflexivity|]. split.
  - intros (v & w & _ & [_ Hg] & _). cbn [hr_cards take] in Hg.
    apply Forall_cons in Hg as [Hace Hg]. apply Forall_cons in Hg as [_ Hg].
    apply Forall_cons in Hg as [Htwo _]. vm_compute in Hace, Htwo. congruence.
  - cbn [hr_hand] in Hhand. rewrite <-Hhand in Hshows. split; [exact Hshows|exact Hperm].
Defined.

End EvaluatorExtras.

(** ** Properties of the decks *)
Module DeckExtras.
Import Evaluator DeckFixtures DeckFacts.

(** Reading cards through references. *)
Lemma cardObjects_app d refs1 refs2 :
  Baralho.cardObjects d (refs1 ++ refs2)
  = Baralho.cardObjects d refs1 ++ Baralho.cardObjects d refs2.
Proof. apply omap_app. Qed.

Lemma elem_of_cardObjects d refs ref c :
  ref ∈ refs → Baralho.objects d !! ref = Some c → c ∈ Baralho.cardObjects d refs.
Proof. intros Hin Hc. apply list_elem_of_omap. by exists ref. Qed.

Lemma cardObjects_Valid d refs :
  Forall (λ ref, ref < length (Baralho.objects d))%nat refs →
  length (Baralho.cardObjects d refs) = length refs.
Proof.
  induction 1 as [|ref refs Href _ IH]; [done|].
  unfold Baralho.cardObjects in *. cbn [omap list_omap].
  destruct (lookup_lt_is_Some_2 _ _ Href) as [c ->]. simpl. by rewrite IH.
Qed.

(** Turning cards changes no suit and no rank. *)
Lemma face_turnCards up turned objs (refs : list nat) :
  BaralhoUtils.face <$> omap (λ ref, Baralho.turnCards up turned objs !! ref) refs
  = BaralhoUtils.face <$> omap (λ ref, objs !! ref) refs.
Proof.
  induction refs as [|ref refs IH]; [done|]. cbn [omap list_omap].
  rewrite turnCards_lookup.
  destruct (objs !! ref) as [c|]; case_decide; cbn [fmap option_fmap option_map];
    rewrite ?fmap_cons, IH; done.
Qed.

Lemma newPokerDeck_cards :
  Baralho.cardObjects Baralho.newPokerDeck (Baralho.cards Baralho.newPokerDeck)
  = Baralho.newCards
  ∧ length (Baralho.cards Baralho.newPokerDeck) = 52%nat
  ∧ NoDup (Baralho.cards Baralho.newPokerDeck)
  ∧ NoDup (BaralhoUtils.face <$> Baralho.newCards)
  ∧ Forall (λ c, Baralho.faceUp c = false) Baralho.newCards
  ∧ Baralho.Valid Baralho.newPokerDeck.
Proof.
  split; [by vm_compute|]. split; [done|]. split; [apply NoDup_seq|].
  split; [|split]; apply (bool_decide_unpack _); by vm_compute.
Qed.

(** X5.  [shuffle] only permutes the cards that are left to deal, in
    the stand-alone deck and in the engine's deck alike: whatever the random
    draws are, no card is lost or duplicated, and the used and the burned
    cards are not touched.  In the stand-alone deck, whose arrays hold
    references, the references are permuted and no card object is written. *)
Theorem shuffle_only_permutes (draw : nat → nat) (d : Baralho.PokerDeck)
    (e : EngineDeck.PokerDeck) :
  Baralho.cards (Baralho.shuffle draw d) ≡ₚ Baralho.cards d
  ∧ Baralho.objects (Baralho.shuffle draw d) = Baralho.objects d
  ∧ Baralho.cardObjects (Baralho.shuffle draw d) (Baralho.cards (Baralho.shuffle draw d))
    ≡ₚ Baralho.cardObjects d (Baralho.cards d)
  ∧ Baralho.usedCards (Baralho.shuffle draw d) = Baralho.usedCards d
  ∧ Baralho.burnedCards (Baralho.shuffle draw d) = Baralho.burnedCards d
  ∧ EngineDeck.cards (EngineDeckOps.shuffle draw e) ≡ₚ EngineDeck.cards e
  ∧ EngineDeck.usedCards (EngineDeckOps.shuffle draw e) = EngineDeck.usedCards e
  ∧ EngineDeck.burnedCards (EngineDeckOps.shuffle draw e) = EngineDeck.burnedCards e.
Proof.
  split; [apply shuffleFrom_Permutation|]. split; [done|].
  split; [apply omap_Permutation, shuffleFrom_Permutation|].
  repeat split; apply shuffleFrom_Permutation.
Qed.

(** X6.  [createDeck], shuffled or not, holds 52 cards, each
    combination of suit and rank exactly once, all face down, with nothing
    used and nothing burned; the 52 cards are 52 different objects. *)
Theorem createDeck_holds_each_card_once (draw : nat → nat) (shuffle : bool) :
  let d := BaralhoUtils.createDeck draw shuffle in
  let held := Baralho.cardObjects d (Baralho.cards d) in
  length (Baralho.cards d) = 52%nat
  ∧ NoDup (Baralho.cards d)
  ∧ length held = 52%nat
  ∧ NoDup (map BaralhoUtils.face held)
  ∧ (∀ s r, ∃ c, c ∈ held ∧ BaralhoUtils.face c = (s, r))
  ∧ Forall (λ c, Baralho.faceUp c = false) held
  ∧ Baralho.usedCards d = [] ∧ Baralho.burnedCards d = []
  ∧ Baralho.Valid d.
Proof.
  destruct newPokerDeck_cards as (Hnew & Hl & Hrefs & Hnd & Hdown & Hvalid).
  assert (Hall : ∀ s r, ∃ c, c ∈ Baralho.newCards ∧ BaralhoUtils.face c = (s, r)).
  { intros s r.
    assert ((s, r) ∈ BaralhoUtils.face <$> Baralho.newCards) as Hin
      by (apply (bool_decide_unpack _); by destruct s, r; vm_compute).
    apply list_elem_of_fmap in Hin as (c & ? & ?). by exists c. }
  assert (Hperm : Baralho.cards (BaralhoUtils.createDeck draw shuffle)
                  ≡ₚ Baralho.cards Baralho.newPokerDeck).
  { destruct shuffle; [apply shuffleFrom_Permutation|done]. }
  assert (Hobjs : Baralho.objects (BaralhoUtils.createDeck draw shuffle)
                  = Baralho.objects Baralho.newPokerDeck) by (by destruct shuffle).
  assert (Hheld : Baralho.cardObjects (BaralhoUtils.createDeck draw shuffle)
                    (Baralho.cards (BaralhoUtils.createDeck draw shuffle))
                  ≡ₚ Baralho.newCards).
  { rewrite <-Hnew. unfold Baralho.cardObjects. rewrite Hobjs.
    by apply omap_Permutation. }
  assert (Hrest : Baralho.usedCards (BaralhoUtils.createDeck draw shuffle) = []
                  ∧ Baralho.burnedCards (BaralhoUtils.createDeck draw shuffle) = [])
    by (by destruct shuffle).
  cbv zeta. split; [by rewrite Hperm|]. split; [by rewrite Hperm|].
  split; [by rewrite Hheld|]. split.
  { change (map BaralhoUtils.face ?l) with (BaralhoUtils.face <$> l). by rewrite Hheld. }
  split.
  { intros s r. destruct (Hall s r) as (c & Hc & Hf). exists c. by rewrite Hheld. }
  split; [by rewrite Hheld|]. split; [apply Hrest|]. split; [apply Hrest|].
  unfold Baralho.Valid in *. destruct Hrest as [-> ->]. rewrite Hobjs, Hperm.
  revert Hvalid. by vm_compute.
Qed.

(** The references a deal leaves in the three arrays. *)
Lemma deal_allCards draw count up d :
  BaralhoUtils.allCards (Baralho.deal draw count up d).2 ≡ₚ BaralhoUtils.allCards d.
Proof.
  unfold Baralho.deal, BaralhoUtils.allCards.
  set (d1 := if decide (length (Baralho.cards d) < count)%nat
             then Baralho.restoreUsedCards draw d else d).
  assert (Hd1 : Baralho.cards d1 ++ Baralho.usedCards d1 ++ Baralho.burnedCards d1
                ≡ₚ Baralho.cards d ++ Baralho.usedCards d ++ Baralho.burnedCards d).
  { unfold d1. case_decide; [|done]. simpl.
    by rewrite shuffleFrom_Permutation, !app_nil_r. }
  cbn [fst snd Baralho.cards Baralho.usedCards Baralho.burnedCards].
  rewrite <-Hd1. rewrite <-(take_drop count (Baralho.cards d1)) at 3.
  set (a := take count (Baralho.cards d1)). set (b := drop count (Baralho.cards d1)).
  rewrite (Permutation_app_comm a b), <-!app_assoc.
  apply Permutation_app_head. rewrite !app_assoc.
  apply Permutation_app_tail, Permutation_app_comm.
Qed.

Lemma deal_Valid draw count up d :
  Baralho.Valid d → Baralho.Valid (Baralho.deal draw count up d).2.
Proof.
  unfold Baralho.Valid. fold (BaralhoUtils.allCards d).
  fold (BaralhoUtils.allCards (Baralho.deal draw count up d).2).
  rewrite deal_allCards. unfold Baralho.deal at 1. cbn [snd Baralho.objects].
  rewrite length_turnCards. by case_decide.
Qed.

(** Every operation of the deck leaves its arrays holding card objects. *)
Lemma deck_operations_keep_Valid draw count up d :
  Baralho.Valid d →
  Baralho.Valid (Baralho.reset d)
  ∧ Baralho.Valid (Baralho.shuffle draw d)
  ∧ Baralho.Valid (Baralho.restoreUsedCards draw d)
  ∧ Baralho.Valid (Baralho.deal draw count up d).2
  ∧ Baralho.Valid (Baralho.burnCard draw d).2.
Proof.
  intros Hvalid. split; [|split; [|split; [|split]]].
  - unfold Baralho.Valid, Baralho.reset.
    cbn [Baralho.cards Baralho.usedCards Baralho.burnedCards Baralho.objects].
    rewrite !app_nil_r, length_app. apply Forall_forall. intros ref Href.
    apply elem_of_seq in Href. lia.
  - unfold Baralho.Valid in *. simpl. by rewrite shuffleFrom_Permutation.
  - unfold Baralho.Valid in *. simpl. by rewrite shuffleFrom_Permutation, !app_nil_r.
  - by apply deal_Valid.
  - unfold Baralho.burnCard. case_decide; [done|].
    pose proof (deal_Valid draw 1 false d Hvalid) as Hdealt.
    destruct (Baralho.deal draw 1 false d) as [dealt d'] eqn:Hdeal.
    destruct dealt as [|b dealt]; [done|]. cbn [snd] in *.
    assert (b ∈ Baralho.usedCards d') as Hb.
    { assert (d' = (Baralho.deal draw 1 false d).2) as -> by (by rewrite Hdeal).
      assert (b :: dealt = (Baralho.deal draw 1 false d).1) as Hd by (by rewrite Hdeal).
      unfold Baralho.deal in *. cbn [fst snd Baralho.usedCards] in *.
      rewrite <-Hd. apply elem_of_app. right. left. }
    unfold Baralho.Valid in *.
    cbn [Baralho.cards Baralho.usedCards Baralho.burnedCards Baralho.objects].
    apply Forall_app in Hdealt as [Hc Hdealt]. apply Forall_app in Hdealt as [Hu Hbn].
    repeat (apply Forall_app; split); try done.
    apply Forall_singleton. by apply (proj1 (Forall_forall _ _) Hu).
Qed.

(** X7.  [deal] of the stand-alone deck keeps every card object: the
    deck, the used and the burned cards together hold the same references
    before and after, each as often as before.  The objects dealt are turned
    the way that was asked, and that shows through every array holding them,
    a copy of the reference left in the deck included; no other object is
    written and no suit or rank changes.  When enough cards are left, the
    dealt cards are the first [count] cards of the deck, which move to the
    used cards. *)
Theorem baralho_deal_keeps_every_card (draw : nat → nat) (count : nat) (up : bool)
    (d : Baralho.PokerDeck) :
  let r := Baralho.deal draw count up d in
  BaralhoUtils.allCards r.2 ≡ₚ BaralhoUtils.allCards d
  ∧ BaralhoUtils.total (BaralhoUtils.getStats r.2)
    = BaralhoUtils.total (BaralhoUtils.getStats d)
  ∧ (∀ ref, Baralho.objects r.2 !! ref
            = if decide (ref ∈ r.1)
              then Baralho.setFaceUp up <$> Baralho.objects d !! ref
              else Baralho.objects d !! ref)
  ∧ Forall (λ c, Baralho.faceUp c = up) (Baralho.cardObjects r.2 r.1)
  ∧ (∀ ref c, ref ∈ r.1 → ref ∈ Baralho.cards r.2 →
              Baralho.objects r.2 !! ref = Some c → Baralho.faceUp c = up)
  ∧ map BaralhoUtils.face (Baralho.cardObjects r.2 (BaralhoUtils.allCards r.2))
    ≡ₚ map BaralhoUtils.face (Baralho.cardObjects d (BaralhoUtils.allCards d))
  ∧ (Baralho.Valid d → Baralho.Valid r.2)
  ∧ ((count ≤ length (Baralho.cards d))%nat →
     length r.1 = count
     ∧ r.1 = take count (Baralho.cards d)
     ∧ Baralho.cards r.2 = drop count (Baralho.cards d)
     ∧ Baralho.usedCards r.2 = Baralho.usedCards d ++ r.1
     ∧ Baralho.burnedCards r.2 = Baralho.burnedCards d).
Proof.
  cbv zeta.
  assert (Hturned : ∀ ref c, ref ∈ (Baralho.deal draw count up d).1 →
            Baralho.objects (Baralho.deal draw count up d).2 !! ref = Some c →
            Baralho.faceUp c = up).
  { intros ref c Hin. rewrite deal_objects, decide_True by done.
    destruct (Baralho.objects d !! ref); intros [= <-]; done. }
  pose proof (deal_allCards draw count up d) as Hrefs.
  split; [exact Hrefs|]. split.
  { apply Permutation_length in Hrefs. unfold BaralhoUtils.allCards in Hrefs.
    rewrite !length_app in Hrefs. unfold BaralhoUtils.getStats.
    cbn [BaralhoUtils.total]. lia. }
  split; [apply deal_objects|]. split.
  { apply Forall_forall. intros c Hc.
    apply list_elem_of_omap in Hc as (ref & Hin & Hc). by eapply Hturned. }
  split; [intros ref c Hin _; by apply Hturned|]. split.
  { change (map BaralhoUtils.face ?l) with (BaralhoUtils.face <$> l).
    trans (BaralhoUtils.face <$> Baralho.cardObjects d
             (BaralhoUtils.allCards (Baralho.deal draw count up d).2)).
    - unfold Baralho.cardObjects at 1, Baralho.deal at 1.
      cbn [snd Baralho.objects].
      replace (Baralho.objects (if decide (length (Baralho.cards d) < count)%nat
                                then Baralho.restoreUsedCards draw d else d))
        with (Baralho.objects d) by (by case_decide).
      by rewrite face_turnCards.
    - apply fmap_Permutation, omap_Permutation, Hrefs. }
  split; [apply deal_Valid|].
  intros Hcount. unfold Baralho.deal. rewrite decide_False by lia.
  cbn [fst snd Baralho.cards Baralho.usedCards Baralho.burnedCards].
  rewrite length_take. split; [lia|done].
Qed.

(** The copy of a dealt card that is left in the deck is that same object:
    dealt face up from the restored deck, the King shows face up in the deck
    as well. *)
Lemma dealt_card_left_in_the_deck_turns_too :
  let r := Baralho.deal zeroDraw 2 true nearlyEmpty in
  Baralho.cardObjects r.2 r.1
  = [Baralho.mkCard SPADES RA true; Baralho.mkCard CLUBS RK true]
  ∧ Baralho.cardObjects r.2 (Baralho.cards r.2)
    = [Baralho.mkCard CLUBS RK true; Baralho.mkCard HEARTS R2 false].
Proof. split; vm_compute; reflexivity. Qed.

(** X8.  In the stand-alone deck a burned card is recorded twice,
    among the used cards (by the [deal] inside [burnCard]) and among the
    burned cards, so the total that [getStats] reports grows by one, and
    [restoreUsedCards] then puts the card back twice: the restored deck has
    one card more than there were cards in all and holds that one object
    twice, so two of its cards have the same suit and rank. *)
Theorem baralho_burn_then_restore_duplicates (draw1 draw2 : nat → nat)
    (d : Baralho.PokerDeck) :
  Baralho.cards d ≠ [] →
  let burnt := Baralho.burnCard draw1 d in
  let d2 := Baralho.restoreUsedCards draw2 burnt.2 in
  ∃ b, burnt.1 = Some b
       ∧ b ∈ Baralho.usedCards burnt.2
       ∧ b ∈ Baralho.burnedCards burnt.2
       ∧ BaralhoUtils.total (BaralhoUtils.getStats burnt.2)
         = S (BaralhoUtils.total (BaralhoUtils.getStats d))
       ∧ length (Baralho.cards d2) = S (BaralhoUtils.total (BaralhoUtils.getStats d))
       ∧ ¬ NoDup (Baralho.cards d2)
       ∧ (Baralho.Valid d →
          length (Baralho.cardObjects d2 (Baralho.cards d2))
          = S (BaralhoUtils.total (BaralhoUtils.getStats d))
          ∧ ¬ NoDup (map BaralhoUtils.face (Baralho.cardObjects d2 (Baralho.cards d2)))).
Proof.
  intros Hne. cbv zeta. unfold Baralho.burnCard, Baralho.deal.
  destruct (Baralho.cards d) as [|b rest] eqn:Hc; [done|].
  rewrite decide_False by (simpl; lia). rewrite decide_False by (simpl; lia).
  rewrite Hc. cbn [take drop fst snd Baralho.cards Baralho.usedCards
                   Baralho.burnedCards Baralho.objects].
  exists b. split; [done|].
  split; [apply elem_of_app; right; by apply list_elem_of_singleton|].
  split; [apply elem_of_app; right; by apply list_elem_of_singleton|].
  split.
  { unfold BaralhoUtils.getStats.
    cbn [BaralhoUtils.total Baralho.cards Baralho.usedCards Baralho.burnedCards].
    rewrite Hc, !length_app, drop_0. simpl. lia. }
  unfold Baralho.restoreUsedCards, Baralho.shuffle.
  cbn [Baralho.cards Baralho.usedCards Baralho.burnedCards Baralho.objects].
  rewrite drop_0.
  set (all := rest ++ (Baralho.usedCards d ++ [b]) ++ Baralho.burnedCards d ++ [b]).
  assert (Hlen : length all = S (BaralhoUtils.total (BaralhoUtils.getStats d))).
  { unfold all, BaralhoUtils.getStats. cbn [BaralhoUtils.total].
    rewrite Hc, !length_app. simpl. lia. }
  assert (Hdup : ¬ NoDup all).
  { unfold all. intros Hnd. apply NoDup_app in Hnd as (_ & _ & Hnd).
    apply NoDup_app in Hnd as (_ & Hdisj & _).
    apply (Hdisj b); apply elem_of_app; right; by apply list_elem_of_singleton. }
  split; [by rewrite length_shuffleFrom|].
  split; [by rewrite shuffleFrom_Permutation|].
  intros Hvalid.
  assert (Hbound : Forall (λ ref, ref < length (Baralho.turnCards false [b]
                                                  (Baralho.objects d)))%nat all).
  { rewrite length_turnCards. unfold Baralho.Valid in Hvalid. rewrite Hc in Hvalid.
    apply Forall_app in Hvalid as [Hcards Hvalid].
    apply Forall_app in Hvalid as [Hused Hburned].
    apply Forall_cons in Hcards as [Hb Hrest].
    unfold all. repeat (apply Forall_app; split); try done; by apply Forall_singleton. }
  split.
  { unfold Baralho.cardObjects. cbn [Baralho.objects].
    rewrite shuffleFrom_Permutation.
    exact (eq_trans (cardObjects_Valid
             {| Baralho.objects := Baralho.turnCards false [b] (Baralho.objects d);
                Baralho.cards := []; Baralho.burnedCards := [];
                Baralho.usedCards := [] |} all Hbound) Hlen). }
  change (map BaralhoUtils.face ?l) with (BaralhoUtils.face <$> l).
  unfold Baralho.cardObjects. cbn [Baralho.objects].
  rewrite shuffleFrom_Permutation.
  assert (is_Some (Baralho.turnCards false [b] (Baralho.objects d) !! b)) as [c Hcb].
  { apply lookup_lt_is_Some_2.
    apply Forall_forall with (x := b) in Hbound; [done|].
    unfold all. apply elem_of_app. right. apply elem_of_app. left.
    apply elem_of_app. right. by apply list_elem_of_singleton. }
  unfold all. rewrite !omap_app, !fmap_app. intros Hnd.
  apply NoDup_app in Hnd as (_ & _ & Hnd).
  apply NoDup_app in Hnd as (_ & Hdisj & _).
  apply (Hdisj (BaralhoUtils.face c)); apply elem_of_app; right;
    apply list_elem_of_fmap; exists c; (split; [done|]);
    apply list_elem_of_omap; exists b; (split; [by apply list_elem_of_singleton|done]).
Qed.

Lemma baralho_burn_then_restore_duplicates_witness :
  ∃ b, (Baralho.burnCard zeroDraw Baralho.newPokerDeck).1 = Some b
       ∧ length (Baralho.cards
                   (Baralho.restoreUsedCards zeroDraw
                      (Baralho.burnCard zeroDraw Baralho.newPokerDeck).2)) = 53%nat
       ∧ length (Baralho.cardObjects
                   (Baralho.restoreUsedCards zeroDraw
                      (Baralho.burnCard zeroDraw Baralho.newPokerDeck).2)
                   (Baralho.cards
                      (Baralho.restoreUsedCards zeroDraw
                         (Baralho.burnCard zeroDraw Baralho.newPokerDeck).2))) = 53%nat.
Proof.
  destruct (baralho_burn_then_restore_duplicates zeroDraw zeroDraw Baralho.newPokerDeck)
    as (b & Hb & _ & _ & _ & Hl & _ & Hobjects); [done|].
  exists b. split; [exact Hb|]. split; [exact Hl|].
  apply Hobjects. apply (bool_decide_unpack _). by vm_compute.
Defined.

(** The engine's deck. *)
Lemma engine_step_keeps d op :
  EngineDeck.cards (EngineDeckOps.step d op) ++ EngineDeck.usedCards (EngineDeckOps.step d op)
  ≡ₚ EngineDeck.cards d ++ EngineDeck.usedCards d.
Proof.
  assert (Hdeal : ∀ n, drop n (EngineDeck.cards d)
                       ++ EngineDeck.usedCards d ++ take n (EngineDeck.cards d)
                       ≡ₚ EngineDeck.cards d ++ EngineDeck.usedCards d).
  { intros n. rewrite <-(take_drop n (EngineDeck.cards d)) at 3.
    rewrite (Permutation_app_comm (EngineDeck.usedCards d)), app_assoc.
    apply Permutation_app_tail, Permutation_app_comm. }
  destruct op as [n| |draw|draw]; simpl.
  - unfold EngineDeck.deal. case_decide; [done|]. simpl. apply Hdeal.
  - unfold EngineDeckOps.burnCard, EngineDeck.deal. case_decide; [done|].
    rewrite decide_False by lia.
    destruct (EngineDeck.cards d) as [|c0 rest] eqn:Hc; [done|].
    simpl. exact (Hdeal 1%nat).
  - by rewrite shuffleFrom_Permutation, app_nil_r.
  - by rewrite shuffleFrom_Permutation.
Qed.

Lemma engine_step_burned d op :
  EngineDeck.burnedCards d ⊆ EngineDeck.usedCards d →
  EngineDeck.burnedCards (EngineDeckOps.step d op)
  ⊆ EngineDeck.usedCards (EngineDeckOps.step d op).
Proof.
  intros Hsub. destruct op as [n| |draw|draw]; simpl; [| | |done].
  - unfold EngineDeck.deal. case_decide; [done|]. simpl.
    intros c Hc. apply elem_of_app. left. by apply Hsub.
  - unfold EngineDeckOps.burnCard, EngineDeck.deal. case_decide; [done|].
    rewrite decide_False by lia.
    destruct (EngineDeck.cards d) as [|c0 rest] eqn:Hc; [done|].
    simpl. intros c Hin. apply elem_of_app in Hin as [Hin|Hin]; apply elem_of_app;
      [left; by apply Hsub|by right].
  - by intros c ?%elem_of_nil.
Qed.

(** X9.  The engine's deck never loses or duplicates a card: after
    any sequence of deals (rejected or not), burns, restores and shuffles the
    cards left and the used cards together are the cards there were, every
    burned card is among the used ones if that was so before, and a deck that
    started from [reset] holds its 52 distinct cards. *)
Theorem engine_deck_keeps_its_cards (ops : list EngineDeckOps.DeckOp)
    (d : EngineDeck.PokerDeck) :
  let d' := EngineDeckOps.run ops d in
  EngineDeck.cards d' ++ EngineDeck.usedCards d'
  ≡ₚ EngineDeck.cards d ++ EngineDeck.usedCards d
  ∧ (EngineDeck.burnedCards d ⊆ EngineDeck.usedCards d →
     EngineDeck.burnedCards d' ⊆ EngineDeck.usedCards d')
  ∧ (d = EngineDeckOps.reset →
     length (EngineDeck.cards d') + length (EngineDeck.usedCards d') = 52
     ∧ NoDup (EngineDeck.cards d' ++ EngineDeck.usedCards d'))%nat.
Proof.
  cbv zeta. unfold EngineDeckOps.run.
  assert (Hperm : ∀ ops d, EngineDeck.cards (foldl EngineDeckOps.step d ops)
                           ++ EngineDeck.usedCards (foldl EngineDeckOps.step d ops)
                           ≡ₚ EngineDeck.cards d ++ EngineDeck.usedCards d).
  { clear. induction ops as [|op ops IH]; intros d; simpl; [done|].
    by rewrite IH, engine_step_keeps. }
  split; [apply Hperm|]. split.
  - revert d. induction ops as [|op ops IH]; intros d Hsub; simpl; [done|].
    by apply IH, engine_step_burned.
  - intros ->. specialize (Hperm ops EngineDeckOps.reset). split.
    + apply Permutation_length in Hperm. by rewrite length_app in Hperm.
    + rewrite Hperm. apply (bool_decide_unpack _). by vm_compute.
Qed.

(** [hasPair] *)
Lemma size_list_to_set_le (l : list Z) : (size (list_to_set l : gset Z) ≤ length l)%nat.
Proof.
  induction l as [|x l IH]; [done|].
  cbn [list_to_set length]. rewrite size_union_alt, size_singleton.
  pose proof (subseteq_size (list_to_set l ∖ {[x]}) (list_to_set l : gset Z)) as Hd.
  assert (list_to_set l ∖ {[x]} ⊆ (list_to_set l : gset Z)) as Hsub
    by (intros y Hy; by apply elem_of_difference in Hy as [? _]).
  specialize (Hd Hsub). lia.
Qed.

Lemma size_list_to_set_NoDup (l : list Z) :
  size (list_to_set l : gset Z) = length l ↔ NoDup l.
Proof.
  split; [|apply size_list_to_set].
  induction l as [|x l IH]; [constructor|].
  simpl. intros Hs. pose proof (size_list_to_set_le l) as Hle.
  destruct (decide (x ∈ l)) as [Hin|Hin].
  - assert ({[x]} ∪ list_to_set l = (list_to_set l : gset Z)) as E.
    { apply subseteq_union_1_L, singleton_subseteq_l. by apply elem_of_list_to_set. }
    rewrite E in Hs. lia.
  - constructor; [done|]. apply IH.
    rewrite size_union in Hs.
    + rewrite size_singleton in Hs. lia.
    + apply disjoint_singleton_l. by rewrite elem_of_list_to_set.
Qed.

Lemma not_NoDup_indices (l : list Z) :
  ¬ NoDup l → ∃ i j x, i ≠ j ∧ l !! i = Some x ∧ l !! j = Some x.
Proof.
  induction l as [|x l IH]; intros Hn; [destruct Hn; constructor|].
  destruct (decide (x ∈ l)) as [Hin|Hin].
  - apply list_elem_of_lookup in Hin as [k Hk]. by exists 0%nat, (S k), x.
  - destruct IH as (i & j & y & Hij & Hi & Hj).
    { intros Hnd. apply Hn. by constructor. }
    exists (S i), (S j), y. split; [lia|done].
Qed.

(** [hasPair] answers whether two of the cards share a value. *)
Lemma hasPair_iff_two_cards_share_a_value (cards : list Baralho.PokerCard) :
  BaralhoUtils.hasPair cards = true
  ↔ ∃ i j a b, i ≠ j ∧ cards !! i = Some a ∧ cards !! j = Some b
               ∧ BaralhoUtils.value a = BaralhoUtils.value b.
Proof.
  unfold BaralhoUtils.hasPair. cbv zeta. rewrite bool_decide_eq_true.
  rewrite size_list_to_set_NoDup. change (map ?f ?l) with (f <$> l). split.
  - intros Hn. apply not_NoDup_indices in Hn as (i & j & v & Hij & Hi & Hj).
    apply list_lookup_fmap_Some in Hi as (a & -> & Ha).
    apply list_lookup_fmap_Some in Hj as (b & Hv & Hb).
    by exists i, j, a, b.
  - intros (i & j & a & b & Hij & Ha & Hb & Hv) Hnd. apply Hij.
    apply (proj1 (NoDup_alt _) Hnd i j (BaralhoUtils.value a));
      rewrite list_lookup_fmap; [by rewrite Ha|by rewrite Hb, Hv].
Qed.

End DeckExtras.

(** ** Properties of the side-pot helpers *)
Module SidePotFacts.
Import Player SidePots.

Lemma insertAscBy_Permutation {A} (key : A → Z) x l : insertAscBy key x l ≡ₚ x :: l.
Proof.
  induction l as [|y l IH]; simpl; [done|].
  case_decide; [|done]. rewrite IH. apply Permutation_swap.
Qed.

Lemma sortAscBy_Permutation {A} (key : A → Z) l : sortAscBy key l ≡ₚ l.
Proof.
  induction l as [|x l IH]; simpl; [done|].
  rewrite insertAscBy_Permutation. by apply Permutation_skip.
Qed.

Lemma insertAscBy_ascending {A} (key : A → Z) x l :
  ascendingBy key l → ascendingBy key (insertAscBy key x l).
Proof.
  induction l as [|y l IH]; simpl; [by intros _; split; [constructor|]|].
  intros [Hy Hl]. case_decide as Hlt; simpl.
  - split; [|by apply IH]. rewrite insertAscBy_Permutation.
    constructor; [lia|done].
  - split; [|done]. constructor; [lia|].
    eapply Forall_impl; [exact Hy|]. simpl. intros; lia.
Qed.

Lemma sortAscBy_ascending {A} (key : A → Z) l : ascendingBy key (sortAscBy key l).
Proof. induction l as [|x l IH]; simpl; [done|]. by apply insertAscBy_ascending. Qed.

Lemma sumZ_cons x l : sumZ (x :: l) = x + sumZ l.
Proof. done. Qed.

Lemma sumZ_app l k : sumZ (l ++ k) = sumZ l + sumZ k.
Proof.
  induction l as [|x l IH]; [done|].
  rewrite <-app_comm_cons, !sumZ_cons, IH. lia.
Qed.

Lemma sumZ_shift (bets : gmap string Z) (l : list PokerPlayer) a b :
  sumZ (map (λ q, betOf bets q - a) l)
  = sumZ (map (λ q, betOf bets q - b) l) + (b - a) * Z.of_nat (length l).
Proof.
  induction l as [|q l IH]; [simpl; lia|].
  rewrite !map_cons, !sumZ_cons, IH, length_cons. lia.
Qed.

(** Conservation below a level. *)
Lemma sidePotsFrom_sum bets i prev rest :
  ascendingBy (betOf bets) rest →
  Forall (λ p, prev ≤ betOf bets p) rest →
  sumZ (map sp_amount (sidePotsFrom bets i prev rest))
  = sumZ (map (λ p, betOf bets p - prev) rest).
Proof.
  revert i prev. induction rest as [|p rest IH]; intros i prev Hasc Hge; [done|].
  destruct Hasc as [Hp Hasc]. apply Forall_cons in Hge as [Hge0 Hge].
  cbn [sidePotsFrom]. case_decide as Hgt.
  - rewrite !map_cons, !sumZ_cons. cbn [sp_amount]. rewrite IH by done.
    rewrite (sumZ_shift bets rest prev (betOf bets p)), length_cons. lia.
  - assert (betOf bets p = prev) as E by lia.
    rewrite IH by done. rewrite map_cons, sumZ_cons, E. lia.
Qed.

Lemma sumZ_Permutation l k : l ≡ₚ k → sumZ l = sumZ k.
Proof.
  induction 1 as [|x l k _ IH|x y l|l k m _ IH1 _ IH2]; rewrite ?sumZ_cons; try lia; done.
Qed.

Lemma betOf_same_id bets p q : userId p = userId q → betOf bets p = betOf bets q.
Proof. unfold betOf. by intros ->. Qed.

(** X10.  The side pots that [calculateSidePots] computes add up to
    the bets: the sum of their amounts is the sum of the positive bets of the
    given players. *)
Theorem calculateSidePots_splits_all_bets (players : list PokerPlayer)
    (currentBets : gmap string Z) :
  sumZ (map sp_amount (calculateSidePots players currentBets))
  = sumZ (map (betOf currentBets) (filter (λ p, betOf currentBets p > 0) players)).
Proof.
  unfold calculateSidePots. cbv zeta.
  set (bettors := filter (λ p, betOf currentBets p > 0) players).
  pose proof (sortAscBy_Permutation (betOf currentBets) bettors) as Hperm.
  rewrite sidePotsFrom_sum.
  - assert (E : ∀ l : list PokerPlayer,
              map (λ p, betOf currentBets p - 0) l = map (betOf currentBets) l).
    { induction l as [|q l IH]; simpl; [done|]. rewrite IH. f_equal. lia. }
    rewrite E. apply sumZ_Permutation.
    change (map ?f ?l) with (f <$> l). by apply fmap_Permutation.
  - apply sortAscBy_ascending.
  - rewrite Hperm. apply Forall_forall. intros q Hq.
    apply list_elem_of_filter in Hq as [Hq _]. lia.
Qed.

(** Eligibility by level. *)
Lemma capOf_cons pot pots k :
  capOf (pot :: pots) (S k) = sp_levelAmount pot + capOf pots k.
Proof. done. Qed.

Lemma sidePotsFrom_caps bets i prev pre rest k pot :
  ascendingBy (betOf bets) rest →
  Forall (λ p, betOf bets p ≤ prev) pre →
  sidePotsFrom bets i prev rest !! k = Some pot →
  sp_levelAmount pot > 0
  ∧ sp_amount pot = sp_levelAmount pot * Z.of_nat (length (sp_eligiblePlayers pot))
  ∧ sp_contributingPlayers pot = length (sp_eligiblePlayers pot)
  ∧ (∀ p, p ∈ pre ++ rest →
       userId p ∈ sp_eligiblePlayers pot
       ↔ prev + capOf (sidePotsFrom bets i prev rest) k ≤ betOf bets p).
Proof.
  revert i prev pre k. induction rest as [|p rest IH]; intros i prev pre k Hasc Hpre; [done|].
  destruct Hasc as [Hp Hasc]. cbn [sidePotsFrom]. case_decide as Hgt.
  - destruct k as [|k].
    + intros [= <-]. cbn [sp_levelAmount sp_amount sp_eligiblePlayers sp_contributingPlayers].
      rewrite length_cons, length_map. split; [lia|]. split; [done|]. split; [done|].
      intros q Hq. unfold capOf. cbn [take map sp_levelAmount]. rewrite take_0.
      cbn [map]. rewrite sumZ_cons. cbn [sumZ foldr].
      assert (Hin : ∀ q', q' ∈ p :: rest → betOf bets p ≤ betOf bets q').
      { intros q' [->|Hq']%elem_of_cons; [lia|].
        by apply (proj1 (Forall_forall _ _) Hp). }
      split.
      * intros Hid. change (userId p :: map userId rest) with (userId <$> p :: rest) in Hid.
        apply list_elem_of_fmap in Hid as (q' & Hsame & Hq').
        rewrite (betOf_same_id bets q q' Hsame). specialize (Hin q' Hq'). lia.
      * intros Hge. apply elem_of_app in Hq as [Hq|Hq].
        { pose proof (proj1 (Forall_forall _ _) Hpre q Hq) as Hle. simpl in Hle. lia. }
        change (userId p :: map userId rest) with (userId <$> p :: rest).
        by apply list_elem_of_fmap_2.
    + intros Hk. cbn [lookup list_lookup] in Hk.
      assert (Hpre' : Forall (λ q, betOf bets q ≤ betOf bets p) (pre ++ [p])).
      { apply Forall_app. split; [|by repeat constructor; lia].
        eapply Forall_impl; [exact Hpre|]. simpl. intros; lia. }
      destruct (IH (i + 1)%nat (betOf bets p) (pre ++ [p]) k Hasc Hpre' Hk)
        as (H1 & H2 & H3 & H4).
      split; [done|]. split; [done|]. split; [done|].
      intros q Hq. rewrite capOf_cons. cbn [sp_levelAmount].
      rewrite (H4 q); [|by rewrite <-app_assoc]. split; lia.
  - intros Hk.
    assert (Hpre' : Forall (λ q, betOf bets q ≤ prev) (pre ++ [p])).
    { apply Forall_app. split; [done|]. repeat constructor. lia. }
    destruct (IH (i + 1)%nat prev (pre ++ [p]) k Hasc Hpre' Hk) as (H1 & H2 & H3 & H4).
    split; [done|]. split; [done|]. split; [done|].
    intros q Hq. apply H4. by rewrite <-app_assoc.
Qed.

Lemma sidePotsFrom_eligible_subseteq bets i prev rest pot :
  pot ∈ sidePotsFrom bets i prev rest → sp_eligiblePlayers pot ⊆ map userId rest.
Proof.
  revert i prev. induction rest as [|p rest IH]; intros i prev; cbn [sidePotsFrom];
    [by intros ?%elem_of_nil|].
  assert (Htail : ∀ j lvl, pot ∈ sidePotsFrom bets j lvl rest →
                           sp_eligiblePlayers pot ⊆ map userId (p :: rest)).
  { intros j lvl Hin id Hid. apply (IH j lvl Hin) in Hid.
    simpl. apply elem_of_cons. by right. }
  case_decide; [|by apply Htail].
  intros [->|Hin]%elem_of_cons; [done|]. by eapply Htail.
Qed.

Lemma sidePotsFrom_nested bets i prev rest k1 k2 lower higher :
  (k1 < k2)%nat →
  sidePotsFrom bets i prev rest !! k1 = Some lower →
  sidePotsFrom bets i prev rest !! k2 = Some higher →
  sp_eligiblePlayers higher ⊆ sp_eligiblePlayers lower.
Proof.
  revert i prev k1 k2. induction rest as [|p rest IH]; intros i prev k1 k2 Hlt;
    cbn [sidePotsFrom]; [done|].
  case_decide; [|by apply IH].
  destruct k2 as [|k2]; [lia|]. destruct k1 as [|k1].
  - intros [= <-] Hhi. cbn [sp_eligiblePlayers].
    change (sidePotsFrom bets (i + 1) (betOf bets p) rest !! k2 = Some higher) in Hhi.
    apply list_elem_of_lookup_2 in Hhi. apply sidePotsFrom_eligible_subseteq in Hhi.
    intros id Hid. simpl. apply elem_of_cons. right. by apply Hhi.
  - cbn [lookup list_lookup]. apply IH. lia.
Qed.

(** X11.  Every pot of [calculateSidePots] has a positive level
    amount, is worth that amount times the number of its eligible players,
    lists as eligible exactly the players whose bet reaches the pot's cap
    (the sum of the level amounts up to it), and its eligible players are
    eligible for every earlier pot. *)
Theorem calculateSidePots_levels (players : list PokerPlayer)
    (currentBets : gmap string Z) (k : nat) (pot : SidePot) :
  calculateSidePots players currentBets !! k = Some pot →
  sp_levelAmount pot > 0
  ∧ sp_amount pot = sp_levelAmount pot * Z.of_nat (length (sp_eligiblePlayers pot))
  ∧ (∀ p, p ∈ players →
       userId p ∈ sp_eligiblePlayers pot
       ↔ capOf (calculateSidePots players currentBets) k ≤ betOf currentBets p)
  ∧ (∀ j lower, (j < k)%nat → calculateSidePots players currentBets !! j = Some lower →
       sp_eligiblePlayers pot ⊆ sp_eligiblePlayers lower).
Proof.
  unfold calculateSidePots. cbv zeta.
  set (bettors := filter (λ p, betOf currentBets p > 0) players).
  set (sorted := sortAscBy (betOf currentBets) bettors).
  assert (Hperm : sorted ≡ₚ bettors) by apply sortAscBy_Permutation.
  intros Hk.
  destruct (sidePotsFrom_caps currentBets 0 0
              (filter (λ p, ¬ betOf currentBets p > 0) players) sorted k pot)
    as (H1 & H2 & _ & H4); [apply sortAscBy_ascending| |done|].
  { apply Forall_forall. intros q Hq. apply list_elem_of_filter in Hq as [Hq _]. lia. }
  split; [done|]. split; [done|]. split.
  - intros p Hp. rewrite (H4 p); [split; lia|].
    apply elem_of_app. destruct (decide (betOf currentBets p > 0)) as [Hpos|Hpos].
    + right. rewrite Hperm. by apply list_elem_of_filter.
    + left. by apply list_elem_of_filter.
  - intros j lower Hj Hlower. by eapply sidePotsFrom_nested.
Qed.

Lemma calculateSidePots_levels_witness :
  ∃ pot, calculateSidePots SidePotFixtures.scenarioPlayers SidePotFixtures.scenarioBets
           !! 1%nat = Some pot
         ∧ sp_amount pot = 400
         ∧ sp_eligiblePlayers pot = ["B"; "C"]
         ∧ sp_levelAmount pot > 0.
Proof.
  eexists. split; [vm_compute; reflexivity|]. split; [reflexivity|]. split; [reflexivity|].
  refine (proj1 (calculateSidePots_levels SidePotFixtures.scenarioPlayers
                   SidePotFixtures.scenarioBets 1 _ _)).
  vm_compute. reflexivity.
Defined.

(** [needsSidePot] *)
Lemma maxOf_spec vs : vs ≠ [] → maxOf vs ∈ vs ∧ ∀ v, v ∈ vs → v ≤ maxOf vs.
Proof.
  destruct vs as [|v0 vs]; [done|]. intros _. unfold maxOf.
  induction vs as [|w vs IH]; simpl.
  - split; [apply elem_of_cons; by left|]. intros v ->%list_elem_of_singleton. lia.
  - destruct IH as [Hin Hmax]. split.
    + destruct (Z.max_spec w (foldr Z.max v0 vs)) as [[_ ->]|[_ ->]].
      * apply elem_of_cons in Hin as [->|Hin]; rewrite !elem_of_cons; [by left|].
        right. by right.
      * rewrite !elem_of_cons. right. by left.
    + intros v Hv. rewrite !elem_of_cons in Hv. destruct Hv as [->|[->|Hv]].
      * specialize (Hmax v0 ltac:(apply elem_of_cons; by left)). lia.
      * lia.
      * specialize (Hmax v ltac:(apply elem_of_cons; by right)). lia.
Qed.

Lemma minOf_spec vs : vs ≠ [] → minOf vs ∈ vs ∧ ∀ v, v ∈ vs → minOf vs ≤ v.
Proof.
  destruct vs as [|v0 vs]; [done|]. intros _. unfold minOf.
  induction vs as [|w vs IH]; simpl.
  - split; [apply elem_of_cons; by left|]. intros v ->%list_elem_of_singleton. lia.
  - destruct IH as [Hin Hmin]. split.
    + destruct (Z.min_spec w (foldr Z.min v0 vs)) as [[_ ->]|[_ ->]].
      * rewrite !elem_of_cons. right. by left.
      * apply elem_of_cons in Hin as [->|Hin]; rewrite !elem_of_cons; [by left|].
        right. by right.
    + intros v Hv. rewrite !elem_of_cons in Hv. destruct Hv as [->|[->|Hv]].
      * specialize (Hmin v0 ltac:(apply elem_of_cons; by left)). lia.
      * lia.
      * specialize (Hmin v ltac:(apply elem_of_cons; by right)). lia.
Qed.

Lemma positive_bet_values (bets : gmap string Z) v :
  v ∈ filter (λ b, b > 0) (map snd (map_to_list bets))
  ↔ v > 0 ∧ ∃ k, bets !! k = Some v.
Proof.
  rewrite list_elem_of_filter. change (map snd ?l) with (snd <$> l).
  rewrite list_elem_of_fmap. split.
  - intros [Hv ([k w] & -> & Hin)]. split; [done|]. exists k.
    by apply elem_of_map_to_list in Hin.
  - intros [Hv [k Hk]]. split; [done|]. exists (k, v). split; [done|].
    by apply elem_of_map_to_list.
Qed.

(** [needsSidePot] answers whether two positive bets differ. *)
Lemma needsSidePot_iff_two_positive_bets_differ (players : list PokerPlayer)
    (bets : gmap string Z) :
  needsSidePot players bets = true
  ↔ ∃ k1 k2 a b, bets !! k1 = Some a ∧ bets !! k2 = Some b ∧ a > 0 ∧ b > 0 ∧ a ≠ b.
Proof.
  unfold needsSidePot. cbv zeta.
  set (vs := filter (λ b, b > 0) (map snd (map_to_list bets))). split.
  - case_decide as Hlen; [done|]. intros Hgt%bool_decide_eq_true.
    assert (vs ≠ []) as Hne by (intros E; rewrite E in Hlen; simpl in Hlen; lia).
    destruct (maxOf_spec vs Hne) as [Hmax _]. destruct (minOf_spec vs Hne) as [Hmin _].
    apply positive_bet_values in Hmax as [? [k1 ?]], Hmin as [? [k2 ?]].
    exists k1, k2, (maxOf vs), (minOf vs). repeat split; try done. lia.
  - intros (k1 & k2 & a & b & Ha & Hb & Hpa & Hpb & Hab).
    assert (a ∈ vs) as Hina by (apply positive_bet_values; eauto).
    assert (b ∈ vs) as Hinb by (apply positive_bet_values; eauto).
    assert (vs ≠ []) as Hne by (intros E; rewrite E in Hina; by apply elem_of_nil in Hina).
    rewrite decide_False.
    + apply bool_decide_eq_true.
      destruct (maxOf_spec vs Hne) as [_ Hmax]. destruct (minOf_spec vs Hne) as [_ Hmin].
      pose proof (Hmax a Hina). pose proof (Hmax b Hinb).
      pose proof (Hmin a Hina). pose proof (Hmin b Hinb). lia.
    + destruct vs as [|x [|y l]]; simpl; [done| |lia].
      apply list_elem_of_singleton in Hina, Hinb. congruence.
Qed.

End SidePotFacts.

(** ** Properties of the ledger's bookkeeping *)
Module LedgerExtras.
Import Ledger LedgerFixtures LedgerFacts PotQueries SidePotFacts SortFacts.

Lemma room_nonneg playerId ceiling (pots : list Pot) :
  0 ≤ sumZ (map (λ pot, Z.max 0 (getPotSpaceForPlayer playerId pot ceiling)) pots).
Proof. induction pots as [|pot pots IH]; [done|]. rewrite map_cons, sumZ_cons. lia. Qed.

(** What the loop over the existing side pots leaves to be placed. *)
Lemma addBetToSidePots_remaining round playerId ceiling sides remainingAmount affected
    sides' remaining' affected' :
  0 ≤ remainingAmount →
  addBetToSidePots round playerId ceiling sides remainingAmount affected
  = (sides', remaining', affected') →
  remaining' = Z.max 0 (remainingAmount
                        - sumZ (map (λ pot, Z.max 0 (getPotSpaceForPlayer playerId pot ceiling))
                                    sides))
  ∧ map id sides' = map id sides.
Proof.
  revert remainingAmount affected sides' remaining' affected'.
  induction sides as [|sidePot rest IH];
    intros remainingAmount affected sides' remaining' affected' Hrem.
  - simpl. intros [= <- <- <-]. split; [|done]. cbn. lia.
  - cbn [addBetToSidePots]. rewrite map_cons, sumZ_cons.
    pose proof (room_nonneg playerId ceiling rest) as Hroom.
    case_decide as Hdone.
    { intros [= <- <- <-]. split; [lia|done]. }
    case_decide as Hfits.
    + destruct (addBetToSidePots _ _ _ rest _ _) as [[rest' rem1] aff1] eqn:Hloop.
      intros [= <- <- <-]. apply IH in Hloop as [-> Hids]; [|lia].
      split; [lia|]. rewrite !map_cons, Hids. f_equal.
      unfold addPlayerContribution. by destruct (isLocked sidePot).
    + destruct (addBetToSidePots _ _ _ rest _ _) as [[rest' rem1] aff1] eqn:Hloop.
      intros [= <- <- <-]. apply IH in Hloop as [-> Hids]; [|lia].
      split; [lia|]. by rewrite !map_cons, Hids.
Qed.

(** X12.  [addBet] of a positive amount returns exactly when the
    amount fits into the room that the existing pots still have for the
    player, however many iterations the loop that opens new pots is allowed.
    When it returns it reports the whole amount as added and has opened no
    pot: each pot in turn was assigned what was left of the bet, up to its
    room, and these parts add up to the bet.  An open pot books its part; a
    locked pot books nothing, although its part counts as added, so that on a
    ledger whose pots are all locked the pots are left as they were. *)
Theorem addBet_returns_iff_the_bet_fits (fuel : nat) (pm : PotManager)
    (playerId : string) (x : Z) (playerAllInAmount : Ceiling) :
  x > 0 →
  (is_Some (addBet fuel pm playerId x playerAllInAmount)
   ↔ x ≤ roomFor playerId playerAllInAmount pm)
  ∧ (∀ r pm', addBet fuel pm playerId x playerAllInAmount = Some (r, pm') →
       added r = x
       ∧ map id (getAllPots pm') = map id (getAllPots pm)
       ∧ sumZ (assigned playerId playerAllInAmount (getAllPots pm) x) = x
       ∧ Forall3 (Booked playerId) (getAllPots pm)
                 (assigned playerId playerAllInAmount (getAllPots pm) x) (getAllPots pm')
       ∧ (Forall (λ pot, isLocked pot = true) (getAllPots pm) →
          getAllPots pm' = getAllPots pm)).
Proof.
  intros Hx. split.
  - unfold addBet, roomFor, getAllPots. rewrite decide_False by lia.
    rewrite map_cons, sumZ_cons.
    set (room := getPotSpaceForPlayer playerId (mainPot pm) playerAllInAmount).
    set (sideRoom := sumZ (map _ (sidePots pm))).
    pose proof (room_nonneg playerId playerAllInAmount (sidePots pm)) as Hside.
    fold sideRoom in Hside.
    destruct (decide (x `min` room > 0)) as [Hroom|Hroom]; cbn beta iota zeta.
    + destruct (addBetToSidePots _ _ _ (sidePots pm) _ _) as [[sides' rem2] aff2] eqn:Hloop.
      apply addBetToSidePots_remaining in Hloop as [-> Hids]; [|lia]. fold sideRoom.
      rewrite addBetToNewPots_stuck.
      case_decide; split; intros H'; try lia; try done; by destruct H'.
    + destruct (addBetToSidePots _ _ _ (sidePots pm) _ _) as [[sides' rem2] aff2] eqn:Hloop.
      apply addBetToSidePots_remaining in Hloop as [-> Hids]; [|lia]. fold sideRoom.
      rewrite addBetToNewPots_stuck.
      case_decide; split; intros H'; try lia; try done; by destruct H'.
  - intros r pm' Hbet.
    destruct (addBet_booked _ _ _ _ _ _ _ Hx Hbet) as (Hadded & Hbooked & Hsum).
    split; [done|].
    assert (Hids : ∀ ps parts ps',
              Forall3 (Booked playerId) ps parts ps' → map id ps' = map id ps).
    { clear. induction 1 as [|pot part pot' ps parts ps' [Hid _] _ IH]; [done|].
      by rewrite !map_cons, Hid, IH. }
    split; [by eapply Hids|]. split; [done|]. split; [done|].
    intros Hlocked. revert Hlocked Hbooked. generalize (getAllPots pm') as ps'.
    generalize (assigned playerId playerAllInAmount (getAllPots pm) x) as parts.
    generalize (getAllPots pm) as ps. clear.
    intros ps parts ps' Hlocked Hbooked.
    induction Hbooked as [|pot part pot' ps parts ps' (_ & Hsame & _) _ IH]; [done|].
    apply Forall_cons in Hlocked as [Hpot Hrest]. by rewrite (Hsame Hpot), (IH Hrest).
Qed.

(** The side-pot scenario after its pots were paid out, and so locked. *)
Lemma addBet_returns_iff_the_bet_fits_witness :
  (is_Some (addBet 1 ledgerA100 "B" 100 Infinity) ↔ 100 ≤ roomFor "B" Infinity ledgerA100)
  ∧ (is_Some (addBet 1 ledgerA100 "B" 150 Infinity) ↔ 150 ≤ roomFor "B" Infinity ledgerA100)
  ∧ (let paid := (distributeAllPots 0 scenario ["B"] ∅).2 in
     ∃ r pm', addBet 1 paid "A" 200 Infinity = Some (r, pm')
              ∧ added r = 200 ∧ getAllPots pm' = getAllPots paid).
Proof.
  split; [|split].
  - exact (proj1 (addBet_returns_iff_the_bet_fits 1 ledgerA100 "B" 100 Infinity
                    ltac:(lia))).
  - exact (proj1 (addBet_returns_iff_the_bet_fits 1 ledgerA100 "B" 150 Infinity
                    ltac:(lia))).
  - cbv zeta.
    destruct (addBet 1 (distributeAllPots 0 scenario ["B"] ∅).2 "A" 200 Infinity)
      as [[r pm']|] eqn:Hbet; [|by vm_compute in Hbet].
    exists r, pm'. split; [done|].
    destruct (proj2 (addBet_returns_iff_the_bet_fits 1 _ "A" 200 Infinity ltac:(lia))
                _ _ Hbet) as (Hadded & _ & _ & _ & Hlocked).
    split; [exact Hadded|]. apply Hlocked.
    repeat constructor.
Defined.

(** *** Who is credited with what *)

Lemma foldl_add {A} (f : A → Z) (l : list A) a :
  foldl (λ total x, total + f x) a l = a + sumZ (map f l).
Proof.
  revert a. induction l as [|x l IH]; intros a; [unfold sumZ; simpl; lia|].
  rewrite map_cons, sumZ_cons. cbn [foldl]. rewrite IH. lia.
Qed.

Lemma getPlayerTotalContribution_sum pm playerId :
  getPlayerTotalContribution pm playerId
  = sumZ (map (λ pot, getPlayerContribution pot playerId) (getAllPots pm)).
Proof.
  unfold getPlayerTotalContribution, getAllPots.
  rewrite foldl_add, map_cons, sumZ_cons. lia.
Qed.

Lemma getPlayerContribution_add pot playerId x round who :
  isLocked pot = false →
  getPlayerContribution (addPlayerContribution pot playerId x round).2 who
  = getPlayerContribution pot who + (if decide (who = playerId) then x else 0).
Proof.
  intros Hopen. unfold addPlayerContribution, getPlayerContribution. rewrite Hopen.
  cbn [snd playerContributions]. case_decide as Hwho.
  - subst who. rewrite lookup_insert_eq.
    destruct (playerContributions pot !! playerId); simpl; lia.
  - rewrite lookup_insert_ne by done. lia.
Qed.

Lemma addBetToSidePots_credit round playerId ceiling sides remainingAmount affected
    sides' remaining' affected' who :
  Forall (λ pot, isLocked pot = false) sides →
  0 ≤ remainingAmount →
  addBetToSidePots round playerId ceiling sides remainingAmount affected
  = (sides', remaining', affected') →
  sumZ (map (λ pot, getPlayerContribution pot who) sides')
  = sumZ (map (λ pot, getPlayerContribution pot who) sides)
    + (if decide (who = playerId) then remainingAmount - remaining' else 0).
Proof.
  revert remainingAmount affected sides' remaining' affected'.
  induction sides as [|sidePot rest IH];
    intros remainingAmount affected sides' remaining' affected' Hopen Hrem.
  - cbn [addBetToSidePots]. intros [= <- <- <-]. case_decide; lia.
  - apply Forall_cons in Hopen as [Hpot Hrest]. cbn [addBetToSidePots].
    destruct (decide (remainingAmount ≤ 0)) as [Hdone|Hdone];
      [intros [= <- <- <-]; case_decide; lia|].
    destruct (decide (_ `min` _ > 0)) as [Hfits|Hfits].
    + destruct (addBetToSidePots _ _ _ rest _ _) as [[rest' rem1] aff1] eqn:Hloop.
      intros [= <- <- <-]. apply IH in Hloop; [|done|lia].
      rewrite !map_cons, !sumZ_cons, Hloop, getPlayerContribution_add by done.
      repeat case_decide; lia.
    + destruct (addBetToSidePots _ _ _ rest _ _) as [[rest' rem1] aff1] eqn:Hloop.
      intros [= <- <- <-]. apply IH in Hloop; [|done|lia].
      rewrite !map_cons, !sumZ_cons, Hloop. lia.
Qed.

(** X13.  A bet that [addBet] books into unlocked pots is credited
    to the player alone: the player's total contribution over all pots grows
    by the amount, nobody else's contribution changes, the pots together hold
    the amount more, and [totalAmount] is the sum of the pots. *)
Theorem addBet_credits_the_player_alone (fuel : nat) (pm pm' : PotManager)
    (playerId : string) (x : Z) (playerAllInAmount : Ceiling) (r : BetResult) :
  x > 0 →
  Forall (λ pot, isLocked pot = false) (getAllPots pm) →
  addBet fuel pm playerId x playerAllInAmount = Some (r, pm') →
  getPlayerTotalContribution pm' playerId = getPlayerTotalContribution pm playerId + x
  ∧ (∀ other, other ≠ playerId →
       getPlayerTotalContribution pm' other = getPlayerTotalContribution pm other)
  ∧ sumAmounts (getAllPots pm') = sumAmounts (getAllPots pm) + x
  ∧ totalAmount pm' = sumAmounts (getAllPots pm').
Proof.
  intros Hx Hopen Hbet.
  destruct (addBet_books_what_it_is_given fuel pm playerId x playerAllInAmount r pm'
              Hx Hopen Hbet) as (_ & Hsum & Htotal).
  assert (Hwho : ∀ who, getPlayerTotalContribution pm' who
                        = getPlayerTotalContribution pm who
                          + (if decide (who = playerId) then x else 0)).
  { intros who. rewrite !getPlayerTotalContribution_sum.
    apply Forall_cons in Hopen as [Hmain Hsides].
    revert Hbet. unfold addBet. rewrite decide_False by lia.
    set (room := getPotSpaceForPlayer playerId (mainPot pm) playerAllInAmount).
    destruct (decide (x `min` room > 0)) as [Hroom|Hroom]; cbn beta iota zeta.
    - destruct (addBetToSidePots _ _ _ (sidePots pm) _ _) as [[sides' rem2] aff2] eqn:Hloop.
      pose proof Hloop as Hrem.
      apply addBetToSidePots_accounting in Hrem as [Hrem _]; [|done|lia].
      apply (addBetToSidePots_credit _ _ _ _ _ _ _ _ _ who) in Hloop; [|done|lia].
      rewrite addBetToNewPots_stuck. destruct (decide (rem2 > 0)); [done|].
      intros [= <- <-]. unfold getAllPots, updateTotalAmount, withPots.
      cbn [mainPot sidePots]. rewrite !map_cons, !sumZ_cons, Hloop.
      rewrite getPlayerContribution_add by done. repeat case_decide; lia.
    - destruct (addBetToSidePots _ _ _ (sidePots pm) _ _) as [[sides' rem2] aff2] eqn:Hloop.
      pose proof Hloop as Hrem.
      apply addBetToSidePots_accounting in Hrem as [Hrem _]; [|done|lia].
      apply (addBetToSidePots_credit _ _ _ _ _ _ _ _ _ who) in Hloop; [|done|lia].
      rewrite addBetToNewPots_stuck. destruct (decide (rem2 > 0)); [done|].
      intros [= <- <-]. unfold getAllPots, updateTotalAmount, withPots.
      cbn [mainPot sidePots]. rewrite !map_cons, !sumZ_cons, Hloop.
      repeat case_decide; lia. }
  split; [by rewrite Hwho, decide_True|]. split; [|done].
  intros other Hne. rewrite Hwho, decide_False by done. lia.
Qed.

Lemma addBet_credits_the_player_alone_witness :
  ∃ r pm', addBet 1 ledgerA100 "B" 100 Infinity = Some (r, pm')
           ∧ getPlayerTotalContribution pm' "B"
             = getPlayerTotalContribution ledgerA100 "B" + 100
           ∧ totalAmount pm' = sumAmounts (getAllPots pm').
Proof.
  eexists _, _. split; [vm_compute; reflexivity|].
  pose proof (addBet_credits_the_player_alone 1 ledgerA100 _ "B" 100 Infinity _
                ltac:(lia) ltac:(repeat constructor) eq_refl) as (HB & _ & _ & Ht).
  split; [exact HB|exact Ht].
Defined.

(** *** The books of a pot *)

Lemma fold_sum_insert {A} (f : A → Z) (m : gmap string A) k v :
  map_fold (λ _ a acc, f a + acc) 0 (<[k := v]> m)
  = map_fold (λ _ a acc, f a + acc) 0 m - from_option f 0 (m !! k) + f v.
Proof.
  destruct (m !! k) as [a0|] eqn:Hk; simpl.
  - rewrite <-(insert_delete_eq m k v).
    rewrite map_fold_insert_L; [|intros; lia|by rewrite lookup_delete_eq].
    rewrite (map_fold_delete_L _ _ k a0 m); [lia|intros; lia|done].
  - rewrite map_fold_insert_L; [lia|intros; lia|done].
Qed.

Lemma fold_sum_alter {A} (f : A → Z) (g : A → A) (m : gmap string A) k :
  (∀ a, f (g a) = f a) →
  map_fold (λ _ a acc, f a + acc) 0 (alter g k m)
  = map_fold (λ _ a acc, f a + acc) 0 m.
Proof.
  intros Hg. rewrite alter_alt. destruct (m !! k) as [a0|] eqn:Hk; [|done].
  rewrite fold_sum_insert, Hk. simpl. rewrite Hg. lia.
Qed.

Lemma addPlayerContribution_balanced pot playerId x round :
  Balanced pot → Balanced (addPlayerContribution pot playerId x round).2.
Proof.
  unfold Balanced, contributed, addPlayerContribution. intros Hb.
  destruct (isLocked pot); [done|]. cbn [snd amount playerContributions].
  rewrite fold_sum_insert. unfold addContribution. cbn [pc_amount].
  destruct (playerContributions pot !! playerId); simpl; lia.
Qed.

Lemma removeEligiblePlayer_balanced pot playerId :
  Balanced pot → Balanced (removeEligiblePlayer pot playerId).
Proof.
  unfold Balanced, contributed, removeEligiblePlayer. intros Hb.
  cbn [amount playerContributions]. by rewrite fold_sum_alter.
Qed.

Lemma markWon_contributed shares (m : gmap string PlayerContribution) :
  map_fold (λ _ c acc, pc_amount c + acc) 0 (foldl markWon m shares)
  = map_fold (λ _ c acc, pc_amount c + acc) 0 m.
Proof.
  revert m. induction shares as [|sh shares IH]; intros m; simpl; [done|].
  rewrite IH. unfold markWon. by rewrite fold_sum_alter.
Qed.

Lemma distributeToWinners_balanced pot ws he :
  Balanced pot → Balanced (distributeToWinners pot ws he).2.
Proof.
  unfold distributeToWinners. intros Hb. repeat case_match; try done.
  unfold Balanced, contributed. cbn [snd amount playerContributions].
  by rewrite markWon_contributed.
Qed.

Lemma addBetToSidePots_balanced round playerId ceiling sides remainingAmount affected :
  Forall Balanced sides →
  Forall Balanced
    (addBetToSidePots round playerId ceiling sides remainingAmount affected).1.1.
Proof.
  revert remainingAmount affected. induction sides as [|sidePot rest IH];
    intros remainingAmount affected Hb; [done|].
  apply Forall_cons in Hb as [Hpot Hrest]. cbn [addBetToSidePots].
  case_decide; [by constructor|]. case_decide.
  - specialize (IH (remainingAmount
                    - remainingAmount `min` getPotSpaceForPlayer playerId sidePot ceiling)
                   (affected ++ [mkAffected (id sidePot)
                      (remainingAmount `min` getPotSpaceForPlayer playerId sidePot ceiling)])
                   Hrest).
    destruct (addBetToSidePots _ _ _ rest _ _) as [[rest' rem1] aff1]. simpl in *.
    constructor; [by apply addPlayerContribution_balanced|done].
  - specialize (IH remainingAmount affected Hrest).
    destruct (addBetToSidePots _ _ _ rest _ _) as [[rest' rem1] aff1]. simpl in *.
    by constructor.
Qed.

Lemma addBet_balanced fuel pm playerId x ceiling r pm' :
  Forall Balanced (getAllPots pm) →
  addBet fuel pm playerId x ceiling = Some (r, pm') →
  Forall Balanced (getAllPots pm').
Proof.
  intros Hb. pose proof Hb as [Hmain Hsides]%Forall_cons.
  unfold addBet. case_decide; [by intros [= <- <-]|].
  set (room := getPotSpaceForPlayer playerId (mainPot pm) ceiling).
  destruct (decide (x `min` room > 0)) as [Hroom|Hroom]; cbn beta iota zeta.
  - pose proof (addBetToSidePots_balanced (currentRound pm) playerId ceiling (sidePots pm)
                  (x - x `min` room) [mkAffected MainId (x `min` room)] Hsides) as Hs.
    destruct (addBetToSidePots _ _ _ (sidePots pm) _ _) as [[sides' rem2] aff2].
    rewrite addBetToNewPots_stuck. case_decide; [done|]. intros [= <- <-].
    constructor; [by apply addPlayerContribution_balanced|done].
  - pose proof (addBetToSidePots_balanced (currentRound pm) playerId ceiling (sidePots pm)
                  x [] Hsides) as Hs.
    destruct (addBetToSidePots _ _ _ (sidePots pm) _ _) as [[sides' rem2] aff2].
    rewrite addBetToNewPots_stuck. case_decide; [done|]. intros [= <- <-].
    by constructor.
Qed.

Lemma step_balanced fuel op pm pm' :
  Forall Balanced (getAllPots pm) → step fuel op pm = Some pm' →
  Forall Balanced (getAllPots pm').
Proof.
  intros Hb. destruct op as [playerId x ceiling|playerId|playerId allInAmount]; simpl.
  - destruct (addBet fuel pm playerId x ceiling) as [[r pm1]|] eqn:Hbet; [|done].
    intros [= <-]. by eapply addBet_balanced.
  - intros [= <-]. rewrite getAllPots_playerFolds.
    change (map ?f ?l) with (f <$> l). apply Forall_fmap.
    eapply Forall_impl; [exact Hb|]. intros pot. apply removeEligiblePlayer_balanced.
  - intros [= <-]. by rewrite getAllPots_playerAllIn.
Qed.

Lemma distributePots_balanced ws he pots d :
  Forall Balanced pots → Forall Balanced (distributePots ws he pots d).1.
Proof.
  revert d. induction pots as [|pot rest IH]; intros d Hb; [done|].
  apply Forall_cons in Hb as [Hpot Hrest]. cbn [distributePots].
  case_decide.
  { specialize (IH d Hrest). destruct (distributePots ws he rest d). by constructor. }
  case_decide.
  { specialize (IH d Hrest). destruct (distributePots ws he rest d). by constructor. }
  pose proof (distributeToWinners_balanced pot
                (filter (λ playerId, isPlayerEligible pot playerId = true) ws) he Hpot) as Hp.
  destruct (distributeToWinners pot _ he) as [potDistribution pot'].
  match goal with
  | |- context [distributePots ws he rest ?d2] =>
      specialize (IH d2 Hrest); destruct (distributePots ws he rest d2)
  end.
  by constructor.
Qed.

Lemma getAllPots_distributeAllPots now pm ws he :
  isShowdown pm = false →
  getAllPots (distributeAllPots now pm ws he).2
  = (distributePots ws he (getAllPots pm)
       {| timestamp := now; pots := []; totalDistributed := 0; dist_winners := ∅ |}).1.
Proof.
  intros Hshow. unfold distributeAllPots. rewrite Hshow.
  destruct (distributePots _ _ _ _) as [allPots' distribution] eqn:Hloop.
  apply distributePots_settled in Hloop. unfold getAllPots in Hloop.
  inversion Hloop as [|? main' ? rest' Hmain Hrest]; subst.
  unfold saveToHistory, getAllPots. simpl. by rewrite drop_0.
Qed.

(** X14.  The books of the pots stay balanced: if every pot holds
    exactly what its players' contributions add up to, this is still so after
    any sequence of bets, folds and all-ins that returns, after
    [distributeAllPots] whatever the winners, and after
    [resetForNewHand]. *)
Theorem pots_stay_balanced (fuel : nat) (ops : list LedgerOp) (pm pm' : PotManager) :
  Forall Balanced (getAllPots pm) →
  run fuel ops pm = Some pm' →
  Forall Balanced (getAllPots pm')
  ∧ (∀ now ws he, Forall Balanced (getAllPots (distributeAllPots now pm' ws he).2))
  ∧ Forall Balanced (getAllPots (resetForNewHand pm')).
Proof.
  intros Hb Hrun.
  assert (Hb' : Forall Balanced (getAllPots pm')).
  { revert pm Hb Hrun. induction ops as [|op ops IH]; intros pm Hb; simpl.
    - by intros [= <-].
    - destruct (step fuel op pm) as [pm1|] eqn:Hstep; [|done].
      apply IH. by eapply step_balanced. }
  split; [done|]. split.
  - intros now ws he. destruct (isShowdown pm') eqn:Hshow.
    + unfold distributeAllPots. by rewrite Hshow.
    + rewrite getAllPots_distributeAllPots by done. by apply distributePots_balanced.
  - repeat constructor.
Qed.

Lemma pots_stay_balanced_witness :
  ∃ pm', run 3 [PostContribution "B" 100 Infinity; Fold "A"; AllIn "B" 100;
                PostContribution "C" 60 (Finite 60)] ledgerA100 = Some pm'
         ∧ Forall Balanced (getAllPots pm').
Proof.
  eexists. split; [vm_compute; reflexivity|].
  refine (proj1 (pots_stay_balanced 3
            [PostContribution "B" 100 Infinity; Fold "A"; AllIn "B" 100;
             PostContribution "C" 60 (Finite 60)] ledgerA100 _ _ eq_refl)).
  repeat constructor.
Defined.

(** *** What a distribution pays *)


Lemma calculateDistribution_ids pot ws he :
  map sh_playerId (calculateDistribution pot ws he) = ws.
Proof.
  destruct ws as [|w [|w' ws]]; [done|done|].
  unfold calculateDistribution. apply splitShares_ids.
Qed.


Lemma distributeToWinners_ids pot ws he sh :
  sh ∈ (distributeToWinners pot ws he).1 → sh_playerId sh ∈ ws.
Proof.
  unfold distributeToWinners. repeat case_match; cbn [fst]; try by intros ?%elem_of_nil.
  intros Hsh. rewrite <-(calculateDistribution_ids pot ws he).
  change (map ?f ?l) with (f <$> l). by apply list_elem_of_fmap_2.
Qed.



Lemma creditShares_others shares d playerId :
  playerId ∉ map sh_playerId shares →
  dist_winners (foldl creditShare d shares) !! playerId = dist_winners d !! playerId.
Proof.
  revert d. induction shares as [|sh shares IH]; intros d Hnot; [done|].
  rewrite map_cons, not_elem_of_cons in Hnot. destruct Hnot as [Hne Hnot].
  cbn [foldl]. rewrite IH by done. unfold creditShare. cbn [dist_winners].
  by rewrite lookup_insert_ne.
Qed.


Lemma distributePots_others ws he pots d playerId :
  playerId ∉ ws ∨ Forall (λ pot, playerId ∉ eligiblePlayers pot) pots →
  dist_winners (distributePots ws he pots d).2 !! playerId = dist_winners d !! playerId.
Proof.
  intros Hout. revert d. induction pots as [|pot rest IH]; intros d; [done|].
  assert (Hrest : playerId ∉ ws ∨ Forall (λ pot, playerId ∉ eligiblePlayers pot) rest).
  { destruct Hout as [?|[_ ?]%Forall_cons]; [by left|by right]. }
  specialize (IH Hrest). cbn [distributePots].
  case_decide.
  { specialize (IH d). by destruct (distributePots ws he rest d). }
  set (eligibleWinners := filter (λ playerId, isPlayerEligible pot playerId = true) ws).
  case_decide.
  { specialize (IH d). by destruct (distributePots ws he rest d). }
  pose proof (distributeToWinners_ids pot eligibleWinners he) as Hids.
  destruct (distributeToWinners pot eligibleWinners he) as [potDistribution pot'].
  cbn [fst] in Hids.
  match goal with
  | |- context [distributePots ws he rest ?d2] =>
      specialize (IH d2); destruct (distributePots ws he rest d2) as [rest' d']
  end.
  cbn [snd] in *. rewrite IH. cbn [dist_winners]. apply creditShares_others.
  change (map ?f ?l) with (f <$> l). intros (sh & -> & Hsh)%list_elem_of_fmap.
  apply Hids in Hsh. subst eligibleWinners.
  apply list_elem_of_filter in Hsh as [Helig%isPlayerEligible_true Hin].
  destruct Hout as [?|[? _]%Forall_cons]; done.
Qed.

Lemma distributeAllPots_result now pm ws he :
  isShowdown pm = false →
  (distributeAllPots now pm ws he).1
  = Some (distributePots ws he (getAllPots pm)
            {| timestamp := now; pots := []; totalDistributed := 0;
               dist_winners := ∅ |}).2.
Proof.
  intros Hshow. unfold distributeAllPots. rewrite Hshow.
  by destruct (distributePots _ _ _ _).
Qed.



(** X16.  A player who folded is paid nothing: [playerFolds] leaves
    the chips in the pots, and the distribution that follows credits the
    player nothing, even when the player is listed among the winners. *)
Theorem folded_player_is_paid_nothing (now : Z) (pm : PotManager) (playerId : string)
    (winningPlayersByStrength : list string)
    (handEvaluations : gmap string Evaluator.HandResult) :
  isShowdown pm = false →
  map amount (getAllPots (playerFolds pm playerId)) = map amount (getAllPots pm)
  ∧ ∃ distribution,
      (distributeAllPots now (playerFolds pm playerId) winningPlayersByStrength
                         handEvaluations).1 = Some distribution
      ∧ dist_winners distribution !! playerId = None.
Proof.
  intros Hshow. split.
  { rewrite getAllPots_playerFolds, map_map. done. }
  eexists. split; [by apply distributeAllPots_result|].
  rewrite distributePots_others; [done|]. right.
  rewrite getAllPots_playerFolds. change (map ?f ?l) with (f <$> l).
  apply Forall_fmap, Forall_true. intros pot. simpl.
  rewrite not_elem_of_difference. right. by apply elem_of_singleton.
Qed.

Lemma folded_player_is_paid_nothing_witness :
  ∃ distribution,
    (distributeAllPots 0 (playerFolds scenario "A") ["A"; "B"] ∅).1 = Some distribution
    ∧ dist_winners distribution !! "A" = None.
Proof.
  exact (proj2 (folded_player_is_paid_nothing 0 scenario "A" ["A"; "B"] ∅ eq_refl)).
Defined.

(** [playerAllIn] leaves the pots as they are. *)
Lemma playerAllIn_splits_off_no_side_pot (pm : PotManager) (playerId : string)
    (allInAmount : Z) :
  getAllPots (playerAllIn pm playerId allInAmount) = getAllPots pm
  ∧ totalAmount (playerAllIn pm playerId allInAmount) = sumAmounts (getAllPots pm)
  ∧ isShowdown (playerAllIn pm playerId allInAmount) = isShowdown pm.
Proof.
  unfold playerAllIn, recalculateForAllIn. rewrite recalculateSidePots_id.
  repeat split.
Qed.

(** *** The stand-alone helper [distributePot] *)






End LedgerExtras.

(** ** Properties of the player's actions *)
Module PlayerExtras.
Import Player TableFixtures PlayerFacts.

Lemma addToBet_moves p x :
  let r := addToBet p x in
  chips r.2 = chips p - r.1 ∧ bet r.2 = bet p + r.1
  ∧ totalBetThisHand r.2 = totalBetThisHand p + r.1
  ∧ r.1 = (if decide (x ≤ 0 ∨ chips p ≤ 0) then 0 else Z.min x (chips p))
  ∧ (0 < r.1 → chips r.2 = 0 → isAllIn r.2 = true)
  ∧ (r.1 = 0 → r.2 = p).
Proof.
  unfold addToBet.
  destruct (decide (x ≤ 0)); [cbn -[Z.min]; rewrite decide_True by lia; repeat split; lia|].
  destruct (decide (x `min` chips p ≤ 0));
    [cbn -[Z.min]; rewrite decide_True by lia; repeat split; lia|].
  cbn -[Z.min]. rewrite decide_False by lia. repeat split; try lia.
  intros _ Hzero. by rewrite decide_True.
Qed.

(** X18.  [refundBet] gives back what [addToBet] just moved: chips,
    bet and the hand's total are what they were.  The all-in mark is not
    undone: a player whose whole stack was bet stays marked all-in after the
    refund and cannot act. *)
Theorem refundBet_undoes_addToBet_but_not_the_all_in (p : PokerPlayer) (x : Z) :
  0 ≤ bet p →
  let placed := addToBet p x in
  let refunded := refundBet placed.2 placed.1 in
  refunded.1 = placed.1
  ∧ chips refunded.2 = chips p
  ∧ bet refunded.2 = bet p
  ∧ totalBetThisHand refunded.2 = totalBetThisHand p
  ∧ isAllIn refunded.2 = isAllIn placed.2
  ∧ (0 < chips p ≤ x →
     isAllIn refunded.2 = true ∧ ∀ gameState, canAct refunded.2 gameState = false).
Proof.
  intros Hbet placed refunded. subst placed refunded.
  pose proof (addToBet_moves p x) as (Hc & Hb & Ht & Hm & Hall & _).
  cbn zeta in *. destruct (addToBet p x) as [moved p1]. cbn [fst snd] in *.
  unfold refundBet. cbn -[Z.min].
  assert (Hmoved : 0 ≤ moved) by (rewrite Hm; case_decide; lia).
  rewrite Z.min_l by lia.
  repeat split; try lia.
  - apply Hall; [rewrite Hm, decide_False by lia; lia|].
    rewrite Hc, Hm, decide_False by lia. lia.
  - intros gameState. unfold canAct. cbn -[Z.min].
    rewrite Hall; [by repeat case_match|rewrite Hm, decide_False by lia; lia|].
    rewrite Hc, Hm, decide_False by lia. lia.
Qed.

Lemma refundBet_undoes_addToBet_but_not_the_all_in_witness :
  chips (refundBet (addToBet alice 5000).2 1000).2 = 1000
  ∧ isAllIn (refundBet (addToBet alice 5000).2 1000).2 = true
  ∧ canAct (refundBet (addToBet alice 5000).2 1000).2 (aliceTurn 0) = false.
Proof.
  destruct (refundBet_undoes_addToBet_but_not_the_all_in alice 5000 ltac:(by vm_compute))
    as (_ & Hchips & _ & _ & _ & Hall).
  destruct Hall as [Hallin Hcan]; [by vm_compute|].
  split; [exact Hchips|]. split; [exact Hallin | apply Hcan].
Defined.

Lemma canAct_true p gameState :
  canAct p gameState = true → 0 < chips p ∧ isAllIn p = false.
Proof. unfold canAct. repeat case_match; try done. intros _. split; [lia|done]. Qed.

(** X19.  A call that [takeAction] accepts brings the player's bet up
    to the current maximum bet, or as near as the stack allows: the new bet
    is the larger of the old bet and min(maximum bet, bet + chips), the
    amount reported is the difference, taken from the stack, and a player
    left below the maximum bet has no chips left and is marked all-in. *)
Theorem call_matches_the_bet_or_goes_all_in (p : PokerPlayer) (action : string) (x : Z)
    (gameState : GameView) (res : ActionResult) (p' : PokerPlayer) :
  toLowerCase action = "call" →
  takeAction p action x gameState = (inr res, p') →
  bet p' = Z.max (bet p) (Z.min (currentMaxBet gameState) (bet p + chips p))
  ∧ res_amount res = bet p' - bet p
  ∧ chips p' = chips p - res_amount res
  ∧ (bet p' < currentMaxBet gameState → chips p' = 0 ∧ isAllIn p' = true).
Proof.
  intros Hcall. unfold takeAction.
  destruct (canAct p gameState) eqn:Hcan; [|done]. cbn [negb].
  apply canAct_true in Hcan as [Hchips _]. rewrite Hcall.
  rewrite decide_False by done. rewrite decide_False by done.
  rewrite decide_True by done.
  set (p0 := withAction p (Some "call") x true false).
  unfold call, getCallAmount.
  case_decide as Hnothing.
  - unfold check, canCheck. case_bool_decide as Hcheck; [|done].
    intros [= <- <-]. cbn in *. repeat split; lia.
  - pose proof (addToBet_moves p0 (0 `max` (currentMaxBet gameState - bet p0)))
      as (Hc & Hb & Ht & Hm & Hall & _).
    cbn zeta in *. destruct (addToBet p0 _) as [moved p1]. cbn [fst snd] in *.
    intros [= <- <-]. cbn -[Z.max Z.min] in *.
    rewrite decide_False in Hm by lia.
    repeat split; try lia. apply Hall; lia.
Qed.

Lemma call_matches_the_bet_or_goes_all_in_witness :
  ∃ res p', takeAction alice "CALL" 0 (aliceTurn 4000) = (inr res, p')
            ∧ bet p' = 1000 ∧ res_amount res = 1000 ∧ isAllIn p' = true.
Proof.
  eexists _, _. split; [vm_compute; reflexivity|].
  destruct (call_matches_the_bet_or_goes_all_in alice "CALL" 0 (aliceTurn 4000) _ _
              eq_refl eq_refl) as (Hbet & Hamount & _ & Hshort).
  split; [exact Hbet|]. split; [exact Hamount|]. apply Hshort. by vm_compute.
Defined.

(** X20.  What [takeAction] accepts is recorded as it happened: the
    accepted action is fold, check, call, raise or allin (a bet is never
    accepted), the amount reported is exactly what left the stack, the player
    is marked as having acted and off turn with the action and the requested
    amount as last action, and one entry is appended to the action history
    with the reported amount and the stack before and after. *)
Theorem takeAction_success_is_recorded (p : PokerPlayer) (action : string) (x : Z)
    (gameState : GameView) (res : ActionResult) (p' : PokerPlayer) :
  takeAction p action x gameState = (inr res, p') →
  canAct p gameState = true
  ∧ toLowerCase action ∈ ["fold"; "check"; "call"; "raise"; "allin"]
  ∧ res_action res = toLowerCase action
  ∧ res_amount res = chips p - chips p'
  ∧ hasActedThisRound p' = true
  ∧ isCurrentTurn p' = false
  ∧ lastAction p' = Some (toLowerCase action)
  ∧ lastActionAmount p' = x
  ∧ ∃ entry, actionHistory p' = actionHistory p ++ [entry]
             ∧ ar_action entry = toLowerCase action
             ∧ ar_amount entry = res_amount res
             ∧ ar_chipsBefore entry = chips p
             ∧ ar_chipsAfter entry = chips p'.
Proof.
  unfold takeAction.
  destruct (canAct p gameState) eqn:Hcan; [|done]. cbn [negb].
  set (a := toLowerCase action).
  set (p0 := withAction p (Some a) x true false).
  intros Hrun. split; [done|].
  assert (Hout : ∃ moved p1,
            (inr (moved, p1) : PlayerError + Z * PokerPlayer)
            = (if decide (a = "fold") then inr (fold p0)
               else if decide (a = "check") then check p0 (currentMaxBet gameState)
               else if decide (a = "call") then call p0 (currentMaxBet gameState)
               else if decide (a = "bet") then inl BetIsNotAFunction
               else if decide (a = "raise") then raise p0 x (currentMaxBet gameState)
               else if decide (a = "allin") then inr (allIn p0)
               else inl (InvalidAction action))).
  { match type of Hrun with
    | match ?o with _ => _ end = _ => destruct o as [e|[moved p1]]; [done|by eexists _, _]
    end. }
  destruct Hout as (moved & p1 & Hout). rewrite <-Hout in Hrun.
  injection Hrun as <- <-. cbn [res_action res_amount].
  assert (Hkept : chips p1 = chips p - moved
                  ∧ hasActedThisRound p1 = true ∧ isCurrentTurn p1 = false
                  ∧ lastAction p1 = Some a ∧ lastActionAmount p1 = x
                  ∧ actionHistory p1 = actionHistory p
                  ∧ a ∈ ["fold"; "check"; "call"; "raise"; "allin"]).
  { assert (Hadd : ∀ y, let r := addToBet p0 y in
              chips r.2 = chips p - r.1
              ∧ hasActedThisRound r.2 = true ∧ isCurrentTurn r.2 = false
              ∧ lastAction r.2 = Some a ∧ lastActionAmount r.2 = x
              ∧ actionHistory r.2 = actionHistory p).
    { intros y. unfold addToBet. repeat case_decide; cbn; repeat split; lia. }
    destruct (decide (a = "fold")) as [Ha|_].
    { assert (Hin : a ∈ ["fold"; "check"; "call"; "raise"; "allin"]).
      { rewrite Ha. apply list_elem_of_here. }
      injection Hout as -> ->. cbn. repeat split; try done; lia. }
    destruct (decide (a = "check")) as [Ha|_].
    { assert (Hin : a ∈ ["fold"; "check"; "call"; "raise"; "allin"]).
      { rewrite Ha. do 1 apply list_elem_of_further. apply list_elem_of_here. }
      unfold check in Hout. destruct (canCheck p0 _); [|done].
      injection Hout as -> ->. cbn. repeat split; try done; lia. }
    destruct (decide (a = "call")) as [Ha|_].
    { assert (Hin : a ∈ ["fold"; "check"; "call"; "raise"; "allin"]).
      { rewrite Ha. do 2 apply list_elem_of_further. apply list_elem_of_here. }
      unfold call in Hout. case_decide.
      - unfold check in Hout. destruct (canCheck p0 _); [|done].
        injection Hout as -> ->. cbn. repeat split; try lia; done.
      - specialize (Hadd (getCallAmount p0 (currentMaxBet gameState))).
        cbn zeta in Hadd. destruct (addToBet p0 _) as [m q].
        injection Hout as -> ->. cbn in *. destruct Hadd as (? & ? & ? & ? & ? & ?).
        repeat split; try done; lia. }
    destruct (decide (a = "bet")) as [Ha|_]; [done|].
    destruct (decide (a = "raise")) as [Ha|_].
    { assert (Hin : a ∈ ["fold"; "check"; "call"; "raise"; "allin"]).
      { rewrite Ha. do 3 apply list_elem_of_further. apply list_elem_of_here. }
      unfold raise in Hout. case_decide; [done|].
      specialize (Hadd x). cbn zeta in Hadd. destruct (addToBet p0 x) as [m q].
      injection Hout as -> ->. cbn in *. destruct Hadd as (? & ? & ? & ? & ? & ?).
      repeat split; try done; lia. }
    destruct (decide (a = "allin")) as [Ha|_]; [|done].
    assert (Hin : a ∈ ["fold"; "check"; "call"; "raise"; "allin"]).
    { rewrite Ha. do 4 apply list_elem_of_further. apply list_elem_of_here. }
    unfold allIn in Hout. specialize (Hadd (chips p0)). cbn zeta in Hadd.
    destruct (addToBet p0 (chips p0)) as [m q].
    injection Hout as -> ->. cbn in *. destruct Hadd as (? & ? & ? & ? & ? & ?).
    repeat split; try done; lia. }
  destruct Hkept as (Hc & Hacted & Hturn & Hlast & Hamount & Hhist & Hin).
  cbn. rewrite Hhist. repeat split; try done; try lia.
  eexists. split; [done|]. cbn. repeat split; lia.
Qed.

Lemma takeAction_success_is_recorded_witness :
  ∃ res p', takeAction alice "AllIn" 0 (aliceTurn 50) = (inr res, p')
            ∧ res_amount res = 1000 ∧ hasActedThisRound p' = true.
Proof.
  eexists _, _. split; [vm_compute; reflexivity|].
  destruct (takeAction_success_is_recorded alice "AllIn" 0 (aliceTurn 50) _ _ eq_refl)
    as (_ & _ & _ & Hamount & Hacted & _).
  split; [exact Hamount | exact Hacted].
Defined.

End PlayerExtras.

(** ** Properties of the seating *)
Module SeatingFacts.
Import Player Seating SeatingFixtures SidePotFacts.

Lemma filter_insert_count {A} (P : A → Prop) `{!∀ x, Decision (P x)} (l : list A) i x y :
  l !! i = Some x →
  (length (filter P (<[i := y]> l)) + (if decide (P x) then 1 else 0)
   = length (filter P l) + (if decide (P y) then 1 else 0))%nat.
Proof.
  revert i. induction l as [|z l IH]; intros [|i]; simpl; try done.
  - intros [= ->]. rewrite !filter_cons. repeat case_decide; simpl; lia.
  - intros Hi. specialize (IH i Hi). rewrite !filter_cons.
    destruct (decide (P z)); simpl; lia.
Qed.

Lemma elem_of_delete {A} (l : list A) i x y :
  NoDup l → l !! i = Some x → y ∈ delete i l ↔ y ∈ l ∧ y ≠ x.
Proof.
  revert i. induction l as [|z l IH]; intros [|i] Hnd; simpl; try done.
  - intros [= ->]. apply NoDup_cons in Hnd as [Hx _]. rewrite elem_of_cons.
    split; [intros Hy; split; [by right|by intros ->]|].
    intros [[->|?] ?]; done.
  - intros Hi. apply NoDup_cons in Hnd as [Hz Hnd]. rewrite !elem_of_cons, (IH i) by done.
    split; [|tauto]. intros [->|[? ?]]; [|tauto].
    split; [by left|]. intros ->. apply Hz. by eapply list_elem_of_lookup_2.
Qed.

Lemma NoDup_delete {A} (l : list A) i : NoDup l → NoDup (delete i l).
Proof.
  revert i. induction l as [|z l IH]; intros [|i] Hnd; simpl; try done.
  - by apply NoDup_cons in Hnd as [_ ?].
  - apply NoDup_cons in Hnd as [Hz Hnd]. apply NoDup_cons. split; [|by apply IH].
    intros Hin. apply Hz. clear -Hin. revert i Hin.
    induction l as [|w l IHl]; intros [|i]; simpl; try done.
    + intros ?. by right.
    + intros [->|?]%elem_of_cons; [left|right; by eapply IHl].
Qed.

Lemma length_delete_lookup {A} (l : list A) i x :
  l !! i = Some x → S (length (delete i l)) = length l.
Proof.
  revert i. induction l as [|z l IH]; intros [|i]; simpl; try done.
  intros Hi. by rewrite (IH i Hi).
Qed.

Lemma newPlayerManager_consistent n : Consistent (newPlayerManager n).
Proof.
  split; simpl.
  - apply length_replicate.
  - apply Forall_replicate. done.
  - induction n as [|n IH]; [done|]. simpl. by rewrite filter_cons.
  - constructor.
  - constructor.
  - by intros ref ?%elem_of_nil.
  - intros id ref Hl. by rewrite lookup_empty in Hl.
  - intros i id Hl. apply lookup_replicate in Hl as [? _]. done.
Qed.

Lemma seatAt_Free seats position :
  seatAt seats position = Free → 0 ≤ position ∧ seats !! Z.to_nat position = Some Free.
Proof.
  unfold seatAt. case_decide; [done|].
  destruct (seats !! Z.to_nat position) as [s|]; simpl; [|done].
  intros ->. split; [lia|done].
Qed.

Lemma setSeat_inside seats position s0 v :
  0 ≤ position → seats !! Z.to_nat position = Some s0 →
  setSeat seats position v = <[Z.to_nat position := v]> seats.
Proof.
  intros Hpos Hl. unfold setSeat. rewrite decide_False by lia.
  rewrite decide_True; [done|]. by eapply lookup_lt_Some.
Qed.

(** Two seated players with the same user id or the same seat are one. *)
Lemma Consistent_same_id pm r1 r2 p1 p2 :
  Consistent pm → r1 ∈ players pm → r2 ∈ players pm →
  objects pm !! r1 = Some p1 → objects pm !! r2 = Some p2 →
  userId p1 = userId p2 ∨ position p1 = position p2 → r1 = r2.
Proof.
  intros Hc H1 H2 Ho1 Ho2 Hsame.
  destruct (players_seated pm Hc r1 H1) as (q1 & Hq1 & Hpos1 & Hs1 & Hm1).
  destruct (players_seated pm Hc r2 H2) as (q2 & Hq2 & Hpos2 & Hs2 & Hm2).
  rewrite Ho1 in Hq1. injection Hq1 as <-. rewrite Ho2 in Hq2. injection Hq2 as <-.
  assert (userId p1 = userId p2) as Hid.
  { destruct Hsame as [?|Hp]; [done|]. rewrite Hp in Hs1. congruence. }
  rewrite Hid in Hm1. congruence.
Qed.

Lemma addPlayer_consistent pm id startingChips player pm' :
  Consistent pm → addPlayer pm id startingChips = inr (player, pm') → Consistent pm'.
Proof.
  intros Hc. unfold addPlayer. case_decide as Hfull; [done|].
  case_bool_decide as Hknown; [done|].
  unfold findAvailableSeat.
  destruct (list_find (λ s, s = Free) (seats pm)) as [[seat s]|] eqn:Hfind; [|done].
  apply list_find_Some in Hfind as (Hseat & -> & _).
  cbn [fmap option_fmap option_map fst]. case_decide as Hid; [done|].
  intros [= <- <-].
  assert (Hset : setSeat (seats pm) (Z.of_nat seat) (Taken id)
                 = <[seat := Taken id]> (seats pm)).
  { rewrite (setSeat_inside _ _ Free) by (rewrite ?Nat2Z.id; done || lia).
    by rewrite Nat2Z.id. }
  assert (Hunknown : ∀ ref p, ref ∈ players pm → objects pm !! ref = Some p → userId p ≠ id).
  { intros ref p Hin Hp Heq. apply Hknown.
    destruct (players_seated pm Hc ref Hin) as (q & Hq & _ & _ & Hm).
    rewrite Hp in Hq. injection Hq as <-. unfold getPlayerById.
    rewrite <-Heq, Hm. simpl. by rewrite Hp. }
  assert (Hfresh : ∀ ref, ref ∈ players pm → ref ≠ allocated pm).
  { intros ref Hin. pose proof (players_fresh pm Hc) as Hall.
    rewrite Forall_forall in Hall. specialize (Hall ref Hin). lia. }
  split; cbn [maxPlayers objects allocated players seats playerMap]; rewrite ?Hset.
  - rewrite length_insert. apply (seats_length pm Hc).
  - apply Forall_insert; [apply (seats_whole pm Hc)|done].
  - pose proof (filter_insert_count isTaken (seats pm) seat Free (Taken id) Hseat)
      as Hcount.
    rewrite (decide_False (P := isTaken Free)) in Hcount by (by intros ?).
    rewrite (decide_True (P := isTaken (Taken id))) in Hcount by done.
    rewrite length_app, <-(seats_count pm Hc). simpl. lia.
  - apply Forall_app. split.
    + eapply Forall_impl; [apply (players_fresh pm Hc)|]. simpl. intros; lia.
    + repeat constructor.
  - apply NoDup_app. split; [apply (players_NoDup pm Hc)|].
    split; [|apply NoDup_singleton].
    intros ref Hin Heq%list_elem_of_singleton. subst ref.
    by apply (Hfresh (allocated pm)).
  - intros ref [Hin|Heq%list_elem_of_singleton]%elem_of_app; [|subst ref].
    + destruct (players_seated pm Hc ref Hin) as (p & Hp & Hpos & Hs & Hm).
      exists p. rewrite lookup_insert_ne by (by apply not_eq_sym, Hfresh).
      split; [done|]. split; [done|]. split.
      * rewrite list_lookup_insert_ne; [done|]. intros Heq. rewrite <-Heq in Hs.
        congruence.
      * rewrite lookup_insert_ne; [done|]. apply not_eq_sym. by eapply Hunknown.
    + eexists. rewrite lookup_insert_eq. split; [done|]. simpl.
      split; [lia|]. rewrite Nat2Z.id. split.
      * apply list_lookup_insert_eq. by eapply lookup_lt_Some.
      * apply lookup_insert_eq.
  - intros id' ref. destruct (decide (id' = id)) as [->|Hne].
    + rewrite lookup_insert_eq. intros [= <-].
      split; [apply elem_of_app; right; by apply list_elem_of_singleton|].
      unfold hasId. cbn [objects]. by rewrite lookup_insert_eq.
    + rewrite lookup_insert_ne by done. intros Hl.
      destruct (map_listed pm Hc id' ref Hl) as [Hin Hhas].
      split; [apply elem_of_app; by left|].
      unfold hasId in *. cbn [objects].
      by rewrite lookup_insert_ne by (by apply not_eq_sym, Hfresh).
  - intros i id'. destruct (decide (i = seat)) as [->|Hne].
    + rewrite list_lookup_insert_eq by (by eapply lookup_lt_Some). intros [= <-].
      eexists (allocated pm), _. rewrite lookup_insert_eq.
      split; [apply elem_of_app; right; by apply list_elem_of_singleton|].
      split; [done|]. by split.
    + rewrite list_lookup_insert_ne by done. intros Hl.
      destruct (seats_owned pm Hc i id' Hl) as (ref & p & Hin & Hp & Hpid & Hppos).
      exists ref, p. split; [apply elem_of_app; by left|].
      by rewrite lookup_insert_ne by (by apply not_eq_sym, Hfresh).
Qed.

Lemma removePlayer_consistent pm id :
  Consistent pm → Consistent (removePlayer pm id).2.
Proof.
  intros Hc. unfold removePlayer, getPlayerById.
  destruct (playerMap pm !! id) as [r0|] eqn:Hmap; [|done]. simpl.
  destruct (objects pm !! r0) as [player|] eqn:Hobj; [|done]. cbn [snd].
  destruct (map_listed pm Hc id r0 Hmap) as [Hin0 Hhas0].
  destruct (players_seated pm Hc r0 Hin0) as (p0 & Hp0 & Hpos0 & Hseat0 & Hm0).
  rewrite Hobj in Hp0. injection Hp0 as <-.
  assert (Hid : userId player = id).
  { unfold hasId in Hhas0. rewrite Hobj in Hhas0. by injection Hhas0. }
  destruct (list_find (hasId pm id) (players pm)) as [[index r]|] eqn:Hfind.
  2: { apply list_find_None in Hfind. rewrite Forall_forall in Hfind.
       by destruct (Hfind r0 Hin0). }
  apply list_find_Some in Hfind as (Hindex & Hhas & _).
  assert (r = r0) as ->.
  { pose proof (list_elem_of_lookup_2 _ _ _ Hindex) as Hin.
    destruct (players_seated pm Hc r Hin) as (p & Hp & _ & _ & Hm).
    unfold hasId in Hhas. rewrite Hp in Hhas. injection Hhas as Hp'.
    rewrite Hp' in Hm. congruence. }
  rewrite (setSeat_inside _ _ (Taken (userId player))) by done.
  pose proof (players_NoDup pm Hc) as Hnd.
  split; cbn [maxPlayers objects allocated players seats playerMap].
  - rewrite length_insert. apply (seats_length pm Hc).
  - apply Forall_insert; [apply (seats_whole pm Hc)|done].
  - pose proof (filter_insert_count isTaken (seats pm) _ _ Free Hseat0) as Hcount.
    rewrite (decide_False (P := isTaken Free)) in Hcount by (by intros ?).
    rewrite (decide_True (P := isTaken (Taken _))) in Hcount by done.
    pose proof (length_delete_lookup _ _ _ Hindex) as Hlen.
    pose proof (seats_count pm Hc). lia.
  - apply Forall_forall. intros ref [Hin _]%(elem_of_delete _ _ r0); [|done..].
    pose proof (players_fresh pm Hc) as Hall. rewrite Forall_forall in Hall. by apply Hall.
  - by apply NoDup_delete.
  - intros ref [Hin Hne]%(elem_of_delete _ _ r0); [|done..].
    destruct (players_seated pm Hc ref Hin) as (p & Hp & Hpos & Hs & Hm).
    exists p. split; [done|]. split; [done|].
    assert (Hdiff : userId p ≠ id ∧ position p ≠ position player).
    { split; intros Heq; apply Hne;
        apply (Consistent_same_id pm ref r0 p player Hc Hin Hin0 Hp Hobj);
        [left; congruence|by right]. }
    split.
    + rewrite list_lookup_insert_ne; [done|]. intros Heq. apply Hdiff. lia.
    + rewrite lookup_delete_ne; [done|]. apply not_eq_sym, Hdiff.
  - intros id' ref Hl. apply lookup_delete_Some in Hl as [Hne Hl].
    destruct (map_listed pm Hc id' ref Hl) as [Hin Hhas']. split; [|done].
    apply (elem_of_delete _ _ r0); [done..|]. split; [done|]. intros ->.
    unfold hasId in *. rewrite Hobj in Hhas'. injection Hhas' as Heq. congruence.
  - intros i id'. destruct (decide (i = Z.to_nat (position player))) as [->|Hne].
    + rewrite list_lookup_insert_eq by (by eapply lookup_lt_Some). done.
    + rewrite list_lookup_insert_ne by done. intros Hl.
      destruct (seats_owned pm Hc i id' Hl) as (ref & p & Hin & Hp & Hpid & Hppos).
      exists ref, p. split; [|done].
      apply (elem_of_delete _ _ r0); [done..|]. split; [done|]. intros ->.
      rewrite Hobj in Hp. injection Hp as <-. lia.
Qed.

Lemma changePlayerPosition_consistent pm id newPosition moved pm' :
  Consistent pm → changePlayerPosition pm id newPosition = inr (moved, pm') →
  Consistent pm'.
Proof.
  intros Hc. unfold changePlayerPosition. case_decide as Hrange; [done|].
  case_decide as Hfree; [done|].
  destruct (playerMap pm !! id) as [r0|] eqn:Hmap; [|by intros [= <- <-]].
  destruct (objects pm !! r0) as [player|] eqn:Hobj; [|by intros [= <- <-]].
  intros [= <- <-].
  assert (seatAt (seats pm) newPosition = Free) as Hnew
    by (by destruct (decide (seatAt (seats pm) newPosition = Free)); [|tauto]).
  apply seatAt_Free in Hnew as [Hnew0 Hnew].
  destruct (map_listed pm Hc id r0 Hmap) as [Hin0 Hhas0].
  destruct (players_seated pm Hc r0 Hin0) as (p0 & Hp0 & Hpos0 & Hseat0 & Hm0).
  rewrite Hobj in Hp0. injection Hp0 as <-.
  assert (Hid : userId player = id).
  { unfold hasId in Hhas0. rewrite Hobj in Hhas0. by injection Hhas0. }
  assert (Hne : Z.to_nat (position player) ≠ Z.to_nat newPosition) by congruence.
  rewrite (setSeat_inside _ (position player) (Taken (userId player))) by done.
  rewrite (setSeat_inside _ newPosition Free)
    by (done || by rewrite list_lookup_insert_ne).
  split; cbn [maxPlayers objects allocated players seats playerMap].
  - rewrite !length_insert. apply (seats_length pm Hc).
  - apply Forall_insert; [apply Forall_insert; [apply (seats_whole pm Hc)|done]|done].
  - pose proof (filter_insert_count isTaken (seats pm) _ _ Free Hseat0) as Hcount1.
    pose proof (filter_insert_count isTaken
                  (<[Z.to_nat (position player) := Free]> (seats pm))
                  (Z.to_nat newPosition) Free (Taken id)) as Hcount2.
    rewrite list_lookup_insert_ne in Hcount2 by done. specialize (Hcount2 Hnew).
    rewrite !(decide_False (P := isTaken Free)) in * by (by intros ?).
    rewrite !(decide_True (P := isTaken (Taken _))) in * by done.
    pose proof (seats_count pm Hc). lia.
  - apply (players_fresh pm Hc).
  - apply (players_NoDup pm Hc).
  - intros ref Hin. destruct (decide (ref = r0)) as [->|Hner].
    + eexists. rewrite lookup_insert_eq. split; [done|]. simpl.
      split; [done|]. split; [|by rewrite Hid].
      rewrite list_lookup_insert_eq; [by rewrite Hid|].
      rewrite length_insert. by eapply lookup_lt_Some.
    + destruct (players_seated pm Hc ref Hin) as (p & Hp & Hpos & Hs & Hm).
      exists p. rewrite lookup_insert_ne by done. split; [done|]. split; [done|].
      split; [|done].
      rewrite !list_lookup_insert_ne; [done| |].
      * intros Heq. apply Hner.
        apply (Consistent_same_id pm ref r0 p player Hc Hin Hin0 Hp Hobj).
        right. lia.
      * intros Heq. rewrite <-Heq in Hs. congruence.
  - intros id' ref Hl. destruct (map_listed pm Hc id' ref Hl) as [Hin Hhas'].
    split; [done|]. unfold hasId in *. cbn [objects].
    destruct (decide (ref = r0)) as [->|Hner].
    + rewrite lookup_insert_eq. simpl. by rewrite Hobj in Hhas'.
    + by rewrite lookup_insert_ne.
  - intros i id'. destruct (decide (i = Z.to_nat newPosition)) as [->|Hnei].
    + rewrite list_lookup_insert_eq
        by (rewrite length_insert; by eapply lookup_lt_Some).
      intros [= <-]. eexists r0, _. rewrite lookup_insert_eq.
      split; [done|]. split; [done|]. simpl. split; [done|lia].
    + rewrite list_lookup_insert_ne by done.
      destruct (decide (i = Z.to_nat (position player))) as [->|Hnep].
      * rewrite list_lookup_insert_eq by (by eapply lookup_lt_Some). done.
      * rewrite list_lookup_insert_ne by done. intros Hl.
        destruct (seats_owned pm Hc i id' Hl) as (ref & p & Hin & Hp & Hpid & Hppos).
        exists ref, p. split; [done|]. rewrite lookup_insert_ne; [done|].
        intros <-. rewrite Hobj in Hp. injection Hp as <-. lia.
Qed.

Lemma run_consistent ops pm : Consistent pm → Consistent (run ops pm).
Proof.
  unfold run. revert pm. induction ops as [|op ops IH]; intros pm Hc; [done|].
  cbn [foldl]. apply IH. destruct op as [id c|id|id newPosition]; simpl.
  - destruct (addPlayer pm id c) as [e|[player pm']] eqn:Hadd; [done|].
    by eapply addPlayer_consistent.
  - by apply removePlayer_consistent.
  - destruct (changePlayerPosition pm id newPosition) as [e|[moved pm']] eqn:Hmove; [done|].
    by eapply changePlayerPosition_consistent.
Qed.

Lemma run_maxPlayers ops pm : maxPlayers (run ops pm) = maxPlayers pm.
Proof.
  unfold run. revert pm. induction ops as [|op ops IH]; intros pm; [done|].
  cbn [foldl]. rewrite IH. destruct op as [id c|id|id newPosition]; simpl.
  - unfold addPlayer. repeat case_match; try done. by simplify_eq.
  - unfold removePlayer. by repeat case_match.
  - unfold changePlayerPosition. repeat case_match; try done; by simplify_eq.
Qed.

Lemma NoDup_omap {A B} (f : A → option B) (l : list A) :
  NoDup l →
  (∀ x y z, x ∈ l → y ∈ l → f x = Some z → f y = Some z → x = y) →
  NoDup (omap f l).
Proof.
  induction 1 as [|x l Hx Hnd IH]; intros Hinj; [constructor|].
  simpl. destruct (f x) as [z|] eqn:Hfx.
  - constructor.
    + intros (y & Hy & Hfy)%list_elem_of_omap. apply Hx.
      by rewrite (Hinj x y z) by (by constructor || done).
    + apply IH. intros a b c Ha Hb. apply Hinj; by constructor.
  - apply IH. intros a b c Ha Hb. apply Hinj; by constructor.
Qed.

Lemma Consistent_seated pm :
  Consistent pm →
  length (seated pm) = length (players pm)
  ∧ ∀ p, p ∈ seated pm ↔ ∃ ref, ref ∈ players pm ∧ objects pm !! ref = Some p.
Proof.
  intros Hc. split; [|intros p; apply list_elem_of_omap].
  unfold seated. pose proof (players_seated pm Hc) as Hall.
  induction (players pm) as [|ref l IH]; [done|].
  simpl. destruct (Hall ref ltac:(left)) as (p & -> & _). simpl.
  f_equal. apply IH. intros r Hr. apply Hall. by right.
Qed.

(** X21.  Starting from an empty table, after any sequence of
    [addPlayer], [removePlayer] and [changePlayerPosition] calls the array,
    the map and the seats of the player manager agree: the players have
    distinct user ids and distinct positions, there are at most [maxPlayers]
    of them, [getPlayerById] finds exactly the players of the array, the seat
    at a player's position carries the player's id and every taken seat is
    some player's position.  [addPlayer] never fails for lack of a seat, and
    when it succeeds the player gets the lowest free seat. *)
Theorem seats_and_players_agree (n : nat) (ops : list SeatOp) :
  let pm := run ops (newPlayerManager n) in
  length (seated pm) = length (players pm)
  ∧ (length (seated pm) ≤ n)%nat
  ∧ NoDup (map userId (seated pm))
  ∧ NoDup (map position (seated pm))
  ∧ (∀ p, p ∈ seated pm →
       getPlayerById pm (userId p) = Some p
       ∧ seatAt (seats pm) (position p) = Taken (userId p))
  ∧ (∀ id p, getPlayerById pm id = Some p → p ∈ seated pm ∧ userId p = id)
  ∧ (∀ i id, seats pm !! i = Some (Taken id) →
       ∃ p, p ∈ seated pm ∧ userId p = id ∧ position p = Z.of_nat i)
  ∧ (∀ id startingChips, addPlayer pm id startingChips ≠ inl NoSeatAvailable)
  ∧ (∀ id startingChips p pm',
       addPlayer pm id startingChips = inr (p, pm') →
       ∃ i, position p = Z.of_nat i
            ∧ seats pm !! i = Some Free
            ∧ (∀ j, (j < i)%nat → seats pm !! j ≠ Some Free)
            ∧ seats pm' = <[i := Taken id]> (seats pm)).
Proof.
  intros pm.
  assert (Hc : Consistent pm) by apply run_consistent, newPlayerManager_consistent.
  destruct (Consistent_seated pm Hc) as [Hlen Hseated].
  split; [done|]. split.
  { pose proof (run_maxPlayers ops (newPlayerManager n)) as Hmax. fold pm in Hmax.
    simpl in Hmax. rewrite Hlen, <-(seats_count pm Hc), <-Hmax, <-(seats_length pm Hc).
    apply length_filter. }
  split.
  { unfold seated. change (map ?f ?l) with (f <$> l). rewrite list_fmap_omap.
    apply NoDup_omap; [apply (players_NoDup pm Hc)|].
    intros r1 r2 id H1 H2 Hid1 Hid2.
    destruct (objects pm !! r1) as [p1|] eqn:Hp1; [|done].
    destruct (objects pm !! r2) as [p2|] eqn:Hp2; [|done].
    apply (Consistent_same_id pm r1 r2 p1 p2 Hc H1 H2 Hp1 Hp2). left.
    simpl in *. congruence. }
  split.
  { unfold seated. change (map ?f ?l) with (f <$> l). rewrite list_fmap_omap.
    apply NoDup_omap; [apply (players_NoDup pm Hc)|].
    intros r1 r2 pos H1 H2 Hid1 Hid2.
    destruct (objects pm !! r1) as [p1|] eqn:Hp1; [|done].
    destruct (objects pm !! r2) as [p2|] eqn:Hp2; [|done].
    apply (Consistent_same_id pm r1 r2 p1 p2 Hc H1 H2 Hp1 Hp2). right.
    simpl in *. congruence. }
  split.
  { intros p (ref & Hin & Hp)%Hseated.
    destruct (players_seated pm Hc ref Hin) as (q & Hq & Hpos & Hs & Hm).
    rewrite Hp in Hq. injection Hq as <-. split.
    - unfold getPlayerById. rewrite Hm. simpl. done.
    - unfold seatAt. rewrite decide_False by lia. by rewrite Hs. }
  split.
  { intros id p. unfold getPlayerById.
    destruct (playerMap pm !! id) as [ref|] eqn:Hm; [|done]. simpl. intros Hp.
    destruct (map_listed pm Hc id ref Hm) as [Hin Hhas]. split.
    - apply Hseated. by exists ref.
    - unfold hasId in Hhas. rewrite Hp in Hhas. by injection Hhas. }
  split.
  { intros i id Hl.
    destruct (seats_owned pm Hc i id Hl) as (ref & p & Hin & Hp & Hid & Hpos).
    exists p. split; [|done]. apply Hseated. by exists ref. }
  assert (Hfind : (length (players pm) < maxPlayers pm)%nat →
                  ∃ i, list_find (λ s, s = Free) (seats pm) = Some (i, Free)).
  { intros Hroom.
    destruct (list_find (λ s, s = Free) (seats pm)) as [[i s]|] eqn:Hfind.
    - apply list_find_Some in Hfind as Hf. destruct Hf as (_ & -> & _). by exists i.
    - exfalso. apply list_find_None in Hfind.
      assert (filter isTaken (seats pm) = seats pm) as Hall.
      { pose proof (seats_whole pm Hc) as Hwhole. clear -Hfind Hwhole.
        induction (seats pm) as [|s l IH]; [done|].
        apply Forall_cons in Hfind as [Hs Hfind]. apply Forall_cons in Hwhole as [Hh Hwhole].
        rewrite filter_cons, IH by done. by destruct s. }
      pose proof (seats_count pm Hc) as Hcount. rewrite Hall in Hcount.
      pose proof (seats_length pm Hc). lia. }
  split.
  - intros id startingChips. unfold addPlayer. case_decide as Hfull; [done|].
    case_bool_decide; [done|]. unfold findAvailableSeat.
    destruct Hfind as [i ->]; [lia|]. simpl. by case_decide.
  - intros id startingChips p pm'. unfold addPlayer. case_decide as Hfull; [done|].
    case_bool_decide; [done|]. unfold findAvailableSeat.
    destruct (list_find (λ s, s = Free) (seats pm)) as [[i s]|] eqn:Hfound; [|done].
    apply list_find_Some in Hfound as (Hseat & -> & Hfirst).
    simpl. case_decide; [done|]. intros [= <- <-]. exists i.
    split; [done|]. split; [done|]. split.
    + intros j Hj Hfree. by apply (Hfirst j Free).
    + cbn [seats]. rewrite (setSeat_inside _ _ Free) by (rewrite ?Nat2Z.id; done || lia).
      by rewrite Nat2Z.id.
Qed.

(** *** Compacting the seats *)

Lemma reseat_spec refs :
  ∀ (objs : gmap nat PokerPlayer) (sts : list Seat) (index : nat),
    NoDup refs →
    (∀ r, r ∈ refs → is_Some (objs !! r)) →
    (index + length refs ≤ length sts)%nat →
    length (reseat objs sts index refs).2 = length sts
    ∧ (∀ r, r ∉ refs → (reseat objs sts index refs).1 !! r = objs !! r)
    ∧ (∀ k r, refs !! k = Some r →
         ∃ p, objs !! r = Some p
              ∧ (reseat objs sts index refs).1 !! r
                = Some (withPosition p (Z.of_nat (index + k)))
              ∧ (reseat objs sts index refs).2 !! (index + k)%nat
                = Some (Taken (userId p)))
    ∧ (∀ i, (i < index)%nat → (reseat objs sts index refs).2 !! i = sts !! i).
Proof.
  induction refs as [|ref refs IH]; intros objs sts index Hnd Hall Hlen.
  { simpl. repeat split; try done. }
  apply NoDup_cons in Hnd as [Hnotin Hnd].
  destruct (Hall ref ltac:(left)) as [player Hplayer].
  cbn [reseat]. rewrite Hplayer. cbn [length] in Hlen.
  assert (Hset : setSeat sts (Z.of_nat index) (Taken (userId player))
                 = <[index := Taken (userId player)]> sts).
  { unfold setSeat. rewrite decide_False by lia. rewrite Nat2Z.id.
    by rewrite decide_True by lia. }
  rewrite Hset.
  destruct (IH (<[ref := withPosition player (Z.of_nat index)]> objs)
               (<[index := Taken (userId player)]> sts) (S index) Hnd)
    as (L1 & L2 & L3 & L4).
  { intros r Hr. rewrite lookup_insert_ne by (intros ->; done). apply Hall. by right. }
  { rewrite length_insert. lia. }
  rewrite length_insert in L1.
  split; [done|]. split.
  { intros r Hr. apply not_elem_of_cons in Hr as [Hne Hr].
    rewrite (L2 r Hr). by rewrite lookup_insert_ne. }
  split.
  - intros [|k] r; simpl.
    + intros [= <-]. exists player. split; [done|]. rewrite Nat.add_0_r. split.
      * rewrite (L2 ref Hnotin). by rewrite lookup_insert_eq.
      * rewrite (L4 index) by lia. apply list_lookup_insert_eq. lia.
    + intros Hk. destruct (L3 k r Hk) as (p & Hp & Hobj & Hseat).
      assert (r ≠ ref) as Hne.
      { intros ->. apply Hnotin. by eapply list_elem_of_lookup_2. }
      rewrite lookup_insert_ne in Hp by done.
      exists p. split; [done|].
      replace (index + S k)%nat with (S index + k)%nat by lia. by split.
  - intros i Hi. rewrite (L4 i) by lia. apply list_lookup_insert_ne. lia.
Qed.

(** X22.  [compactSeats] renumbers the active players only.  A
    player who is not active (sitting out, or without chips) keeps the old
    position, and when that position is below the number of active players
    an active player now has the same position and holds its seat;
    [removePlayer] of the idle player then marks the seat of that active
    player as free, although the active player still sits there. *)
Theorem compactSeats_gives_away_the_seat_of_an_idle_player (pm : PlayerManager)
    (ref : nat) (p : PokerPlayer) :
  Consistent pm →
  ref ∈ players pm →
  objects pm !! ref = Some p →
  ¬ (isActive p = true ∧ sittingOut p = false ∧ chips p > 0) →
  (Z.to_nat (position p) < length (filter (isActiveRef pm) (players pm)))%nat →
  let pm' := compactSeats pm in
  getPlayerById pm' (userId p) = Some p
  ∧ ∃ p', p' ∈ seated pm'
          ∧ userId p' ≠ userId p
          ∧ position p' = position p
          ∧ seatAt (seats pm') (position p) = Taken (userId p')
          ∧ seatAt (seats (removePlayer pm' (userId p)).2) (position p') = Free
          ∧ p' ∈ seated (removePlayer pm' (userId p)).2.
Proof.
  intros Hc Hin Hobj Hidle Hk pm'.
  destruct (players_seated pm Hc ref Hin) as (q & Hq & Hpos & Hseat & Hmap).
  rewrite Hobj in Hq. injection Hq as <-.
  set (active := sortAscBy (positionOf pm) (filter (isActiveRef pm) (players pm))).
  assert (Hperm : active ≡ₚ filter (isActiveRef pm) (players pm))
    by apply sortAscBy_Permutation.
  assert (Hnd : NoDup active).
  { rewrite Hperm. apply NoDup_filter, (players_NoDup pm Hc). }
  assert (Hact : ∀ r, r ∈ active → r ∈ players pm ∧ isActiveRef pm r).
  { intros r Hr. rewrite Hperm in Hr. apply list_elem_of_filter in Hr. tauto. }
  assert (Hall : ∀ r, r ∈ active → is_Some (objects pm !! r)).
  { intros r [_ Hr]%Hact. unfold isActiveRef in Hr.
    destruct (objects pm !! r); [by eexists|done]. }
  assert (Hlen : (0 + length active ≤ length (replicate (length (seats pm)) Free))%nat).
  { rewrite length_replicate, Hperm.
    pose proof (length_filter (isActiveRef pm) (players pm)).
    pose proof (length_filter isTaken (seats pm)).
    pose proof (seats_count pm Hc). lia. }
  destruct (reseat_spec active (objects pm) (replicate (length (seats pm)) Free) 0
              Hnd Hall Hlen) as (R1 & R2 & R3 & _).
  assert (Hnotin : ref ∉ active).
  { intros [_ Hr]%Hact. unfold isActiveRef in Hr. by rewrite Hobj in Hr. }
  assert (Hk' : (Z.to_nat (position p) < length active)%nat) by (by rewrite Hperm).
  destruct (lookup_lt_is_Some_2 active _ Hk') as [rk Hrk].
  destruct (R3 _ rk Hrk) as (pk & Hpk & Hobj' & Hseat').
  pose proof (list_elem_of_lookup_2 _ _ _ Hrk) as Hrkin.
  destruct (Hact rk Hrkin) as [Hrkplayers _].
  assert (Hne : userId pk ≠ userId p).
  { intros Heq. apply Hnotin.
    by rewrite <-(Consistent_same_id pm rk ref pk p Hc Hrkplayers Hin Hpk Hobj (or_introl Heq)). }
  subst pm'. unfold compactSeats. fold active.
  destruct (reseat (objects pm) (replicate (length (seats pm)) Free) 0 active)
    as [objs' sts'] eqn:Hre.
  cbn [fst snd] in *. rewrite Nat.add_0_l in *. rewrite Z2Nat.id in Hobj' by done.
  set (pm' := mkPlayerManager _ _ _ _ _ _ _ _ _).
  assert (Hget : getPlayerById pm' (userId p) = Some p).
  { unfold getPlayerById. cbn [playerMap objects pm']. rewrite Hmap. simpl.
    by rewrite (R2 ref Hnotin). }
  split; [done|].
  exists (withPosition pk (position p)).
  assert (Hseated : ∀ pm2, objects pm2 = objs' → rk ∈ players pm2 →
            withPosition pk (position p) ∈ seated pm2).
  { intros pm2 Ho Hr. apply list_elem_of_omap. exists rk. by rewrite Ho. }
  split; [by apply Hseated|]. split; [done|]. split; [done|].
  split.
  { unfold seatAt. cbn [seats pm']. rewrite decide_False by lia. by rewrite Hseat'. }
  unfold removePlayer. rewrite Hget. cbn [snd seats pm' position withPosition].
  split.
  - rewrite (setSeat_inside _ _ (Taken (userId pk))) by done.
    unfold seatAt. rewrite decide_False by lia.
    rewrite list_lookup_insert_eq by (by eapply lookup_lt_Some). done.
  - apply Hseated; [done|]. cbn [players pm'].
    destruct (list_find (hasId pm' (userId p)) (players pm)) as [[index r]|] eqn:Hfind;
      [|done].
    apply list_find_Some in Hfind as (Hindex & Hhas & _).
    apply (elem_of_delete _ _ r); [apply (players_NoDup pm Hc)|done|].
    split; [done|]. intros ->. unfold hasId in Hhas. cbn [objects pm'] in Hhas.
    rewrite Hobj' in Hhas. simpl in Hhas. congruence.
Qed.

Lemma compactSeats_gives_away_the_seat_of_an_idle_player_witness :
  seats idleTable = [Taken "ana"; Taken "bia"; Free]
  ∧ seats (compactSeats idleTable) = [Taken "bia"; Free; Free]
  ∧ ∃ p', p' ∈ seated (removePlayer (compactSeats idleTable) "ana").2
          ∧ userId p' = "bia" ∧ position p' = 0
          ∧ seatAt (seats (removePlayer (compactSeats idleTable) "ana").2) 0 = Free.
Proof.
  split; [reflexivity|]. split; [reflexivity|].
  destruct (compactSeats_gives_away_the_seat_of_an_idle_player idleTable 0
              (newPlayer "ana" 0 0))
    as (_ & p' & Hin & _ & Hpos & Htaken & Hfree & Hstill).
  - apply run_consistent, newPlayerManager_consistent.
  - vm_compute. left.
  - reflexivity.
  - intros (_ & _ & Hchips). by vm_compute in Hchips.
  - vm_compute. lia.
  - exists p'. split; [exact Hstill|]. split.
    + vm_compute in Htaken. by injection Htaken.
    + split; [exact Hpos|]. rewrite Hpos in Hfree. exact Hfree.
Defined.

End SeatingFacts.

(** ** Properties of the dealer's hand *)
Module DealerExtras.
Import Evaluator Dealer DealerTable DealerFixtures EvaluatorFacts DealerFacts SortFacts.

Lemma totalChips_insert (ps : list DealerPlayer) i p p' :
  ps !! i = Some p →
  totalChips (<[i := p']> ps) = totalChips ps - chips p + chips p'.
Proof.
  unfold totalChips. revert i. induction ps as [|q ps IH]; intros [|i]; simpl; try done.
  - intros [= ->]. lia.
  - intros Hi. rewrite (IH _ Hi). lia.
Qed.

Lemma payBlind_spec blind label pos d :
  let d' := payBlind blind label pos d in
  totalChips (players d') + pot d' = totalChips (players d) + pot d
  ∧ map userId (players d') = map userId (players d)
  ∧ map isActive (players d') = map isActive (players d)
  ∧ (0 ≤ blind → Forall (λ p, 0 ≤ chips p) (players d) →
     Forall (λ p, 0 ≤ chips p) (players d') ∧ pot d ≤ pot d' ≤ pot d + blind).
Proof.
  assert (Hsame : totalChips (players d) + pot d = totalChips (players d) + pot d
                  ∧ map userId (players d) = map userId (players d)
                  ∧ map isActive (players d) = map isActive (players d)
                  ∧ (0 ≤ blind → Forall (λ p, 0 ≤ chips p) (players d) →
                     Forall (λ p, 0 ≤ chips p) (players d) ∧ pot d ≤ pot d ≤ pot d + blind)).
  { split; [done|]. split; [done|]. split; [done|]. intros. split; [done|lia]. }
  unfold payBlind. destruct (players d !! pos) as [player|] eqn:Hpos; [|done].
  destruct (isActive player) eqn:Hact; [|done].
  cbn zeta. cbn [players pot].
  split; [rewrite (totalChips_insert _ _ _ _ Hpos); simpl; lia|].
  split.
  { change (map ?f ?l) with (f <$> l). rewrite list_fmap_insert. simpl.
    apply list_insert_id. by rewrite list_lookup_fmap, Hpos. }
  split.
  { change (map ?f ?l) with (f <$> l). rewrite list_fmap_insert. simpl.
    apply list_insert_id. rewrite list_lookup_fmap, Hpos. simpl. by rewrite Hact. }
  intros Hblind Hall.
  assert (0 ≤ chips player) as Hp.
  { rewrite Forall_forall in Hall. by eapply Hall, list_elem_of_lookup_2. }
  split; [|lia]. apply Forall_insert; [done|]. simpl. lia.
Qed.

Lemma applyBlinds_keeps dealerPosition d :
  map userId (players (applyBlinds dealerPosition d)) = map userId (players d)
  ∧ map isActive (players (applyBlinds dealerPosition d)) = map isActive (players d).
Proof.
  unfold applyBlinds.
  set (sb := ((dealerPosition + 1) mod length (players d))%nat).
  set (bb := ((dealerPosition + 2) mod length (players d))%nat).
  pose proof (payBlind_spec 50 "small blind" sb d) as (_ & H2 & H3 & _).
  pose proof (payBlind_spec 100 "big blind" bb (payBlind 50 "small blind" sb d))
    as (_ & G2 & G3 & _).
  cbn zeta in *. split; congruence.
Qed.

(** X24.  [applyBlinds] moves chips from the stacks into the pot
    and nowhere else: stacks plus pot are what they were, the players and
    their active flags are unchanged, and stacks that were not negative stay
    so while the pot grows by at most 150 (the blinds are 50 and 100). *)
Theorem applyBlinds_moves_chips_into_the_pot (dealerPosition : nat) (d : PokerDealer) :
  let d' := applyBlinds dealerPosition d in
  totalChips (players d') + pot d' = totalChips (players d) + pot d
  ∧ map userId (players d') = map userId (players d)
  ∧ map isActive (players d') = map isActive (players d)
  ∧ (Forall (λ p, 0 ≤ chips p) (players d) →
     Forall (λ p, 0 ≤ chips p) (players d') ∧ pot d ≤ pot d' ≤ pot d + 150).
Proof.
  cbn zeta. unfold applyBlinds.
  set (sb := ((dealerPosition + 1) mod length (players d))%nat).
  set (bb := ((dealerPosition + 2) mod length (players d))%nat).
  pose proof (payBlind_spec 50 "small blind" sb d) as (H1 & H2 & H3 & H4).
  pose proof (payBlind_spec 100 "big blind" bb (payBlind 50 "small blind" sb d))
    as (G1 & G2 & G3 & G4).
  cbn zeta in *.
  split; [lia|]. split; [congruence|]. split; [congruence|].
  intros Hall. destruct (H4 ltac:(lia) Hall) as [Hall1 Hpot1].
  destruct (G4 ltac:(lia) Hall1) as [Hall2 Hpot2]. split; [done|lia].
Qed.

(** *** The showdown *)

Lemma insertDescBy_descending {A} (key : A → Z) x l :
  descendingBy key l → descendingBy key (insertDescBy key x l).
Proof.
  induction l as [|y l IH]; [done|].
  intros Hd. cbn [insertDescBy]. case_decide as Hxy.
  - destruct l as [|z l]; [simpl; lia|].
    destruct Hd as [Hzy Hd]. specialize (IH Hd).
    cbn [insertDescBy] in *. case_decide; simpl in *; intuition lia.
  - simpl. split; [lia|done].
Qed.

Lemma sortDescBy_descending {A} (key : A → Z) l : descendingBy key (sortDescBy key l).
Proof.
  unfold sortDescBy. induction l as [|x l IH]; [done|].
  simpl. by apply insertDescBy_descending.
Qed.

Lemma descendingBy_tail {A} (key : A → Z) x l :
  descendingBy key (x :: l) → descendingBy key l ∧ Forall (λ y, key y ≤ key x) l.
Proof.
  revert x. induction l as [|y l IH]; intros x; [by split|].
  intros [Hyx Hd]. split; [done|]. constructor; [done|].
  destruct (IH y Hd) as [_ Hall]. eapply Forall_impl; [exact Hall|].
  simpl. intros; lia.
Qed.

Lemma insertBy_key {A} (compare : A → A → Z) (key : A → Z) x l :
  (∀ y, y ∈ l → compare x y > 0 ↔ key x < key y) →
  insertBy compare x l = insertDescBy key x l.
Proof.
  induction l as [|y l IH]; intros Hc; [done|]. simpl.
  pose proof (Hc y ltac:(left)) as Hy.
  destruct (decide (compare x y > 0)), (decide (key x < key y)); try tauto.
  f_equal. apply IH. intros z Hz. apply Hc. by right.
Qed.

Lemma sortBy_key {A} (compare : A → A → Z) (key : A → Z) l :
  (∀ x y, x ∈ l → y ∈ l → compare x y > 0 ↔ key x < key y) →
  sortBy compare l = sortDescBy key l.
Proof.
  induction l as [|x l IH]; intros Hc; [done|].
  change (sortBy compare (x :: l)) with (insertBy compare x (sortBy compare l)).
  change (sortDescBy key (x :: l)) with (insertDescBy key x (sortDescBy key l)).
  rewrite IH.
  - apply insertBy_key. intros y Hy%elem_of_sortDescBy. apply Hc; [left|by right].
  - intros y z Hy Hz. apply Hc; by right.
Qed.

Lemma tiedWith_filter top rest :
  Finalized (ev_evaluation top) →
  Forall (λ e, Finalized (ev_evaluation e)) rest →
  descendingBy strength (top :: rest) →
  tiedWith top rest = filter (λ e, strength e = strength top) rest.
Proof.
  intros Htop. induction rest as [|e rest IH]; intros Hfin Hd; [done|].
  apply Forall_cons in Hfin as [He Hfin].
  cbn [tiedWith]. rewrite filter_cons.
  rewrite (compareHands_is_value_order _ _ He Htop).
  destruct Hd as [Hle Hd]. fold (strength e) (strength top) in *.
  destruct (decide (strength e = strength top)) as [Heq|Hne].
  - rewrite decide_True by lia. f_equal. apply IH; [done|].
    destruct rest as [|e' rest]; [done|]. destruct Hd as [Hle' Hd].
    split; [lia|done].
  - rewrite decide_False by lia.
    apply descendingBy_tail in Hd as [_ Hall].
    symmetry. clear IH Hfin. induction rest as [|e' rest IH]; [done|].
    apply Forall_cons in Hall as [Hle' Hall].
    rewrite filter_cons, decide_False by lia. by apply IH.
Qed.

Lemma awardPrizes_players base rem count k ws :
  map w_player (awardPrizes base rem count k ws) = map ev_player ws.
Proof. revert k. induction ws as [|w ws IH]; intros k; simpl; by rewrite ?IH. Qed.

Lemma awardPrizes_sum base rem count k ws :
  sumZ (map w_prize (awardPrizes base rem count k ws))
  = Z.of_nat (length ws) * base + Z.max 0 (Z.min rem (k + Z.of_nat (length ws)) - k).
Proof.
  revert k. induction ws as [|w ws IH]; intros k; [simpl; lia|].
  cbn [awardPrizes map]. change (sumZ (?x :: ?l)) with (x + sumZ l).
  rewrite IH. cbn [w_prize length]. case_decide; lia.
Qed.

Lemma awardPrizes_prize base rem count k ws w :
  w ∈ awardPrizes base rem count k ws → base ≤ w_prize w ≤ base + 1.
Proof.
  revert k. induction ws as [|e ws IH]; intros k; simpl; [by intros ?%elem_of_nil|].
  intros [->|Hw]%elem_of_cons; [simpl; case_decide; lia|by eapply IH].
Qed.

(** What the evaluation of the contenders yields, and who is kept. *)
Lemma determineWinners_many communityCards d :
  let contenders := showdownPlayers (players d) in
  (2 ≤ length contenders)%nat →
  Forall (λ p, is_Some (evaluate (cards p) communityCards)) contenders →
  ∃ evaluatedHands top,
    Forall2 (λ p e, ev_player e = p ∧ evaluate (cards p) communityCards
                                      = Some (ev_evaluation e))
            contenders evaluatedHands
    ∧ top ∈ evaluatedHands
    ∧ (∀ e, e ∈ evaluatedHands → strength e ≤ strength top)
    ∧ ∃ winners_,
        winners_ ≡ₚ filter (λ e, strength e = strength top) evaluatedHands
        ∧ determineWinners communityCards d
          = Some (awardPrizes (pot d / Z.of_nat (length winners_))
                              (pot d mod Z.of_nat (length winners_))
                              (length winners_) 0 winners_).
Proof.
  intros contenders Hlen Hall. unfold determineWinners. fold contenders.
  destruct contenders as [|p1 [|p2 rest]] eqn:Hcont; [simpl in Hlen; lia..|].
  rewrite <-Hcont in *. clear Hlen.
  destruct (mapM (λ player, mkEvaluated player <$> evaluate (cards player) communityCards)
                 contenders) as [evaluatedHands|] eqn:Hmap.
  2: { apply mapM_None_1 in Hmap. apply Exists_exists in Hmap as (p & Hp & Hnone).
       rewrite Forall_forall in Hall. destruct (Hall p Hp) as [h Hh].
       by rewrite Hh in Hnone. }
  apply mapM_Some_1 in Hmap.
  assert (Hev : Forall2 (λ p e, ev_player e = p
                                ∧ evaluate (cards p) communityCards
                                  = Some (ev_evaluation e))
                        contenders evaluatedHands).
  { eapply Forall2_impl; [exact Hmap|]. intros p e Hpe. simpl in Hpe.
    destruct (evaluate (cards p) communityCards) as [h|]; [|done].
    injection Hpe as <-. by split. }
  assert (Hfin : Forall (λ e, Finalized (ev_evaluation e)) evaluatedHands).
  { apply Forall_forall. intros e He.
    apply list_elem_of_lookup in He as [i Hi].
    destruct (Forall2_lookup_r _ _ _ _ _ Hev Hi) as (p & _ & _ & Hp).
    by apply evaluate_at_most_five in Hp. }
  cbn [mbind option_bind].
  rewrite (sortBy_key _ strength).
  2: { intros x y Hx Hy. rewrite Forall_forall in Hfin.
       rewrite (compareHands_is_value_order _ _ (Hfin x Hx) (Hfin y Hy)).
       unfold strength. lia. }
  destruct (sortDescBy strength evaluatedHands) as [|top sorted] eqn:Hsorted.
  { apply (f_equal length) in Hsorted. rewrite length_sortDescBy in Hsorted.
    apply Forall2_length in Hev. rewrite Hcont in Hev. simpl in *. lia. }
  pose proof (sortDescBy_Permutation strength evaluatedHands) as Hperm.
  rewrite Hsorted in Hperm.
  assert (Htop : top ∈ evaluatedHands) by (rewrite <-Hperm; left).
  exists evaluatedHands, top. split; [done|]. split; [done|].
  split.
  { intros e He. apply (sortDescBy_head_max strength evaluatedHands top); [|done].
    by rewrite Hsorted. }
  exists (top :: tiedWith top sorted). split; [|done].
  rewrite <-Hperm, filter_cons, decide_True by done.
  rewrite tiedWith_filter; [done| | |].
  - rewrite Forall_forall in Hfin. by apply Hfin.
  - apply Forall_forall. intros e He. rewrite Forall_forall in Hfin. apply Hfin.
    rewrite <-Hperm. by right.
  - rewrite <-Hsorted. apply sortDescBy_descending.
Qed.

(** X26.  [determineWinners] pays the whole pot to the best hands.
    Without a player at the showdown it returns no winner.  Otherwise, if
    every hand can be evaluated, it returns at least one winner, the prizes
    add up to the pot and differ by at most one chip, and with two or more
    players at the showdown the winners are exactly those whose hand value no
    other showdown player exceeds. *)
Theorem determineWinners_pays_the_best_hands (communityCards : list PokerCard)
    (d : PokerDealer) :
  0 ≤ pot d →
  let contenders := showdownPlayers (players d) in
  (contenders = [] → determineWinners communityCards d = Some [])
  ∧ (contenders ≠ [] →
     ((2 ≤ length contenders)%nat →
      Forall (λ p, is_Some (evaluate (cards p) communityCards)) contenders) →
     ∃ winners_,
       determineWinners communityCards d = Some winners_
       ∧ winners_ ≠ []
       ∧ sumZ (map w_prize winners_) = pot d
       ∧ (∀ w w', w ∈ winners_ → w' ∈ winners_ → w_prize w ≤ w_prize w' + 1)
       ∧ (∀ p, p ∈ map w_player winners_ ↔
               p ∈ contenders
               ∧ ∀ q h hq, q ∈ contenders →
                   evaluate (cards p) communityCards = Some h →
                   evaluate (cards q) communityCards = Some hq →
                   hr_value hq ≤ hr_value h)).
Proof.
  intros Hpot contenders. split.
  { unfold determineWinners. fold contenders. by intros ->. }
  intros Hne Hall.
  destruct (decide (2 ≤ length contenders)%nat) as [Hmany|Hone].
  - destruct (determineWinners_many communityCards d Hmany (Hall Hmany))
      as (evaluatedHands & top & Hev & Htop & Hmax & winners_ & Hperm & Hres).
    fold contenders in Hev.
    assert (Htopw : top ∈ winners_).
    { rewrite Hperm. by apply list_elem_of_filter. }
    set (n := Z.of_nat (length winners_)).
    assert (Hn : 1 ≤ n).
    { subst n. destruct winners_; [by apply elem_of_nil in Htopw|simpl; lia]. }
    pose proof (Z.div_mod (pot d) n ltac:(lia)) as Hdm.
    pose proof (Z.mod_pos_bound (pot d) n ltac:(lia)) as Hmod.
    eexists. split; [exact Hres|]. fold n.
    split.
    { intros Hnil. apply (f_equal (map w_player)) in Hnil.
      rewrite awardPrizes_players in Hnil. destruct winners_; [|done].
      by apply elem_of_nil in Htopw. }
    split; [rewrite awardPrizes_sum; lia|].
    split.
    { intros w w' Hw%awardPrizes_prize Hw'%awardPrizes_prize. lia. }
    intros p. rewrite awardPrizes_players. change (map ?f ?l) with (f <$> l).
    rewrite Hperm. split.
    + intros (e & -> & [Hstr He]%list_elem_of_filter)%list_elem_of_fmap.
      apply list_elem_of_lookup in He as [i Hi].
      destruct (Forall2_lookup_r _ _ _ _ _ Hev Hi) as (p & Hp & Hep & Hpe).
      rewrite Hep. split; [by eapply list_elem_of_lookup_2|].
      intros q h hq Hq Hh Hhq. rewrite Hpe in Hh. injection Hh as <-.
      apply list_elem_of_lookup in Hq as [j Hj].
      destruct (Forall2_lookup_l _ _ _ _ _ Hev Hj) as (eq & Heq & _ & Hqe).
      rewrite Hqe in Hhq. injection Hhq as <-.
      fold (strength eq) (strength e). rewrite Hstr.
      by eapply Hmax, list_elem_of_lookup_2.
    + intros [Hp Hbest]. apply list_elem_of_lookup in Hp as [i Hi].
      destruct (Forall2_lookup_l _ _ _ _ _ Hev Hi) as (e & He & Hep & Hpe).
      apply list_elem_of_fmap. exists e. split; [done|].
      apply list_elem_of_filter. split; [|by eapply list_elem_of_lookup_2].
      apply Z.le_antisymm; [by eapply Hmax, list_elem_of_lookup_2|].
      apply list_elem_of_lookup in Htop as [j Hj].
      destruct (Forall2_lookup_r _ _ _ _ _ Hev Hj) as (q & Hq & _ & Hqe).
      eapply (Hbest q); [by eapply list_elem_of_lookup_2|done..].
  - unfold determineWinners. fold contenders.
    destruct contenders as [|winner [|? ?]] eqn:Hcont; [done| |simpl in Hone; lia].
    eexists. split; [done|]. split; [done|].
    split; [simpl; lia|]. split.
    { intros w w' ->%list_elem_of_singleton ->%list_elem_of_singleton. lia. }
    intros p. simpl. rewrite !list_elem_of_singleton. split; [|tauto].
    intros ->. split; [done|]. intros q h hq ->%list_elem_of_singleton Hh Hhq.
    rewrite Hh in Hhq. injection Hhq as <-. lia.
Qed.

Lemma determineWinners_pays_the_best_hands_witness :
  ∃ winners_,
    determineWinners (communityCards riverTable) (dealer riverTable) = Some winners_
    ∧ map (λ w, userId (w_player w)) winners_ = ["ana"; "bia"]
    ∧ map w_prize winners_ = [151; 150].
Proof.
  destruct (determineWinners_pays_the_best_hands (communityCards riverTable)
              (dealer riverTable) ltac:(by vm_compute)) as [_ Hsome].
  destruct Hsome as (winners_ & Hres & _); [done| |].
  { intros _. apply (bool_decide_unpack _). by vm_compute. }
  exists winners_. split; [exact Hres|].
  assert (Hrun : determineWinners (communityCards riverTable) (dealer riverTable)
                 = Some winners_) by exact Hres.
  vm_compute in Hrun. injection Hrun as <-. split; reflexivity.
Defined.

(** *** Paying the prizes *)

Lemma userId_storePlayer ps p' : map userId (storePlayer ps p') = map userId ps.
Proof.
  induction ps as [|q ps IH]; [done|]. simpl. case_decide; simpl; [|by rewrite IH].
  by f_equal.
Qed.

Lemma findPlayer_is_Some ps id : id ∈ map userId ps → is_Some (findPlayer ps id).
Proof.
  unfold findPlayer. induction ps as [|q ps IH]; [by intros ?%elem_of_nil|].
  rewrite filter_cons. simpl. case_decide; [by eexists|].
  intros [?|?]%elem_of_cons; [congruence|by apply IH].
Qed.

Lemma creditPrize_spec ps w :
  userId (w_player w) ∈ map userId ps →
  totalChips (creditPrize ps w) = totalChips ps + w_prize w
  ∧ map userId (creditPrize ps w) = map userId ps.
Proof.
  intros Hin. unfold creditPrize.
  destruct (findPlayer_is_Some _ _ Hin) as [player Hfind]. rewrite Hfind.
  split; [|apply userId_storePlayer].
  erewrite totalChips_storePlayer by (try exact Hfind; done). simpl. lia.
Qed.

Lemma creditPrizes_spec ws ps :
  Forall (λ w, userId (w_player w) ∈ map userId ps) ws →
  totalChips (foldl creditPrize ps ws) = totalChips ps + sumZ (map w_prize ws)
  ∧ map userId (foldl creditPrize ps ws) = map userId ps.
Proof.
  revert ps. induction ws as [|w ws IH]; intros ps Hall; [simpl; split; [lia|done]|].
  apply Forall_cons in Hall as [Hw Hall].
  destruct (creditPrize_spec ps w Hw) as [Hchips Hids].
  cbn [foldl]. destruct (IH (creditPrize ps w)) as [IH1 IH2]; [by rewrite Hids|].
  rewrite IH1, IH2, Hchips, Hids, map_cons.
  change (sumZ (?x :: ?l)) with (x + sumZ l). split; [lia|done].
Qed.

Lemma eliminate_keeps ps :
  totalChips (map eliminate ps) = totalChips ps
  ∧ map userId (map eliminate ps) = map userId ps.
Proof.
  unfold totalChips. induction ps as [|p ps [IH1 IH2]]; [done|].
  rewrite !map_cons, IH2. change (sumZ (?x :: ?l)) with (x + sumZ l). rewrite IH1.
  unfold eliminate. by case_bool_decide.
Qed.

Lemma distributePrizes_spec ws t :
  Forall (λ w, userId (w_player w) ∈ map userId (players (dealer t))) ws →
  totalChips (players (dealer (distributePrizes ws t)))
  = totalChips (players (dealer t)) + sumZ (map w_prize ws)
  ∧ map userId (players (dealer (distributePrizes ws t)))
    = map userId (players (dealer t)).
Proof.
  intros Hall. unfold distributePrizes. destruct ws as [|w ws]; [simpl; split; [lia|done]|].
  cbn [dealer players withPlayers].
  destruct (eliminate_keeps (foldl creditPrize (players (dealer t)) (w :: ws)))
    as [E1 E2].
  destruct (creditPrizes_spec (w :: ws) (players (dealer t)) Hall) as [C1 C2].
  rewrite E1, E2, C1, C2. done.
Qed.

Lemma determineWinners_players communityCards d ws :
  determineWinners communityCards d = Some ws →
  Forall (λ w, w_player w ∈ showdownPlayers (players d)) ws.
Proof.
  unfold determineWinners.
  destruct (showdownPlayers (players d)) as [|p1 [|p2 rest]] eqn:Hcont.
  - intros [= <-]. constructor.
  - intros [= <-]. repeat constructor.
  - rewrite <-Hcont. clear Hcont.
    destruct (mapM _ _) as [evaluatedHands|] eqn:Hmap; [|done].
    apply mapM_Some_1 in Hmap. cbn [mbind option_bind].
    set (compare := λ a b : Evaluated, _).
    assert (Hsorted : ∀ e, e ∈ sortBy compare evaluatedHands → e ∈ evaluatedHands).
    { generalize compare. clear. intros compare.
      induction evaluatedHands as [|x l IH]; [done|].
      change (sortBy compare (x :: l)) with (insertBy compare x (sortBy compare l)).
      generalize dependent (sortBy compare l). intros s IH e.
      induction s as [|y s IHs]; simpl.
      - intros ->%list_elem_of_singleton. left.
      - case_decide.
        + intros [->|He]%elem_of_cons.
          * right. apply IH. left.
          * apply IHs; [|done]. intros z Hz. apply IH. by right.
        + intros [->|He]%elem_of_cons; [left|right; by apply IH]. }
    destruct (sortBy compare evaluatedHands) as [|top sorted]; [done|].
    intros Heq. apply (inj Some) in Heq. subst ws. apply Forall_forall. intros w Hw.
    apply (list_elem_of_fmap_2 w_player) in Hw.
    change (w_player <$> ?l) with (map w_player l) in Hw.
    rewrite awardPrizes_players in Hw. rename Hw into Hin.
    change (map ?f ?l) with (f <$> l) in Hin.
    apply list_elem_of_fmap in Hin as (e & -> & He).
    assert (e ∈ evaluatedHands) as Hev.
    { apply Hsorted. apply elem_of_cons in He as [->|He]; [left|right].
      clear -He. induction sorted as [|x sorted IH]; [done|].
      simpl in He. case_decide; [|by apply elem_of_nil in He].
      apply elem_of_cons in He as [->|He]; [left|right; by apply IH]. }
    apply list_elem_of_lookup in Hev as [i Hi].
    destruct (Forall2_lookup_r _ _ _ _ _ Hmap Hi) as (p & Hp & Hpe).
    simpl in Hpe. destruct (evaluate (cards p) communityCards); [|done].
    injection Hpe as <-. simpl. by eapply list_elem_of_lookup_2.
Qed.

Lemma determineWinners_total communityCards d ws :
  0 ≤ pot d →
  determineWinners communityCards d = Some ws →
  sumZ (map w_prize ws) = if decide (showdownPlayers (players d) = []) then 0 else pot d.
Proof.
  intros Hpot. unfold determineWinners.
  destruct (showdownPlayers (players d)) as [|p1 [|p2 rest]] eqn:Hcont.
  - by intros [= <-].
  - intros [= <-]. simpl. lia.
  - rewrite <-Hcont. rewrite decide_False by (by rewrite Hcont). clear Hcont.
    destruct (mapM _ _) as [evaluatedHands|]; [|done]. cbn [mbind option_bind].
    destruct (sortBy _ evaluatedHands) as [|top sorted]; [done|].
    intros Heq. apply (inj Some) in Heq. subst ws. rewrite awardPrizes_sum.
    set (n := Z.of_nat (length (top :: tiedWith top sorted))).
    assert (Hn : 1 ≤ n) by (subst n; simpl; lia).
    pose proof (Z.div_mod (pot d) n ltac:(lia)) as Hdm.
    pose proof (Z.mod_pos_bound (pot d) n ltac:(lia)) as Hmod. lia.
Qed.

Lemma showdown_chips draw t :
  0 ≤ pot (dealer t) →
  let r := showdown draw t in
  match r.1 with
  | None => r.2 = t
  | Some winners_ =>
      pot (dealer r.2) = 0
      ∧ totalChips (players (dealer r.2))
        = totalChips (players (dealer t))
          + (if decide (showdownPlayers (players (dealer t)) = []) then 0
             else pot (dealer t))
      ∧ map userId (players (dealer r.2)) = map userId (players (dealer t))
      ∧ Forall (λ p, cards p = [] ∧ bet p = 0) (players (dealer r.2))
  end.
Proof.
  intros Hpot. cbn zeta. unfold showdown.
  destruct (determineWinners (communityCards t) (dealer t)) as [ws|] eqn:Hw; [|done].
  cbn [fst snd].
  pose proof (determineWinners_players _ _ _ Hw) as Hplayers.
  pose proof (determineWinners_total _ _ _ Hpot Hw) as Htotal.
  destruct (distributePrizes_spec ws t) as [Hchips Hids].
  { eapply Forall_impl; [exact Hplayers|]. intros w Hin. simpl in Hin.
    apply list_elem_of_filter in Hin as [_ Hin].
    change (map ?f ?l) with (f <$> l). by apply list_elem_of_fmap_2. }
  unfold resetForNewHand. cbn [dealer players pot].
  split; [done|]. split.
  { rewrite <-Htotal, <-Hchips. unfold totalChips. by rewrite map_map. }
  split; [by rewrite map_map, <-Hids|].
  apply Forall_forall. intros p Hp. change (map ?f ?l) with (f <$> l) in Hp.
  by apply list_elem_of_fmap in Hp as (q & -> & _).
Qed.

(** X27.  The showdown of [advanceRound] either throws while
    evaluating, before anything is written, or settles the hand: the winners
    are players who reached the showdown, the stacks grow by the prizes,
    which add up to the pot (to nothing when no player holds two cards), the
    pot is emptied, and every player is left without cards and with a bet of
    0. *)
Theorem showdown_pays_out_the_whole_pot (draw : nat → nat) (t : Table) :
  0 ≤ pot (dealer t) →
  let r := showdown draw t in
  match r.1 with
  | None => r.2 = t
  | Some winners_ =>
      Forall (λ w, w_player w ∈ showdownPlayers (players (dealer t))) winners_
      ∧ sumZ (map w_prize winners_)
        = (if decide (showdownPlayers (players (dealer t)) = []) then 0
           else pot (dealer t))
      ∧ totalChips (players (dealer r.2))
        = totalChips (players (dealer t)) + sumZ (map w_prize winners_)
      ∧ pot (dealer r.2) = 0
      ∧ map userId (players (dealer r.2)) = map userId (players (dealer t))
      ∧ Forall (λ p, cards p = [] ∧ bet p = 0) (players (dealer r.2))
  end.
Proof.
  intros Hpot. pose proof (showdown_chips draw t Hpot) as Hpaid. cbn zeta in *.
  unfold showdown in *.
  destruct (determineWinners (communityCards t) (dealer t)) as [ws|] eqn:Hw; [|done].
  cbn [fst snd] in *. destruct Hpaid as (Hzero & Hchips & Hids & Hreset).
  pose proof (determineWinners_total _ _ _ Hpot Hw) as Htotal.
  split; [by eapply determineWinners_players|]. split; [done|].
  split; [by rewrite Htotal|]. done.
Qed.

Lemma showdown_pays_out_the_whole_pot_witness :
  totalChips (players (dealer (showdown (λ _, 0%nat) riverTable).2)) = 3000
  ∧ map chips (players (dealer (showdown (λ _, 0%nat) riverTable).2)) = [1051; 1050; 899].
Proof.
  pose proof (showdown_pays_out_the_whole_pot (λ _, 0%nat) riverTable
                ltac:(by vm_compute)) as Hpaid.
  cbn zeta in Hpaid.
  destruct (showdown (λ _, 0%nat) riverTable).1 as [winners_|] eqn:Hw;
    [|by vm_compute in Hw].
  destruct Hpaid as (_ & Hsum & Hchips & _). split; [by rewrite Hchips, Hsum|].
  by vm_compute.
Defined.

(** *** Chips over a sequence of requests *)

Lemma findPlayer_elem ps id player :
  findPlayer ps id = Some player → player ∈ ps ∧ userId player = id.
Proof.
  unfold findPlayer. intros Hfind%head_Some_elem_of.
  apply list_elem_of_filter in Hfind. tauto.
Qed.

Lemma Forall_storePlayer (P : DealerPlayer → Prop) ps p' :
  Forall P ps → P p' → Forall P (storePlayer ps p').
Proof.
  intros Hall Hp. induction Hall as [|q ps Hq Hall IH]; [constructor|].
  simpl. case_decide; by constructor.
Qed.

Lemma Forall2_storePlayer (R : DealerPlayer → DealerPlayer → Prop) ps id player p' :
  (∀ q, R q q) →
  findPlayer ps id = Some player → userId p' = id → R player p' →
  Forall2 R ps (storePlayer ps p').
Proof.
  intros Hrefl Hfind Hid HR. unfold findPlayer in Hfind.
  induction ps as [|q ps IH]; [constructor|].
  rewrite filter_cons in Hfind. simpl. case_decide as Hq; simpl in Hfind.
  - injection Hfind as ->. rewrite decide_True by congruence.
    constructor; [done|]. by apply Forall_Forall2_diag, Forall_true.
  - rewrite decide_False by congruence. constructor; [done|by apply IH].
Qed.

Lemma processPlayerAction_solvent d playerId action x res d' :
  processPlayerAction d playerId action x = inr (res, d') →
  Solvent d → Solvent d'.
Proof.
  unfold processPlayerAction, Solvent.
  destruct (findPlayer (players d) playerId) as [player|] eqn:Hfind; [|done].
  destruct (isActive player); [|done]. cbn [negb].
  intros Hrun [Hpot Hall].
  assert (0 ≤ chips player) as Hp.
  { rewrite Forall_forall in Hall. by apply Hall, (findPlayer_elem _ playerId). }
  revert Hrun.
  repeat case_decide; try done; intros [= <- <-]; cbn [players pot];
    (split; [lia|]); apply Forall_storePlayer; try done; cbn [chips]; lia.
Qed.

Lemma processPlayerAction_staysOut d playerId action x res d' :
  processPlayerAction d playerId action x = inr (res, d') →
  Forall2 StaysOut (players d) (players d').
Proof.
  unfold processPlayerAction.
  destruct (findPlayer (players d) playerId) as [player|] eqn:Hfind; [|done].
  destruct (isActive player) eqn:Hact; [|done]. cbn [negb].
  pose proof (findPlayer_elem _ _ _ Hfind) as [_ Hid].
  repeat case_decide; try done; intros [= <- <-]; cbn [players];
    apply (Forall2_storePlayer _ _ playerId player); try done;
    by (intros q; split) || (split; [done|by rewrite Hact]).
Qed.

Lemma deal_keeps_dealer_chips t :
  (players (dealer (dealFlop t).2) = players (dealer t)
   ∧ pot (dealer (dealFlop t).2) = pot (dealer t))
  ∧ ∀ round, players (dealer (dealStreet round t).2) = players (dealer t)
             ∧ pot (dealer (dealStreet round t).2) = pot (dealer t).
Proof.
  split.
  - unfold dealFlop. by destruct (EngineDeck.deal 3 _) as [e|[flop deck']].
  - intros round. unfold dealStreet.
    by destruct (EngineDeck.deal 1 _) as [e|[[|card ?] deck']].
Qed.

Lemma awardPrizes_nonneg base rem count k ws :
  0 ≤ base → Forall (λ w, 0 ≤ w_prize w) (awardPrizes base rem count k ws).
Proof.
  intros Hbase. revert k. induction ws as [|e ws IH]; intros k; simpl; constructor;
    [simpl; case_decide; lia|apply IH].
Qed.

Lemma determineWinners_nonneg communityCards d ws :
  0 ≤ pot d → determineWinners communityCards d = Some ws →
  Forall (λ w, 0 ≤ w_prize w) ws.
Proof.
  intros Hpot. unfold determineWinners.
  destruct (showdownPlayers (players d)) as [|p1 [|p2 rest]].
  - intros [= <-]. constructor.
  - intros [= <-]. by repeat constructor.
  - destruct (mapM _ _) as [evaluatedHands|]; [|done]. cbn [mbind option_bind].
    destruct (sortBy _ evaluatedHands) as [|top sorted]; [done|].
    intros Heq. apply (inj Some) in Heq. subst ws.
    apply awardPrizes_nonneg. apply Z.div_pos; [done|]. simpl. lia.
Qed.

Lemma creditPrizes_nonneg ws ps :
  Forall (λ w, 0 ≤ w_prize w) ws → Forall (λ p, 0 ≤ chips p) ps →
  Forall (λ p, 0 ≤ chips p) (foldl creditPrize ps ws).
Proof.
  intros Hws. revert ps. induction Hws as [|w ws Hw Hws IH]; intros ps Hps; [done|].
  cbn [foldl]. apply IH. unfold creditPrize.
  destruct (findPlayer ps (userId (w_player w))) as [player|] eqn:Hfind; [|done].
  apply Forall_storePlayer; [done|]. simpl.
  rewrite Forall_forall in Hps.
  pose proof (Hps player (proj1 (findPlayer_elem _ _ _ Hfind))). lia.
Qed.

Lemma StaysOut_trans ps1 ps2 ps3 :
  Forall2 StaysOut ps1 ps2 → Forall2 StaysOut ps2 ps3 → Forall2 StaysOut ps1 ps3.
Proof.
  apply Forall2_trans.
  intros a b c [Hab1 Hab2] [Hbc1 Hbc2]. split; [congruence|tauto].
Qed.

Lemma StaysOut_refl ps : Forall2 StaysOut ps ps.
Proof. apply Forall_Forall2_diag, Forall_true. by intros q. Qed.

Lemma creditPrizes_staysOut ws ps : Forall2 StaysOut ps (foldl creditPrize ps ws).
Proof.
  revert ps. induction ws as [|w ws IH]; intros ps; [apply StaysOut_refl|].
  cbn [foldl]. eapply StaysOut_trans; [|apply IH].
  unfold creditPrize.
  destruct (findPlayer ps (userId (w_player w))) as [player|] eqn:Hfind;
    [|apply StaysOut_refl].
  pose proof (findPlayer_elem _ _ _ Hfind) as [_ Hid].
  apply (Forall2_storePlayer _ _ (userId (w_player w)) player); done.
Qed.

Lemma StaysOut_map (f : DealerPlayer → DealerPlayer) ps :
  (∀ p, StaysOut p (f p)) → Forall2 StaysOut ps (map f ps).
Proof.
  intros Hf. induction ps as [|p ps IH]; [constructor|]. simpl. by constructor.
Qed.

Lemma showdown_solvent draw t :
  Solvent (dealer t) → Solvent (dealer (showdown draw t).2).
Proof.
  intros [Hpot Hall]. unfold showdown.
  destruct (determineWinners (communityCards t) (dealer t)) as [ws|] eqn:Hw; [|done].
  cbn [snd]. split; [done|]. unfold resetForNewHand. cbn [dealer players].
  apply Forall_forall. intros p Hp. change (map ?f ?l) with (f <$> l) in Hp.
  apply list_elem_of_fmap in Hp as (q & -> & Hq). simpl.
  revert q Hq. apply Forall_forall.
  unfold distributePrizes. destruct ws as [|w ws]; [done|].
  cbn [dealer players withPlayers].
  apply Forall_forall. intros q Hq. change (map ?f ?l) with (f <$> l) in Hq.
  apply list_elem_of_fmap in Hq as (q0 & -> & Hq0).
  assert (0 ≤ chips q0) as H0.
  { revert q0 Hq0. apply Forall_forall, creditPrizes_nonneg; [|done].
    by eapply determineWinners_nonneg. }
  unfold eliminate. by case_bool_decide.
Qed.

Lemma showdown_staysOut draw t :
  Forall2 StaysOut (players (dealer t)) (players (dealer (showdown draw t).2)).
Proof.
  unfold showdown.
  destruct (determineWinners (communityCards t) (dealer t)) as [ws|];
    [|apply StaysOut_refl].
  cbn [snd]. unfold resetForNewHand. cbn [dealer players].
  eapply StaysOut_trans; [|apply StaysOut_map; by intros p].
  unfold distributePrizes. destruct ws as [|w ws]; [apply StaysOut_refl|].
  cbn [dealer players withPlayers].
  eapply StaysOut_trans; [apply creditPrizes_staysOut|].
  apply StaysOut_map. intros p. unfold eliminate. by case_bool_decide.
Qed.

Lemma advanceRound_spec draw t :
  Solvent (dealer t) →
  let t' := advanceRound draw t in
  Solvent (dealer t')
  ∧ Forall2 StaysOut (players (dealer t)) (players (dealer t'))
  ∧ (totalChips (players (dealer t')) + pot (dealer t')
     = totalChips (players (dealer t)) + pot (dealer t)
     ∨ (currentRound (dealer t) = "river"
        ∧ showdownPlayers (players (dealer t)) = []
        ∧ pot (dealer t') = 0
        ∧ totalChips (players (dealer t')) = totalChips (players (dealer t)))).
Proof.
  intros Hs. cbn zeta. unfold advanceRound.
  destruct (deal_keeps_dealer_chips t) as [[F1 F2] Hstreet].
  destruct (decide (currentRound (dealer t) = "preflop")).
  { unfold Solvent. rewrite F1, F2. split; [done|]. split; [apply StaysOut_refl|by left]. }
  destruct (decide (currentRound (dealer t) = "flop")).
  { unfold dealTurn, Solvent. destruct (Hstreet "turn") as [-> ->].
    split; [done|]. split; [apply StaysOut_refl|by left]. }
  destruct (decide (currentRound (dealer t) = "turn")).
  { unfold dealRiver, Solvent. destruct (Hstreet "river") as [-> ->].
    split; [done|]. split; [apply StaysOut_refl|by left]. }
  destruct (decide (currentRound (dealer t) = "river")) as [Hriver|];
    [|split; [done|]; split; [apply StaysOut_refl|by left]].
  split; [by apply showdown_solvent|]. split; [apply showdown_staysOut|].
  pose proof (showdown_chips draw t (proj1 Hs)) as Hpaid. cbn zeta in Hpaid.
  destruct (showdown draw t).1 as [ws|]; [|rewrite Hpaid; by left].
  destruct Hpaid as (Hpot & Hchips & _). rewrite Hpot, Hchips.
  case_decide; [right; repeat split; try done; lia|left; lia].
Qed.

Lemma playerAction_spec draw t playerId action x :
  Solvent (dealer t) →
  let t' := (playerAction draw t playerId action x).2 in
  Solvent (dealer t')
  ∧ Forall2 StaysOut (players (dealer t)) (players (dealer t'))
  ∧ totalChips (players (dealer t')) + pot (dealer t')
    ≤ totalChips (players (dealer t)) + pot (dealer t)
  ∧ (totalChips (players (dealer t')) + pot (dealer t')
     < totalChips (players (dealer t)) + pot (dealer t) →
     ∃ res d', processPlayerAction (dealer t) playerId action x = inr (res, d')
               ∧ isRoundComplete (players d') = true
               ∧ currentRound d' = "river"
               ∧ showdownPlayers (players d') = []
               ∧ pot (dealer t') = 0
               ∧ totalChips (players (dealer t')) = totalChips (players d')).
Proof.
  intros Hs. cbn zeta. unfold playerAction.
  destruct (processPlayerAction (dealer t) playerId action x) as [e|[res d']] eqn:Hact.
  { cbn [snd]. split; [done|]. split; [apply StaysOut_refl|]. split; [lia|lia]. }
  cbn [snd].
  pose proof (processPlayerAction_solvent _ _ _ _ _ _ Hact Hs) as Hs'.
  pose proof (processPlayerAction_staysOut _ _ _ _ _ _ Hact) as Hout.
  pose proof (dealer_action_conserves_chips _ _ _ _ _ _ Hact) as Hsum.
  destruct (isRoundComplete (players d')) eqn:Hcomplete.
  - pose proof (advanceRound_spec draw (withDealer t d') Hs') as (Hs2 & Hout2 & Hchips).
    cbn zeta in *.
    set (t' := advanceRound draw (withDealer t d')) in *.
    change (dealer (withDealer t d')) with d' in *.
    split; [done|]. split; [by eapply StaysOut_trans|].
    destruct Hchips as [Heq|(Hriver & Hnone & Hzero & Hlost)].
    + split; [lia|]. intros; lia.
    + destruct Hs' as [Hpot' _]. split; [lia|].
      intros _. by exists res, d'.
  - cbn [withDealer dealer]. split; [done|]. split; [done|]. split; [lia|]. intros; lia.
Qed.

(** X28.  The engine never creates chips: over any sequence of
    [playerAction] requests, accepted or rejected and with whatever deals and
    showdowns they set off, stacks plus pot never grow, the pot and the
    stacks never become negative, and the players stay the same. *)
Theorem engine_never_creates_chips (draw : nat → nat) (t : Table)
    (requests : list (string * string * Z)) :
  0 ≤ pot (dealer t) →
  Forall (λ p, 0 ≤ chips p) (players (dealer t)) →
  let t' := play draw t requests in
  totalChips (players (dealer t')) + pot (dealer t')
  ≤ totalChips (players (dealer t)) + pot (dealer t)
  ∧ 0 ≤ pot (dealer t')
  ∧ Forall (λ p, 0 ≤ chips p) (players (dealer t'))
  ∧ map userId (players (dealer t')) = map userId (players (dealer t)).
Proof.
  intros Hpot Hall. cbn zeta. unfold play.
  assert (Hs : Solvent (dealer t)) by done. clear Hpot Hall.
  revert t Hs. induction requests as [|[[playerId action] x] requests IH]; intros t Hs.
  { destruct Hs. simpl. repeat split; try done; lia. }
  cbn [foldl fst snd].
  pose proof (playerAction_spec draw t playerId action x Hs) as (Hs1 & Hout & Hle & _).
  cbn zeta in *. destruct (IH _ Hs1) as (IH1 & IH2 & IH3 & IH4).
  split; [lia|]. split; [done|]. split; [done|]. rewrite IH4.
  clear -Hout. induction Hout as [|p p' ps ps' [Hid _] _ IHout]; [done|].
  simpl. by rewrite Hid, IHout.
Qed.

Lemma engine_never_creates_chips_witness :
  totalChips (players (dealer (play (λ _, 0%nat) riverTable
                                 [("ana", "check", 0); ("caio", "allin", 0)])))
  + pot (dealer (play (λ _, 0%nat) riverTable
                   [("ana", "check", 0); ("caio", "allin", 0)]))
  ≤ 3000.
Proof.
  refine (proj1 (engine_never_creates_chips (λ _, 0%nat) riverTable
                   [("ana", "check", 0); ("caio", "allin", 0)] _ _)).
  - by vm_compute.
  - apply (bool_decide_unpack _). by vm_compute.
Defined.

(** X29.  A [playerAction] request keeps stacks plus pot exactly as
    they were, with one exception: when the accepted action completes the
    river round and no active player holds two cards (the last player left
    has folded), the showdown has no winner and the pot is discarded. *)
Theorem chips_vanish_only_at_a_showdown_without_hands (draw : nat → nat) (t : Table)
    (playerId action : string) (x : Z) :
  0 ≤ pot (dealer t) →
  Forall (λ p, 0 ≤ chips p) (players (dealer t)) →
  let t' := (playerAction draw t playerId action x).2 in
  totalChips (players (dealer t')) + pot (dealer t')
  = totalChips (players (dealer t)) + pot (dealer t)
  ∨ ∃ res d', processPlayerAction (dealer t) playerId action x = inr (res, d')
              ∧ isRoundComplete (players d') = true
              ∧ currentRound d' = "river"
              ∧ showdownPlayers (players d') = []
              ∧ pot (dealer t') = 0
              ∧ totalChips (players (dealer t')) = totalChips (players d').
Proof.
  intros Hpot Hall.
  pose proof (playerAction_spec draw t playerId action x (conj Hpot Hall))
    as (_ & _ & Hle & Hlost).
  cbn zeta in *.
  destruct (decide (totalChips (players (dealer (playerAction draw t playerId action x).2))
                    + pot (dealer (playerAction draw t playerId action x).2)
                    < totalChips (players (dealer t)) + pot (dealer t))) as [Hlt|Hge].
  - right. by apply Hlost.
  - left. lia.
Qed.

Lemma chips_vanish_only_at_a_showdown_without_hands_witness :
  pot (dealer lastStanding) = 301
  ∧ pot (dealer (playerAction (λ _, 0%nat) lastStanding "ana" "fold" 0).2) = 0
  ∧ totalChips (players (dealer (playerAction (λ _, 0%nat) lastStanding "ana" "fold" 0).2))
    = totalChips (players (dealer lastStanding)).
Proof.
  split; [reflexivity|].
  destruct (chips_vanish_only_at_a_showdown_without_hands (λ _, 0%nat) lastStanding
              "ana" "fold" 0) as [Hkept|(res & d' & Hact & _ & _ & _ & Hpot & Hchips)].
  - by vm_compute.
  - apply (bool_decide_unpack _). by vm_compute.
  - by vm_compute in Hkept.
  - split; [exact Hpot|]. rewrite Hchips.
    vm_compute in Hact. injection Hact as _ <-. reflexivity.
Defined.

Lemma StaysOut_of_maps ps ps' :
  map userId ps' = map userId ps → map isActive ps' = map isActive ps →
  Forall2 StaysOut ps ps'.
Proof.
  revert ps'. induction ps as [|p ps IH]; intros [|p' ps']; simpl; try done.
  intros [= Hid Hids] [= Hact Hacts]. constructor; [|by apply IH].
  split; [done|congruence].
Qed.

Lemma dealCardTo_keeps second st playerIdx :
  map userId (dealCardTo second st playerIdx).2.2 = map userId st.2.2
  ∧ map isActive (dealCardTo second st playerIdx).2.2 = map isActive st.2.2.
Proof.
  destruct st as [[e|] [deck ps]]; [done|]. cbn [dealCardTo].
  destruct (ps !! playerIdx) as [player|] eqn:Hplayer; [|done].
  destruct (bool_decide _); [|done].
  destruct (EngineDeck.deal 1 deck) as [e|[[|card ?] deck']]; [done|done|].
  cbn [snd]. change (map ?f ?l) with (f <$> l). rewrite !list_fmap_insert. simpl.
  split; apply list_insert_id; by rewrite list_lookup_fmap, Hplayer.
Qed.

Lemma dealCards_keep second order st :
  map userId (foldl (dealCardTo second) st order).2.2 = map userId st.2.2
  ∧ map isActive (foldl (dealCardTo second) st order).2.2 = map isActive st.2.2.
Proof.
  revert st. induction order as [|idx order IH]; intros st; [done|].
  cbn [foldl]. destruct (IH (dealCardTo second st idx)) as [-> ->].
  apply dealCardTo_keeps.
Qed.

Lemma playerAction_staysOut draw t playerId action x :
  Forall2 StaysOut (players (dealer t))
          (players (dealer (playerAction draw t playerId action x).2)).
Proof.
  unfold playerAction.
  destruct (processPlayerAction (dealer t) playerId action x) as [e|[res d']] eqn:Hact;
    [apply StaysOut_refl|].
  cbn [snd]. eapply StaysOut_trans; [by eapply processPlayerAction_staysOut|].
  destruct (isRoundComplete (players d')); [|apply StaysOut_refl].
  unfold advanceRound. destruct (deal_keeps_dealer_chips (withDealer t d')) as [[F1 _] Hs].
  cbn [withDealer dealer] in *.
  repeat case_decide.
  - rewrite F1. apply StaysOut_refl.
  - unfold dealTurn. rewrite (proj1 (Hs "turn")). apply StaysOut_refl.
  - unfold dealRiver. rewrite (proj1 (Hs "river")). apply StaysOut_refl.
  - apply (showdown_staysOut draw (withDealer t d')).
  - apply StaysOut_refl.
Qed.

(** X30.  A player who is out of the game stays out: no sequence of
    [playerAction] requests, with the deals, showdowns and resets they set
    off, and no [startNewHand] makes an inactive player active again.  A
    player who folded is therefore left out of every later hand. *)
Theorem players_out_of_the_game_stay_out (draw : nat → nat) (t : Table)
    (requests : list (string * string * Z)) :
  let out := λ p p', userId p' = userId p ∧ (isActive p = false → isActive p' = false) in
  Forall2 out (players (dealer t)) (players (dealer (play draw t requests)))
  ∧ Forall2 out (players (dealer t)) (players (dealer (startNewHand draw t).2)).
Proof.
  cbn zeta. split.
  - unfold play. revert t.
    induction requests as [|[[playerId action] x] requests IH]; intros t.
    { apply StaysOut_refl. }
    cbn [foldl fst snd].
    eapply StaysOut_trans; [apply playerAction_staysOut|apply IH].
  - unfold startNewHand, dealPrivateCards. cbn [players].
    set (order := map _ (seq 0 _)).
    set (fresh := EngineDeckOps.shuffle draw EngineDeckOps.reset).
    pose proof (dealCards_keep false order (None, (fresh, players (dealer t)))) as [A1 A2].
    pose proof (dealCards_keep true order
                  (foldl (dealCardTo false) (None, (fresh, players (dealer t))) order))
      as [B1 B2].
    destruct (foldl (dealCardTo true) _ order) as [[e|] [deck' ps']];
      cbn [snd dealer players withPlayers] in *.
    + apply StaysOut_of_maps; congruence.
    + match goal with
      | |- context [applyBlinds ?dp ?d] =>
          pose proof (applyBlinds_keeps dp d) as (C2 & C3)
      end.
      unfold withPlayers in *. cbn [players] in *.
      apply StaysOut_of_maps; congruence.
Qed.

(** *** Dealing the private cards *)

Lemma filter_ext_elem {A} (P1 P2 : A → Prop) `{!∀ x, Decision (P1 x), !∀ x, Decision (P2 x)}
    (l : list A) :
  (∀ x, x ∈ l → P1 x ↔ P2 x) → filter P1 l = filter P2 l.
Proof.
  induction l as [|a l IH]; intros Hiff; [done|].
  rewrite !filter_cons. rewrite IH by (intros x Hx; apply Hiff; by right).
  pose proof (Hiff a ltac:(left)). repeat case_decide; tauto || done.
Qed.

Lemma concat_cards_insert (ps : list DealerPlayer) i p p' c :
  ps !! i = Some p → cards p' = cards p ++ [c] →
  concat (map cards (<[i := p']> ps)) ≡ₚ concat (map cards ps) ++ [c].
Proof.
  revert i. induction ps as [|q ps IH]; intros [|i]; simpl; try done.
  - intros [= ->] ->. rewrite <-!app_assoc. apply Permutation_app_head.
    apply Permutation_app_comm.
  - intros Hi Hc. rewrite (IH _ Hi Hc). by rewrite app_assoc.
Qed.

Lemma dealPass second order :
  ∀ deck ps,
    NoDup order →
    (length (filter (λ i, isDue second ps i = true) order)
     ≤ length (EngineDeck.cards deck))%nat →
    let m := length (filter (λ i, isDue second ps i = true) order) in
    ∃ deck' ps',
      foldl (dealCardTo second) (None, (deck, ps)) order = (None, (deck', ps'))
      ∧ EngineDeck.cards deck' = drop m (EngineDeck.cards deck)
      ∧ length ps' = length ps
      ∧ (∀ i p, ps !! i = Some p →
           ∃ p', ps' !! i = Some p' ∧ SamePlayer p p'
                 ∧ length (cards p')
                   = (length (cards p)
                      + (if decide (i ∈ order ∧ isDue second ps i = true) then 1 else 0))%nat)
      ∧ concat (map cards ps')
        ≡ₚ concat (map cards ps) ++ take m (EngineDeck.cards deck).
Proof.
  induction order as [|idx rest IH]; intros deck ps Hnd Hlen m.
  { exists deck, ps. subst m. rewrite filter_nil. cbn [foldl length].
    rewrite drop_0, take_0, app_nil_r.
    split; [done|]. split; [done|]. split; [done|]. split; [|done].
    intros i p Hi. exists p. split; [done|]. split; [done|].

    rewrite decide_False by (intros [?%elem_of_nil _]; done). lia. }
  apply NoDup_cons in Hnd as [Hidx Hnd]. subst m.
  rewrite filter_cons in Hlen |- *. cbn [foldl].
  destruct (decide (isDue second ps idx = true)) as [Hdue|Hnot].
  - unfold isDue in Hdue. destruct (ps !! idx) as [player|] eqn:Hplayer; [|done].
    cbn [dealCardTo]. rewrite Hplayer, Hdue.
    cbn [length] in Hlen.
    destruct (EngineDeck.cards deck) as [|c cs] eqn:Hcards; [simpl in Hlen; lia|].
    unfold EngineDeck.deal. rewrite Hcards. rewrite decide_False by (simpl; lia).
    cbn [take drop].
    set (player' := mkDealerPlayer _ _ _ _ _ _ _).
    set (deck1 := EngineDeck.mkDeck _ _ _).
    set (ps1 := <[idx := player']> ps).
    assert (Hsame : ∀ i, i ≠ idx → isDue second ps1 i = isDue second ps i).
    { intros i Hi. unfold isDue, ps1. by rewrite list_lookup_insert_ne. }
    assert (Hfilter : filter (λ i, isDue second ps1 i = true) rest
                      = filter (λ i, isDue second ps i = true) rest).
    { apply filter_ext_elem. intros i Hi. rewrite Hsame; [done|].
      intros ->. done. }
    destruct (IH deck1 ps1 Hnd) as (deck' & ps' & Hrun & Hdeck & Hlen' & Hpoint & Hperm).
    { rewrite Hfilter. subst deck1. cbn [length EngineDeck.cards] in *.
      rewrite drop_0. lia. }
    cbn zeta in *. rewrite Hfilter in *.
    exists deck', ps'. split; [exact Hrun|].
    split; [rewrite Hdeck; subst deck1; simpl; by rewrite drop_0|].
    split; [rewrite Hlen'; subst ps1; by rewrite length_insert|].
    split.
    + intros i p Hi. destruct (decide (i = idx)) as [->|Hne].
      * rewrite Hplayer in Hi. injection Hi as <-.
        destruct (Hpoint idx player') as (p' & Hp' & Hsp & Hl).
        { subst ps1. apply list_lookup_insert_eq. by eapply lookup_lt_Some. }
        exists p'. split; [done|]. split.
        { destruct Hsp as (? & ? & ? & ?). by repeat split. }
        rewrite Hl. rewrite decide_False by (intros [? _]; done).
        rewrite decide_True.
        -- subst player'. simpl. rewrite length_app. simpl. lia.
        -- split; [left|]. unfold isDue. by rewrite Hplayer.
      * destruct (Hpoint i p) as (p' & Hp' & Hsp & Hl).
        { subst ps1. by rewrite list_lookup_insert_ne. }
        exists p'. split; [done|]. split; [done|]. rewrite Hl, Hsame by done.
        f_equal. apply decide_ext. rewrite elem_of_cons. tauto.
    + rewrite Hperm. subst ps1 deck1. cbn [EngineDeck.cards].
      rewrite (concat_cards_insert ps idx player player' c Hplayer) by done.
      rewrite drop_0, <-app_assoc. done.
  - assert (Hstep : dealCardTo second (None, (deck, ps)) idx = (None, (deck, ps))).
    { cbn [dealCardTo]. unfold isDue in Hnot.
      destruct (ps !! idx) as [player|]; [|done].
      destruct (bool_decide _); [done|done]. }
    rewrite Hstep.
    destruct (IH deck ps Hnd Hlen) as (deck' & ps' & Hrun & Hdeck & Hlen' & Hpoint & Hperm).
    exists deck', ps'. split; [exact Hrun|]. split; [done|]. split; [done|].
    split; [|done].
    intros i p Hi. destruct (Hpoint i p Hi) as (p' & Hp' & Hsp & Hl).
    exists p'. split; [done|]. split; [done|]. rewrite Hl. f_equal.
    apply decide_ext. rewrite elem_of_cons. split; [tauto|].
    intros [[->|?] ?]; [done|tauto].
Qed.

Lemma dealOrder_Permutation (startPos n : nat) :
  map (λ i, ((startPos + i) mod n)%nat) (seq 0 n) ≡ₚ seq 0 n.
Proof.
  destruct (decide (n = 0%nat)) as [->|Hn]; [done|].
  apply submseteq_length_Permutation; [|by rewrite length_map].
  apply NoDup_submseteq.
  - change (map ?f ?l) with (f <$> l). apply NoDup_fmap_2_strong; [|apply NoDup_seq].
    intros i j Hi%elem_of_seq Hj%elem_of_seq Heq.
    pose proof (Nat.div_mod_eq (startPos + i) n) as Hdi.
    pose proof (Nat.div_mod_eq (startPos + j) n) as Hdj.
    rewrite Heq in Hdi.
    set (qi := ((startPos + i) / n)%nat) in *. set (qj := ((startPos + j) / n)%nat) in *.
    set (r := ((startPos + j) mod n)%nat) in *.
    destruct (decide (qi = qj)) as [Hq|Hq]; [rewrite Hq in Hdi; lia|].
    assert (qi < qj ∨ qj < qi)%nat as [Hlt|Hlt] by lia; nia.
  - intros x Hx. change (map ?f ?l) with (f <$> l) in Hx.
    apply list_elem_of_fmap in Hx as (i & -> & _). apply elem_of_seq.
    pose proof (Nat.mod_upper_bound (startPos + i) n Hn). lia.
Qed.

Lemma count_due second ps :
  length (filter (λ i, isDue second ps i = true) (seq 0 (length ps)))
  = length (filter (λ p, isActive p = true ∧ chips p > 0
                         ∧ (second = true → length (cards p) = 1%nat)) ps).
Proof.
  induction ps as [|p ps IH] using rev_ind; [done|].
  rewrite length_app. cbn [length]. rewrite Nat.add_1_r, seq_S, !filter_app, !length_app.
  rewrite <-IH. f_equal.
  - f_equal. apply filter_ext_elem. intros i Hi%elem_of_seq.
    unfold isDue. by rewrite lookup_app_l by lia.
  - rewrite !filter_cons, !filter_nil. unfold isDue.
    rewrite list_lookup_middle by done.
    destruct (decide (isActive p = true ∧ chips p > 0
                      ∧ (second = true → length (cards p) = 1%nat))) as [Hp|Hp].
    + by rewrite decide_True by (by apply bool_decide_eq_true).
    + by rewrite decide_False by (by rewrite bool_decide_eq_true).
Qed.

(** X25.  [dealPrivateCards] on players who hold no cards, from a
    deck of distinct cards that is large enough, deals without failing: every
    active player with chips holds exactly two cards afterwards and everybody
    else none, the cards dealt are the top cards of the deck, which shrinks
    by two cards per player served, and no card is held twice or is both held
    and still in the deck. *)
Theorem dealPrivateCards_deals_two_distinct_cards (dealerPosition : nat)
    (deck : EngineDeck.PokerDeck) (ps : list DealerPlayer) :
  Forall (λ p, cards p = []) ps →
  NoDup (EngineDeck.cards deck) →
  let served := length (filter (λ p, isActive p = true ∧ chips p > 0) ps) in
  (2 * served ≤ length (EngineDeck.cards deck))%nat →
  ∃ deck' ps',
    dealPrivateCards dealerPosition deck ps = (None, (deck', ps'))
    ∧ EngineDeck.cards deck' = drop (2 * served) (EngineDeck.cards deck)
    ∧ length ps' = length ps
    ∧ (∀ i p, ps !! i = Some p →
         ∃ p', ps' !! i = Some p'
               ∧ userId p' = userId p ∧ chips p' = chips p ∧ isActive p' = isActive p
               ∧ length (cards p')
                 = if decide (isActive p = true ∧ chips p > 0) then 2%nat else 0%nat)
    ∧ concat (map cards ps') ≡ₚ take (2 * served) (EngineDeck.cards deck)
    ∧ NoDup (concat (map cards ps') ++ EngineDeck.cards deck').
Proof.
  intros Hempty Hnd served Hlen. unfold dealPrivateCards.
  set (order := map _ (seq 0 (length ps))).
  assert (Horder : order ≡ₚ seq 0 (length ps)) by apply dealOrder_Permutation.
  assert (Hnodup : NoDup order) by (rewrite Horder; apply NoDup_seq).
  assert (Hin : ∀ i p, ps !! i = Some p → i ∈ order).
  { intros i p Hi. rewrite Horder. apply elem_of_seq.
    apply lookup_lt_Some in Hi. lia. }
  assert (Hcount1 : length (filter (λ i, isDue false ps i = true) order) = served).
  { rewrite Horder, count_due. subst served. f_equal.
    apply list_filter_iff. intros p. split; [tauto|]. intros (? & ?). done. }
  destruct (dealPass false order deck ps Hnodup)
    as (deck1 & ps1 & Hrun1 & Hdeck1 & Hlen1 & Hpoint1 & Hperm1); [lia|].
  cbn zeta in *. rewrite Hcount1 in *. rewrite Hrun1.
  assert (Hdue2 : ∀ i, i ∈ order → isDue true ps1 i = true ↔ isDue false ps i = true).
  { intros i Hi. unfold isDue at 2.
    destruct (ps !! i) as [p|] eqn:Hp.
    - destruct (Hpoint1 i p Hp) as (p1 & Hp1 & (_ & Hc & Ha & _) & Hl).
      unfold isDue at 1. rewrite Hp1, !bool_decide_eq_true, Hc, Ha.
      rewrite Forall_forall in Hempty.
      rewrite (Hempty p (list_elem_of_lookup_2 _ _ _ Hp)) in Hl. simpl in Hl.
      unfold isDue in Hl. rewrite Hp in Hl.
      destruct (decide (isActive p = true ∧ chips p > 0)) as [Hyes|Hno].
      + rewrite decide_True in Hl
          by (split; [done|apply bool_decide_eq_true; split; [tauto|split; [tauto|done]]]).
        destruct Hyes. split; intros _; (split; [done|]; split; [done|]; done).
      + rewrite decide_False in Hl by (intros [_ ?%bool_decide_eq_true]; tauto).
        split; [|tauto]. intros (? & ? & Hone). specialize (Hone eq_refl). lia.
    - assert (ps1 !! i = None) as Hnone.
      { apply lookup_ge_None. rewrite Hlen1. by apply lookup_ge_None. }
      unfold isDue. by rewrite Hnone. }
  assert (Hcount2 : length (filter (λ i, isDue true ps1 i = true) order) = served).
  { rewrite <-Hcount1. f_equal. by apply filter_ext_elem. }
  destruct (dealPass true order deck1 ps1 Hnodup)
    as (deck2 & ps2 & Hrun2 & Hdeck2 & Hlen2 & Hpoint2 & Hperm2).
  { rewrite Hcount2, Hdeck1, length_drop. lia. }
  cbn zeta in *. rewrite Hcount2 in *.
  exists deck2, ps2. split; [exact Hrun2|].
  assert (Hdeck : EngineDeck.cards deck2 = drop (2 * served) (EngineDeck.cards deck)).
  { rewrite Hdeck2, Hdeck1, drop_drop. f_equal. lia. }
  assert (Hperm : concat (map cards ps2) ≡ₚ take (2 * served) (EngineDeck.cards deck)).
  { rewrite Hperm2, Hperm1, Hdeck1.
    assert (concat (map cards ps) = []) as ->.
    { clear -Hempty. induction Hempty as [|p ps Hp _ IH]; [done|].
      simpl. by rewrite Hp, IH. }
    rewrite app_nil_l, take_take_drop.
    by replace (2 * served)%nat with (served + served)%nat by lia. }
  split; [done|]. split; [by rewrite Hlen2, Hlen1|].
  split.
  - intros i p Hp.
    destruct (Hpoint1 i p Hp) as (p1 & Hp1 & (Hid1 & Hc1 & Ha1 & _) & Hl1).
    destruct (Hpoint2 i p1 Hp1) as (p2 & Hp2 & (Hid2 & Hc2 & Ha2 & _) & Hl2).
    exists p2. split; [done|]. split; [congruence|]. split; [congruence|].
    split; [congruence|]. rewrite Hl2, Hl1.
    rewrite Forall_forall in Hempty.
    rewrite (Hempty p (list_elem_of_lookup_2 _ _ _ Hp)). simpl.
    pose proof (Hin i p Hp) as Hi. pose proof (Hdue2 i Hi) as Hiff.
    assert (isDue false ps i = true ↔ isActive p = true ∧ chips p > 0) as Hiff1.
    { unfold isDue. rewrite Hp, bool_decide_eq_true. split; [tauto|].
      intros (? & ?). done. }
    destruct (decide (isActive p = true ∧ chips p > 0)) as [Hyes|Hno].
    + rewrite !decide_True by tauto. done.
    + rewrite !decide_False by tauto. done.
  - split; [done|]. rewrite Hperm, Hdeck, take_drop. done.
Qed.

Lemma dealPrivateCards_deals_two_distinct_cards_witness :
  ∃ deck' ps',
    dealPrivateCards 0 EngineDeckOps.reset (players (dealer freshTable))
    = (None, (deck', ps'))
    ∧ length (EngineDeck.cards deck') = 46%nat
    ∧ NoDup (concat (map cards ps') ++ EngineDeck.cards deck').
Proof.
  destruct (dealPrivateCards_deals_two_distinct_cards 0 EngineDeckOps.reset
              (players (dealer freshTable)))
    as (deck' & ps' & Hrun & Hdeck & _ & _ & _ & Hnd).
  - repeat constructor.
  - apply (bool_decide_unpack _). by vm_compute.
  - vm_compute. lia.
  - exists deck', ps'. split; [exact Hrun|]. split; [by rewrite Hdeck|exact Hnd].
Defined.

End DealerExtras.

(** ** Properties of the manager's showdown *)
Module ManagerExtras.
Import Evaluator EvaluatorFixtures EvaluatorFacts SortFacts DealerExtras ManagerShowdown.

(** The stable sort keeps the entries of one key in their order. *)
Lemma filter_insertDescBy {A} (key : A → Z) k x l :
  filter (λ e, key e = k) (insertDescBy key x l) = filter (λ e, key e = k) (x :: l).
Proof.
  induction l as [|y l IH]; [done|]. cbn [insertDescBy].
  case_decide as Hxy; [|done].
  rewrite filter_cons, IH, !filter_cons.
  destruct (decide (key y = k)), (decide (key x = k)); try done. lia.
Qed.

Lemma filter_sortDescBy {A} (key : A → Z) k l :
  filter (λ e, key e = k) (sortDescBy key l) = filter (λ e, key e = k) l.
Proof.
  induction l as [|x l IH]; [done|].
  change (sortDescBy key (x :: l)) with (insertDescBy key x (sortDescBy key l)).
  by rewrite filter_insertDescBy, !filter_cons, IH.
Qed.

(** X23.  The manager's [determineWinners] returns, for a
    non-empty set of evaluated hands, exactly the players whose hand value is
    the highest, in the order in which the evaluations list them; at least
    one player wins. *)
Theorem manager_winners_are_the_best_hands_in_order
    (entries : list (string * HandResult)) :
  entries ≠ [] →
  Forall (λ e, ∃ hand community, evaluate hand community = Some e.2) entries →
  ∃ best,
    best ∈ map (λ e, hr_value e.2) entries
    ∧ (∀ e, e ∈ entries → hr_value e.2 ≤ best)
    ∧ determineWinners entries
      = map fst (filter (λ e, hr_value e.2 = best) entries)
    ∧ determineWinners entries ≠ [].
Proof.
  intros Hne Hev. unfold determineWinners.
  rewrite decide_False by (by destruct entries).
  assert (Hfin : Forall (λ e : string * HandResult, Finalized e.2) entries).
  { eapply Forall_impl; [exact Hev|]. intros e (hand & community & He).
    by apply evaluate_at_most_five in He. }
  rewrite (sortBy_key _ (λ e : string * HandResult, hr_value e.2)).
  2: { intros x y Hx Hy. rewrite Forall_forall in Hfin.
       rewrite (compareHands_is_value_order _ _ (Hfin y Hy) (Hfin x Hx)). lia. }
  destruct (sortDescBy _ entries) as [|top sorted] eqn:Hsorted.
  { apply (f_equal length) in Hsorted. rewrite length_sortDescBy in Hsorted.
    by destruct entries. }
  assert (Htop : top ∈ entries).
  { apply (elem_of_sortDescBy (λ e : string * HandResult, hr_value e.2)).
    rewrite Hsorted. left. }
  exists (hr_value top.2). split.
  { change (map ?f ?l) with (f <$> l). by apply (list_elem_of_fmap_2 (λ e, hr_value e.2)). }
  split.
  { intros e He.
    apply (sortDescBy_head_max (λ e : string * HandResult, hr_value e.2) entries top);
      [by rewrite Hsorted|done]. }
  rewrite <-Hsorted, (filter_sortDescBy (λ e : string * HandResult, hr_value e.2)).
  split; [done|].
  intros Hnil. apply (f_equal length) in Hnil. rewrite length_map in Hnil.
  apply length_zero_iff_nil in Hnil.
  by apply (filter_nil_not_elem_of _ _ top) in Hnil.
Qed.

Lemma manager_winners_are_the_best_hands_in_order_witness :
  determineWinners [("ana", sixHighResult); ("bia", wheelResult); ("caio", sixHighResult)]
  = ["bia"].
Proof.
  destruct (manager_winners_are_the_best_hands_in_order
              [("ana", sixHighResult); ("bia", wheelResult); ("caio", sixHighResult)])
    as (best & _ & _ & Hres & _).
  - discriminate.
  - repeat constructor; simpl.
    + exists sixHighHole, wheelBoard. by vm_compute.
    + exists wheelHole, wheelBoard. by vm_compute.
    + exists sixHighHole, wheelBoard. by vm_compute.
  - by vm_compute.
Defined.

End ManagerExtras.
